(** * z2-fighter: the deterministic simulation step and the rollback manager

    A shallow embedding of [constants.js], [state.js], [simulation.js] and
    [rollback.js].  JavaScript numbers that only ever hold integers are [Z];
    the [Int32Array] frame tags of the ring buffers wrap as [ToInt32] does;
    objects mutated in place are threaded through the functions that mutate
    them, and the one place where aliasing matters ([cloneState] at the head
    of [simulateFrame]) is also modelled over an explicit store. *)

From stdpp Require Import base numbers option list gmap.
From Stdlib Require Import ZArith Lia Bool.

Local Open Scope Z_scope.

(** ** constants.js *)

Module C.

Definition CANVAS_WIDTH : Z := 800.
Definition GROUND_Y : Z := 320.
Definition ARENA_LEFT : Z := 20.
Definition ARENA_RIGHT : Z := 780.
Definition PLAYER_WIDTH : Z := 48.
Definition PLAYER_STAND_HEIGHT : Z := 64.
Definition MOVE_SPEED : Z := 3.
Definition MAX_HP : Z := 5.
Definition HITSTUN_FRAMES : Z := 30.
Definition BLOCKSTUN_FRAMES : Z := 15.
Definition HITSTOP_HIT : Z := 6.
Definition HITSTOP_BLOCK : Z := 4.
Definition HEAD_Y : Z := GROUND_Y - PLAYER_STAND_HEIGHT + 10.
Definition ANKLE_Y : Z := GROUND_Y - 12.
Definition BOOMERANG_RANGE : Z := 400.
Definition BOOMERANG_MAX : Z := 10.

End C.

(** ** Weapons *)

Module Weapon.

Inductive id := sword | dagger | spear | boomerang | throwingKnife.

Inductive subtype := sub_boomerang | sub_knife.

(** [type: 'melee'] entries carry range and active window, [type:
    'projectile'] entries carry subtype, spawn frame and speed. *)
Inductive kind :=
  | melee (range activeStart activeEnd : Z)
  | projectile (sub : subtype) (projectileSpawnFrame speed : Z).

Record def := mkDef { type : kind; attackFrames : Z; damage : Z }.

Definition WEAPON_DEFS (w : id) : def :=
  match w with
  | sword => mkDef (melee 60 7 13) 24 1
  | dagger => mkDef (melee 35 4 8) 14 1
  | spear => mkDef (melee 90 12 20) 36 1
  | boomerang => mkDef (projectile sub_boomerang 4 5) 18 1
  | throwingKnife => mkDef (projectile sub_knife 2 8) 10 1
  end.

Definition isBoomerang (d : def) : bool :=
  match type d with projectile sub_boomerang _ _ => true | _ => false end.

End Weapon.

(** ** state.js: the data model *)

Module Input.

Record t := mk {
  left : bool; right : bool; crouch : bool;
  weapon1 : bool; weapon2 : bool; weapon3 : bool }.

End Input.

Definition createEmptyInput : Input.t :=
  Input.mk false false false false false false.

Inductive Stance := standing | crouching.

Inductive ActionState := idle | attacking | hitstun | blockstun.

(** Index into [state.players]. *)
Inductive Idx := I0 | I1.

Definition other (i : Idx) : Idx := match i with I0 => I1 | I1 => I0 end.

Definition Stance_eqb (a b : Stance) : bool :=
  match a, b with
  | standing, standing | crouching, crouching => true
  | _, _ => false
  end.

Definition ActionState_eqb (a b : ActionState) : bool :=
  match a, b with
  | idle, idle | attacking, attacking
  | hitstun, hitstun | blockstun, blockstun => true
  | _, _ => false
  end.

Definition Idx_eqb (a b : Idx) : bool :=
  match a, b with I0, I0 | I1, I1 => true | _, _ => false end.

Module Player.

Record t := mk {
  x : Z;
  facing : Z;
  stance : Stance;
  hp : Z;
  weapons : list Weapon.id;
  state : ActionState;
  stateTimer : Z;
  activeWeapon : option Weapon.id;
  attackStance : Stance;
  attackSpawned : bool;
  boomerangsHeld : Z;
  crouchThrowCount : Z;
  standThrowCount : Z }.

Definition set_x (v : Z) (p : t) : t :=
  mk v (facing p) (stance p) (hp p) (weapons p) (state p) (stateTimer p)
     (activeWeapon p) (attackStance p) (attackSpawned p) (boomerangsHeld p)
     (crouchThrowCount p) (standThrowCount p).

Definition set_facing (v : Z) (p : t) : t :=
  mk (x p) v (stance p) (hp p) (weapons p) (state p) (stateTimer p)
     (activeWeapon p) (attackStance p) (attackSpawned p) (boomerangsHeld p)
     (crouchThrowCount p) (standThrowCount p).

Definition set_stance (v : Stance) (p : t) : t :=
  mk (x p) (facing p) v (hp p) (weapons p) (state p) (stateTimer p)
     (activeWeapon p) (attackStance p) (attackSpawned p) (boomerangsHeld p)
     (crouchThrowCount p) (standThrowCount p).

Definition set_hp (v : Z) (p : t) : t :=
  mk (x p) (facing p) (stance p) v (weapons p) (state p) (stateTimer p)
     (activeWeapon p) (attackStance p) (attackSpawned p) (boomerangsHeld p)
     (crouchThrowCount p) (standThrowCount p).

Definition set_state (v : ActionState) (p : t) : t :=
  mk (x p) (facing p) (stance p) (hp p) (weapons p) v (stateTimer p)
     (activeWeapon p) (attackStance p) (attackSpawned p) (boomerangsHeld p)
     (crouchThrowCount p) (standThrowCount p).

Definition set_stateTimer (v : Z) (p : t) : t :=
  mk (x p) (facing p) (stance p) (hp p) (weapons p) (state p) v
     (activeWeapon p) (attackStance p) (attackSpawned p) (boomerangsHeld p)
     (crouchThrowCount p) (standThrowCount p).

Definition set_activeWeapon (v : option Weapon.id) (p : t) : t :=
  mk (x p) (facing p) (stance p) (hp p) (weapons p) (state p) (stateTimer p)
     v (attackStance p) (attackSpawned p) (boomerangsHeld p)
     (crouchThrowCount p) (standThrowCount p).

Definition set_attackStance (v : Stance) (p : t) : t :=
  mk (x p) (facing p) (stance p) (hp p) (weapons p) (state p) (stateTimer p)
     (activeWeapon p) v (attackSpawned p) (boomerangsHeld p)
     (crouchThrowCount p) (standThrowCount p).

Definition set_attackSpawned (v : bool) (p : t) : t :=
  mk (x p) (facing p) (stance p) (hp p) (weapons p) (state p) (stateTimer p)
     (activeWeapon p) (attackStance p) v (boomerangsHeld p)
     (crouchThrowCount p) (standThrowCount p).

Definition set_boomerangsHeld (v : Z) (p : t) : t :=
  mk (x p) (facing p) (stance p) (hp p) (weapons p) (state p) (stateTimer p)
     (activeWeapon p) (attackStance p) (attackSpawned p) v
     (crouchThrowCount p) (standThrowCount p).

Definition set_crouchThrowCount (v : Z) (p : t) : t :=
  mk (x p) (facing p) (stance p) (hp p) (weapons p) (state p) (stateTimer p)
     (activeWeapon p) (attackStance p) (attackSpawned p) (boomerangsHeld p)
     v (standThrowCount p).

Definition set_standThrowCount (v : Z) (p : t) : t :=
  mk (x p) (facing p) (stance p) (hp p) (weapons p) (state p) (stateTimer p)
     (activeWeapon p) (attackStance p) (attackSpawned p) (boomerangsHeld p)
     (crouchThrowCount p) v.

End Player.

Module Proj.

Inductive phase := outbound | returning.

Inductive height := head | ankle | none.

(** [type: 'knife'] objects have no flight path, phase or travelled
    distance; [type: 'boomerang'] objects carry all three. *)
Inductive kind :=
  | knife
  | boomerang (flightPath : Z) (ph : phase) (distanceTraveled : Z).

(** The vertical coordinate is presentation data: nothing in the step reads
    it back.  It is either one of the integer constants or the value of
    [ANKLE_Y + AMPLITUDE * sin(PI * d / RANGE)] (resp. [HEAD_Y - ...]),
    kept symbolic in the travelled distance [d]. *)
Inductive ycoord :=
  | yconst (v : Z)
  | yarcAnkle (d : Z)
  | yarcHead (d : Z).

Record t := mk {
  type : kind;
  owner : Idx;
  x : Z;
  y : ycoord;
  direction : Z;
  speed : Z;
  damage : Z;
  height_ : height;
  active : bool }.

Definition set_type (v : kind) (p : t) : t :=
  mk v (owner p) (x p) (y p) (direction p) (speed p) (damage p) (height_ p)
     (active p).

Definition set_x (v : Z) (p : t) : t :=
  mk (type p) (owner p) v (y p) (direction p) (speed p) (damage p)
     (height_ p) (active p).

Definition set_y (v : ycoord) (p : t) : t :=
  mk (type p) (owner p) (x p) v (direction p) (speed p) (damage p)
     (height_ p) (active p).

Definition set_direction (v : Z) (p : t) : t :=
  mk (type p) (owner p) (x p) (y p) v (speed p) (damage p) (height_ p)
     (active p).

Definition set_height (v : height) (p : t) : t :=
  mk (type p) (owner p) (x p) (y p) (direction p) (speed p) (damage p) v
     (active p).

Definition set_active (v : bool) (p : t) : t :=
  mk (type p) (owner p) (x p) (y p) (direction p) (speed p) (damage p)
     (height_ p) v.

Definition isBoomerang (p : t) : bool :=
  match type p with boomerang _ _ _ => true | knife => false end.

End Proj.

Module GS.

Record t := mk {
  frame : Z;
  players : Player.t * Player.t;
  projectiles : list Proj.t;
  winner : Z;
  hitstop : Z;
  prevInputs : Input.t * Input.t }.

Definition set_frame (v : Z) (s : t) : t :=
  mk v (players s) (projectiles s) (winner s) (hitstop s) (prevInputs s).

Definition set_players (v : Player.t * Player.t) (s : t) : t :=
  mk (frame s) v (projectiles s) (winner s) (hitstop s) (prevInputs s).

Definition set_projectiles (v : list Proj.t) (s : t) : t :=
  mk (frame s) (players s) v (winner s) (hitstop s) (prevInputs s).

Definition set_winner (v : Z) (s : t) : t :=
  mk (frame s) (players s) (projectiles s) v (hitstop s) (prevInputs s).

Definition set_hitstop (v : Z) (s : t) : t :=
  mk (frame s) (players s) (projectiles s) (winner s) v (prevInputs s).

Definition set_prevInputs (v : Input.t * Input.t) (s : t) : t :=
  mk (frame s) (players s) (projectiles s) (winner s) (hitstop s) v.

(** [state.players[idx]] and the in-place update of that object. *)
Definition player (s : t) (i : Idx) : Player.t :=
  match i with I0 => fst (players s) | I1 => snd (players s) end.

Definition set_player (i : Idx) (p : Player.t) (s : t) : t :=
  match i with
  | I0 => set_players (p, snd (players s)) s
  | I1 => set_players (fst (players s), p) s
  end.

Definition prevInput (s : t) (i : Idx) : Input.t :=
  match i with I0 => fst (prevInputs s) | I1 => snd (prevInputs s) end.

End GS.

Definition createPlayerState (index : Idx) (weapons : list Weapon.id)
  : Player.t :=
  Player.mk (match index with I0 => 200 | I1 => 600 end)
            (match index with I0 => 1 | I1 => -1 end)
            standing C.MAX_HP weapons idle 0 None standing false
            C.BOOMERANG_MAX 0 0.

Definition createGameState (p1Weapons p2Weapons : list Weapon.id) : GS.t :=
  GS.mk 0 (createPlayerState I0 p1Weapons, createPlayerState I1 p2Weapons)
        [] (-1) 0 (createEmptyInput, createEmptyInput).

(** [JSON.parse(JSON.stringify(state))]: a structurally equal value in
    fresh objects.  On values it is the identity; the freshness is what the
    store model [simulateFrameH] below accounts for. *)
Definition cloneState (s : GS.t) : GS.t := s.

(** ** simulation.js *)

Inductive AttackHeight := high | low.

Definition clampX (v : Z) : Z :=
  Z.max C.ARENA_LEFT (Z.min (C.ARENA_RIGHT - C.PLAYER_WIDTH) v).

(** *** Boomerang flight paths *)

Definition boomerangStartY (path : Z) : Z :=
  if path <=? 2 then C.ANKLE_Y else C.HEAD_Y.

Definition boomerangOutboundHeight (path : Z) : Proj.height :=
  if (path =? 1) || (path =? 4) then Proj.none
  else if path =? 2 then Proj.ankle else Proj.head.

Definition boomerangReturnHeight (path : Z) : Proj.height :=
  if (path =? 1) || (path =? 3) then Proj.ankle else Proj.head.

Definition boomerangReturnY (path : Z) : Z :=
  match boomerangReturnHeight path with
  | Proj.ankle => C.ANKLE_Y
  | _ => C.HEAD_Y
  end.

(** *** Attacks and projectile spawning *)

(** The assignments of [tryAttack] to the player object [p].  [weaponId]
    is [p.weapons[w]], which is [undefined] past the end of the loadout;
    [WEAPON_DEFS[undefined]] then makes the function return. *)
Definition tryAttackOn (p : Player.t) (weaponId : option Weapon.id)
  : Player.t :=
  match weaponId with
  | None => p
  | Some w =>
    let wDef := Weapon.WEAPON_DEFS w in
    if Weapon.isBoomerang wDef && (Player.boomerangsHeld p <=? 0) then p
    else
      Player.set_attackSpawned false
        (Player.set_attackStance (Player.stance p)
          (Player.set_activeWeapon (Some w)
            (Player.set_stateTimer (Weapon.attackFrames wDef)
              (Player.set_state attacking p))))
  end.

Definition tryAttack (state : GS.t) (idx : Idx) (weaponId : option Weapon.id)
  : GS.t :=
  GS.set_player idx (tryAttackOn (GS.player state idx) weaponId) state.

(** The path chosen by a boomerang throw and the player with the matching
    alternation counter incremented. *)
Definition choosePath (p : Player.t) : Z * Player.t :=
  if Stance_eqb (Player.attackStance p) crouching then
    (if Z.rem (Player.crouchThrowCount p) 2 =? 0 then 1 else 2,
     Player.set_crouchThrowCount (Player.crouchThrowCount p + 1) p)
  else
    (if Z.rem (Player.standThrowCount p) 2 =? 0 then 3 else 4,
     Player.set_standThrowCount (Player.standThrowCount p + 1) p).

Definition newBoomerang (idx : Idx) (p : Player.t) (spawnX path speed damage : Z)
  : Proj.t :=
  Proj.mk (Proj.boomerang path Proj.outbound 0) idx spawnX
          (Proj.yconst (boomerangStartY path)) (Player.facing p) speed damage
          (boomerangOutboundHeight path) true.

Definition newKnife (idx : Idx) (p : Player.t) (spawnX speed damage : Z)
  : Proj.t :=
  let isLow := Stance_eqb (Player.attackStance p) crouching in
  Proj.mk Proj.knife idx spawnX
          (Proj.yconst (if isLow then C.ANKLE_Y else C.HEAD_Y))
          (Player.facing p) speed damage
          (if isLow then Proj.ankle else Proj.head) true.

(** What [spawnProjectile] does to the player object [p] and what it
    pushes onto [state.projectiles].  Only called with [p.activeWeapon]
    set (the caller tests it). *)
Definition spawnProjectileOn (idx : Idx) (p : Player.t)
  : Player.t * list Proj.t :=
  match Player.activeWeapon p with
  | None => (p, [])
  | Some w =>
    let wDef := Weapon.WEAPON_DEFS w in
    let spawnX :=
      Player.x p + (if Player.facing p =? 1 then C.PLAYER_WIDTH else 0) in
    match Weapon.type wDef with
    | Weapon.projectile Weapon.sub_boomerang _ speed =>
      if Player.boomerangsHeld p <=? 0 then (p, [])
      else
        let p := Player.set_boomerangsHeld (Player.boomerangsHeld p - 1) p in
        let '(path, p) := choosePath p in
        (p, [newBoomerang idx p spawnX path speed (Weapon.damage wDef)])
    | Weapon.projectile Weapon.sub_knife _ speed =>
      (p, [newKnife idx p spawnX speed (Weapon.damage wDef)])
    | Weapon.melee _ _ _ => (p, [])
    end
  end.

Definition spawnProjectile (state : GS.t) (idx : Idx) : GS.t :=
  let '(p, pushed) := spawnProjectileOn idx (GS.player state idx) in
  GS.set_projectiles (GS.projectiles state ++ pushed)
                     (GS.set_player idx p state).

(** *** updatePlayer *)

(** "Tick state timer". *)
Definition tickStateTimer (p : Player.t) : Player.t :=
  if 0 <? Player.stateTimer p then
    let p := Player.set_stateTimer (Player.stateTimer p - 1) p in
    if (Player.stateTimer p =? 0)
       && (ActionState_eqb (Player.state p) attacking
           || ActionState_eqb (Player.state p) hitstun
           || ActionState_eqb (Player.state p) blockstun)
    then Player.set_attackSpawned false
           (Player.set_activeWeapon None (Player.set_state idle p))
    else p
  else p.

Definition inputDx (input : Input.t) : Z :=
  (if Input.left input then -1 else 0) + (if Input.right input then 1 else 0).

(** "Movement": stance, facing and horizontal position. *)
Definition applyMovement (input : Input.t) (p : Player.t) : Player.t :=
  let canAct :=
    ActionState_eqb (Player.state p) idle
    || ActionState_eqb (Player.state p) attacking in
  if canAct then
    let p :=
      if ActionState_eqb (Player.state p) idle
      then Player.set_stance
             (if Input.crouch input then crouching else standing) p
      else p in
    let dx := inputDx input in
    if dx =? 0 then p
    else
      let p :=
        if ActionState_eqb (Player.state p) idle
        then Player.set_facing dx p else p in
      if Stance_eqb (Player.stance p) standing
      then Player.set_x (clampX (Player.x p + dx * C.MOVE_SPEED)) p
      else p
  else p.

(** The slot [w] of the first weapon key on its rising edge, if any. *)
Definition firstPressed (input prev : Input.t) : option nat :=
  if Input.weapon1 input && negb (Input.weapon1 prev) then Some 0%nat
  else if Input.weapon2 input && negb (Input.weapon2 prev) then Some 1%nat
  else if Input.weapon3 input && negb (Input.weapon3 prev) then Some 2%nat
  else None.

(** "Attacks": only when idle, on the rising edge. *)
Definition startAttack (state : GS.t) (idx : Idx) (input : Input.t) : GS.t :=
  let p := GS.player state idx in
  if ActionState_eqb (Player.state p) idle then
    match firstPressed input (GS.prevInput state idx) with
    | Some w => tryAttack state idx (Player.weapons p !! w)
    | None => state
    end
  else state.

(** "Spawn projectile at the right moment in the attack animation". *)
Definition spawnIfDue (state : GS.t) (idx : Idx) : GS.t :=
  let p := GS.player state idx in
  if ActionState_eqb (Player.state p) attacking
     && negb (Player.attackSpawned p) then
    match Player.activeWeapon p with
    | None => state
    | Some w =>
      let wDef := Weapon.WEAPON_DEFS w in
      match Weapon.type wDef with
      | Weapon.projectile _ projectileSpawnFrame _ =>
        let elapsed := Weapon.attackFrames wDef - Player.stateTimer p in
        if projectileSpawnFrame <=? elapsed then
          let state := spawnProjectile state idx in
          GS.set_player idx
            (Player.set_attackSpawned true (GS.player state idx)) state
        else state
      | Weapon.melee _ _ _ => state
      end
    end
  else state.

Definition updatePlayer (state : GS.t) (idx : Idx) (input : Input.t) : GS.t :=
  let p := applyMovement input (tickStateTimer (GS.player state idx)) in
  let state := GS.set_player idx p state in
  let state := startAttack state idx input in
  spawnIfDue state idx.

(** The same update seen from the player object alone: the player that
    [updatePlayer] leaves at [state.players[idx]] and the projectiles it
    pushes, as a function of that player, the previous input and the
    input. *)
Definition startAttackOn (p : Player.t) (prev input : Input.t) : Player.t :=
  if ActionState_eqb (Player.state p) idle then
    match firstPressed input prev with
    | Some w => tryAttackOn p (Player.weapons p !! w)
    | None => p
    end
  else p.

Definition spawnIfDueOn (idx : Idx) (p : Player.t) : Player.t * list Proj.t :=
  if ActionState_eqb (Player.state p) attacking
     && negb (Player.attackSpawned p) then
    match Player.activeWeapon p with
    | None => (p, [])
    | Some w =>
      let wDef := Weapon.WEAPON_DEFS w in
      match Weapon.type wDef with
      | Weapon.projectile _ projectileSpawnFrame _ =>
        let elapsed := Weapon.attackFrames wDef - Player.stateTimer p in
        if projectileSpawnFrame <=? elapsed then
          let '(p, pushed) := spawnProjectileOn idx p in
          (Player.set_attackSpawned true p, pushed)
        else (p, [])
      | Weapon.melee _ _ _ => (p, [])
      end
    end
  else (p, []).

Definition updatePlayerOn (idx : Idx) (p : Player.t) (prev input : Input.t)
  : Player.t * list Proj.t :=
  spawnIfDueOn idx
    (startAttackOn (applyMovement input (tickStateTimer p)) prev input).

(** *** Player collision *)

(** One turn of [for (const p of [a, b])]: [px] is [p.x], [ox] the other
    player's; a wall correction of [p] is handed to the other player. *)
Definition wallCorrection (px ox : Z) : Z * Z :=
  let '(px, ox) :=
    if px <? C.ARENA_LEFT
    then (C.ARENA_LEFT, ox + (C.ARENA_LEFT - px)) else (px, ox) in
  if px >? C.ARENA_RIGHT - C.PLAYER_WIDTH
  then (C.ARENA_RIGHT - C.PLAYER_WIDTH,
        ox - (px - (C.ARENA_RIGHT - C.PLAYER_WIDTH)))
  else (px, ox).

(** The test that makes [resolvePlayerCollision] do something. *)
Definition bodiesOverlap (state : GS.t) : bool :=
  let a := GS.player state I0 in
  let b := GS.player state I1 in
  negb ((Player.x a + C.PLAYER_WIDTH <=? Player.x b)
        || (Player.x b + C.PLAYER_WIDTH <=? Player.x a)).

(** The positions [(a.x, b.x)] that two overlapping players end with. *)
Definition pushApart (a b : Player.t) : Z * Z :=
  let aRight := Player.x a + C.PLAYER_WIDTH in
  let bRight := Player.x b + C.PLAYER_WIDTH in
  let overlap := Z.min (aRight - Player.x b) (bRight - Player.x a) in
  (* Math.ceil(overlap / 2) *)
  let half := (overlap + 1) / 2 in
  let '(ax, bx) :=
    if (Player.x a <? Player.x b)
       || ((Player.x a =? Player.x b) && (Player.facing a =? -1))
    then (Player.x a - half, Player.x b + (overlap - half))
    else (Player.x a + (overlap - half), Player.x b - half) in
  let '(ax, bx) := wallCorrection ax bx in
  let '(bx, ax) := wallCorrection bx ax in
  (clampX ax, clampX bx).

Definition resolvePlayerCollision (state : GS.t) : GS.t :=
  let a := GS.player state I0 in
  let b := GS.player state I1 in
  if negb (bodiesOverlap state) then state
  else
    let '(ax, bx) := pushApart a b in
    GS.set_player I1 (Player.set_x bx b)
      (GS.set_player I0 (Player.set_x ax a) state).

(** *** Projectile update *)

Definition offScreen (x : Z) : bool :=
  (x <? -50) || (x >? C.CANVAS_WIDTH + 50).

(** Only called on boomerangs.  Returns the state (the owner's ammo may
    change on a catch) and the projectile object after its update. *)
Definition updateBoomerang (state : GS.t) (proj : Proj.t) : GS.t * Proj.t :=
  match Proj.type proj with
  | Proj.knife => (state, proj)
  | Proj.boomerang path ph dist =>
    let x := Proj.x proj + Proj.direction proj * Proj.speed proj in
    let dist := dist + Proj.speed proj in
    let proj := Proj.set_type (Proj.boomerang path ph dist)
                  (Proj.set_x x proj) in
    match ph with
    | Proj.outbound =>
      let proj :=
        if path =? 1
        then Proj.set_height Proj.none (Proj.set_y (Proj.yarcAnkle dist) proj)
        else if path =? 4
        then Proj.set_height Proj.none (Proj.set_y (Proj.yarcHead dist) proj)
        else proj in
      if C.BOOMERANG_RANGE <=? dist then
        (state,
         Proj.set_y (Proj.yconst (boomerangReturnY path))
           (Proj.set_height (boomerangReturnHeight path)
             (Proj.set_type (Proj.boomerang path Proj.returning 0)
               (Proj.set_direction (Proj.direction proj * -1) proj))))
      else (state, proj)
    | Proj.returning =>
      let owner := GS.player state (Proj.owner proj) in
      let ownerCX := Player.x owner + C.PLAYER_WIDTH / 2 in
      if Z.abs (x - ownerCX) <? 28 then
        (GS.set_player (Proj.owner proj)
           (Player.set_boomerangsHeld
              (Z.min (Player.boomerangsHeld owner + 1) C.BOOMERANG_MAX) owner)
           state,
         Proj.set_active false proj)
      else if offScreen x then (state, Proj.set_active false proj)
      else (state, proj)
    end
  end.

(** The body of the loop of [updateProjectiles]. *)
Definition updateProjectile (state : GS.t) (proj : Proj.t) : GS.t * Proj.t :=
  if negb (Proj.active proj) then (state, proj)
  else
    match Proj.type proj with
    | Proj.knife =>
      let x := Proj.x proj + Proj.direction proj * Proj.speed proj in
      let proj := Proj.set_x x proj in
      (state, if offScreen x then Proj.set_active false proj else proj)
    | Proj.boomerang _ _ _ => updateBoomerang state proj
    end.

(** A loop [for (const proj of state.projectiles)] whose body updates the
    projectile object and the rest of the state in place. *)
Fixpoint forEachProjectile (body : GS.t -> Proj.t -> GS.t * Proj.t)
    (state : GS.t) (projs : list Proj.t) : GS.t * list Proj.t :=
  match projs with
  | [] => (state, [])
  | proj :: rest =>
    let '(state, proj) := body state proj in
    let '(state, rest) := forEachProjectile body state rest in
    (state, proj :: rest)
  end.

Definition updateProjectiles (state : GS.t) : GS.t :=
  let '(st, projs) :=
    forEachProjectile updateProjectile state (GS.projectiles state) in
  GS.set_projectiles projs st.

(** *** Hit detection *)

Definition applyDamage (state : GS.t) (playerIdx : Idx) (damage : Z) : GS.t :=
  let p := GS.player state playerIdx in
  GS.set_hitstop C.HITSTOP_HIT
    (GS.set_player playerIdx
       (Player.set_stateTimer C.HITSTUN_FRAMES
          (Player.set_state hitstun
             (Player.set_hp (Z.max 0 (Player.hp p - damage)) p)))
       state).

(** The three assignments shared by every "blocked" branch. *)
Definition applyBlock (state : GS.t) (defIdx : Idx) : GS.t :=
  let def := GS.player state defIdx in
  GS.set_hitstop C.HITSTOP_BLOCK
    (GS.set_player defIdx
       (Player.set_stateTimer C.BLOCKSTUN_FRAMES
          (Player.set_state blockstun def))
       state).

Definition facingAttacker (atk def : Player.t) : bool :=
  let defCX := Player.x def + C.PLAYER_WIDTH / 2 in
  let atkCX := Player.x atk + C.PLAYER_WIDTH / 2 in
  ((Player.facing def =? 1) && (atkCX >? defCX))
  || ((Player.facing def =? -1) && (atkCX <? defCX)).

Definition meleeBlocked (atk def : Player.t) (attackHeight : AttackHeight)
  : bool :=
  let shieldHigh := Stance_eqb (Player.stance def) standing in
  facingAttacker atk def
  && (match attackHeight with high => shieldHigh | low => negb shieldHigh end).

Definition resolveHit (state : GS.t) (atkIdx defIdx : Idx)
    (attackHeight : AttackHeight) (damage : Z) : GS.t :=
  let atk := GS.player state atkIdx in
  let def := GS.player state defIdx in
  if meleeBlocked atk def attackHeight then applyBlock state defIdx
  else applyDamage state defIdx damage.

(** The distance compared with the weapon's range. *)
Definition meleeDist (atk def : Player.t) : Z :=
  let atkEdge :=
    Player.x atk + (if Player.facing atk =? 1 then C.PLAYER_WIDTH else 0) in
  let defNear :=
    if Player.facing atk =? 1 then Player.x def
    else Player.x def + C.PLAYER_WIDTH in
  (defNear - atkEdge) * Player.facing atk.

(** The body of the loop of [checkMeleeHits] for attacker [i]. *)
Definition meleeHitBy (state : GS.t) (i : Idx) : GS.t :=
  let atk := GS.player state i in
  if negb (ActionState_eqb (Player.state atk) attacking) then state
  else
    match Player.activeWeapon atk with
    | None => state
    | Some w =>
      let wDef := Weapon.WEAPON_DEFS w in
      match Weapon.type wDef with
      | Weapon.projectile _ _ _ => state
      | Weapon.melee range activeStart _ =>
        let elapsed := Weapon.attackFrames wDef - Player.stateTimer atk in
        if negb (elapsed =? activeStart) then state
        else
          let def := GS.player state (other i) in
          if ActionState_eqb (Player.state def) hitstun then state
          else
            let dist := meleeDist atk def in
            if (dist <? - C.PLAYER_WIDTH) || (dist >? range) then state
            else
              let attackHeight :=
                if Stance_eqb (Player.attackStance atk) standing
                then high else low in
              resolveHit state i (other i) attackHeight (Weapon.damage wDef)
      end
    end.

Definition checkMeleeHits (state : GS.t) : GS.t :=
  meleeHitBy (meleeHitBy state I0) I1.

Definition isFacingProjectile (defender : Player.t) (proj : Proj.t) : bool :=
  Player.facing defender =? - Proj.direction proj.

(** What the inner loop of [checkProjectileHits] does for player [i]:
    [None] is [continue], [Some] is the outcome followed by [break]. *)
Definition projectileVsPlayer (state : GS.t) (proj : Proj.t) (i : Idx)
  : option (GS.t * Proj.t) :=
  if Idx_eqb i (Proj.owner proj) then None
  else
    let def := GS.player state i in
    if ActionState_eqb (Player.state def) hitstun then None
    else if (Proj.x proj <? Player.x def)
            || (Proj.x proj >? Player.x def + C.PLAYER_WIDTH) then None
    else
      match Proj.height_ proj with
      | Proj.head =>
        if Stance_eqb (Player.stance def) crouching then None
        else if isFacingProjectile def proj
        then Some (applyBlock state i, Proj.set_active false proj)
        else Some (applyDamage state i (Proj.damage proj),
                   Proj.set_active false proj)
      | Proj.ankle =>
        if Stance_eqb (Player.stance def) standing
        then Some (applyDamage state i (Proj.damage proj),
                   Proj.set_active false proj)
        else if isFacingProjectile def proj
        then Some (applyBlock state i, Proj.set_active false proj)
        else Some (applyDamage state i (Proj.damage proj),
                   Proj.set_active false proj)
      | Proj.none => Some (state, proj)
      end.

(** The body of the outer loop of [checkProjectileHits]. *)
Definition checkProjectileHit (state : GS.t) (proj : Proj.t)
  : GS.t * Proj.t :=
  if negb (Proj.active proj)
     || match Proj.height_ proj with Proj.none => true | _ => false end
  then (state, proj)
  else
    match projectileVsPlayer state proj I0 with
    | Some r => r
    | None =>
      match projectileVsPlayer state proj I1 with
      | Some r => r
      | None => (state, proj)
      end
    end.

Definition checkProjectileHits (state : GS.t) : GS.t :=
  let '(st, projs) :=
    forEachProjectile checkProjectileHit state (GS.projectiles state) in
  GS.set_projectiles projs st.

Definition checkWin (state : GS.t) : GS.t :=
  let p1Dead := Player.hp (GS.player state I0) <=? 0 in
  let p2Dead := Player.hp (GS.player state I1) <=? 0 in
  if p1Dead && p2Dead then GS.set_winner 2 state
  else if p1Dead then GS.set_winner 1 state
  else if p2Dead then GS.set_winner 0 state
  else state.

(** *** The step *)

(** Everything after the two early returns. *)
Definition stepBody (s : GS.t) (p1Input p2Input : Input.t) : GS.t :=
  let s := updatePlayer s I0 p1Input in
  let s := updatePlayer s I1 p2Input in
  let s := resolvePlayerCollision s in
  let s := updateProjectiles s in
  let s := checkMeleeHits s in
  let s := checkProjectileHits s in
  let s := checkWin s in
  let s := GS.set_projectiles (List.filter Proj.active (GS.projectiles s)) s in
  let s := GS.set_prevInputs (p1Input, p2Input) s in
  GS.set_frame (GS.frame s + 1) s.

(** The hitstop branch: freeze gameplay, advance the frame counter. *)
Definition hitstopTick (s : GS.t) : GS.t :=
  GS.set_frame (GS.frame s + 1) (GS.set_hitstop (GS.hitstop s - 1) s).

Definition simulateFrame (state : GS.t) (p1Input p2Input : Input.t) : GS.t :=
  let s := cloneState state in
  if negb (GS.winner s =? -1) then s
  else if 0 <? GS.hitstop s then hitstopTick s
  else stepBody s p1Input p2Input.

(** ** simulateFrame over an explicit store

    The JavaScript function receives a reference to the caller's state
    object.  The store maps object identities to the state held there;
    [cloneState] allocates a fresh object and every later statement of the
    function mutates that object in place. *)

Abbreviation store := (gmap positive GS.t).

(** [cloneState(state)]: a copy of the object at [state] in an unused cell. *)
Definition cloneStateH (h : store) (state : positive)
  : option (store * positive) :=
  match h !! state with
  | None => None
  | Some v => let s := fresh (dom h) in Some (<[s := cloneState v]> h, s)
  end.

Definition simulateFrameH (h : store) (state : positive)
    (p1Input p2Input : Input.t) : option (store * positive) :=
  match cloneStateH h state with
  | None => None
  | Some (h, s) =>
    match h !! s with
    | None => None
    | Some sv =>
      if negb (GS.winner sv =? -1) then Some (h, s)
      else if 0 <? GS.hitstop sv then
        let h := alter (fun v => GS.set_hitstop (GS.hitstop v - 1) v) s h in
        let h := alter (fun v => GS.set_frame (GS.frame v + 1) v) s h in
        Some (h, s)
      else
        let h := alter (fun v => updatePlayer v I0 p1Input) s h in
        let h := alter (fun v => updatePlayer v I1 p2Input) s h in
        let h := alter resolvePlayerCollision s h in
        let h := alter updateProjectiles s h in
        let h := alter checkMeleeHits s h in
        let h := alter checkProjectileHits s h in
        let h := alter checkWin s h in
        let h :=
          alter (fun v => GS.set_projectiles
                            (List.filter Proj.active (GS.projectiles v)) v)
                s h in
        let h := alter (GS.set_prevInputs (p1Input, p2Input)) s h in
        let h := alter (fun v => GS.set_frame (GS.frame v + 1) v) s h in
        Some (h, s)
    end
  end.

(** ** rollback.js *)

Definition inputsEqual (a b : Input.t) : bool :=
  Bool.eqb (Input.left a) (Input.left b)
  && Bool.eqb (Input.right a) (Input.right b)
  && Bool.eqb (Input.crouch a) (Input.crouch b)
  && Bool.eqb (Input.weapon1 a) (Input.weapon1 b)
  && Bool.eqb (Input.weapon2 a) (Input.weapon2 b)
  && Bool.eqb (Input.weapon3 a) (Input.weapon3 b).

(** What a store into an [Int32Array] keeps of an integer ([ToInt32]). *)
Definition toInt32 (z : Z) : Z := (z + 2 ^ 31) mod 2 ^ 32 - 2 ^ 31.

(** *** Ring buffers *)

Module InputHistory.

Definition size : Z := 128.

Record t := mk { buf : list (option Input.t); frames : list Z }.

Definition new : t :=
  mk (replicate (Z.to_nat size) None) (replicate (Z.to_nat size) (-1)).

(** [frame % this.size] is negative for a negative frame: the typed array
    ignores such a store and [get] never reads the stray property of
    [buf], so the call leaves nothing that can be observed. *)
Definition set (h : t) (frame : Z) (input : Input.t) : t :=
  let idx := Z.rem frame size in
  if idx <? 0 then h
  else mk (<[Z.to_nat idx := Some input]> (buf h))
          (<[Z.to_nat idx := toInt32 frame]> (frames h)).

Definition get (h : t) (frame : Z) : option Input.t :=
  let idx := Z.rem frame size in
  if idx <? 0 then None
  else
    match frames h !! Z.to_nat idx with
    | Some tag => if tag =? frame then mjoin (buf h !! Z.to_nat idx) else None
    | None => None
    end.

(** [n] turns of the loop of [getLastConfirmed], downwards from [f]. *)
Fixpoint scanBack (h : t) (f : Z) (n : nat) : option Input.t :=
  match n with
  | O => None
  | S n =>
    match get h f with
    | Some inp => Some inp
    | None => scanBack h (f - 1) n
    end
  end.

Definition getLastConfirmed (h : t) (frame : Z) : Input.t :=
  default createEmptyInput
    (scanBack h (frame - 1) (Z.to_nat (frame - Z.max 0 (frame - size)))).

End InputHistory.

Module StateHistory.

Definition size : Z := 32.

Record t := mk { buf : list (option GS.t); frames : list Z }.

Definition new : t :=
  mk (replicate (Z.to_nat size) None) (replicate (Z.to_nat size) (-1)).

Definition save (h : t) (frame : Z) (state : GS.t) : t :=
  let idx := Z.rem frame size in
  if idx <? 0 then h
  else mk (<[Z.to_nat idx := Some (cloneState state)]> (buf h))
          (<[Z.to_nat idx := toInt32 frame]> (frames h)).

Definition load (h : t) (frame : Z) : option GS.t :=
  let idx := Z.rem frame size in
  if idx <? 0 then None
  else
    match frames h !! Z.to_nat idx with
    | Some tag =>
      if tag =? frame then cloneState <$> mjoin (buf h !! Z.to_nat idx)
      else None
    | None => None
    end.

End StateHistory.

(** *** The manager *)

(** [{ type: 'input', startFrame, inputs: [newest ... oldest] }]. *)
Record InputMsg := mkMsg { startFrame : Z; inputs : list Input.t }.

Module Mgr.

Record t := mk {
  localInputs : InputHistory.t;
  remoteInputs : InputHistory.t;
  states : StateHistory.t;
  predictedRemote : gmap Z Input.t;
  currentFrame : Z;
  lastConfirmedFrame : Z;
  rollbackTarget : option Z;
  statRollbacks : Z;
  statMaxDepth : Z }.

Definition set_localInputs (v : InputHistory.t) (m : t) : t :=
  mk v (remoteInputs m) (states m) (predictedRemote m) (currentFrame m)
     (lastConfirmedFrame m) (rollbackTarget m) (statRollbacks m)
     (statMaxDepth m).

Definition set_remoteInputs (v : InputHistory.t) (m : t) : t :=
  mk (localInputs m) v (states m) (predictedRemote m) (currentFrame m)
     (lastConfirmedFrame m) (rollbackTarget m) (statRollbacks m)
     (statMaxDepth m).

Definition set_states (v : StateHistory.t) (m : t) : t :=
  mk (localInputs m) (remoteInputs m) v (predictedRemote m) (currentFrame m)
     (lastConfirmedFrame m) (rollbackTarget m) (statRollbacks m)
     (statMaxDepth m).

Definition set_predictedRemote (v : gmap Z Input.t) (m : t) : t :=
  mk (localInputs m) (remoteInputs m) (states m) v (currentFrame m)
     (lastConfirmedFrame m) (rollbackTarget m) (statRollbacks m)
     (statMaxDepth m).

Definition set_currentFrame (v : Z) (m : t) : t :=
  mk (localInputs m) (remoteInputs m) (states m) (predictedRemote m) v
     (lastConfirmedFrame m) (rollbackTarget m) (statRollbacks m)
     (statMaxDepth m).

Definition set_lastConfirmedFrame (v : Z) (m : t) : t :=
  mk (localInputs m) (remoteInputs m) (states m) (predictedRemote m)
     (currentFrame m) v (rollbackTarget m) (statRollbacks m)
     (statMaxDepth m).

Definition set_rollbackTarget (v : option Z) (m : t) : t :=
  mk (localInputs m) (remoteInputs m) (states m) (predictedRemote m)
     (currentFrame m) (lastConfirmedFrame m) v (statRollbacks m)
     (statMaxDepth m).

Definition set_stats (r d : Z) (m : t) : t :=
  mk (localInputs m) (remoteInputs m) (states m) (predictedRemote m)
     (currentFrame m) (lastConfirmedFrame m) (rollbackTarget m) r d.

End Mgr.

(** What a call of [tick] hands back: [null], a new state, or nothing at
    all because a [TypeError] escaped from the resimulation. *)
Inductive TickResult :=
  | NotReady
  | Advanced (gameState : GS.t)
  | Threw.

(** [simulateFrame] reads a player's input exactly when the step is live
    and that player, after the timer tick, is idle or attacking. *)
Definition readsInput (state : GS.t) (i : Idx) : bool :=
  (GS.winner state =? -1) && negb (0 <? GS.hitstop state)
  && let p := tickStateTimer (GS.player state i) in
     (ActionState_eqb (Player.state p) idle
      || ActionState_eqb (Player.state p) attacking).

(** [simulateFrame] as the resimulation loop calls it, where the local
    input may be [null]: reading a property of [null] throws ([None]);
    where nothing is read, [{ ...null }] is stored as the previous input,
    an object all of whose keys read as falsy. *)
Definition simulateFrameNullable (state : GS.t) (p1Input p2Input : option Input.t)
  : option GS.t :=
  if (bool_decide (p1Input = None) && readsInput state I0)
     || (bool_decide (p2Input = None) && readsInput state I1)
  then None
  else Some (simulateFrame state (default createEmptyInput p1Input)
                           (default createEmptyInput p2Input)).

Section RollbackManager.

(** [constants.js] does not show the three rollback constants that
    [rollback.js] reads; they are parameters of the manager. *)
Variable ROLLBACK_INPUT_DELAY : Z.
Variable ROLLBACK_INPUT_REDUNDANCY : Z.
Variable ROLLBACK_MAX_FRAMES : Z.

(** The seeding loop of [reset], applied to one history. *)
Definition seedEmpty (h : InputHistory.t) : InputHistory.t :=
  foldl (fun h f => InputHistory.set h f createEmptyInput) h
        (seqZ 0 ROLLBACK_INPUT_DELAY).

Definition reset (initialState : GS.t) : Mgr.t :=
  Mgr.mk (seedEmpty InputHistory.new) (seedEmpty InputHistory.new)
         (StateHistory.save StateHistory.new 0 initialState)
         ∅ 0 (-1) None 0 0.

(** The body of the loop of [receiveInputs] for one [(frame, input)]. *)
Definition receivePair (m : Mgr.t) (frame : Z) (input : Input.t) : Mgr.t :=
  if frame <? 0 then m
  else
    match InputHistory.get (Mgr.remoteInputs m) frame with
    | Some _ => m
    | None =>
      let m :=
        Mgr.set_remoteInputs
          (InputHistory.set (Mgr.remoteInputs m) frame input) m in
      let m :=
        if frame >? Mgr.lastConfirmedFrame m
        then Mgr.set_lastConfirmedFrame frame m else m in
      if frame <? Mgr.currentFrame m then
        match Mgr.predictedRemote m !! frame with
        | Some predicted =>
          if negb (inputsEqual predicted input) then
            match Mgr.rollbackTarget m with
            | None => Mgr.set_rollbackTarget (Some frame) m
            | Some target =>
              if frame <? target then Mgr.set_rollbackTarget (Some frame) m
              else m
            end
          else m
        | None => m
        end
      else m
    end.

(** The loop of [receiveInputs] from index [i]: [frame] is
    [msg.startFrame - i]. *)
Fixpoint receiveFrom (m : Mgr.t) (frame : Z) (inputs : list Input.t)
  : Mgr.t :=
  match inputs with
  | [] => m
  | input :: rest => receiveFrom (receivePair m frame input) (frame - 1) rest
  end.

Definition receiveInputs (m : Mgr.t) (msg : InputMsg) : Mgr.t :=
  receiveFrom m (startFrame msg) (inputs msg).

(** The redundant window: local inputs from [f] downwards, at most [n],
    stopping at the first frame that is not stored. *)
Fixpoint redundantFrom (h : InputHistory.t) (f : Z) (n : nat)
  : list Input.t :=
  match n with
  | O => []
  | S n =>
    match InputHistory.get h f with
    | Some inp => inp :: redundantFrom h (f - 1) n
    | None => []
    end
  end.

(** "Get or predict remote input" for frame [f], with the bookkeeping of
    [predictedRemote]. *)
Definition remoteOrPredicted (m : Mgr.t) (f : Z) : Input.t * Mgr.t :=
  match InputHistory.get (Mgr.remoteInputs m) f with
  | Some theirInput =>
    (theirInput,
     Mgr.set_predictedRemote (delete f (Mgr.predictedRemote m)) m)
  | None =>
    let theirInput := InputHistory.getLastConfirmed (Mgr.remoteInputs m) f in
    (theirInput,
     Mgr.set_predictedRemote (<[f := theirInput]> (Mgr.predictedRemote m)) m)
  end.

(** [n] turns of the resimulation loop of [_performRollback] from frame
    [f]; the state is [None] once [simulateFrame] has thrown. *)
Fixpoint resimulate (m : Mgr.t) (state : GS.t) (f : Z) (n : nat)
    (isHost : bool) : Mgr.t * option GS.t :=
  match n with
  | O => (m, Some state)
  | S n =>
    let myInput := InputHistory.get (Mgr.localInputs m) f in
    let '(theirInput, m) := remoteOrPredicted m f in
    let m := Mgr.set_states (StateHistory.save (Mgr.states m) f state) m in
    let p1 := if isHost then myInput else Some theirInput in
    let p2 := if isHost then Some theirInput else myInput in
    match simulateFrameNullable state p1 p2 with
    | None => (m, None)
    | Some state => resimulate m state (f + 1) n isHost
    end
  end.

(** [_performRollback]; [tick] calls it only with a target recorded. *)
Definition performRollback (m : Mgr.t) (currentGameState : GS.t)
    (isHost : bool) : Mgr.t * option GS.t :=
  match Mgr.rollbackTarget m with
  | None => (m, Some currentGameState)
  | Some target =>
    let m := Mgr.set_rollbackTarget None m in
    let depth := Mgr.currentFrame m - target in
    let target :=
      if depth >? ROLLBACK_MAX_FRAMES
      then Mgr.currentFrame m - ROLLBACK_MAX_FRAMES else target in
    match StateHistory.load (Mgr.states m) target with
    | None => (m, Some currentGameState)
    | Some restored =>
      let m :=
        Mgr.set_stats (Mgr.statRollbacks m + 1)
                      (Z.max (Mgr.statMaxDepth m) depth) m in
      resimulate m restored target
                 (Z.to_nat (Mgr.currentFrame m - target)) isHost
    end
  end.

Definition cleanupPredictions (m : Mgr.t) : Mgr.t :=
  let cutoff := Mgr.currentFrame m - ROLLBACK_MAX_FRAMES - 1 in
  Mgr.set_predictedRemote
    (filter (fun kv : Z * Input.t => ¬ kv.1 < cutoff) (Mgr.predictedRemote m))
    m.

(** [tick]: the manager afterwards, the message given to [sendFn], and
    what the call returns. *)
Definition tick (m : Mgr.t) (gameState : GS.t) (localRawInput : Input.t)
    (isHost : bool) : Mgr.t * InputMsg * TickResult :=
  let sendFrame := Mgr.currentFrame m + ROLLBACK_INPUT_DELAY in
  let m :=
    Mgr.set_localInputs
      (InputHistory.set (Mgr.localInputs m) sendFrame localRawInput) m in
  let redundant :=
    redundantFrom (Mgr.localInputs m) sendFrame
                  (Z.to_nat ROLLBACK_INPUT_REDUNDANCY) in
  let msg := mkMsg sendFrame redundant in
  match InputHistory.get (Mgr.localInputs m) (Mgr.currentFrame m) with
  | None => (m, msg, NotReady)
  | Some myInput =>
    let '(m, rolled) :=
      match Mgr.rollbackTarget m with
      | Some _ => performRollback m gameState isHost
      | None => (m, Some gameState)
      end in
    match rolled with
    | None => (m, msg, Threw)
    | Some gameState =>
      let '(theirInput, m) := remoteOrPredicted m (Mgr.currentFrame m) in
      let m :=
        Mgr.set_states
          (StateHistory.save (Mgr.states m) (Mgr.currentFrame m) gameState)
          m in
      let p1 := if isHost then myInput else theirInput in
      let p2 := if isHost then theirInput else myInput in
      let gameState := simulateFrame gameState p1 p2 in
      let m := Mgr.set_currentFrame (Mgr.currentFrame m + 1) m in
      let m := cleanupPredictions m in
      (m, msg, Advanced gameState)
    end
  end.

(** What the driver does with a manager between two of its ticks. *)
Inductive Op :=
  | OpTick (gameState : GS.t) (localRawInput : Input.t) (isHost : bool)
  | OpReceive (msg : InputMsg).

Definition applyOp (m : Mgr.t) (op : Op) : Mgr.t :=
  match op with
  | OpTick g inp isHost => (tick m g inp isHost).1.1
  | OpReceive msg => receiveInputs m msg
  end.

Definition runOps (m : Mgr.t) (ops : list Op) : Mgr.t := foldl applyOp m ops.

Definition isTick (op : Op) : bool :=
  match op with OpTick _ _ _ => true | OpReceive _ => false end.

(** The index the next call of [tick] has among all calls since [reset]. *)
Definition tickCalls (ops : list Op) : Z :=
  Z.of_nat (length (List.filter isTick ops)).

End RollbackManager.

(** ** Vocabulary of the properties *)

(** A run of the step over a list of input pairs. *)
Definition runFrames (s : GS.t) (inputs : list (Input.t * Input.t)) : GS.t :=
  foldl (fun s ab => simulateFrame s ab.1 ab.2) s inputs.

(** Position, facing and stance. *)
Definition sameBody (p q : Player.t) : Prop :=
  Player.x q = Player.x p /\ Player.facing q = Player.facing p
  /\ Player.stance q = Player.stance p.

(** Hit points and loadout. *)
Definition sameVitals (p q : Player.t) : Prop :=
  Player.hp q = Player.hp p /\ Player.weapons q = Player.weapons p.

(** Action state, timer, active weapon and attack stance. *)
Definition sameAction (p q : Player.t) : Prop :=
  Player.state q = Player.state p /\ Player.stateTimer q = Player.stateTimer p
  /\ Player.activeWeapon q = Player.activeWeapon p
  /\ Player.attackStance q = Player.attackStance p.

(** Ammo and the two alternation counters. *)
Definition sameAmmo (p q : Player.t) : Prop :=
  Player.boomerangsHeld q = Player.boomerangsHeld p
  /\ Player.crouchThrowCount q = Player.crouchThrowCount p
  /\ Player.standThrowCount q = Player.standThrowCount p.

(** The state that the hit checks of [stepBody] leave. *)
Definition afterHits (s : GS.t) (p1Input p2Input : Input.t) : GS.t :=
  checkProjectileHits
    (checkMeleeHits
       (updateProjectiles
          (resolvePlayerCollision
             (updatePlayer (updatePlayer s I0 p1Input) I1 p2Input)))).

(** *** Scenario A *)

Definition loadoutA : list Weapon.id :=
  [Weapon.sword; Weapon.dagger; Weapon.spear].

(** Player A has walked up to Player B, pressed the Sword key, and six
    more ticks have passed: the next step is the first active frame. *)
Definition scenarioA : GS.t :=
  GS.mk 111
    (Player.mk 512 1 standing 5 loadoutA attacking 18 (Some Weapon.sword)
               standing false 10 0 0,
     Player.mk 600 (-1) standing 5 loadoutA idle 0 None standing false
               10 0 0)
    [] (-1) 0 (createEmptyInput, createEmptyInput).

Definition walkRight : Input.t := Input.mk false true false false false false.
Definition pressWeapon1 : Input.t := Input.mk false false false true false false.

Definition scenarioA_inputs : list (Input.t * Input.t) :=
  replicate 104 (walkRight, createEmptyInput)
  ++ [(pressWeapon1, createEmptyInput)]
  ++ replicate 6 (createEmptyInput, createEmptyInput).

(** *** Crouch lock *)

(** The two alternation counters. *)
Definition sameThrows (p q : Player.t) : Prop :=
  Player.crouchThrowCount q = Player.crouchThrowCount p
  /\ Player.standThrowCount q = Player.standThrowCount p.

(** Every player keeps position, facing, stance and throw counters. *)
Definition bodiesKept (s s' : GS.t) : Prop :=
  forall i, sameBody (GS.player s i) (GS.player s' i)
            /\ sameThrows (GS.player s i) (GS.player s' i).

Definition inputOf (i : Idx) (ab : Input.t * Input.t) : Input.t :=
  match i with I0 => ab.1 | I1 => ab.2 end.

(** The step runs its gameplay logic. *)
Definition live (s : GS.t) : bool :=
  (GS.winner s =? -1) && negb (0 <? GS.hitstop s).

(** The step finds the two bodies overlapping after the player updates,
    so that [resolvePlayerCollision] pushes them apart. *)
Definition pushes (s : GS.t) (ab : Input.t * Input.t) : bool :=
  live s && bodiesOverlap (updatePlayer (updatePlayer s I0 ab.1) I1 ab.2).

(** No step of the run from [s] over [inputs] pushes. *)
Fixpoint noPush (s : GS.t) (inputs : list (Input.t * Input.t)) : bool :=
  match inputs with
  | [] => true
  | ab :: rest =>
    negb (pushes s ab) && noPush (simulateFrame s ab.1 ab.2) rest
  end.

Definition crouchHold : Input.t := Input.mk false false true false false false.
Definition crouchLeft : Input.t := Input.mk true false true false false false.
Definition walkLeft : Input.t := Input.mk true false false false false false.

(** *** The blocking rule, in the words of the specification *)

(** "Standing shield = high, crouching shield = low". *)
Definition shieldHeight (st : Stance) : AttackHeight :=
  match st with standing => high | crouching => low end.

(** The defender faces the attacker: the attacker stands on the side the
    defender looks at. *)
Definition facesAttacker (def atk : Player.t) : Prop :=
  (Player.facing def = 1 /\ Player.x def < Player.x atk)
  \/ (Player.facing def = -1 /\ Player.x atk < Player.x def).

(** The defender faces where the projectile comes from: it looks against
    the projectile's direction of travel. *)
Definition facesProjectile (def : Player.t) (proj : Proj.t) : Prop :=
  Player.facing def = - Proj.direction proj.

(** Head level is a high attack, ankle level a low one. *)
Definition attackHeightOf (h : Proj.height) : option AttackHeight :=
  match h with
  | Proj.head => Some high
  | Proj.ankle => Some low
  | Proj.none => None
  end.

(** "A block triggers blockstun and a short hitstop". *)
Definition blockOutcome (s s' : GS.t) (d : Idx) : Prop :=
  Player.state (GS.player s' d) = blockstun
  /\ Player.stateTimer (GS.player s' d) = C.BLOCKSTUN_FRAMES
  /\ Player.hp (GS.player s' d) = Player.hp (GS.player s d)
  /\ GS.hitstop s' = C.HITSTOP_BLOCK.

(** "A connecting hit applies damage, hitstun, and a slightly longer
    hitstop". *)
Definition hitOutcome (s s' : GS.t) (d : Idx) (damage : Z) : Prop :=
  Player.hp (GS.player s' d) = Z.max 0 (Player.hp (GS.player s d) - damage)
  /\ Player.state (GS.player s' d) = hitstun
  /\ Player.stateTimer (GS.player s' d) = C.HITSTUN_FRAMES
  /\ GS.hitstop s' = C.HITSTOP_HIT.

(** The projectile overlaps the player horizontally. *)
Definition overlapsX (proj : Proj.t) (def : Player.t) : Prop :=
  Player.x def <= Proj.x proj <= Player.x def + C.PLAYER_WIDTH.

(** *** Knives *)

Definition loadoutK : list Weapon.id :=
  [Weapon.throwingKnife; Weapon.boomerang; Weapon.sword].

Definition crouchThrow : Input.t := Input.mk false false true true false false.

(** Player A throws two knives from a crouch, eleven ticks apart; the
    first hits the standing Player B, and after 63 ticks the second is
    level with B, who is still in hitstun. *)
Definition twoKnives_inputs : list (Input.t * Input.t) :=
  [(crouchThrow, createEmptyInput)]
  ++ replicate 10 (crouchHold, createEmptyInput)
  ++ [(crouchThrow, createEmptyInput)]
  ++ replicate 51 (crouchHold, createEmptyInput).

Definition secondKnife : Proj.t :=
  Proj.mk Proj.knife I0 600 (Proj.yconst C.ANKLE_Y) 1 8 1 Proj.ankle true.

(** A head-level knife of Player A level with Player B in the initial
    state. *)
Definition headKnife : Proj.t :=
  Proj.mk Proj.knife I0 610 (Proj.yconst C.HEAD_Y) 1 8 1 Proj.head true.

(** An ankle-level knife of Player A level with Player B. *)
Definition ankleKnife : Proj.t :=
  Proj.mk Proj.knife I0 610 (Proj.yconst C.ANKLE_Y) 1 8 1 Proj.ankle true.

(** *** Reachable states *)

(** The states of a match: the initial state of some pair of loadouts and
    whatever the step makes of a state of the match. *)
Inductive reachable : GS.t -> Prop :=
  | reachable_init p1Weapons p2Weapons :
      reachable (createGameState p1Weapons p2Weapons)
  | reachable_step s p1Input p2Input :
      reachable s -> reachable (simulateFrame s p1Input p2Input).

(** *** Boomerangs *)

(** The flight-path policy in the words of the specification: the
    collision height of path [path] in phase [ph]. *)
Definition policyHeight (path : Z) (ph : Proj.phase) : Proj.height :=
  match ph with
  | Proj.outbound =>
    if bool_decide (path = 1 \/ path = 4) then Proj.none
    else if bool_decide (path = 2) then Proj.ankle else Proj.head
  | Proj.returning =>
    if bool_decide (path = 1 \/ path = 3) then Proj.ankle else Proj.head
  end.

(** A boomerang flies one of the four paths at the height the policy
    gives; knives are not concerned. *)
Definition followsPolicy (proj : Proj.t) : Prop :=
  match Proj.type proj with
  | Proj.knife => True
  | Proj.boomerang path ph _ =>
    1 <= path <= 4 /\ Proj.height_ proj = policyHeight path ph
  end.

(** The path the policy gives a throw from stance [st] after
    [crouchCount] crouch throws and [standCount] stand throws: crouch
    throws take 1 then 2 in turn, stand throws 3 then 4. *)
Definition pathFor (st : Stance) (crouchCount standCount : Z) : Z :=
  match st with
  | crouching => if Z.even crouchCount then 1 else 2
  | standing => if Z.even standCount then 3 else 4
  end.

Definition nextPath (p : Player.t) : Z :=
  pathFor (Player.attackStance p) (Player.crouchThrowCount p)
          (Player.standThrowCount p).

(** The counters after a throw of [p]. *)
Definition countThrow (p : Player.t) : Z * Z :=
  match Player.attackStance p with
  | crouching => (Player.crouchThrowCount p + 1, Player.standThrowCount p)
  | standing => (Player.crouchThrowCount p, Player.standThrowCount p + 1)
  end.

(** The active boomerangs of player [i] among [projs]. *)
Definition inFlight (i : Idx) (projs : list Proj.t) : Z :=
  Z.of_nat
    (length
       (List.filter
          (fun p => Proj.active p && Proj.isBoomerang p
                    && Idx_eqb (Proj.owner p) i)
          projs)).

(** Boomerang conservation for player [i]. *)
Definition ammoOk (s : GS.t) (i : Idx) : Prop :=
  0 <= Player.boomerangsHeld (GS.player s i)
  /\ Player.boomerangsHeld (GS.player s i) + inFlight i (GS.projectiles s)
     <= C.BOOMERANG_MAX.

(** Player A throws two boomerangs from a crouch, nineteen ticks apart. *)
Definition crouchThrow2 : Input.t := Input.mk false false true false true false.

Definition twoBoomerangs_inputs : list (Input.t * Input.t) :=
  [(crouchThrow2, createEmptyInput)]
  ++ replicate 18 (crouchHold, createEmptyInput)
  ++ [(crouchThrow2, createEmptyInput)]
  ++ replicate 4 (crouchHold, createEmptyInput).

(** Whether [p] counts as a boomerang of player [i] in flight. *)
Definition countsFor (i : Idx) (p : Proj.t) : bool :=
  Proj.active p && Proj.isBoomerang p && Idx_eqb (Proj.owner p) i.

(** 1 for a boomerang of [i] in flight, 0 otherwise. *)
Definition flying (i : Idx) (p : Proj.t) : Z :=
  if countsFor i p then 1 else 0.

(** A turn of a projectile loop neither creates ammo nor makes it
    negative: for each player, ammo held plus the projectile's share does
    not grow. *)
Definition conserves (body : GS.t -> Proj.t -> GS.t * Proj.t) : Prop :=
  forall st proj i,
    (0 <= Player.boomerangsHeld (GS.player st i) ->
     0 <= Player.boomerangsHeld (GS.player (body st proj).1 i))
    /\ Player.boomerangsHeld (GS.player (body st proj).1 i)
       + flying i (body st proj).2
       <= Player.boomerangsHeld (GS.player st i) + flying i proj.

(** A returning boomerang of Player A about to be caught. *)
Definition returningBoomerang : Proj.t :=
  Proj.mk (Proj.boomerang 1 Proj.returning 100) I0 250
          (Proj.yconst C.ANKLE_Y) (-1) 5 1 Proj.ankle true.

(** *** The rollback manager *)

(** The [(tick, input)] pairs of a message, newest first. *)
Fixpoint pairsFrom (frame : Z) (inputs : list Input.t) : list (Z * Input.t) :=
  match inputs with
  | [] => []
  | input :: rest => (frame, input) :: pairsFrom (frame - 1) rest
  end.

Definition msgPairs (msg : InputMsg) : list (Z * Input.t) :=
  pairsFrom (startFrame msg) (inputs msg).

Definition receivePairs (m : Mgr.t) (pairs : list (Z * Input.t)) : Mgr.t :=
  foldl (fun m p => receivePair m p.1 p.2) m pairs.

(** The pair is new (its tick holds no confirmed value), its tick is
    already simulated, and the prediction recorded for it differs. *)
Definition mispredicted (m : Mgr.t) (frame : Z) (input : Input.t) : bool :=
  (0 <=? frame)
  && bool_decide (InputHistory.get (Mgr.remoteInputs m) frame = None)
  && (frame <? Mgr.currentFrame m)
  && match Mgr.predictedRemote m !! frame with
     | Some predicted => negb (inputsEqual predicted input)
     | None => false
     end.

(** The ticks flagged while [pairs] are ingested from [m], in order. *)
Fixpoint flagged (m : Mgr.t) (pairs : list (Z * Input.t)) : list Z :=
  match pairs with
  | [] => []
  | p :: rest =>
    (if mispredicted m p.1 p.2 then [p.1] else [])
    ++ flagged (receivePair m p.1 p.2) rest
  end.

(** Frame tags fit the [Int32Array]. *)
Definition int32 (z : Z) : Prop := - 2 ^ 31 <= z < 2 ^ 31.

Definition inputHistoryWf (h : InputHistory.t) : Prop :=
  length (InputHistory.buf h) = Z.to_nat InputHistory.size
  /\ length (InputHistory.frames h) = Z.to_nat InputHistory.size
  /\ Forall int32 (InputHistory.frames h).

(** Every slot of the state history is empty or holds a tick of its own
    residue among the last 32 up to [cur]. *)
Definition stateHistoryWf (h : StateHistory.t) (cur : Z) : Prop :=
  length (StateHistory.buf h) = Z.to_nat StateHistory.size
  /\ length (StateHistory.frames h) = Z.to_nat StateHistory.size
  /\ forall (j : nat) (tag : Z),
       StateHistory.frames h !! j = Some tag ->
       tag = -1
       \/ (0 <= tag /\ cur - StateHistory.size <= tag <= cur
           /\ Z.rem tag StateHistory.size = Z.of_nat j).

(** What holds of the manager between the calls of its driver: the local
    inputs of the last 32 ticks and of the [delay] ticks from the current
    one on are stored. *)
Definition mgrInv (delay : Z) (m : Mgr.t) : Prop :=
  0 <= Mgr.currentFrame m <= 2 ^ 31
  /\ inputHistoryWf (Mgr.localInputs m)
  /\ stateHistoryWf (Mgr.states m) (Mgr.currentFrame m)
  /\ forall f,
       0 <= f ->
       Mgr.currentFrame m - StateHistory.size <= f
         < Mgr.currentFrame m + delay ->
       f < 2 ^ 31 ->
       is_Some (InputHistory.get (Mgr.localInputs m) f).

(** The target recorded once the ticks [l] have been flagged in turn,
    starting from the recorded target [t]. *)
Definition earliest (t : option Z) (l : list Z) : option Z :=
  foldl (fun acc f => Some (match acc with None => f | Some t => Z.min t f end))
        t l.

(** ** Well-formed states *)

(** The player stands inside the arena. *)
Definition inArena (p : Player.t) : Prop :=
  C.ARENA_LEFT <= Player.x p <= C.ARENA_RIGHT - C.PLAYER_WIDTH.

(** Both players are inside the arena and Player 1's body lies wholly to
    the left of Player 2's. *)
Definition positionsOk (s : GS.t) : Prop :=
  inArena (GS.player s I0) /\ inArena (GS.player s I1)
  /\ Player.x (GS.player s I0) + C.PLAYER_WIDTH <= Player.x (GS.player s I1).

(** Two players inside the arena whose bodies overlap at equal [x]. *)
Definition overlappingPair : GS.t :=
  GS.mk 0
    (Player.mk 300 (-1) standing 5 loadoutA idle 0 None standing false 10 0 0,
     Player.mk 300 1 standing 5 loadoutA idle 0 None standing false 10 0 0)
    [] (-1) 0 (createEmptyInput, createEmptyInput).

(** The player object is consistent and has at most [hmax] hit points: it
    faces left or right; an idle player has no timer running, no active
    weapon and no spawn recorded; an attacking player has an active weapon
    and a running timer of at most that weapon's attack frames; a stunned
    player has a running timer of at most the stun's length. *)
Definition playerOk (hmax : Z) (p : Player.t) : Prop :=
  (Player.facing p = 1 \/ Player.facing p = -1)
  /\ 0 <= Player.hp p <= hmax
  /\ match Player.state p with
     | idle =>
       Player.stateTimer p = 0 /\ Player.activeWeapon p = None
       /\ Player.attackSpawned p = false
     | attacking =>
       exists w, Player.activeWeapon p = Some w
                 /\ 0 < Player.stateTimer p
                    <= Weapon.attackFrames (Weapon.WEAPON_DEFS w)
     | hitstun => 0 < Player.stateTimer p <= C.HITSTUN_FRAMES
     | blockstun => 0 < Player.stateTimer p <= C.BLOCKSTUN_FRAMES
     end.

(** The projectile flies left or right with the damage and speed of its
    weapon; an outbound boomerang has not yet covered its range. *)
Definition projOk (p : Proj.t) : Prop :=
  (Proj.direction p = 1 \/ Proj.direction p = -1)
  /\ Proj.damage p = 1
  /\ match Proj.type p with
     | Proj.knife => Proj.speed p = 8
     | Proj.boomerang _ ph dist =>
       Proj.speed p = 5 /\ 0 <= dist
       /\ (ph = Proj.outbound -> dist < C.BOOMERANG_RANGE)
     end.

(** Player [i] has at most [h i] hit points, and every object of the state
    is consistent. *)
Definition stateOk (h : Idx -> Z) (s : GS.t) : Prop :=
  (forall i, playerOk (h i) (GS.player s i))
  /\ Forall projOk (GS.projectiles s).

(** [winner] names the survivor: -1 while both players have hit points
    left, the index of the only player with hit points left, 2 when both
    are at zero. *)
Definition winnerOk (s : GS.t) : Prop :=
  let hp0 := Player.hp (GS.player s I0) in
  let hp1 := Player.hp (GS.player s I1) in
  (0 < hp0 /\ 0 < hp1 /\ GS.winner s = -1)
  \/ (hp0 <= 0 /\ 0 < hp1 /\ GS.winner s = 1)
  \/ (0 < hp0 /\ hp1 <= 0 /\ GS.winner s = 0)
  \/ (hp0 <= 0 /\ hp1 <= 0 /\ GS.winner s = 2).

(** Winner and frame counter. *)
Definition sameClock (s s' : GS.t) : Prop :=
  GS.winner s' = GS.winner s /\ GS.frame s' = GS.frame s.

(** Both players are on the first active frame of a sword attack, each
    within the other's range. *)
Definition swordClash : GS.t :=
  GS.mk 111
    (Player.mk 512 1 standing 5 loadoutA attacking 17 (Some Weapon.sword)
               standing false 10 0 0,
     Player.mk 600 (-1) standing 5 loadoutA attacking 17 (Some Weapon.sword)
               standing false 10 0 0)
    [] (-1) 0 (createEmptyInput, createEmptyInput).

(** Relative to the hit points [hp0] at the start of the hit checks, each
    player has either kept its hit points or is in hitstun with at most
    one hit point less. *)
Definition hitOnce (hp0 : Idx -> Z) (s : GS.t) : Prop :=
  forall i,
    Player.hp (GS.player s i) = hp0 i
    \/ (Player.state (GS.player s i) = hitstun
        /\ hp0 i - 1 <= Player.hp (GS.player s i) <= hp0 i).

(** The action state, timer, active weapon and attack stance of [q] are
    those of [p], unless [q] is stunned. *)
Definition stunnedOrSame (p q : Player.t) : Prop :=
  Player.state q = hitstun \/ Player.state q = blockstun \/ sameAction p q.

Definition actionsKept (s s' : GS.t) : Prop :=
  forall i, stunnedOrSame (GS.player s i) (GS.player s' i).

(** The stance that [updatePlayer] gives an idle player. *)
Definition inputStance (input : Input.t) : Stance :=
  if Input.crouch input then crouching else standing.

(** Player [q] is on the first tick of an attack with weapon [w], begun
    under [input]. *)
Definition startedAttack (input : Input.t) (w : Weapon.id) (q : Player.t)
  : Prop :=
  Player.state q = attacking
  /\ Player.activeWeapon q = Some w
  /\ Player.stateTimer q = Weapon.attackFrames (Weapon.WEAPON_DEFS w)
  /\ Player.attackStance q = inputStance input.

(** The two arrays of a state history have the length given at
    construction. *)
Definition stateHistorySized (h : StateHistory.t) : Prop :=
  length (StateHistory.buf h) = Z.to_nat StateHistory.size
  /\ length (StateHistory.frames h) = Z.to_nat StateHistory.size.

(** The pair of inputs with which the histories of [m] have frame [f]
    simulated: the stored local input, and the stored remote input or,
    where there is none, the prediction from the last stored one; the
    host is Player 1. *)
Definition replayInputs (m : Mgr.t) (isHost : bool) (f : Z)
  : Input.t * Input.t :=
  let myInput :=
    default createEmptyInput (InputHistory.get (Mgr.localInputs m) f) in
  let theirInput :=
    match InputHistory.get (Mgr.remoteInputs m) f with
    | Some r => r
    | None => InputHistory.getLastConfirmed (Mgr.remoteInputs m) f
    end in
  if isHost then (myInput, theirInput) else (theirInput, myInput).

(** Everything of the manager but the snapshots and the prediction
    records. *)
Definition sameInputs (m m' : Mgr.t) : Prop :=
  Mgr.localInputs m' = Mgr.localInputs m
  /\ Mgr.remoteInputs m' = Mgr.remoteInputs m
  /\ Mgr.currentFrame m' = Mgr.currentFrame m
  /\ Mgr.lastConfirmedFrame m' = Mgr.lastConfirmedFrame m.

(** ** main.js: online play *)

(** The globals [rollbackManager] and [gameState]. *)
Module Online.

Record t := mk { rollbackManager : Mgr.t; gameState : GS.t }.

End Online.

(** What the page does with the two globals while a match runs: a frame
    of the game loop with the local input read from the input manager, or
    a message of type ['input'] from the peer. *)
Inductive Event :=
  | Frame (localInput : Input.t)
  | Message (msg : InputMsg).

(** [checkWeaponsReady] once both selections are in: the host is player 1
    and the guest player 2.  The pair is [lastP1Weapons], [lastP2Weapons],
    which [startCombat] is then called with. *)
Definition checkWeaponsReady (isHost : bool)
    (localWeapons remoteWeapons : list Weapon.id)
  : list Weapon.id * list Weapon.id :=
  if isHost then (localWeapons, remoteWeapons)
  else (remoteWeapons, localWeapons).

Section OnlinePlay.

Variable ROLLBACK_INPUT_DELAY : Z.
Variable ROLLBACK_INPUT_REDUNDANCY : Z.
Variable ROLLBACK_MAX_FRAMES : Z.

(** [startCombat] when [isOnline]: a new game state, and the manager reset
    on it. *)
Definition startCombat (p1Weapons p2Weapons : list Weapon.id) : Online.t :=
  let gameState := createGameState p1Weapons p2Weapons in
  Online.mk (reset ROLLBACK_INPUT_DELAY gameState) gameState.

(** [tickOnline]: the globals afterwards, the message handed to the
    network manager and the flag returned; [None] when the [TypeError] of
    a resimulation escapes. *)
Definition tickOnline (d : Online.t) (localInput : Input.t) (isHost : bool)
  : option (Online.t * InputMsg * bool) :=
  match tick ROLLBACK_INPUT_DELAY ROLLBACK_INPUT_REDUNDANCY ROLLBACK_MAX_FRAMES
             (Online.rollbackManager d) (Online.gameState d) localInput isHost
  with
  | (m, msg, NotReady) => Some (Online.mk m (Online.gameState d), msg, false)
  | (m, msg, Advanced result) => Some (Online.mk m result, msg, true)
  | (m, msg, Threw) => None
  end.

(** [handleRemoteMessage] on a message of type ['input']. *)
Definition handleRemoteMessage (d : Online.t) (msg : InputMsg) : Online.t :=
  Online.mk (receiveInputs (Online.rollbackManager d) msg)
            (Online.gameState d).

Definition onEvent (isHost : bool) (d : Online.t) (e : Event)
  : option Online.t :=
  match e with
  | Frame localInput => (fun r => r.1.1) <$> tickOnline d localInput isHost
  | Message msg => Some (handleRemoteMessage d msg)
  end.

Definition play (isHost : bool) (d : Online.t) (events : list Event)
  : option Online.t :=
  foldl (fun d e => d ≫= fun d => onEvent isHost d e) (Some d) events.

(** The frames of the game loop among the events. *)
Definition frames (events : list Event) : Z :=
  Z.of_nat
    (length (List.filter (fun e => match e with Frame _ => true | _ => false end)
                         events)).

(** *** The inputs of a match *)

(** The input a player has for frame [f] when its raw input at its tick
    [k] is [raw k]: empty for the first [ROLLBACK_INPUT_DELAY] frames, then
    the raw input read [ROLLBACK_INPUT_DELAY] ticks before. *)
Definition delayed (raw : Z -> Input.t) (f : Z) : Input.t :=
  if f <? ROLLBACK_INPUT_DELAY then createEmptyInput
  else raw (f - ROLLBACK_INPUT_DELAY).

Variable isHost : bool.
Variable localRaw : Z -> Input.t.
Variable remoteRaw : Z -> Input.t.

(** The pair (Player 1, Player 2) of frame [f] when the remote input of
    the frame is taken from [remote]. *)
Definition pairWith (remote : Z -> Input.t) (f : Z) : Input.t * Input.t :=
  if isHost then (delayed localRaw f, remote f)
  else (remote f, delayed localRaw f).

(** The state before frame [f] of the game played from [init] with the
    remote inputs [remote]. *)
Definition timeline (init : GS.t) (remote : Z -> Input.t) (f : Z) : GS.t :=
  runFrames init (pairWith remote <$> seqZ 0 f).

(** The remote input of frame [f] has reached this peer: it was seeded by
    [reset] or it is one of the frames [seen] in the messages so far. *)
Definition delivered (seen : list Z) (f : Z) : Prop :=
  f < ROLLBACK_INPUT_DELAY \/ f ∈ seen.

(** The events follow the two players' raw inputs and the network is
    timely.  At frame [c] of the local game loop, with the remote frames
    [seen] so far: a frame of the game loop reads the local raw input of
    tick [c], and every remote frame up to [c - ROLLBACK_MAX_FRAMES] has
    been delivered before it; a message carries, for each frame from 0 on
    that it names, the peer's input for that frame, and names no frame
    more than 32 behind or 95 ahead of [c]. *)
Fixpoint inTime (c : Z) (seen : list Z) (events : list Event) : Prop :=
  match events with
  | [] => True
  | Frame localInput :: rest =>
    localInput = localRaw c
    /\ (forall f, 0 <= f <= c - ROLLBACK_MAX_FRAMES -> delivered seen f)
    /\ inTime (c + 1) seen rest
  | Message msg :: rest =>
    Forall (fun p : Z * Input.t =>
              0 <= p.1 ->
              p.2 = delayed remoteRaw p.1 /\ c - 32 <= p.1 < c + 96)
           (msgPairs msg)
    /\ inTime c ((msgPairs msg).*1 ++ seen) rest
  end.

(** The remote frames named by the messages among the events. *)
Fixpoint seenIn (events : list Event) : list Z :=
  match events with
  | [] => []
  | Frame _ :: rest => seenIn rest
  | Message msg :: rest => (msgPairs msg).*1 ++ seenIn rest
  end.

(** What ties the two globals to the match at frame [c], where [used f] is
    the remote input with which frame [f] was simulated last. *)
Definition synced (init : GS.t) (c : Z) (dlv : Z -> Prop)
    (used : Z -> Input.t) (m : Mgr.t) (g : GS.t) : Prop :=
  (Mgr.currentFrame m = c /\ 0 <= c)
  /\ (inputHistoryWf (Mgr.localInputs m)
      /\ forall f, 0 <= f -> c - 32 <= f < c + ROLLBACK_INPUT_DELAY ->
           InputHistory.get (Mgr.localInputs m) f = Some (delayed localRaw f))
  /\ (inputHistoryWf (Mgr.remoteInputs m)
      /\ forall f v, 0 <= f ->
           InputHistory.get (Mgr.remoteInputs m) f = Some v ->
           v = delayed remoteRaw f)
  /\ g = timeline init used c
  /\ (stateHistorySized (Mgr.states m)
      /\ forall f, 0 <= f -> c - 32 <= f < c ->
           StateHistory.load (Mgr.states m) f = Some (timeline init used f))
  /\ (forall f, 0 <= f < c ->
        (dlv f /\ used f = delayed remoteRaw f)
        \/ (~ dlv f /\ Mgr.predictedRemote m !! f = Some (used f))
        \/ (dlv f /\ exists t, Mgr.rollbackTarget m = Some t /\ t <= f))
  /\ (forall f, 0 <= f -> c - 32 <= f < c + 96 ->
        (dlv f <-> is_Some (InputHistory.get (Mgr.remoteInputs m) f)))
  /\ (forall f, c + 96 <= f ->
        InputHistory.get (Mgr.remoteInputs m) f = None /\ ~ dlv f)
  /\ (forall f, 0 <= f <= c - 1 - ROLLBACK_MAX_FRAMES -> dlv f)
  /\ (forall t, Mgr.rollbackTarget m = Some t ->
        0 <= t /\ c - ROLLBACK_MAX_FRAMES <= t < c).

End OnlinePlay.

Section OnlineMessages.

Variable ROLLBACK_INPUT_DELAY : Z.
Variable ROLLBACK_INPUT_REDUNDANCY : Z.
Variable ROLLBACK_MAX_FRAMES : Z.

(** What is expected of the message of tick [k]: it starts
    [ROLLBACK_INPUT_DELAY] frames ahead, leads with the raw input just
    read, holds at most [ROLLBACK_INPUT_REDUNDANCY] inputs, and each is
    the local player's input for its frame. *)
Definition goodMessage (localRaw : Z -> Input.t) (k : Z) (msg : InputMsg)
  : Prop :=
  startFrame msg = k + ROLLBACK_INPUT_DELAY
  /\ (0 < ROLLBACK_INPUT_REDUNDANCY -> head (inputs msg) = Some (localRaw k))
  /\ Z.of_nat (length (inputs msg)) <= Z.max 0 ROLLBACK_INPUT_REDUNDANCY
  /\ Forall (fun p : Z * Input.t =>
               0 <= p.1 -> p.2 = delayed ROLLBACK_INPUT_DELAY localRaw p.1)
            (msgPairs msg).

(** The messages handed to the network manager along the events, oldest
    first. *)
Fixpoint sent (isHost : bool) (d : Online.t) (events : list Event)
  : list InputMsg :=
  match events with
  | [] => []
  | Frame localInput :: rest =>
    match tickOnline ROLLBACK_INPUT_DELAY ROLLBACK_INPUT_REDUNDANCY
                     ROLLBACK_MAX_FRAMES d localInput isHost with
    | Some (d, msg, _) => msg :: sent isHost d rest
    | None => []
    end
  | Message msg :: rest => sent isHost (handleRemoteMessage d msg) rest
  end.

End OnlineMessages.

(** A short online match as the host sees it: three frames, the peer's
    inputs for frames 3 and 2 (frame 2 was simulated on a prediction),
    and a fourth frame. *)
Definition hostEvents : list Event :=
  [Frame walkRight; Frame walkRight; Frame walkRight;
   Message (mkMsg 3 [walkLeft; walkLeft]); Frame walkRight].

(** The same match as the guest sees it. *)
Definition guestEvents : list Event :=
  [Frame walkLeft; Frame walkLeft; Frame walkLeft;
   Message (mkMsg 3 [walkRight; walkRight]); Frame walkLeft].
(** * Properties *)

(** ** Records and in-place updates *)

Lemma player_set_player_eq i p s : GS.player (GS.set_player i p s) i = p.
Proof. by destruct i. Qed.

Lemma player_set_player_other i p s :
  GS.player (GS.set_player i p s) (other i) = GS.player s (other i).
Proof. by destruct i. Qed.

Lemma player_set_player_ne i j p s :
  i <> j -> GS.player (GS.set_player i p s) j = GS.player s j.
Proof. by destruct i, j. Qed.

Lemma set_player_id i s : GS.set_player i (GS.player s i) s = s.
Proof. by destruct s as [? [? ?] ? ? ? ?], i. Qed.

Lemma set_projectiles_id s : GS.set_projectiles (GS.projectiles s) s = s.
Proof. by destruct s. Qed.

Lemma Stance_eqb_eq a b : Stance_eqb a b = true <-> a = b.
Proof. by destruct a, b. Qed.

Lemma ActionState_eqb_eq a b : ActionState_eqb a b = true <-> a = b.
Proof. by destruct a, b. Qed.

Lemma Idx_eqb_eq a b : Idx_eqb a b = true <-> a = b.
Proof. by destruct a, b. Qed.

Lemma other_ne i : other i <> i.
Proof. by destruct i. Qed.

(** Comparisons on [Z] decided by linear arithmetic over the context. *)
Ltac zcmp :=
  repeat match goal with
  | |- context [?a <? ?b] =>
    first [ rewrite (proj2 (Z.ltb_lt a b)) by lia
          | rewrite (proj2 (Z.ltb_ge a b)) by lia ]
  | |- context [?a <=? ?b] =>
    first [ rewrite (proj2 (Z.leb_le a b)) by lia
          | rewrite (proj2 (Z.leb_gt a b)) by lia ]
  | |- context [?a >? ?b] =>
    rewrite (Z.gtb_ltb a b)
  | |- context [?a =? ?b] =>
    first [ rewrite (proj2 (Z.eqb_eq a b)) by lia
          | rewrite (proj2 (Z.eqb_neq a b)) by lia ]
  end.

(** ** The player's side of [updatePlayer] *)

Lemma startAttack_eq s i input :
  startAttack s i input
  = GS.set_player i
      (startAttackOn (GS.player s i) (GS.prevInput s i) input) s.
Proof.
  unfold startAttack, startAttackOn, tryAttack.
  repeat case_match; by rewrite ?set_player_id.
Qed.

Lemma spawnIfDue_eq s i :
  spawnIfDue s i
  = GS.set_projectiles
      (GS.projectiles s ++ (spawnIfDueOn i (GS.player s i)).2)
      (GS.set_player i (spawnIfDueOn i (GS.player s i)).1 s).
Proof.
  unfold spawnIfDue, spawnIfDueOn, spawnProjectile.
  repeat case_match; simplify_eq;
    rewrite ?app_nil_r, ?set_player_id, ?set_projectiles_id; try done.
  all: destruct s as [? [? ?] ? ? ? ?], i; reflexivity.
Qed.

Lemma updatePlayer_eq s i input :
  updatePlayer s i input
  = GS.set_projectiles
      (GS.projectiles s
         ++ (updatePlayerOn i (GS.player s i) (GS.prevInput s i) input).2)
      (GS.set_player i
         (updatePlayerOn i (GS.player s i) (GS.prevInput s i) input).1 s).
Proof.
  unfold updatePlayer, updatePlayerOn.
  rewrite spawnIfDue_eq, startAttack_eq.
  by destruct s as [? [? ?] ? ? ? ?], i.
Qed.
(** ** Which fields each part of [updatePlayer] leaves alone *)

Lemma clampX_in v :
  C.ARENA_LEFT <= v <= C.ARENA_RIGHT - C.PLAYER_WIDTH -> clampX v = v.
Proof. unfold clampX, C.ARENA_LEFT, C.ARENA_RIGHT, C.PLAYER_WIDTH. lia. Qed.

Lemma clampX_range v :
  C.ARENA_LEFT <= clampX v <= C.ARENA_RIGHT - C.PLAYER_WIDTH.
Proof. unfold clampX, C.ARENA_LEFT, C.ARENA_RIGHT, C.PLAYER_WIDTH. lia. Qed.

Ltac same_fields :=
  intros; unfold sameBody, sameVitals, sameAction, sameAmmo;
  repeat case_match; simplify_eq; repeat split; cbn in *;
  first [reflexivity | congruence].

Lemma tickStateTimer_same p :
  sameBody p (tickStateTimer p) /\ sameVitals p (tickStateTimer p)
  /\ sameAmmo p (tickStateTimer p)
  /\ Player.attackStance (tickStateTimer p) = Player.attackStance p.
Proof. unfold tickStateTimer. same_fields. Qed.

Lemma applyMovement_same input p :
  sameVitals p (applyMovement input p) /\ sameAction p (applyMovement input p)
  /\ sameAmmo p (applyMovement input p)
  /\ Player.attackSpawned (applyMovement input p) = Player.attackSpawned p.
Proof. unfold applyMovement. same_fields. Qed.

Lemma tryAttackOn_same p w :
  sameBody p (tryAttackOn p w) /\ sameVitals p (tryAttackOn p w)
  /\ sameAmmo p (tryAttackOn p w).
Proof. unfold tryAttackOn. same_fields. Qed.

Lemma startAttackOn_same p prev input :
  sameBody p (startAttackOn p prev input)
  /\ sameVitals p (startAttackOn p prev input)
  /\ sameAmmo p (startAttackOn p prev input).
Proof.
  unfold startAttackOn. repeat case_match; try apply tryAttackOn_same.
  all: same_fields.
Qed.

Lemma spawnProjectileOn_same i p :
  sameBody p (spawnProjectileOn i p).1 /\ sameVitals p (spawnProjectileOn i p).1
  /\ sameAction p (spawnProjectileOn i p).1.
Proof. unfold spawnProjectileOn, choosePath. same_fields. Qed.

Lemma spawnIfDueOn_same i p :
  sameBody p (spawnIfDueOn i p).1 /\ sameVitals p (spawnIfDueOn i p).1
  /\ sameAction p (spawnIfDueOn i p).1.
Proof.
  unfold spawnIfDueOn. repeat case_match; try by same_fields.
  all: match goal with H : spawnProjectileOn ?i ?p = _ |- _ =>
         pose proof (spawnProjectileOn_same i p) as Hs; rewrite H in Hs end.
  all: revert Hs; unfold sameBody, sameVitals, sameAction; cbn; tauto.
Qed.

Lemma updatePlayerOn_vitals i p prev input :
  sameVitals p (updatePlayerOn i p prev input).1.
Proof.
  unfold updatePlayerOn.
  pose proof (tickStateTimer_same p) as (_ & [] & _).
  pose proof (applyMovement_same input (tickStateTimer p)) as ([] & _).
  pose proof (startAttackOn_same (applyMovement input (tickStateTimer p))
                prev input) as (_ & [] & _).
  pose proof (spawnIfDueOn_same i
                (startAttackOn (applyMovement input (tickStateTimer p))
                   prev input)) as (_ & [] & _).
  split; congruence.
Qed.

(** The body after [updatePlayer] is the one movement gave. *)
Lemma updatePlayerOn_body i p prev input :
  sameBody (applyMovement input (tickStateTimer p))
           (updatePlayerOn i p prev input).1.
Proof.
  unfold updatePlayerOn.
  pose proof (startAttackOn_same (applyMovement input (tickStateTimer p))
                prev input) as ((?&?&?) & _).
  pose proof (spawnIfDueOn_same i
                (startAttackOn (applyMovement input (tickStateTimer p))
                   prev input)) as ((?&?&?) & _).
  repeat split; congruence.
Qed.
(** ** What each stage of the step does to the state *)

Lemma updatePlayer_player s i input :
  GS.player (updatePlayer s i input) i
  = (updatePlayerOn i (GS.player s i) (GS.prevInput s i) input).1.
Proof. rewrite updatePlayer_eq. by destruct i. Qed.

Lemma updatePlayer_other s i input :
  GS.player (updatePlayer s i input) (other i) = GS.player s (other i).
Proof. rewrite updatePlayer_eq. by destruct i. Qed.

Lemma updatePlayer_projectiles s i input :
  GS.projectiles (updatePlayer s i input)
  = GS.projectiles s
      ++ (updatePlayerOn i (GS.player s i) (GS.prevInput s i) input).2.
Proof. rewrite updatePlayer_eq. by destruct i. Qed.

Lemma updatePlayer_rest s i input :
  GS.winner (updatePlayer s i input) = GS.winner s
  /\ GS.hitstop (updatePlayer s i input) = GS.hitstop s
  /\ GS.frame (updatePlayer s i input) = GS.frame s
  /\ GS.prevInputs (updatePlayer s i input) = GS.prevInputs s.
Proof. rewrite updatePlayer_eq. by destruct i. Qed.

Lemma resolvePlayerCollision_apart s :
  bodiesOverlap s = false -> resolvePlayerCollision s = s.
Proof. unfold resolvePlayerCollision. by intros ->. Qed.

Lemma resolvePlayerCollision_player s i :
  exists v, GS.player (resolvePlayerCollision s) i
            = Player.set_x v (GS.player s i).
Proof.
  unfold resolvePlayerCollision.
  destruct (bodiesOverlap s); cbn.
  - destruct (pushApart _ _) as [ax bx].
    destruct i; [exists ax | exists bx]; reflexivity.
  - exists (Player.x (GS.player s i)). by destruct (GS.player s i).
Qed.

Lemma resolvePlayerCollision_rest s :
  GS.projectiles (resolvePlayerCollision s) = GS.projectiles s
  /\ GS.winner (resolvePlayerCollision s) = GS.winner s
  /\ GS.hitstop (resolvePlayerCollision s) = GS.hitstop s.
Proof.
  unfold resolvePlayerCollision.
  destruct (bodiesOverlap s); cbn; [|done].
  by destruct (pushApart _ _).
Qed.

(** A relation between states that every turn of a projectile loop
    preserves is preserved by the loop. *)
Lemma forEachProjectile_rel (R : GS.t -> GS.t -> Prop) body :
  (forall s, R s s) ->
  (forall s1 s2 s3, R s1 s2 -> R s2 s3 -> R s1 s3) ->
  (forall s p, R s (body s p).1) ->
  forall s ps, R s (forEachProjectile body s ps).1.
Proof.
  intros Hrefl Htrans Hbody s ps. revert s.
  induction ps as [|p ps IH]; intros s; cbn; [done|].
  pose proof (Hbody s p) as H1. destruct (body s p) as [s1 p1].
  pose proof (IH s1) as H2. destruct (forEachProjectile body s1 ps) as [s2 ps2].
  cbn in *. eauto.
Qed.

Lemma forEachProjectile_nil body s : forEachProjectile body s [] = (s, []).
Proof. reflexivity. Qed.

Lemma updateProjectiles_nil s :
  GS.projectiles s = [] -> updateProjectiles s = s.
Proof. unfold updateProjectiles. destruct s; cbn. by intros ->. Qed.

Lemma checkProjectileHits_nil s :
  GS.projectiles s = [] -> checkProjectileHits s = s.
Proof. unfold checkProjectileHits. destruct s; cbn. by intros ->. Qed.

Lemma checkWin_rest s :
  GS.players (checkWin s) = GS.players s
  /\ GS.hitstop (checkWin s) = GS.hitstop s
  /\ GS.projectiles (checkWin s) = GS.projectiles s.
Proof. unfold checkWin. cbv zeta. repeat case_match; repeat split; reflexivity. Qed.

(** The players, the hitstop and the projectiles with which [stepBody]
    ends are those that the hit checks leave. *)
Lemma stepBody_players s a b i :
  GS.player (stepBody s a b) i = GS.player (afterHits s a b) i.
Proof.
  unfold stepBody, afterHits. cbv zeta.
  match goal with |- context [checkWin ?x] => generalize x end.
  intros s6. destruct (checkWin_rest s6) as (Hp & _).
  unfold GS.player. cbn [GS.players GS.set_frame GS.set_prevInputs GS.set_projectiles].
  by rewrite Hp.
Qed.

Lemma stepBody_hitstop s a b :
  GS.hitstop (stepBody s a b) = GS.hitstop (afterHits s a b).
Proof.
  unfold stepBody, afterHits. cbv zeta.
  match goal with |- context [checkWin ?x] => generalize x end.
  intros s6. by destruct (checkWin_rest s6) as (_ & <- & _).
Qed.

Lemma stepBody_projectiles s a b :
  GS.projectiles (stepBody s a b)
  = List.filter Proj.active (GS.projectiles (afterHits s a b)).
Proof.
  unfold stepBody, afterHits. cbv zeta.
  match goal with |- context [checkWin ?x] => generalize x end.
  intros s6. by destruct (checkWin_rest s6) as (_ & _ & <-).
Qed.

Lemma simulateFrame_live s a b :
  GS.winner s = -1 -> GS.hitstop s <= 0 ->
  simulateFrame s a b = stepBody s a b.
Proof.
  intros Hw Hh. unfold simulateFrame, cloneState. rewrite Hw. cbn.
  by rewrite (proj2 (Z.ltb_ge 0 (GS.hitstop s))) by lia.
Qed.
(** ** Melee hits *)

Lemma applyBlock_spec s d :
  let s' := applyBlock s d in
  Player.state (GS.player s' d) = blockstun
  /\ Player.stateTimer (GS.player s' d) = C.BLOCKSTUN_FRAMES
  /\ Player.hp (GS.player s' d) = Player.hp (GS.player s d)
  /\ GS.hitstop s' = C.HITSTOP_BLOCK
  /\ GS.player s' (other d) = GS.player s (other d)
  /\ GS.projectiles s' = GS.projectiles s.
Proof. by destruct d. Qed.

Lemma applyDamage_spec s d damage :
  let s' := applyDamage s d damage in
  Player.state (GS.player s' d) = hitstun
  /\ Player.stateTimer (GS.player s' d) = C.HITSTUN_FRAMES
  /\ Player.hp (GS.player s' d) = Z.max 0 (Player.hp (GS.player s d) - damage)
  /\ GS.hitstop s' = C.HITSTOP_HIT
  /\ GS.player s' (other d) = GS.player s (other d)
  /\ GS.projectiles s' = GS.projectiles s.
Proof. by destruct d. Qed.

Lemma meleeHitBy_not_attacking s i :
  Player.state (GS.player s i) <> attacking -> meleeHitBy s i = s.
Proof.
  intros H. unfold meleeHitBy.
  destruct (ActionState_eqb _ attacking) eqn:E; [|done].
  by apply ActionState_eqb_eq in E.
Qed.

(** When the loop body reaches [resolveHit]. *)
Lemma meleeHitBy_resolves s i w range activeStart activeEnd :
  let atk := GS.player s i in
  let def := GS.player s (other i) in
  Player.state atk = attacking ->
  Player.activeWeapon atk = Some w ->
  Weapon.type (Weapon.WEAPON_DEFS w) = Weapon.melee range activeStart activeEnd ->
  Weapon.attackFrames (Weapon.WEAPON_DEFS w) - Player.stateTimer atk
    = activeStart ->
  Player.state def <> hitstun ->
  - C.PLAYER_WIDTH <= meleeDist atk def <= range ->
  meleeHitBy s i
  = resolveHit s i (other i)
      (if Stance_eqb (Player.attackStance atk) standing then high else low)
      (Weapon.damage (Weapon.WEAPON_DEFS w)).
Proof.
  intros atk def Hst Hw Hty Hel Hdef Hdist. unfold meleeHitBy.
  fold atk def. rewrite Hst, Hw, Hty, Hel. cbn.
  rewrite Z.eqb_refl. cbn.
  destruct (ActionState_eqb (Player.state def) hitstun) eqn:E.
  { by apply ActionState_eqb_eq in E. }
  by zcmp.
Qed.

(** ** Scenario A *)

Lemma tickStateTimer_running p :
  1 < Player.stateTimer p ->
  tickStateTimer p = Player.set_stateTimer (Player.stateTimer p - 1) p.
Proof. intros H. unfold tickStateTimer. cbn. by zcmp. Qed.

Lemma tickStateTimer_idle p :
  Player.state p = idle -> Player.state (tickStateTimer p) = idle.
Proof.
  intros H. unfold tickStateTimer. cbn. rewrite H.
  by repeat case_match.
Qed.

Lemma spawnIfDueOn_melee i p w range activeStart activeEnd :
  Player.activeWeapon p = Some w ->
  Weapon.type (Weapon.WEAPON_DEFS w) = Weapon.melee range activeStart activeEnd ->
  spawnIfDueOn i p = (p, []).
Proof. intros Hw Hty. unfold spawnIfDueOn. rewrite Hw, Hty. by case_match. Qed.

Lemma startAttackOn_busy p prev input :
  Player.state p <> idle -> startAttackOn p prev input = p.
Proof.
  intros H. unfold startAttackOn.
  destruct (ActionState_eqb _ idle) eqn:E; [|done].
  by apply ActionState_eqb_eq in E.
Qed.

Lemma applyMovement_x_step input p :
  C.ARENA_LEFT <= Player.x p <= C.ARENA_RIGHT - C.PLAYER_WIDTH ->
  Player.x p - C.MOVE_SPEED <= Player.x (applyMovement input p)
    <= Player.x p + C.MOVE_SPEED.
Proof.
  unfold applyMovement, inputDx, clampX,
    C.ARENA_LEFT, C.ARENA_RIGHT, C.PLAYER_WIDTH, C.MOVE_SPEED.
  intros H. repeat case_match; cbn; lia.
Qed.

Lemma applyMovement_attacking_facing input p :
  Player.state p = attacking ->
  Player.facing (applyMovement input p) = Player.facing p.
Proof.
  intros H. unfold applyMovement. rewrite H. cbn.
  repeat case_match; cbn in *; rewrite ?H in *; done.
Qed.

Lemma attacker_update i (A : Player.t) (prev a : Input.t) w range activeStart activeEnd :
  Player.state A = attacking ->
  Player.activeWeapon A = Some w ->
  Weapon.type (Weapon.WEAPON_DEFS w) = Weapon.melee range activeStart activeEnd ->
  1 < Player.stateTimer A ->
  C.ARENA_LEFT <= Player.x A <= C.ARENA_RIGHT - C.PLAYER_WIDTH ->
  let A' := (updatePlayerOn i A prev a).1 in
  (updatePlayerOn i A prev a).2 = [] /\
  Player.state A' = attacking /\
  Player.stateTimer A' = Player.stateTimer A - 1 /\
  Player.activeWeapon A' = Some w /\
  Player.attackStance A' = Player.attackStance A /\
  Player.facing A' = Player.facing A /\
  Player.x A - C.MOVE_SPEED <= Player.x A' <= Player.x A + C.MOVE_SPEED.
Proof.
  intros Hst Hw Hty Ht Hx. unfold updatePlayerOn.
  rewrite tickStateTimer_running by done.
  set (A1 := Player.set_stateTimer _ A).
  pose proof (applyMovement_same a A1) as (_ & (Hs & Htm & Haw & Has) & _).
  pose proof (applyMovement_x_step a A1 Hx) as Hx'.
  pose proof (applyMovement_attacking_facing a A1 Hst) as Hf.
  set (A2 := applyMovement a A1) in *.
  change (Player.state A1) with (Player.state A) in Hs.
  change (Player.activeWeapon A1) with (Player.activeWeapon A) in Haw.
  rewrite startAttackOn_busy by (rewrite Hs, Hst; done).
  rewrite (spawnIfDueOn_melee i A2 w range activeStart activeEnd)
    by (rewrite ?Haw; done).
  cbn [fst snd]. repeat split; try done; try congruence; apply Hx'.
Qed.

Lemma applyMovement_still input p :
  Player.state p = idle ->
  Input.left input = false -> Input.right input = false ->
  applyMovement input p
  = Player.set_stance (if Input.crouch input then crouching else standing) p.
Proof.
  intros Hs Hl Hr. unfold applyMovement, inputDx. by rewrite Hs, Hl, Hr.
Qed.

(** A player who starts an attack this tick does not spawn in it. *)
Lemma spawnIfDueOn_idle i p :
  Player.state p = idle -> spawnIfDueOn i p = (p, []).
Proof. intros Hs. unfold spawnIfDueOn. by rewrite Hs. Qed.

Lemma fresh_attack_no_spawn i p w :
  Player.state p = idle ->
  spawnIfDueOn i (tryAttackOn p w) = (tryAttackOn p w, []).
Proof.
  intros Hs. pose proof (spawnIfDueOn_idle i p Hs) as Hidle.
  destruct w as [w|]; [|done]. unfold tryAttackOn.
  case_match; [done|].
  unfold spawnIfDueOn. destruct w; reflexivity.
Qed.

Lemma tryAttackOn_state p w :
  Player.state p = idle ->
  Player.state (tryAttackOn p w) = idle
  \/ Player.state (tryAttackOn p w) = attacking.
Proof. intros Hs. unfold tryAttackOn. repeat case_match; cbn; auto. Qed.

Lemma idle_update i (B : Player.t) (prev b : Input.t) :
  Player.state B = idle ->
  Input.left b = false -> Input.right b = false -> Input.crouch b = false ->
  let B' := (updatePlayerOn i B prev b).1 in
  (updatePlayerOn i B prev b).2 = [] /\
  Player.x B' = Player.x B /\ Player.facing B' = Player.facing B /\
  Player.stance B' = standing /\ Player.hp B' = Player.hp B /\
  Player.state B' <> hitstun.
Proof.
  intros Hs Hl Hr Hc.
  pose proof (updatePlayerOn_vitals i B prev b) as [Hhp _].
  pose proof (updatePlayerOn_body i B prev b) as (Hx & Hf & Hst).
  pose proof (tickStateTimer_same B) as ((Hx0 & Hf0 & _) & _).
  pose proof (tickStateTimer_idle B Hs) as Hs1.
  rewrite (applyMovement_still b _ Hs1 Hl Hr), Hc in Hx, Hf, Hst.
  cbn in Hx, Hf, Hst.
  assert (Hp : (updatePlayerOn i B prev b).2 = []
               /\ Player.state (updatePlayerOn i B prev b).1 <> hitstun).
  { unfold updatePlayerOn.
    rewrite (applyMovement_still b _ Hs1 Hl Hr), Hc.
    set (B1 := Player.set_stance standing (tickStateTimer B)).
    assert (Hs2 : Player.state B1 = idle) by done.
    unfold startAttackOn. rewrite Hs2. cbn [ActionState_eqb].
    destruct (firstPressed b prev).
    - rewrite fresh_attack_no_spawn by done. cbn [fst snd]. split; [done|].
      destruct (tryAttackOn_state B1 (Player.weapons B1 !! n) Hs2) as [-> | ->];
        done.
    - rewrite spawnIfDueOn_idle by done. cbn [fst snd]. by rewrite Hs2. }
  destruct Hp. repeat split; try done; congruence.
Qed.
Lemma resolveHit_blocked s i d h damage :
  meleeBlocked (GS.player s i) (GS.player s d) h = true ->
  resolveHit s i d h damage = applyBlock s d.
Proof. unfold resolveHit. by intros ->. Qed.

Lemma resolveHit_connects s i d h damage :
  meleeBlocked (GS.player s i) (GS.player s d) h = false ->
  resolveHit s i d h damage = applyDamage s d damage.
Proof. unfold resolveHit. by intros ->. Qed.

(** The state in which the hit checks of scenario A run. *)
Lemma scenarioA_before_hits (s : GS.t) (a b : Input.t) :
  GS.projectiles s = [] ->
  Player.state (GS.player s I0) = attacking ->
  Player.activeWeapon (GS.player s I0) = Some Weapon.sword ->
  Player.stateTimer (GS.player s I0) = 18 ->
  Player.state (GS.player s I1) = idle ->
  Input.left b = false -> Input.right b = false -> Input.crouch b = false ->
  C.ARENA_LEFT <= Player.x (GS.player s I0) ->
  Player.x (GS.player s I1) <= C.ARENA_RIGHT - C.PLAYER_WIDTH ->
  Player.x (GS.player s I1) - (Player.x (GS.player s I0) + C.PLAYER_WIDTH) = 40 ->
  let s4 :=
    updateProjectiles
      (resolvePlayerCollision (updatePlayer (updatePlayer s I0 a) I1 b)) in
  let A' := GS.player s4 I0 in
  let B' := GS.player s4 I1 in
  GS.projectiles s4 = [] /\ GS.hitstop s4 = GS.hitstop s
  /\ Player.state A' = attacking /\ Player.stateTimer A' = 17
  /\ Player.activeWeapon A' = Some Weapon.sword
  /\ Player.attackStance A' = Player.attackStance (GS.player s I0)
  /\ Player.facing A' = Player.facing (GS.player s I0)
  /\ Player.x (GS.player s I0) - 3 <= Player.x A' <= Player.x (GS.player s I0) + 3
  /\ Player.x B' = Player.x (GS.player s I1)
  /\ Player.facing B' = Player.facing (GS.player s I1)
  /\ Player.stance B' = standing
  /\ Player.hp B' = Player.hp (GS.player s I1)
  /\ Player.state B' <> hitstun.
Proof.
  intros Hproj HsA HwA HtA HsB Hl Hr Hc HxA HxB Hd.
  unfold C.ARENA_LEFT, C.ARENA_RIGHT, C.PLAYER_WIDTH in *.
  set (s1 := updatePlayer s I0 a). set (s2 := updatePlayer s1 I1 b).
  destruct (attacker_update I0 (GS.player s I0) (GS.prevInput s I0) a
              Weapon.sword 60 7 13 HsA HwA eq_refl)
    as (Hp0 & HsA' & HtA' & HwA' & HaA' & HfA' & HxA');
    [lia | unfold C.ARENA_LEFT, C.ARENA_RIGHT, C.PLAYER_WIDTH; lia |].
  assert (H1B : GS.player s1 I1 = GS.player s I1)
    by apply (updatePlayer_other s I0 a).
  assert (H1A : GS.player s1 I0
                = (updatePlayerOn I0 (GS.player s I0) (GS.prevInput s I0) a).1)
    by apply updatePlayer_player.
  assert (H1p : GS.projectiles s1 = []).
  { unfold s1. by rewrite updatePlayer_projectiles, Hproj, Hp0. }
  destruct (idle_update I1 (GS.player s1 I1) (GS.prevInput s1 I1) b)
    as (Hp1 & HxB' & HfB' & HstB' & HhpB' & HsB'); try done.
  { by rewrite H1B. }
  assert (H2A : GS.player s2 I0 = GS.player s1 I0)
    by apply (updatePlayer_other s1 I1 b).
  assert (H2B : GS.player s2 I1
                = (updatePlayerOn I1 (GS.player s1 I1) (GS.prevInput s1 I1) b).1)
    by apply updatePlayer_player.
  assert (H2p : GS.projectiles s2 = []).
  { unfold s2. by rewrite updatePlayer_projectiles, H1p, Hp1. }
  assert (H2h : GS.hitstop s2 = GS.hitstop s).
  { unfold s2, s1.
    destruct (updatePlayer_rest (updatePlayer s I0 a) I1 b) as (_ & -> & _).
    by destruct (updatePlayer_rest s I0 a) as (_ & -> & _). }
  rewrite <- H2B in *. rewrite <- H1A in *. rewrite H1B in *.
  unfold C.MOVE_SPEED in *.
  assert (Hno : bodiesOverlap s2 = false).
  { unfold bodiesOverlap, C.PLAYER_WIDTH. rewrite H2A, HxB'.
    apply negb_false_iff, orb_true_iff. left. apply Z.leb_le. lia. }
  rewrite (resolvePlayerCollision_apart s2 Hno).
  rewrite (updateProjectiles_nil s2 H2p).
  cbv zeta. rewrite H2A, HtA in *.
  repeat split; try done; lia.
Qed.
(** C1 (as amended).  Scenario A: Player A, facing right, is attacking
    with the Sword from a standing attack stance and this tick is the
    first active frame ([stateTimer = 18], so that [attackFrames] minus
    the decremented timer is [activeStart]); Player B is idle, keeps still
    and does not crouch, 40 away inside the Sword's range.  If B faces A
    the step blocks the hit: B is in blockstun for [BLOCKSTUN_FRAMES], B's
    HP is unchanged and hitstop is [HITSTOP_BLOCK].  If B has its back to
    A the hit connects: hitstun for [HITSTUN_FRAMES], HP minus one,
    hitstop [HITSTOP_HIT]. *)
Theorem scenarioA_outcome (s : GS.t) (a b : Input.t) :
  let A := GS.player s I0 in
  let B := GS.player s I1 in
  GS.winner s = -1 -> GS.hitstop s = 0 -> GS.projectiles s = [] ->
  Player.state A = attacking ->
  Player.activeWeapon A = Some Weapon.sword ->
  Player.attackStance A = standing ->
  Player.facing A = 1 ->
  Player.stateTimer A = 18 ->
  Player.state B = idle ->
  0 < Player.hp B ->
  Input.left b = false -> Input.right b = false -> Input.crouch b = false ->
  C.ARENA_LEFT <= Player.x A ->
  Player.x B <= C.ARENA_RIGHT - C.PLAYER_WIDTH ->
  Player.x B - (Player.x A + C.PLAYER_WIDTH) = 40 ->
  let s' := simulateFrame s a b in
  let B' := GS.player s' I1 in
  (Player.facing B = -1 ->
   Player.state B' = blockstun /\ Player.stateTimer B' = C.BLOCKSTUN_FRAMES
   /\ Player.hp B' = Player.hp B /\ GS.hitstop s' = C.HITSTOP_BLOCK)
  /\ (Player.facing B = 1 ->
      Player.state B' = hitstun /\ Player.stateTimer B' = C.HITSTUN_FRAMES
      /\ Player.hp B' = Player.hp B - 1 /\ GS.hitstop s' = C.HITSTOP_HIT).
Proof.
  intros A B Hw Hh Hproj HsA HwA HaA HfA HtA HsB Hhp Hl Hr Hc HxA HxB Hd.
  subst A B. cbv zeta. rewrite simulateFrame_live by lia.
  rewrite stepBody_players, stepBody_hitstop. unfold afterHits.
  destruct (scenarioA_before_hits s a b Hproj HsA HwA HtA HsB Hl Hr Hc HxA HxB Hd)
    as (H4p & H4h & HsA' & HtA' & HwA' & HaA' & HfA' & HxA' & HxB' & HfB'
        & HstB' & HhpB' & HsB').
  set (s4 := updateProjectiles _) in *. clearbody s4.
  set (A := GS.player s I0) in *. set (B := GS.player s I1) in *.
  clearbody A B.
  unfold C.ARENA_LEFT, C.ARENA_RIGHT, C.PLAYER_WIDTH in *.
  assert (Hhit : meleeHitBy s4 I0 = resolveHit s4 I0 I1 high 1).
  { rewrite (meleeHitBy_resolves s4 I0 Weapon.sword 60 7 13); try done.
    - by rewrite HaA', HaA.
    - by rewrite HtA'.
    - unfold meleeDist, C.PLAYER_WIDTH. cbn [other].
      rewrite HfA', HfA, HxB'. change (1 =? 1) with true. cbv iota. lia. }
  assert (Hface : facingAttacker (GS.player s4 I0) (GS.player s4 I1)
                  = (Player.facing B =? -1)).
  { unfold facingAttacker, C.PLAYER_WIDTH. rewrite HfB', HxB'.
    change (48 / 2) with 24. rewrite Z.gtb_ltb.
    destruct (Z.eqb_spec (Player.facing B) 1) as [E|E];
      destruct (Z.eqb_spec (Player.facing B) (-1)) as [E'|E'];
      try lia; cbn [andb orb]; zcmp; reflexivity. }
  unfold checkMeleeHits. rewrite Hhit.
  split; intros HfB.
  - assert (Hb : meleeBlocked (GS.player s4 I0) (GS.player s4 I1) high = true).
    { unfold meleeBlocked. by rewrite Hface, HfB, HstB'. }
    rewrite (resolveHit_blocked _ _ _ _ _ Hb).
    destruct (applyBlock_spec s4 I1) as (Hs & Ht & Hhp' & Hhs & _ & Hpr).
    rewrite meleeHitBy_not_attacking by (rewrite Hs; done).
    rewrite checkProjectileHits_nil by congruence.
    split; [exact Hs|]. split; [exact Ht|]. split; [|exact Hhs].
    by rewrite Hhp'.
  - assert (Hb : meleeBlocked (GS.player s4 I0) (GS.player s4 I1) high = false).
    { unfold meleeBlocked. by rewrite Hface, HfB. }
    rewrite (resolveHit_connects _ _ _ _ _ Hb).
    destruct (applyDamage_spec s4 I1 1) as (Hs & Ht & Hhp' & Hhs & _ & Hpr).
    rewrite meleeHitBy_not_attacking by (rewrite Hs; done).
    rewrite checkProjectileHits_nil by congruence.
    split; [exact Hs|]. split; [exact Ht|]. split; [|exact Hhs].
    rewrite Hhp', HhpB'. lia.
Qed.

(** [scenarioA] is a state of play: 111 steps reach it from the initial
    state. *)
Lemma scenarioA_reachable :
  runFrames (createGameState loadoutA loadoutA) scenarioA_inputs = scenarioA.
Proof. by vm_compute. Qed.

(** Scenario A at that state: the outcome is the block. *)
Lemma scenarioA_outcome_witness :
  let s' := simulateFrame scenarioA createEmptyInput createEmptyInput in
  Player.state (GS.player s' I1) = blockstun
  /\ Player.stateTimer (GS.player s' I1) = C.BLOCKSTUN_FRAMES
  /\ Player.hp (GS.player s' I1) = Player.hp (GS.player scenarioA I1)
  /\ GS.hitstop s' = C.HITSTOP_BLOCK.
Proof.
  refine (proj1 (scenarioA_outcome scenarioA createEmptyInput createEmptyInput
                   _ _ _ _ _ _ _ _ _ _ _ _ _ _ _ _) _);
    first [reflexivity | by vm_compute].
Defined.

(** C1, as stated, fails at [scenarioA]: Player B is not in hitstun, has
    lost no HP, and hitstop is not [HITSTOP_HIT]. *)
Lemma scenarioA_not_hit :
  let s' := simulateFrame scenarioA createEmptyInput createEmptyInput in
  ~ (Player.state (GS.player s' I1) = hitstun
     /\ Player.hp (GS.player s' I1) = Player.hp (GS.player scenarioA I1) - 1
     /\ GS.hitstop s' = C.HITSTOP_HIT).
Proof. vm_compute. intros (H & _). discriminate H. Qed.
(** ** Crouching *)

(** C8: the code turns a crouching player.  From the initial state Player
    A crouches for one tick, then holds crouch and left for another: A is
    still crouching at the same place and now faces left, where the claim
    (and the README: "directional input while crouching is ignored ...
    you keep your current facing") has the facing kept. *)
Theorem crouching_player_turns :
  let s1 := simulateFrame (createGameState loadoutA loadoutA)
              crouchHold createEmptyInput in
  let s2 := simulateFrame s1 crouchLeft createEmptyInput in
  Player.stance (GS.player s1 I0) = crouching
  /\ Player.state (GS.player s1 I0) = idle
  /\ Player.facing (GS.player s1 I0) = 1
  /\ Player.stance (GS.player s2 I0) = crouching
  /\ Player.x (GS.player s2 I0) = Player.x (GS.player s1 I0)
  /\ Player.facing (GS.player s2 I0) = -1.
Proof. by vm_compute. Qed.


Lemma sameBody_refl p : sameBody p p.
Proof. by repeat split. Qed.

Lemma sameBody_trans p q r : sameBody p q -> sameBody q r -> sameBody p r.
Proof. unfold sameBody. intros (?&?&?) (?&?&?). repeat split; congruence. Qed.

Lemma bodiesKept_refl s : bodiesKept s s.
Proof. intros i. split; [apply sameBody_refl | by split]. Qed.

Lemma bodiesKept_trans s1 s2 s3 :
  bodiesKept s1 s2 -> bodiesKept s2 s3 -> bodiesKept s1 s3.
Proof.
  intros H1 H2 i. destruct (H1 i) as (Hb1 & Hc1 & Hd1).
  destruct (H2 i) as (Hb2 & Hc2 & Hd2).
  split; [eapply sameBody_trans; eauto | split; congruence].
Qed.

Lemma applyDamage_bodies s d damage : bodiesKept s (applyDamage s d damage).
Proof. intros i. by destruct d, i. Qed.

Lemma applyBlock_bodies s d : bodiesKept s (applyBlock s d).
Proof. intros i. by destruct d, i. Qed.

Lemma resolveHit_bodies s i d h damage :
  bodiesKept s (resolveHit s i d h damage).
Proof.
  unfold resolveHit. case_match;
    [apply applyBlock_bodies | apply applyDamage_bodies].
Qed.

Lemma meleeHitBy_bodies s i : bodiesKept s (meleeHitBy s i).
Proof.
  unfold meleeHitBy.
  repeat case_match; try apply bodiesKept_refl; apply resolveHit_bodies.
Qed.

Lemma checkMeleeHits_bodies s : bodiesKept s (checkMeleeHits s).
Proof.
  unfold checkMeleeHits.
  eapply bodiesKept_trans; apply meleeHitBy_bodies.
Qed.

Lemma set_projectiles_bodies s ps : bodiesKept s (GS.set_projectiles ps s).
Proof. intros i. by destruct i. Qed.

Lemma projectileVsPlayer_bodies s proj i r :
  projectileVsPlayer s proj i = Some r -> bodiesKept s r.1.
Proof.
  unfold projectileVsPlayer. intros H.
  repeat case_match; simplify_eq; cbn [fst];
    first [apply bodiesKept_refl | apply applyBlock_bodies
          | apply applyDamage_bodies].
Qed.

Lemma checkProjectileHit_bodies s proj :
  bodiesKept s (checkProjectileHit s proj).1.
Proof.
  unfold checkProjectileHit.
  repeat case_match; try apply bodiesKept_refl;
    eapply projectileVsPlayer_bodies; eauto.
Qed.

Lemma checkProjectileHits_bodies s : bodiesKept s (checkProjectileHits s).
Proof.
  unfold checkProjectileHits.
  pose proof (forEachProjectile_rel bodiesKept checkProjectileHit
                bodiesKept_refl bodiesKept_trans checkProjectileHit_bodies
                s (GS.projectiles s)) as H.
  destruct (forEachProjectile _ _ _) as [st ps]. cbn [fst] in H.
  eapply bodiesKept_trans; [exact H | apply set_projectiles_bodies].
Qed.

Lemma updateBoomerang_bodies s proj : bodiesKept s (updateBoomerang s proj).1.
Proof.
  unfold updateBoomerang.
  repeat case_match; cbn [fst]; try apply bodiesKept_refl.
  intros i. by destruct (Proj.owner _), i.
Qed.

Lemma updateProjectile_bodies s proj :
  bodiesKept s (updateProjectile s proj).1.
Proof.
  unfold updateProjectile.
  repeat case_match; cbn [fst]; try apply bodiesKept_refl.
  apply updateBoomerang_bodies.
Qed.

Lemma updateProjectiles_bodies s : bodiesKept s (updateProjectiles s).
Proof.
  unfold updateProjectiles.
  pose proof (forEachProjectile_rel bodiesKept updateProjectile
                bodiesKept_refl bodiesKept_trans updateProjectile_bodies
                s (GS.projectiles s)) as H.
  destruct (forEachProjectile _ _ _) as [st ps]. cbn [fst] in H.
  eapply bodiesKept_trans; [exact H | apply set_projectiles_bodies].
Qed.

(** A crouching player with crouch held stays crouching where it is
    through its own update. *)
Lemma applyMovement_crouching input p :
  Player.stance p = crouching -> Input.crouch input = true ->
  Player.x (applyMovement input p) = Player.x p
  /\ Player.stance (applyMovement input p) = crouching.
Proof.
  intros Hs Hc. unfold applyMovement. rewrite Hc.
  repeat case_match; cbn in *; rewrite ?Hs in *; done.
Qed.

Lemma updatePlayerOn_crouching i p prev input :
  Player.stance p = crouching -> Input.crouch input = true ->
  Player.x (updatePlayerOn i p prev input).1 = Player.x p
  /\ Player.stance (updatePlayerOn i p prev input).1 = crouching.
Proof.
  intros Hs Hc.
  destruct (updatePlayerOn_body i p prev input) as (Hx & _ & Hst).
  destruct (tickStateTimer_same p) as ((Hx0 & _ & Hs0) & _).
  destruct (applyMovement_crouching input (tickStateTimer p)) as (Hx1 & Hs1);
    [congruence | done |].
  split; congruence.
Qed.

Lemma simulateFrame_frozen s a b :
  live s = false -> GS.players (simulateFrame s a b) = GS.players s.
Proof.
  unfold live, simulateFrame, cloneState. intros H.
  destruct (GS.winner s =? -1); [|done].
  by destruct (0 <? GS.hitstop s).
Qed.

Lemma simulateFrame_running s a b :
  live s = true -> simulateFrame s a b = stepBody s a b.
Proof.
  unfold live, simulateFrame, cloneState. intros H.
  destruct (GS.winner s =? -1); [|done].
  by destruct (0 <? GS.hitstop s).
Qed.

Lemma updatePlayers_crouching s i ab :
  Player.stance (GS.player s i) = crouching ->
  Input.crouch (inputOf i ab) = true ->
  let s2 := updatePlayer (updatePlayer s I0 ab.1) I1 ab.2 in
  Player.x (GS.player s2 i) = Player.x (GS.player s i)
  /\ Player.stance (GS.player s2 i) = crouching.
Proof.
  intros Hs Hc. cbv zeta. destruct i.
  - rewrite (updatePlayer_other _ I1 ab.2).
    rewrite updatePlayer_player. by apply updatePlayerOn_crouching.
  - rewrite updatePlayer_player.
    rewrite (updatePlayer_other _ I0 ab.1).
    by apply updatePlayerOn_crouching.
Qed.

(** One step of the crouch lock, for either player. *)
Lemma crouch_lock_step s i ab :
  Player.stance (GS.player s i) = crouching ->
  Input.crouch (inputOf i ab) = true ->
  pushes s ab = false ->
  let s' := simulateFrame s ab.1 ab.2 in
  Player.x (GS.player s' i) = Player.x (GS.player s i)
  /\ Player.stance (GS.player s' i) = crouching.
Proof.
  intros Hs Hc Hp. cbv zeta.
  destruct (live s) eqn:Hl.
  - rewrite simulateFrame_running by done.
    rewrite stepBody_players. unfold afterHits.
    destruct (updatePlayers_crouching s i ab Hs Hc) as (Hx2 & Hs2).
    unfold pushes in Hp. rewrite Hl, andb_true_l in Hp.
    rewrite (resolvePlayerCollision_apart _ Hp).
    generalize dependent (updatePlayer (updatePlayer s I0 ab.1) I1 ab.2).
    intros s2 _ Hx2 Hs2.
    destruct (updateProjectiles_bodies s2 i) as ((Hx4 & _ & Hs4) & _).
    generalize dependent (updateProjectiles s2). intros s4 Hx4 Hs4.
    destruct (checkMeleeHits_bodies s4 i) as ((Hx5 & _ & Hs5) & _).
    generalize dependent (checkMeleeHits s4). intros s5 Hx5 Hs5.
    destruct (checkProjectileHits_bodies s5 i) as ((Hx6 & _ & Hs6) & _).
    split; congruence.
  - unfold GS.player. rewrite (simulateFrame_frozen _ _ _ Hl).
    by destruct i.
Qed.

(** The lock over a run, from any crouching player. *)
Lemma crouch_lock_run i inputs : forall s,
  Player.stance (GS.player s i) = crouching ->
  Forall (fun ab => Input.crouch (inputOf i ab) = true) inputs ->
  noPush s inputs = true ->
  Player.x (GS.player (runFrames s inputs) i) = Player.x (GS.player s i)
  /\ Player.stance (GS.player (runFrames s inputs) i) = crouching.
Proof.
  induction inputs as [|ab rest IH]; intros s Hs Hc Hp; [done|].
  apply Forall_cons in Hc as [Hc Hrest].
  cbn [noPush] in Hp. apply andb_true_iff in Hp as [Hp Hp'].
  apply negb_true_iff in Hp.
  destruct (crouch_lock_step s i ab Hs Hc Hp) as (Hx1 & Hs1).
  destruct (IH _ Hs1 Hrest Hp') as (Hx & Hst).
  unfold runFrames in *. cbn [foldl]. split; congruence.
Qed.

(** C9 (as amended).  A player who is crouching and idle, and whose
    crouch intent stays held over any number of consecutive steps, keeps
    its horizontal position whatever left/right intents are supplied, as
    long as no step of the run resolves a body overlap: the player's own
    intents never move it, only [resolvePlayerCollision] can. *)
Theorem crouch_lock (s : GS.t) (i : Idx) (inputs : list (Input.t * Input.t)) :
  Player.stance (GS.player s i) = crouching ->
  Player.state (GS.player s i) = idle ->
  Forall (fun ab => Input.crouch (inputOf i ab) = true) inputs ->
  noPush s inputs = true ->
  Player.x (GS.player (runFrames s inputs) i) = Player.x (GS.player s i).
Proof. intros Hs _ Hc Hp. by apply crouch_lock_run. Qed.

(** The crouching Player A of [crouching_player_turns] holds crouch and
    left for 40 ticks while Player B walks towards it: A has not moved. *)
Lemma crouch_lock_witness :
  let s1 := simulateFrame (createGameState loadoutA loadoutA)
              crouchHold createEmptyInput in
  Player.x (GS.player (runFrames s1 (replicate 40 (crouchLeft, walkLeft))) I0)
  = Player.x (GS.player s1 I0).
Proof.
  apply (crouch_lock _ I0 (replicate 40 (crouchLeft, walkLeft)));
    [reflexivity | reflexivity | | by vm_compute].
  apply Forall_replicate. reflexivity.
Defined.

(** C9, as stated, fails: Player A is crouching and idle and holds crouch
    throughout, Player B walks into it, and the overlap resolution moves
    A from 200 to 199. *)
Lemma crouch_lock_pushed :
  let s1 := simulateFrame (createGameState loadoutA loadoutA)
              crouchHold walkLeft in
  let s2 := runFrames s1 (replicate 117 (crouchLeft, walkLeft)) in
  Player.stance (GS.player s1 I0) = crouching
  /\ Player.state (GS.player s1 I0) = idle
  /\ Forall (fun ab => Input.crouch (inputOf I0 ab) = true)
            (replicate 117 (crouchLeft, walkLeft))
  /\ Player.x (GS.player s2 I0) <> Player.x (GS.player s1 I0).
Proof.
  repeat split; try by vm_compute.
  apply Forall_replicate. reflexivity.
Qed.
(** ** The blocking rule *)

Lemma facingAttacker_spec atk def :
  facingAttacker atk def = true <-> facesAttacker def atk.
Proof.
  unfold facingAttacker, facesAttacker, C.PLAYER_WIDTH.
  change (48 / 2) with 24. rewrite Z.gtb_ltb.
  rewrite orb_true_iff, !andb_true_iff, !Z.eqb_eq, !Z.ltb_lt. lia.
Qed.

Lemma meleeBlocked_spec atk def h :
  meleeBlocked atk def h = true
  <-> facesAttacker def atk /\ shieldHeight (Player.stance def) = h.
Proof.
  unfold meleeBlocked. rewrite andb_true_iff, facingAttacker_spec.
  destruct h, (Player.stance def); cbn; intuition congruence.
Qed.

Lemma block_not_hit s s' d damage :
  blockOutcome s s' d -> hitOutcome s s' d damage -> False.
Proof. intros (H1 & _) (_ & H2 & _). congruence. Qed.

Lemma resolveHit_outcome s i h damage :
  let def := GS.player s (other i) in
  let s' := resolveHit s i (other i) h damage in
  (meleeBlocked (GS.player s i) def h = true /\ blockOutcome s s' (other i))
  \/ (meleeBlocked (GS.player s i) def h = false
      /\ hitOutcome s s' (other i) damage).
Proof.
  cbv zeta. unfold resolveHit.
  destruct (meleeBlocked _ _ h); [left | right]; (split; [done|]).
  - destruct (applyBlock_spec s (other i)) as (? & ? & ? & ? & _).
    by repeat split.
  - destruct (applyDamage_spec s (other i) damage) as (? & ? & ? & ? & _).
    by repeat split.
Qed.

Lemma isFacingProjectile_spec def proj :
  isFacingProjectile def proj = true <-> facesProjectile def proj.
Proof. unfold isFacingProjectile, facesProjectile. apply Z.eqb_eq. Qed.

(** The outcome of a projectile resolution, whichever branch took it. *)
Lemma projectileVsPlayer_outcome s proj j s' proj' ph :
  projectileVsPlayer s proj j = Some (s', proj') ->
  attackHeightOf (Proj.height_ proj) = Some ph ->
  let def := GS.player s j in
  Proj.active proj' = false
  /\ ((isFacingProjectile def proj = true
       /\ shieldHeight (Player.stance def) = ph
       /\ blockOutcome s s' j)
      \/ (~ (isFacingProjectile def proj = true
             /\ shieldHeight (Player.stance def) = ph)
          /\ hitOutcome s s' j (Proj.damage proj))).
Proof.
  unfold projectileVsPlayer. intros H Hh. cbv zeta.
  destruct (Idx_eqb j (Proj.owner proj)); [done|].
  destruct (ActionState_eqb _ hitstun); [done|].
  destruct (_ || _); [done|].
  destruct (Proj.height_ proj) eqn:Ehe; simplify_eq; cbn in Hh; simplify_eq;
    destruct (Player.stance (GS.player s j)) eqn:Est; cbn in H; simplify_eq;
    try destruct (isFacingProjectile (GS.player s j) proj) eqn:Ef;
    simplify_eq; (split; [done|]).
  all: first
    [ left; split; [done|]; split; [done|];
      destruct (applyBlock_spec s j) as (? & ? & ? & ? & _); by repeat split
    | right; split; [intros [? ?]; done|];
      destruct (applyDamage_spec s j (Proj.damage proj)) as (? & ? & ? & ? & _);
      by repeat split ].
Qed.

Lemma projectileVsPlayer_None s proj j :
  projectileVsPlayer s proj j = None
  <-> (j = Proj.owner proj
       \/ Player.state (GS.player s j) = hitstun
       \/ ~ overlapsX proj (GS.player s j)
       \/ (Proj.height_ proj = Proj.head
           /\ Player.stance (GS.player s j) = crouching)).
Proof.
  unfold projectileVsPlayer, overlapsX.
  destruct (Idx_eqb j (Proj.owner proj)) eqn:Eo.
  { apply Idx_eqb_eq in Eo. tauto. }
  assert (j <> Proj.owner proj) by (intros E; apply Idx_eqb_eq in E; congruence).
  destruct (ActionState_eqb _ hitstun) eqn:Es.
  { apply ActionState_eqb_eq in Es. tauto. }
  assert (Player.state (GS.player s j) <> hitstun)
    by (intros E; apply ActionState_eqb_eq in E; congruence).
  rewrite Z.gtb_ltb.
  destruct (Z.ltb_spec (Proj.x proj) (Player.x (GS.player s j)));
    [cbn; split; [right; right; left; lia | done] |].
  destruct (Z.ltb_spec (Player.x (GS.player s j) + C.PLAYER_WIDTH) (Proj.x proj));
    [cbn; split; [right; right; left; lia | done] |].
  cbn.
  destruct (Proj.height_ proj), (Player.stance (GS.player s j)); cbn;
    repeat case_match; split; try done; try tauto;
    intros [?|[?|[?|[? ?]]]]; try done; lia.
Qed.

(** C3.  The blocking rule of melee and projectile hit resolution.  For
    [resolveHit] (attacker [i], defender the other player) and for every
    projectile resolution (the inner loop of [checkProjectileHits]
    reaching a block-or-damage outcome with a projectile of real height):
    the outcome is a block exactly when the defender faces the attack's
    origin and its shield height equals the attack height, and a hit
    otherwise; a block is blockstun with [HITSTOP_BLOCK] and no damage, a
    hit is damage, hitstun and the longer [HITSTOP_HIT]; an attack from
    the defender's back is a hit whatever the stance.  A projectile
    resolution takes place unless the player is the owner, is in hitstun,
    does not overlap, or crouches under a head-level projectile. *)
Theorem blocking_rule :
  (forall (s : GS.t) (i : Idx) (h : AttackHeight) (damage : Z),
     let atk := GS.player s i in
     let def := GS.player s (other i) in
     let s' := resolveHit s i (other i) h damage in
     (blockOutcome s s' (other i)
      <-> facesAttacker def atk /\ shieldHeight (Player.stance def) = h)
     /\ (hitOutcome s s' (other i) damage
         <-> ~ (facesAttacker def atk /\ shieldHeight (Player.stance def) = h))
     /\ (~ facesAttacker def atk -> hitOutcome s s' (other i) damage))
  /\ (forall (s : GS.t) (proj : Proj.t) (j : Idx) (s' : GS.t) (proj' : Proj.t)
        (ph : AttackHeight),
        projectileVsPlayer s proj j = Some (s', proj') ->
        attackHeightOf (Proj.height_ proj) = Some ph ->
        let def := GS.player s j in
        (blockOutcome s s' j
         <-> facesProjectile def proj /\ shieldHeight (Player.stance def) = ph)
        /\ (hitOutcome s s' j (Proj.damage proj)
            <-> ~ (facesProjectile def proj
                   /\ shieldHeight (Player.stance def) = ph))
        /\ (~ facesProjectile def proj -> hitOutcome s s' j (Proj.damage proj))
        /\ Proj.active proj' = false)
  /\ (forall (s : GS.t) (proj : Proj.t) (j : Idx),
        projectileVsPlayer s proj j = None
        <-> (j = Proj.owner proj
             \/ Player.state (GS.player s j) = hitstun
             \/ ~ overlapsX proj (GS.player s j)
             \/ (Proj.height_ proj = Proj.head
                 /\ Player.stance (GS.player s j) = crouching)))
  /\ C.HITSTOP_BLOCK < C.HITSTOP_HIT.
Proof.
  split; [|split; [|split; [apply projectileVsPlayer_None | done]]].
  - intros s i h damage. cbv zeta.
    pose proof (meleeBlocked_spec (GS.player s i) (GS.player s (other i)) h)
      as Hspec.
    destruct (resolveHit_outcome s i h damage) as [[Hb Ho] | [Hb Ho]].
    + apply Hspec in Hb as F.
      split; [split; intros _; assumption|].
      split; [split|].
      * intros Hh. destruct (block_not_hit _ _ _ _ Ho Hh).
      * intros Hn. destruct (Hn F).
      * intros Hn. destruct F as [F1 _]. destruct (Hn F1).
    + assert (Hn : ~ (facesAttacker (GS.player s (other i)) (GS.player s i)
                      /\ shieldHeight (Player.stance (GS.player s (other i)))
                         = h)).
      { intros Hc. apply Hspec in Hc. congruence. }
      split; [split|].
      * intros Hc. destruct (block_not_hit _ _ _ _ Hc Ho).
      * intros F. destruct (Hn F).
      * split; [split; intros _; assumption | intros _; assumption].
  - intros s proj j s' proj' ph Hres Hh. cbv zeta.
    destruct (projectileVsPlayer_outcome s proj j s' proj' ph Hres Hh)
      as (Hact & [(Hf & Hsh & Ho) | (Hn & Ho)]).
    + apply isFacingProjectile_spec in Hf.
      split; [split; intros _; [split|]; assumption|].
      split; [split|split; [|assumption]].
      * intros Hc. destruct (block_not_hit _ _ _ _ Ho Hc).
      * intros Hn. destruct (Hn (conj Hf Hsh)).
      * intros Hn. destruct (Hn Hf).
    + rewrite isFacingProjectile_spec in Hn.
      split; [split|].
      * intros Hc. destruct (block_not_hit _ _ _ _ Hc Ho).
      * intros F. destruct (Hn F).
      * split; [split; intros _; assumption|].
        split; [intros _; assumption | assumption].
Qed.

(** The projectile half of the rule at the initial state: Player B
    stands facing a head-level knife and blocks it. *)
Lemma blocking_rule_witness :
  let s := createGameState loadoutA loadoutA in
  blockOutcome s (applyBlock s I1) I1
  <-> facesProjectile (GS.player s I1) headKnife
      /\ shieldHeight (Player.stance (GS.player s I1)) = high.
Proof.
  destruct blocking_rule as (_ & H & _).
  refine (proj1 (H (createGameState loadoutA loadoutA) headKnife I1 _ _ high
                   _ _)); reflexivity.
Defined.

(** ** Throwing knives *)

Lemma spawn_knife idx p :
  Player.activeWeapon p = Some Weapon.throwingKnife ->
  exists k,
    spawnProjectileOn idx p = (p, [k])
    /\ Proj.type k = Proj.knife /\ Proj.owner k = idx
    /\ Proj.active k = true
    /\ (Player.attackStance p = standing ->
        Proj.height_ k = Proj.head /\ Proj.y k = Proj.yconst C.HEAD_Y)
    /\ (Player.attackStance p = crouching ->
        Proj.height_ k = Proj.ankle /\ Proj.y k = Proj.yconst C.ANKLE_Y).
Proof.
  intros Hw. unfold spawnProjectileOn. rewrite Hw. cbn.
  eexists. split; [reflexivity|]. unfold newKnife. cbn.
  split; [done|]. split; [done|]. split; [done|].
  split; intros ->; done.
Qed.

Lemma knife_height_kept s proj :
  Proj.type proj = Proj.knife ->
  Proj.type (updateProjectile s proj).2 = Proj.knife
  /\ Proj.height_ (updateProjectile s proj).2 = Proj.height_ proj.
Proof.
  intros Hk. unfold updateProjectile. rewrite Hk.
  by repeat case_match.
Qed.

Lemma projectileVsPlayer_owner s proj :
  projectileVsPlayer s proj (Proj.owner proj) = None.
Proof. unfold projectileVsPlayer. by destruct (Proj.owner proj). Qed.

(** The outer loop body on an active projectile of real height: only the
    player who is not the owner can be resolved against. *)
Lemma checkProjectileHit_other s proj :
  Proj.active proj = true -> Proj.height_ proj <> Proj.none ->
  checkProjectileHit s proj
  = match projectileVsPlayer s proj (other (Proj.owner proj)) with
    | Some r => r
    | None => (s, proj)
    end.
Proof.
  intros Ha Hh. unfold checkProjectileHit. rewrite Ha. cbn [negb orb].
  assert (Hn : match Proj.height_ proj with Proj.none => true | _ => false end
               = false) by by destruct (Proj.height_ proj).
  rewrite Hn. clear Hn.
  pose proof (projectileVsPlayer_owner s proj) as Ho.
  destruct (Proj.owner proj); cbn [other]; rewrite Ho; [reflexivity|].
  by destruct (projectileVsPlayer s proj I0).
Qed.

(** An active ankle-height projectile against the other player, not in
    hitstun and overlapping. *)
Lemma ankle_resolves (s : GS.t) (proj : Proj.t) :
  Proj.height_ proj = Proj.ankle ->
  Proj.active proj = true ->
  let d := other (Proj.owner proj) in
  let def := GS.player s d in
  Player.state def <> hitstun ->
  overlapsX proj def ->
  let s' := (checkProjectileHit s proj).1 in
  let proj' := (checkProjectileHit s proj).2 in
  Proj.active proj' = false
  /\ (Player.stance def = standing ->
      hitOutcome s s' d (Proj.damage proj))
  /\ (Player.stance def = crouching ->
      (facesProjectile def proj /\ blockOutcome s s' d)
      \/ (~ facesProjectile def proj /\ hitOutcome s s' d (Proj.damage proj))).
Proof.
  intros Hh Ha d def Hst Hov. cbv zeta.
  rewrite checkProjectileHit_other by (rewrite ?Hh; done).
  fold d.
  destruct (projectileVsPlayer s proj d) as [[s' proj']|] eqn:Hres.
  - destruct (projectileVsPlayer_outcome s proj d s' proj' low Hres)
      as (Hact & Hout); [by rewrite Hh|].
    fold def in Hout. rewrite isFacingProjectile_spec in Hout.
    cbn [fst snd]. split; [done|]. split.
    + intros Est. rewrite Est in Hout. cbn in Hout.
      destruct Hout as [(_ & ? & _) | (_ & Ho)]; done.
    + intros Est. destruct Hout as [(Hf & _ & Ho) | (Hn & Ho)].
      * left. by split.
      * right. split; [|done]. intros Hf. apply Hn. split; [done|].
        by rewrite Est.
  - exfalso. apply projectileVsPlayer_None in Hres.
    destruct Hres as [E|[E|[E|[E _]]]]; try done.
    + unfold d in E. by destruct (Proj.owner proj).
    + congruence.
Qed.

(** C10 (as amended).  A throwing knife gets its hit-detection height
    from the stance the attack was declared under (standing: head,
    crouching: ankle) and keeps it while it flies.  An active ankle-height
    knife that overlaps the other player, who is not in hitstun, always
    resolves: against a standing defender it is a hit (never a block),
    against a crouching defender it is a block or a hit (crouching does
    not let it pass). *)
Theorem knife_heights :
  (forall (idx : Idx) (p : Player.t),
     Player.activeWeapon p = Some Weapon.throwingKnife ->
     exists k,
       spawnProjectileOn idx p = (p, [k]) /\ Proj.type k = Proj.knife
       /\ (Player.attackStance p = standing -> Proj.height_ k = Proj.head)
       /\ (Player.attackStance p = crouching -> Proj.height_ k = Proj.ankle))
  /\ (forall (s : GS.t) (proj : Proj.t),
        Proj.type proj = Proj.knife ->
        Proj.type (updateProjectile s proj).2 = Proj.knife
        /\ Proj.height_ (updateProjectile s proj).2 = Proj.height_ proj)
  /\ (forall (s : GS.t) (proj : Proj.t),
        Proj.type proj = Proj.knife ->
        Proj.height_ proj = Proj.ankle ->
        Proj.active proj = true ->
        let d := other (Proj.owner proj) in
        let def := GS.player s d in
        Player.state def <> hitstun ->
        overlapsX proj def ->
        let s' := (checkProjectileHit s proj).1 in
        let proj' := (checkProjectileHit s proj).2 in
        Proj.active proj' = false
        /\ (Player.stance def = standing ->
            hitOutcome s s' d (Proj.damage proj))
        /\ (Player.stance def = crouching ->
            (facesProjectile def proj /\ blockOutcome s s' d)
            \/ (~ facesProjectile def proj
                /\ hitOutcome s s' d (Proj.damage proj)))).
Proof.
  split; [|split].
  - intros idx p Hw.
    destruct (spawn_knife idx p Hw) as (k & Hk1 & Hk2 & _ & _ & Hs1 & Hs2).
    exists k. split; [done|]. split; [done|].
    split; intros E; [by apply Hs1 | by apply Hs2].
  - apply knife_height_kept.
  - intros s proj _. apply ankle_resolves.
Qed.

(** An ankle-level knife level with the standing Player B of the initial
    state: a hit. *)
Lemma knife_heights_witness :
  let s := createGameState loadoutA loadoutA in
  hitOutcome s (checkProjectileHit s ankleKnife).1 I1 1.
Proof.
  destruct knife_heights as (_ & _ & H).
  refine (proj1 (proj2 (H (createGameState loadoutA loadoutA) ankleKnife
                          _ _ _ _ _)) _);
    first [reflexivity | by vm_compute].
Defined.

(** C10, as stated, fails after [twoKnives_inputs]: the second ankle-level
    knife is level with the standing Player B, who is in hitstun from the
    first; the step moves the knife on, still active, and B loses no HP. *)
Lemma ankle_knife_passes_stunned :
  let s := runFrames (createGameState loadoutK loadoutA) twoKnives_inputs in
  let s' := simulateFrame s crouchHold createEmptyInput in
  GS.projectiles s = [secondKnife]
  /\ Player.stance (GS.player s I1) = standing
  /\ Player.x (GS.player s I1) = 600
  /\ GS.projectiles s' = [Proj.set_x 608 secondKnife]
  /\ Player.x (GS.player s' I1) = 600
  /\ Player.stance (GS.player s' I1) = standing
  /\ Player.hp (GS.player s' I1) = Player.hp (GS.player s I1).
Proof. by vm_compute. Qed.
(** ** Boomerang flight paths *)

Lemma rem2_even c : (Z.rem c 2 =? 0) = Z.even c.
Proof.
  destruct (Z.even c) eqn:E.
  - apply Z.eqb_eq. apply Z.even_spec in E as [k ->].
    rewrite Z.mul_comm. by apply Z.rem_mul.
  - apply Z.eqb_neq. intros H.
    apply Z.rem_divide in H as [k ->]; [|done].
    rewrite Z.even_mul in E. cbn in E. by rewrite orb_true_r in E.
Qed.

Lemma choosePath_spec p :
  choosePath p
  = (nextPath p,
     Player.set_standThrowCount (countThrow p).2
       (Player.set_crouchThrowCount (countThrow p).1 p)).
Proof.
  unfold choosePath, nextPath, pathFor, countThrow. rewrite !rem2_even.
  by destruct p as [? ? ? ? ? ? ? ? [] ? ? ? ?].
Qed.

Lemma nextPath_range p : 1 <= nextPath p <= 4.
Proof. unfold nextPath, pathFor. repeat case_match; lia. Qed.

Lemma outboundHeight_policy path :
  boomerangOutboundHeight path = policyHeight path Proj.outbound.
Proof.
  unfold boomerangOutboundHeight, policyHeight.
  destruct (Z.eqb_spec path 1), (Z.eqb_spec path 4), (Z.eqb_spec path 2);
    repeat case_bool_decide; cbn; try done; lia.
Qed.

Lemma returnHeight_policy path :
  boomerangReturnHeight path = policyHeight path Proj.returning.
Proof.
  unfold boomerangReturnHeight, policyHeight.
  destruct (Z.eqb_spec path 1), (Z.eqb_spec path 3);
    repeat case_bool_decide; cbn; try done; lia.
Qed.

(** A throw with ammo in hand. *)
Lemma spawn_boomerang idx p :
  Player.activeWeapon p = Some Weapon.boomerang ->
  0 < Player.boomerangsHeld p ->
  exists p' b,
    spawnProjectileOn idx p = (p', [b])
    /\ Proj.type b = Proj.boomerang (nextPath p) Proj.outbound 0
    /\ Proj.owner b = idx /\ Proj.active b = true
    /\ Proj.height_ b = policyHeight (nextPath p) Proj.outbound
    /\ Player.boomerangsHeld p' = Player.boomerangsHeld p - 1
    /\ (Player.crouchThrowCount p', Player.standThrowCount p') = countThrow p.
Proof.
  intros Hw Hh. unfold spawnProjectileOn. rewrite Hw. cbn.
  rewrite (proj2 (Z.leb_gt _ _)) by lia.
  rewrite choosePath_spec.
  change (nextPath (Player.set_boomerangsHeld _ p)) with (nextPath p).
  change (countThrow (Player.set_boomerangsHeld _ p)) with (countThrow p).
  eexists _, _. split; [reflexivity|]. cbn.
  rewrite outboundHeight_policy. repeat split.
  by destruct (countThrow p).
Qed.

(** A throw with none: nothing happens, here and in [tryAttack]. *)
Lemma spawn_boomerang_empty idx p :
  Player.activeWeapon p = Some Weapon.boomerang ->
  Player.boomerangsHeld p <= 0 ->
  spawnProjectileOn idx p = (p, [])
  /\ tryAttackOn p (Some Weapon.boomerang) = p.
Proof.
  intros Hw Hh. unfold spawnProjectileOn, tryAttackOn. rewrite Hw. cbn.
  by rewrite (proj2 (Z.leb_le _ _)) by lia.
Qed.

(** Whatever [spawnProjectile] pushes follows the policy; the counters
    move exactly when a boomerang is pushed. *)
Lemma spawnProjectileOn_policy idx p :
  let r := spawnProjectileOn idx p in
  Forall followsPolicy r.2
  /\ ((Forall (fun b => Proj.isBoomerang b = false) r.2
       /\ sameThrows p r.1)
      \/ (exists b, r.2 = [b]
          /\ Proj.type b = Proj.boomerang (nextPath p) Proj.outbound 0
          /\ (Player.crouchThrowCount r.1, Player.standThrowCount r.1)
             = countThrow p)).
Proof.
  cbv zeta. unfold spawnProjectileOn.
  destruct (Player.activeWeapon p) as [w|] eqn:Hw;
    [|split; [constructor | left; by repeat constructor]].
  destruct w; cbn;
    try solve [split; [constructor | left; by repeat constructor]].
  - destruct (Z.leb_spec (Player.boomerangsHeld p) 0);
      [split; [constructor | left; by repeat constructor]|].
    destruct (spawn_boomerang idx p Hw) as (p' & b & Hs & Ht & _ & _ & Hh & _ & Hc);
      [lia|].
    unfold spawnProjectileOn in Hs. rewrite Hw in Hs. cbn in Hs.
    rewrite (proj2 (Z.leb_gt _ _)) in Hs by lia. rewrite Hs. cbn [fst snd].
    split.
    + repeat constructor. unfold followsPolicy. rewrite Ht.
      split; [apply nextPath_range | done].
    + right. by exists b.
  - split; [by repeat constructor | left; by repeat constructor].
Qed.

Lemma spawnIfDueOn_policy idx p :
  let r := spawnIfDueOn idx p in
  Forall followsPolicy r.2
  /\ ((Forall (fun b => Proj.isBoomerang b = false) r.2
       /\ sameThrows p r.1)
      \/ (exists b, r.2 = [b]
          /\ Proj.type b = Proj.boomerang (nextPath p) Proj.outbound 0
          /\ (Player.crouchThrowCount r.1, Player.standThrowCount r.1)
             = countThrow p)).
Proof.
  cbv zeta. unfold spawnIfDueOn.
  repeat case_match; subst; cbn [fst snd];
    try solve [split; [constructor | left; by repeat constructor]].
  match goal with H : spawnProjectileOn _ _ = _ |- _ =>
    pose proof (spawnProjectileOn_policy idx p) as Hp; cbv zeta in Hp;
    rewrite H in Hp; cbn [fst snd] in Hp end.
  exact Hp.
Qed.

Lemma forEachProjectile_Forall (P : Proj.t -> Prop) body :
  (forall s p, P p -> P (body s p).2) ->
  forall ps s, Forall P ps -> Forall P (forEachProjectile body s ps).2.
Proof.
  intros Hbody ps. induction ps as [|p ps IH]; intros s Hall; cbn; [done|].
  apply Forall_cons in Hall as [Hp Hps].
  pose proof (Hbody s p Hp) as H1. destruct (body s p) as [s1 p1].
  pose proof (IH s1 Hps) as H2.
  destruct (forEachProjectile body s1 ps) as [s2 ps2].
  cbn in *. by constructor.
Qed.

Lemma updateBoomerang_policy s proj :
  followsPolicy proj -> followsPolicy (updateBoomerang s proj).2.
Proof.
  unfold updateBoomerang.
  destruct (Proj.type proj) as [|path ph dist] eqn:Ht; [done|].
  unfold followsPolicy at 1. rewrite Ht. intros [Hr Hh].
  destruct ph.
  - destruct (C.BOOMERANG_RANGE <=? _); cbn [snd].
    + unfold followsPolicy. cbn. by rewrite returnHeight_policy.
    + unfold followsPolicy, policyHeight in *.
      destruct (Z.eqb_spec path 1) as [->|]; [by cbn|].
      destruct (Z.eqb_spec path 4) as [->|]; [by cbn|].
      by cbn.
  - repeat case_match; by unfold followsPolicy; cbn.
Qed.

Lemma updateProjectile_policy s proj :
  followsPolicy proj -> followsPolicy (updateProjectile s proj).2.
Proof.
  unfold updateProjectile. intros H.
  destruct (negb (Proj.active proj)); [done|].
  pose proof (updateBoomerang_policy s proj H) as Hb.
  destruct (Proj.type proj) eqn:Ht; [|done].
  unfold followsPolicy. cbn [snd].
  by destruct (offScreen _); cbn; rewrite Ht.
Qed.

Lemma set_active_policy proj v :
  followsPolicy proj -> followsPolicy (Proj.set_active v proj).
Proof. done. Qed.

Lemma projectileVsPlayer_policy s proj i r :
  followsPolicy proj -> projectileVsPlayer s proj i = Some r ->
  followsPolicy r.2.
Proof.
  unfold projectileVsPlayer. intros Hp H.
  repeat case_match; simplify_eq; done.
Qed.

Lemma checkProjectileHit_policy s proj :
  followsPolicy proj -> followsPolicy (checkProjectileHit s proj).2.
Proof.
  unfold checkProjectileHit. intros H.
  repeat case_match; try done; eapply projectileVsPlayer_policy; eauto.
Qed.
(** *** Projectiles through the step *)

Lemma resolveHit_projectiles s i d h damage :
  GS.projectiles (resolveHit s i d h damage) = GS.projectiles s.
Proof. unfold resolveHit. case_match; by destruct d. Qed.

Lemma meleeHitBy_projectiles s i :
  GS.projectiles (meleeHitBy s i) = GS.projectiles s.
Proof.
  unfold meleeHitBy.
  repeat case_match; try reflexivity; apply resolveHit_projectiles.
Qed.

Lemma checkMeleeHits_projectiles s :
  GS.projectiles (checkMeleeHits s) = GS.projectiles s.
Proof. unfold checkMeleeHits. by rewrite !meleeHitBy_projectiles. Qed.

Lemma updateProjectiles_projectiles s :
  GS.projectiles (updateProjectiles s)
  = (forEachProjectile updateProjectile s (GS.projectiles s)).2.
Proof. unfold updateProjectiles. by destruct (forEachProjectile _ _ _). Qed.

Lemma checkProjectileHits_projectiles s :
  GS.projectiles (checkProjectileHits s)
  = (forEachProjectile checkProjectileHit s (GS.projectiles s)).2.
Proof. unfold checkProjectileHits. by destruct (forEachProjectile _ _ _). Qed.

Lemma simulateFrame_frozen_projectiles s a b :
  live s = false -> GS.projectiles (simulateFrame s a b) = GS.projectiles s.
Proof.
  unfold live, simulateFrame, cloneState. intros H.
  destruct (GS.winner s =? -1); [|done].
  by destruct (0 <? GS.hitstop s).
Qed.

Lemma Forall_List_filter {A} (P : A -> Prop) f (l : list A) :
  Forall P l -> Forall P (List.filter f l).
Proof.
  induction 1 as [|x l Hx Hl IH]; cbn; [constructor|].
  destruct (f x); [by constructor | done].
Qed.

(** A property of projectiles that spawning establishes and both
    projectile loops preserve holds of every projectile after a step. *)
Lemma simulateFrame_Forall (P : Proj.t -> Prop) :
  (forall i p prev input, Forall P (updatePlayerOn i p prev input).2) ->
  (forall s p, P p -> P (updateProjectile s p).2) ->
  (forall s p, P p -> P (checkProjectileHit s p).2) ->
  forall s a b,
    Forall P (GS.projectiles s) ->
    Forall P (GS.projectiles (simulateFrame s a b)).
Proof.
  intros Hspawn Hupd Hhit s a b Hall.
  destruct (live s) eqn:Hl;
    [|by rewrite simulateFrame_frozen_projectiles].
  rewrite simulateFrame_running by done.
  rewrite stepBody_projectiles. apply Forall_List_filter. unfold afterHits.
  rewrite checkProjectileHits_projectiles.
  apply forEachProjectile_Forall; [done|].
  rewrite checkMeleeHits_projectiles, updateProjectiles_projectiles.
  apply forEachProjectile_Forall; [done|].
  destruct (resolvePlayerCollision_rest
              (updatePlayer (updatePlayer s I0 a) I1 b)) as (-> & _).
  rewrite !updatePlayer_projectiles.
  repeat apply Forall_app_2; auto.
Qed.

Lemma updatePlayerOn_policy i p prev input :
  Forall followsPolicy (updatePlayerOn i p prev input).2.
Proof. unfold updatePlayerOn. apply spawnIfDueOn_policy. Qed.

Lemma reachable_policy s : reachable s -> Forall followsPolicy (GS.projectiles s).
Proof.
  induction 1 as [|s a b _ IH]; [constructor|].
  apply simulateFrame_Forall; auto using updatePlayerOn_policy,
    updateProjectile_policy, checkProjectileHit_policy.
Qed.

(** *** Throw counters through the step *)

Lemma updatePlayerOn_throw i p prev input :
  let r := updatePlayerOn i p prev input in
  (Forall (fun b => Proj.isBoomerang b = false) r.2 /\ sameThrows p r.1)
  \/ (exists b,
        r.2 = [b]
        /\ Proj.type b
           = Proj.boomerang
               (pathFor (Player.attackStance r.1) (Player.crouchThrowCount p)
                        (Player.standThrowCount p))
               Proj.outbound 0
        /\ ((Player.attackStance r.1 = crouching
             /\ Player.crouchThrowCount r.1 = Player.crouchThrowCount p + 1
             /\ Player.standThrowCount r.1 = Player.standThrowCount p)
            \/ (Player.attackStance r.1 = standing
                /\ Player.crouchThrowCount r.1 = Player.crouchThrowCount p
                /\ Player.standThrowCount r.1 = Player.standThrowCount p + 1))).
Proof.
  cbv zeta. unfold updatePlayerOn.
  set (p2 := startAttackOn (applyMovement input (tickStateTimer p)) prev input).
  assert (Hc : sameThrows p p2).
  { destruct (tickStateTimer_same p) as (_ & _ & (_ & ? & ?) & _).
    destruct (applyMovement_same input (tickStateTimer p))
      as (_ & _ & (_ & ? & ?) & _).
    destruct (startAttackOn_same (applyMovement input (tickStateTimer p))
                prev input) as (_ & _ & (_ & ? & ?)).
    unfold p2. split; congruence. }
  destruct Hc as [Hcc Hsc].
  destruct (spawnIfDueOn_same i p2) as (_ & _ & (_ & _ & _ & Has)).
  destruct (spawnIfDueOn_policy i p2) as (_ & [(Hn & Hk1 & Hk2) | (b & Hb & Ht & Hcnt)]).
  - left. split; [done|]. split; congruence.
  - right. exists b. split; [done|].
    unfold nextPath in Ht. rewrite Has, <- Hcc, <- Hsc. split; [done|].
    unfold countThrow in Hcnt.
    destruct (Player.attackStance p2); simplify_eq; [right | left];
      repeat split; congruence.
Qed.

Lemma updatePlayers_player s a b i :
  GS.player (updatePlayer (updatePlayer s I0 a) I1 b) i
  = (updatePlayerOn i (GS.player s i) (GS.prevInput s i) (inputOf i (a, b))).1.
Proof.
  destruct i; cbn [inputOf fst snd].
  - rewrite (updatePlayer_other _ I1 b). by rewrite updatePlayer_player.
  - rewrite updatePlayer_player.
    rewrite (updatePlayer_other _ I0 a).
    destruct (updatePlayer_rest s I0 a) as (_ & _ & _ & Hp).
    unfold GS.prevInput. by rewrite Hp.
Qed.

(** After a live step a player's counters are those its own update left. *)
Lemma simulateFrame_throws s a b i :
  live s = true ->
  sameThrows
    (updatePlayerOn i (GS.player s i) (GS.prevInput s i) (inputOf i (a, b))).1
    (GS.player (simulateFrame s a b) i).
Proof.
  intros Hl. rewrite simulateFrame_running by done.
  rewrite stepBody_players. unfold afterHits.
  rewrite <- updatePlayers_player.
  generalize (updatePlayer (updatePlayer s I0 a) I1 b). intros s2.
  destruct (resolvePlayerCollision_player s2 i) as (v & Hv).
  assert (H3 : sameThrows (GS.player s2 i)
                 (GS.player (resolvePlayerCollision s2) i))
    by (by rewrite Hv).
  generalize dependent (resolvePlayerCollision s2). intros s3 _ H3.
  destruct (updateProjectiles_bodies s3 i) as (_ & H4).
  generalize dependent (updateProjectiles s3). intros s4 H4.
  destruct (checkMeleeHits_bodies s4 i) as (_ & H5).
  generalize dependent (checkMeleeHits s4). intros s5 H5.
  destruct (checkProjectileHits_bodies s5 i) as (_ & H6).
  unfold sameThrows in *. split; intuition congruence.
Qed.

Lemma pathFor_alternates st c d :
  (st = crouching ->
   pathFor st c d <> pathFor st (c + 1) d
   /\ (pathFor st c d = 1 \/ pathFor st c d = 2)
   /\ (pathFor st (c + 1) d = 1 \/ pathFor st (c + 1) d = 2))
  /\ (st = standing ->
      pathFor st c d <> pathFor st c (d + 1)
      /\ (pathFor st c d = 3 \/ pathFor st c d = 4)
      /\ (pathFor st c (d + 1) = 3 \/ pathFor st c (d + 1) = 4)).
Proof.
  split; intros ->; cbn; rewrite Z.even_add; cbn;
    [destruct (Z.even c) | destruct (Z.even d)]; cbn; lia.
Qed.
(** C7.  The flight-path policy.  The two alternation counters are
    JavaScript numbers: below 2^53 the increment of a throw is exact, and
    the parts that speak of a counter are stated there.  (1) A boomerang
    throw takes the path that the thrower's attack stance and alternation
    counters give, 1 or 2 from a crouch and 3 or 4 standing, and
    increments the counter of that stance.  (2) The path given after one
    more throw from the same stance is the other path of the pair.
    (3) Through a step, a player's counters move only with such a throw
    of its own.  (4) In every state of a match each boomerang flies one of
    the four paths at the height the policy gives for its path and phase.
    (5) The policy: paths 1 and 4 have no collision height outbound, path
    2 is ankle-level and path 3 head-level outbound; returning, paths 1
    and 3 are ankle-level, paths 2 and 4 head-level. *)
Theorem boomerang_flight_paths :
  (forall (idx : Idx) (p : Player.t),
     Player.activeWeapon p = Some Weapon.boomerang ->
     0 < Player.boomerangsHeld p ->
     0 <= Player.crouchThrowCount p < 2 ^ 53 ->
     0 <= Player.standThrowCount p < 2 ^ 53 ->
     exists p' b,
       spawnProjectileOn idx p = (p', [b])
       /\ Proj.type b
          = Proj.boomerang
              (pathFor (Player.attackStance p) (Player.crouchThrowCount p)
                       (Player.standThrowCount p))
              Proj.outbound 0
       /\ Proj.height_ b
          = policyHeight
              (pathFor (Player.attackStance p) (Player.crouchThrowCount p)
                       (Player.standThrowCount p))
              Proj.outbound
       /\ (Player.crouchThrowCount p', Player.standThrowCount p')
          = countThrow p)
  /\ (forall (st : Stance) (c d : Z),
        0 <= c < 2 ^ 53 ->
        0 <= d < 2 ^ 53 ->
        (st = crouching ->
         pathFor st c d <> pathFor st (c + 1) d
         /\ (pathFor st c d = 1 \/ pathFor st c d = 2)
         /\ (pathFor st (c + 1) d = 1 \/ pathFor st (c + 1) d = 2))
        /\ (st = standing ->
            pathFor st c d <> pathFor st c (d + 1)
            /\ (pathFor st c d = 3 \/ pathFor st c d = 4)
            /\ (pathFor st c (d + 1) = 3 \/ pathFor st c (d + 1) = 4)))
  /\ (forall (s : GS.t) (a b : Input.t) (i : Idx),
        let p := GS.player s i in
        let r := updatePlayerOn i p (GS.prevInput s i) (inputOf i (a, b)) in
        let q := GS.player (simulateFrame s a b) i in
        0 <= Player.crouchThrowCount p < 2 ^ 53 ->
        0 <= Player.standThrowCount p < 2 ^ 53 ->
        (live s = false -> sameThrows p q)
        /\ (live s = true ->
            sameThrows r.1 q
            /\ ((Forall (fun b => Proj.isBoomerang b = false) r.2
                 /\ sameThrows p r.1)
                \/ (exists b,
                      r.2 = [b]
                      /\ Proj.type b
                         = Proj.boomerang
                             (pathFor (Player.attackStance r.1)
                                      (Player.crouchThrowCount p)
                                      (Player.standThrowCount p))
                             Proj.outbound 0
                      /\ ((Player.attackStance r.1 = crouching
                           /\ Player.crouchThrowCount r.1
                              = Player.crouchThrowCount p + 1
                           /\ Player.standThrowCount r.1
                              = Player.standThrowCount p)
                          \/ (Player.attackStance r.1 = standing
                              /\ Player.crouchThrowCount r.1
                                 = Player.crouchThrowCount p
                              /\ Player.standThrowCount r.1
                                 = Player.standThrowCount p + 1))))))
  /\ (forall s : GS.t,
        reachable s -> Forall followsPolicy (GS.projectiles s))
  /\ (policyHeight 1 Proj.outbound = Proj.none
      /\ policyHeight 4 Proj.outbound = Proj.none
      /\ policyHeight 2 Proj.outbound = Proj.ankle
      /\ policyHeight 3 Proj.outbound = Proj.head
      /\ policyHeight 1 Proj.returning = Proj.ankle
      /\ policyHeight 2 Proj.returning = Proj.head
      /\ policyHeight 3 Proj.returning = Proj.ankle
      /\ policyHeight 4 Proj.returning = Proj.head).
Proof.
  split; [|split; [|split; [|split]]].
  - intros idx p Hw Hh _ _.
    destruct (spawn_boomerang idx p Hw Hh)
      as (p' & b & Hs & Ht & _ & _ & Hhe & _ & Hc).
    by exists p', b.
  - intros st c d _ _. apply pathFor_alternates.
  - intros s a b i. cbv zeta. intros _ _. split; intros Hl.
    + unfold GS.player. rewrite (simulateFrame_frozen _ _ _ Hl). by split.
    + split; [by apply simulateFrame_throws | apply updatePlayerOn_throw].
  - apply reachable_policy.
  - by repeat split.
Qed.

(** Scenario C up to the second throw: two crouch throws of Player A are
    in flight, the first on path 1 without collision height, the second
    on path 2 at ankle level, and two units of ammo are gone. *)
Lemma scenarioC_two_throws :
  let s := runFrames (createGameState loadoutK loadoutA) twoBoomerangs_inputs in
  (Proj.type <$> GS.projectiles s)
  = [Proj.boomerang 1 Proj.outbound 100; Proj.boomerang 2 Proj.outbound 5]
  /\ (Proj.height_ <$> GS.projectiles s) = [Proj.none; Proj.ankle]
  /\ Player.boomerangsHeld (GS.player s I0) = C.BOOMERANG_MAX - 2.
Proof. by vm_compute. Qed.

Lemma runFrames_reachable inputs : forall s,
  reachable s -> reachable (runFrames s inputs).
Proof.
  induction inputs as [|ab rest IH]; intros s Hs; [done|].
  apply (IH (simulateFrame s ab.1 ab.2)). by constructor.
Qed.

(** The policy holds of the two boomerangs of scenario C; the first
    crouch throw of a match takes path 1 and leaves the crouch counter at
    1, and the next takes the other path. *)
Lemma boomerang_flight_paths_witness :
  Forall followsPolicy
    (GS.projectiles
       (runFrames (createGameState loadoutK loadoutA) twoBoomerangs_inputs))
  /\ (let p := Player.set_attackStance crouching
                 (Player.set_activeWeapon (Some Weapon.boomerang)
                    (createPlayerState I0 loadoutK)) in
      exists p' b,
        spawnProjectileOn I0 p = (p', [b])
        /\ Proj.type b = Proj.boomerang 1 Proj.outbound 0
        /\ (Player.crouchThrowCount p', Player.standThrowCount p') = (1, 0))
  /\ pathFor crouching 0 0 <> pathFor crouching (0 + 1) 0.
Proof.
  destruct boomerang_flight_paths as (H1 & H2 & _ & H & _).
  split; [apply H, runFrames_reachable; constructor|]. split.
  - cbv zeta.
    destruct (H1 I0 (Player.set_attackStance crouching
                       (Player.set_activeWeapon (Some Weapon.boomerang)
                          (createPlayerState I0 loadoutK))))
      as (p' & b & Hs & Ht & _ & Hc);
      [reflexivity | reflexivity | by vm_compute | by vm_compute |].
    exists p', b. split; [exact Hs|]. split; [exact Ht | exact Hc].
  - destruct (H2 crouching 0 0) as [Hc _]; [lia | lia |].
    by destruct (Hc eq_refl) as [Hne _].
Defined.
(** ** Boomerang conservation *)

Lemma inFlight_cons i p l :
  inFlight i (p :: l) = flying i p + inFlight i l.
Proof.
  unfold inFlight, flying. cbn [List.filter]. fold (countsFor i p).
  destruct (countsFor i p); cbn [length]; lia.
Qed.

Lemma inFlight_nil i : inFlight i [] = 0.
Proof. reflexivity. Qed.

Lemma inFlight_app i l l' :
  inFlight i (l ++ l') = inFlight i l + inFlight i l'.
Proof.
  induction l as [|p l IH]; [by rewrite inFlight_nil|].
  cbn [app]. rewrite !inFlight_cons, IH. lia.
Qed.

Lemma inFlight_filter_active i l :
  inFlight i (List.filter Proj.active l) = inFlight i l.
Proof.
  induction l as [|p l IH]; [done|]. cbn [List.filter].
  destruct (Proj.active p) eqn:Ha.
  - by rewrite !inFlight_cons, IH.
  - rewrite inFlight_cons, IH. unfold flying, countsFor. by rewrite Ha.
Qed.

Lemma flying_range i p : 0 <= flying i p <= 1.
Proof. unfold flying. case_match; lia. Qed.

(** *** Throwing *)

Lemma spawnProjectileOn_ammo idx p :
  let r := spawnProjectileOn idx p in
  Player.boomerangsHeld r.1 + inFlight idx r.2 = Player.boomerangsHeld p
  /\ (0 <= Player.boomerangsHeld p -> 0 <= Player.boomerangsHeld r.1)
  /\ inFlight (other idx) r.2 = 0.
Proof.
  cbv zeta. unfold spawnProjectileOn.
  destruct (Player.activeWeapon p) as [w|] eqn:Hw; [|(cbn [fst snd]; rewrite ?inFlight_nil; lia)].
  destruct w; cbn [Weapon.WEAPON_DEFS Weapon.type]; try (cbn [fst snd]; rewrite ?inFlight_nil; lia).
  - destruct (Z.leb_spec (Player.boomerangsHeld p) 0); [(cbn [fst snd]; rewrite ?inFlight_nil; lia)|].
    rewrite choosePath_spec. cbn [fst snd].
    rewrite !inFlight_cons, !inFlight_nil. unfold flying, countsFor.
    cbn. destruct idx; cbn; lia.
  - cbn [fst snd]. rewrite !inFlight_cons, !inFlight_nil.
    unfold flying, countsFor. cbn. lia.
Qed.

Lemma spawnIfDueOn_ammo idx p :
  let r := spawnIfDueOn idx p in
  Player.boomerangsHeld r.1 + inFlight idx r.2 = Player.boomerangsHeld p
  /\ (0 <= Player.boomerangsHeld p -> 0 <= Player.boomerangsHeld r.1)
  /\ inFlight (other idx) r.2 = 0.
Proof.
  cbv zeta. unfold spawnIfDueOn.
  repeat case_match; subst; cbn [fst snd]; try (cbn [fst snd]; rewrite ?inFlight_nil; lia).
  match goal with H : spawnProjectileOn _ _ = _ |- _ =>
    pose proof (spawnProjectileOn_ammo idx p) as Hp; cbv zeta in Hp;
    rewrite H in Hp; cbn [fst snd] in Hp end.
  exact Hp.
Qed.

Lemma updatePlayerOn_ammo idx p prev input :
  let r := updatePlayerOn idx p prev input in
  Player.boomerangsHeld r.1 + inFlight idx r.2 = Player.boomerangsHeld p
  /\ (0 <= Player.boomerangsHeld p -> 0 <= Player.boomerangsHeld r.1)
  /\ inFlight (other idx) r.2 = 0.
Proof.
  cbv zeta. unfold updatePlayerOn.
  set (p2 := startAttackOn (applyMovement input (tickStateTimer p)) prev input).
  assert (Hh : Player.boomerangsHeld p2 = Player.boomerangsHeld p).
  { destruct (tickStateTimer_same p) as (_ & _ & (? & _) & _).
    destruct (applyMovement_same input (tickStateTimer p))
      as (_ & _ & (? & _) & _).
    destruct (startAttackOn_same (applyMovement input (tickStateTimer p))
                prev input) as (_ & _ & (? & _)).
    unfold p2. congruence. }
  rewrite <- Hh. apply spawnIfDueOn_ammo.
Qed.

Lemma updatePlayer_ammoOk s j input :
  (forall i, ammoOk s i) -> forall i, ammoOk (updatePlayer s j input) i.
Proof.
  intros Hok i. destruct (Hok i) as [H0 Hle]. unfold ammoOk.
  rewrite updatePlayer_projectiles, inFlight_app.
  destruct (updatePlayerOn_ammo j (GS.player s j) (GS.prevInput s j) input)
    as (Hsum & Hnn & Hoth).
  assert (Hij : i = j \/ i = other j) by (destruct i, j; auto).
  destruct Hij as [-> | ->].
  - rewrite updatePlayer_player. split; [by apply Hnn | lia].
  - rewrite updatePlayer_other, Hoth. split; [done | lia].
Qed.

(** *** The projectile loops *)

Lemma forEachProjectile_conserves body :
  conserves body ->
  forall ps st i,
    let r := forEachProjectile body st ps in
    (0 <= Player.boomerangsHeld (GS.player st i) ->
     0 <= Player.boomerangsHeld (GS.player r.1 i))
    /\ Player.boomerangsHeld (GS.player r.1 i) + inFlight i r.2
       <= Player.boomerangsHeld (GS.player st i) + inFlight i ps.
Proof.
  intros Hbody ps. induction ps as [|p ps IH]; intros st i; cbn.
  { rewrite inFlight_nil. split; [done | lia]. }
  destruct (Hbody st p i) as [H1 H2].
  destruct (body st p) as [st1 p1]. cbn [fst snd] in *.
  destruct (IH st1 i) as [H3 H4].
  destruct (forEachProjectile body st1 ps) as [st2 ps2]. cbn [fst snd] in *.
  rewrite !inFlight_cons. split; [auto | lia].
Qed.

Lemma flying_inactive i q : Proj.active q = false -> flying i q = 0.
Proof. unfold flying, countsFor. by intros ->. Qed.

Lemma flying_active_boomerang i q :
  Proj.active q = true -> Proj.isBoomerang q = true ->
  flying i q = if Idx_eqb (Proj.owner q) i then 1 else 0.
Proof. unfold flying, countsFor. by intros -> ->. Qed.

(** [updateBoomerang] on an active boomerang, as [updateProjectile]
    calls it. *)
Lemma updateBoomerang_conserves st proj i :
  Proj.active proj = true ->
  (0 <= Player.boomerangsHeld (GS.player st i) ->
   0 <= Player.boomerangsHeld (GS.player (updateBoomerang st proj).1 i))
  /\ Player.boomerangsHeld (GS.player (updateBoomerang st proj).1 i)
     + flying i (updateBoomerang st proj).2
     <= Player.boomerangsHeld (GS.player st i) + flying i proj.
Proof.
  intros Ha. unfold updateBoomerang.
  destruct (Proj.type proj) as [|path ph dist] eqn:Ht;
    [cbn [fst snd]; lia|].
  assert (Hb : Proj.isBoomerang proj = true)
    by (unfold Proj.isBoomerang; by rewrite Ht).
  rewrite (flying_active_boomerang i proj Ha Hb).
  destruct ph.
  - assert (Hfly : forall q, Proj.owner q = Proj.owner proj ->
                     flying i q
                     <= if Idx_eqb (Proj.owner proj) i then 1 else 0).
    { intros q Ho. unfold flying, countsFor. rewrite Ho.
      repeat case_match; lia. }
    repeat case_match; cbn [fst snd]; (split; [done|]);
      apply Z.add_le_mono_l; by apply Hfly.
  - destruct (Z.abs _ <? 28); [|destruct (offScreen _)]; cbn [fst snd].
    + rewrite flying_inactive by done.
      cbn [Proj.owner Proj.set_type Proj.set_x Proj.set_active].
      generalize (Proj.owner proj). intros o.
      destruct o, i; cbn; unfold C.BOOMERANG_MAX; lia.
    + rewrite flying_inactive by done.
      split; [done|]. case_match; lia.
    + split; [done|]. apply Z.add_le_mono_l.
      unfold flying, countsFor. cbn. repeat case_match; lia.
Qed.

Lemma updateProjectile_conserves : conserves updateProjectile.
Proof.
  intros st proj i. unfold updateProjectile.
  destruct (Proj.active proj) eqn:Ha; cbn [negb]; [|cbn [fst snd]; lia].
  destruct (Proj.type proj) eqn:Ht;
    [|by apply updateBoomerang_conserves].
  cbn [fst snd]. split; [done|].
  unfold flying, countsFor, Proj.isBoomerang.
  destruct (offScreen _); cbn; rewrite Ht; rewrite ?andb_false_r; cbn; lia.
Qed.

Lemma applyDamage_held s d damage i :
  Player.boomerangsHeld (GS.player (applyDamage s d damage) i)
  = Player.boomerangsHeld (GS.player s i).
Proof. by destruct d, i. Qed.

Lemma applyBlock_held s d i :
  Player.boomerangsHeld (GS.player (applyBlock s d) i)
  = Player.boomerangsHeld (GS.player s i).
Proof. by destruct d, i. Qed.

Lemma flying_set_active_false i proj :
  flying i (Proj.set_active false proj) <= flying i proj.
Proof. unfold flying, countsFor. cbn. case_match; lia. Qed.

Lemma projectileVsPlayer_conserves s proj j r i :
  projectileVsPlayer s proj j = Some r ->
  Player.boomerangsHeld (GS.player r.1 i)
  = Player.boomerangsHeld (GS.player s i)
  /\ flying i r.2 <= flying i proj.
Proof.
  unfold projectileVsPlayer. intros H.
  repeat case_match; simplify_eq; cbn [fst snd];
    rewrite ?applyDamage_held, ?applyBlock_held;
    (split; [done|]); first [apply flying_set_active_false | lia].
Qed.

Lemma checkProjectileHit_conserves : conserves checkProjectileHit.
Proof.
  intros st proj i. unfold checkProjectileHit.
  destruct (_ || _); [cbn; lia|].
  destruct (projectileVsPlayer st proj I0) as [r|] eqn:E0.
  { destruct (projectileVsPlayer_conserves _ _ _ _ i E0) as [-> ?].
    split; [done | lia]. }
  destruct (projectileVsPlayer st proj I1) as [r|] eqn:E1.
  { destruct (projectileVsPlayer_conserves _ _ _ _ i E1) as [-> ?].
    split; [done | lia]. }
  cbn. lia.
Qed.

Lemma meleeHitBy_held s j i :
  Player.boomerangsHeld (GS.player (meleeHitBy s j) i)
  = Player.boomerangsHeld (GS.player s i).
Proof.
  unfold meleeHitBy, resolveHit.
  repeat case_match; rewrite ?applyDamage_held, ?applyBlock_held; done.
Qed.

(** *** The step *)

Lemma forEach_ammoOk body s :
  conserves body ->
  (forall i, ammoOk s i) ->
  forall i,
    ammoOk (GS.set_projectiles (forEachProjectile body s (GS.projectiles s)).2
              (forEachProjectile body s (GS.projectiles s)).1) i.
Proof.
  intros Hbody Hok i. destruct (Hok i) as [H0 Hle].
  destruct (forEachProjectile_conserves body Hbody (GS.projectiles s) s i)
    as [H1 H2].
  destruct (forEachProjectile body s (GS.projectiles s)) as [st ps].
  cbn [fst snd] in *. unfold ammoOk.
  replace (GS.player (GS.set_projectiles ps st) i) with (GS.player st i)
    by (by destruct i).
  cbn [GS.projectiles GS.set_projectiles]. split; [auto | lia].
Qed.

Lemma updateProjectiles_ammoOk s :
  (forall i, ammoOk s i) -> forall i, ammoOk (updateProjectiles s) i.
Proof.
  intros Hok i.
  pose proof (forEach_ammoOk updateProjectile s updateProjectile_conserves
                Hok i) as H.
  unfold updateProjectiles. by destruct (forEachProjectile _ _ _).
Qed.

Lemma checkProjectileHits_ammoOk s :
  (forall i, ammoOk s i) -> forall i, ammoOk (checkProjectileHits s) i.
Proof.
  intros Hok i.
  pose proof (forEach_ammoOk checkProjectileHit s checkProjectileHit_conserves
                Hok i) as H.
  unfold checkProjectileHits. by destruct (forEachProjectile _ _ _).
Qed.

Lemma resolvePlayerCollision_ammoOk s :
  (forall i, ammoOk s i) -> forall i, ammoOk (resolvePlayerCollision s) i.
Proof.
  intros Hok i. destruct (Hok i) as [H0 Hle]. unfold ammoOk.
  destruct (resolvePlayerCollision_rest s) as (-> & _).
  destruct (resolvePlayerCollision_player s i) as (v & ->). by cbn.
Qed.

Lemma checkMeleeHits_ammoOk s :
  (forall i, ammoOk s i) -> forall i, ammoOk (checkMeleeHits s) i.
Proof.
  intros Hok i. destruct (Hok i) as [H0 Hle]. unfold ammoOk.
  rewrite checkMeleeHits_projectiles. unfold checkMeleeHits.
  by rewrite !meleeHitBy_held.
Qed.

Lemma simulateFrame_ammoOk s a b :
  (forall i, ammoOk s i) -> forall i, ammoOk (simulateFrame s a b) i.
Proof.
  intros Hok i. destruct (live s) eqn:Hl.
  - rewrite simulateFrame_running by done. unfold ammoOk.
    rewrite stepBody_players, stepBody_projectiles, inFlight_filter_active.
    unfold afterHits.
    apply checkProjectileHits_ammoOk, checkMeleeHits_ammoOk,
      updateProjectiles_ammoOk, resolvePlayerCollision_ammoOk,
      updatePlayer_ammoOk, updatePlayer_ammoOk, Hok.
  - destruct (Hok i) as [H0 Hle]. unfold ammoOk, GS.player.
    by rewrite simulateFrame_frozen, simulateFrame_frozen_projectiles.
Qed.

Lemma reachable_ammoOk s : reachable s -> forall i, ammoOk s i.
Proof.
  induction 1 as [w1 w2|s a b _ IH].
  - intros i. by destruct i.
  - by apply simulateFrame_ammoOk.
Qed.

(** A catch: a returning boomerang that comes within 28 of the centre of
    its owner. *)
Lemma boomerang_catch s proj path dist :
  Proj.type proj = Proj.boomerang path Proj.returning dist ->
  let owner := GS.player s (Proj.owner proj) in
  Z.abs (Proj.x proj + Proj.direction proj * Proj.speed proj
         - (Player.x owner + C.PLAYER_WIDTH / 2)) < 28 ->
  let r := updateBoomerang s proj in
  Proj.active r.2 = false
  /\ Player.boomerangsHeld (GS.player r.1 (Proj.owner proj))
     = Z.min (Player.boomerangsHeld owner + 1) C.BOOMERANG_MAX
  /\ Player.boomerangsHeld (GS.player r.1 (other (Proj.owner proj)))
     = Player.boomerangsHeld (GS.player s (other (Proj.owner proj))).
Proof.
  intros Ht owner Hnear. cbv zeta. unfold updateBoomerang. rewrite Ht.
  cbn [Proj.owner Proj.set_type Proj.set_x].
  fold owner. rewrite (proj2 (Z.ltb_lt _ _) Hnear). cbn [fst snd].
  split; [done|]. rewrite player_set_player_eq, player_set_player_other.
  done.
Qed.
Lemma tryAttackOn_no_ammo p :
  Player.boomerangsHeld p <= 0 -> tryAttackOn p (Some Weapon.boomerang) = p.
Proof.
  intros Hh. unfold tryAttackOn. cbn.
  by rewrite (proj2 (Z.leb_le _ _)) by lia.
Qed.

(** C6.  Boomerang conservation.  In every state of a match, for each
    player, the ammo held is not negative and ammo held plus that player's
    active boomerangs in flight is at most [BOOMERANG_MAX].  A throw with
    ammo in hand takes one unit and puts one active boomerang of the
    thrower in flight; with no ammo the attack is not started and nothing
    is spawned; a catch deactivates the boomerang and gives the owner one
    unit back, clamped to the maximum. *)
Theorem boomerang_conservation :
  (forall (s : GS.t) (i : Idx),
     reachable s ->
     0 <= Player.boomerangsHeld (GS.player s i)
     /\ Player.boomerangsHeld (GS.player s i) + inFlight i (GS.projectiles s)
        <= C.BOOMERANG_MAX)
  /\ (forall (idx : Idx) (p : Player.t),
        Player.activeWeapon p = Some Weapon.boomerang ->
        0 < Player.boomerangsHeld p ->
        exists p' b,
          spawnProjectileOn idx p = (p', [b])
          /\ countsFor idx b = true
          /\ Player.boomerangsHeld p' = Player.boomerangsHeld p - 1)
  /\ (forall (idx : Idx) (p : Player.t),
        Player.boomerangsHeld p <= 0 ->
        tryAttackOn p (Some Weapon.boomerang) = p
        /\ (Player.activeWeapon p = Some Weapon.boomerang ->
            spawnProjectileOn idx p = (p, [])))
  /\ (forall (s : GS.t) (proj : Proj.t) (path dist : Z),
        Proj.type proj = Proj.boomerang path Proj.returning dist ->
        let owner := GS.player s (Proj.owner proj) in
        Z.abs (Proj.x proj + Proj.direction proj * Proj.speed proj
               - (Player.x owner + C.PLAYER_WIDTH / 2)) < 28 ->
        let r := updateBoomerang s proj in
        Proj.active r.2 = false
        /\ Player.boomerangsHeld (GS.player r.1 (Proj.owner proj))
           = Z.min (Player.boomerangsHeld owner + 1) C.BOOMERANG_MAX
        /\ Player.boomerangsHeld (GS.player r.1 (other (Proj.owner proj)))
           = Player.boomerangsHeld (GS.player s (other (Proj.owner proj)))).
Proof.
  split; [|split; [|split]].
  - intros s i Hr. by apply reachable_ammoOk.
  - intros idx p Hw Hh.
    destruct (spawn_boomerang idx p Hw Hh)
      as (p' & b & Hs & Ht & Ho & Ha & _ & Hheld & _).
    exists p', b. split; [done|]. split; [|done].
    unfold countsFor, Proj.isBoomerang. rewrite Ha, Ht, Ho.
    by destruct idx.
  - intros idx p Hh. split; [by apply tryAttackOn_no_ammo|].
    intros Hw. by apply spawn_boomerang_empty.
  - apply boomerang_catch.
Qed.

(** Conservation in the state of scenario C with two boomerangs out. *)
Lemma boomerang_conservation_witness :
  let s := runFrames (createGameState loadoutK loadoutA) twoBoomerangs_inputs in
  0 <= Player.boomerangsHeld (GS.player s I0)
  /\ Player.boomerangsHeld (GS.player s I0) + inFlight I0 (GS.projectiles s)
     <= C.BOOMERANG_MAX.
Proof.
  destruct boomerang_conservation as (H & _).
  apply H. apply runFrames_reachable. constructor.
Defined.

(** Scenario C to its end: the first boomerang comes back and is caught,
    the second hits the standing Player B and is consumed. *)
Lemma scenarioC_return :
  let s := runFrames (createGameState loadoutK loadoutA)
             (twoBoomerangs_inputs
                ++ replicate 200 (crouchHold, createEmptyInput)) in
  GS.projectiles s = []
  /\ Player.boomerangsHeld (GS.player s I0) = C.BOOMERANG_MAX - 1
  /\ Player.hp (GS.player s I1) = C.MAX_HP - 1.
Proof. by vm_compute. Qed.
(** ** Determinism of the step *)

(** The call on the store: the result is a fresh object holding
    [simulateFrame] of the value of the argument, and the store is
    otherwise as it was. *)
Lemma simulateFrameH_spec (h : store) (state : positive) (v : GS.t)
    (a b : Input.t) :
  h !! state = Some v ->
  simulateFrameH h state a b
  = Some (<[fresh (dom h) := simulateFrame v a b]> h, fresh (dom h)).
Proof.
  intros Hv. unfold simulateFrameH, cloneStateH. rewrite Hv.
  rewrite lookup_insert_eq. unfold simulateFrame.
  destruct (negb (GS.winner (cloneState v) =? -1)); [done|].
  destruct (0 <? GS.hitstop (cloneState v)).
  - by rewrite !alter_insert_eq.
  - by rewrite !alter_insert_eq.
Qed.

Lemma fresh_not_in (h : store) (l : positive) (v : GS.t) :
  h !! l = Some v -> fresh (dom h) <> l.
Proof.
  intros Hl E. pose proof (is_fresh (dom h)) as Hf. rewrite E in Hf.
  apply not_elem_of_dom in Hf. congruence.
Qed.

(** C5.  Determinism of the Simulation Step.  Two calls, one after the
    other, on the same state object and the same inputs: each returns a
    fresh object, both results hold the same value, that value is a
    function of the value of the state argument and the two inputs alone
    (any other store holding that value at the argument gives it too),
    the argument object is never written, the first result is not
    touched by the second call, and no other object of the store is. *)
Theorem simulateFrame_deterministic (h : store) (state : positive) (v : GS.t)
    (a b : Input.t) :
  h !! state = Some v ->
  exists h1 s1 h2 s2 r,
    simulateFrameH h state a b = Some (h1, s1)
    /\ simulateFrameH h1 state a b = Some (h2, s2)
    /\ r = simulateFrame v a b
    /\ h1 !! s1 = Some r /\ h2 !! s2 = Some r
    /\ s1 <> s2 /\ h2 !! s1 = Some r
    /\ h1 !! state = Some v /\ h2 !! state = Some v
    /\ (forall l, l <> s1 -> h1 !! l = h !! l)
    /\ (forall l, l <> s2 -> h2 !! l = h1 !! l)
    /\ (forall (g : store) (state' : positive),
          g !! state' = Some v ->
          exists g1 t1,
            simulateFrameH g state' a b = Some (g1, t1)
            /\ g1 !! t1 = Some r).
Proof.
  intros Hv.
  set (s1 := fresh (dom h)).
  set (r := simulateFrame v a b).
  set (h1 := <[s1 := r]> h).
  assert (Hs1 : s1 <> state) by exact (fresh_not_in h state v Hv).
  assert (Hv1 : h1 !! state = Some v) by (unfold h1; by rewrite lookup_insert_ne).
  assert (Hr1 : h1 !! s1 = Some r) by (unfold h1; by rewrite lookup_insert_eq).
  set (s2 := fresh (dom h1)).
  assert (Hs2 : s2 <> state) by exact (fresh_not_in h1 state v Hv1).
  assert (Hs12 : s2 <> s1) by exact (fresh_not_in h1 s1 r Hr1).
  exists h1, s1, (<[s2 := r]> h1), s2, r.
  split; [by apply simulateFrameH_spec|].
  split; [by apply simulateFrameH_spec|].
  split; [done|]. split; [done|].
  split; [by rewrite lookup_insert_eq|].
  split; [done|].
  split; [by rewrite lookup_insert_ne|].
  split; [done|].
  split; [by rewrite lookup_insert_ne|].
  split; [intros l Hl; unfold h1; by rewrite lookup_insert_ne|].
  split; [intros l Hl; by rewrite lookup_insert_ne|].
  intros g state' Hg. eexists _, _.
  split; [by apply simulateFrameH_spec|]. by rewrite lookup_insert_eq.
Qed.

(** The two calls on a store that holds scenario A at object 1. *)
Lemma simulateFrame_deterministic_witness :
  exists h1 s1 h2 s2 r,
    simulateFrameH {[1%positive := scenarioA]} 1 createEmptyInput
                   createEmptyInput = Some (h1, s1)
    /\ simulateFrameH h1 1 createEmptyInput createEmptyInput = Some (h2, s2)
    /\ h1 !! s1 = Some r /\ h2 !! s2 = Some r /\ s1 <> s2.
Proof.
  destruct (simulateFrame_deterministic {[1%positive := scenarioA]} 1
              scenarioA createEmptyInput createEmptyInput)
    as (h1 & s1 & h2 & s2 & r & H1 & H2 & _ & H3 & H4 & H5 & _);
    [by rewrite lookup_singleton_eq|].
  by exists h1, s1, h2, s2, r.
Defined.
(** ** The history buffers *)

Lemma toInt32_id z : int32 z -> toInt32 z = z.
Proof.
  unfold int32, toInt32. intros H.
  rewrite Z.mod_small by lia. lia.
Qed.

Lemma toInt32_int32 z : int32 (toInt32 z).
Proof.
  unfold int32, toInt32.
  pose proof (Z.mod_pos_bound (z + 2 ^ 31) (2 ^ 32) ltac:(lia)). lia.
Qed.

Lemma rem_slot f n :
  0 <= f -> 0 < n -> 0 <= Z.rem f n < n.
Proof. intros. by apply Z.rem_bound_pos. Qed.

Lemma rem_slot_ne f g n :
  0 <= f -> 0 <= g -> 0 < n -> f <> g -> Z.abs (f - g) < n ->
  Z.rem f n <> Z.rem g n.
Proof.
  intros Hf Hg Hn Hne Habs E.
  rewrite !Z.rem_mod_nonneg in E by lia.
  assert (H : (f - g) mod n = 0).
  { rewrite Zminus_mod, E, Z.sub_diag. by apply Z.mod_0_l; lia. }
  apply Z.mod_divide in H; [|lia]. destruct H as [k Hk].
  assert (k = 0) by nia. lia.
Qed.

Lemma inputHistoryWf_new : inputHistoryWf InputHistory.new.
Proof.
  unfold inputHistoryWf, InputHistory.new. cbn [InputHistory.buf InputHistory.frames].
  rewrite !length_replicate. repeat split.
  apply Forall_replicate. unfold int32. lia.
Qed.

Lemma inputHistoryWf_set h f v :
  inputHistoryWf h -> inputHistoryWf (InputHistory.set h f v).
Proof.
  intros (Hb & Hf & Ht). unfold InputHistory.set.
  destruct (Z.rem f InputHistory.size <? 0); [done|].
  unfold inputHistoryWf. cbn [InputHistory.buf InputHistory.frames].
  rewrite !length_insert. repeat split; try done.
  apply Forall_insert; [done | apply toInt32_int32].
Qed.

Lemma InputHistory_get_set_eq h f v :
  inputHistoryWf h -> 0 <= f < 2 ^ 31 ->
  InputHistory.get (InputHistory.set h f v) f = Some v.
Proof.
  intros (Hb & Hf & _) Hr. unfold InputHistory.get, InputHistory.set.
  pose proof (rem_slot f InputHistory.size) as Hs.
  unfold InputHistory.size in *.
  rewrite (proj2 (Z.ltb_ge _ _)) by lia.
  cbn [InputHistory.buf InputHistory.frames].
  rewrite !list_lookup_insert_eq by lia.
  rewrite toInt32_id by (unfold int32; lia).
  by rewrite Z.eqb_refl.
Qed.

Lemma InputHistory_get_set_ne h f g v :
  0 <= f -> 0 <= g ->
  Z.rem f InputHistory.size <> Z.rem g InputHistory.size ->
  InputHistory.get (InputHistory.set h g v) f = InputHistory.get h f.
Proof.
  intros Hf Hg Hne. unfold InputHistory.get, InputHistory.set.
  pose proof (rem_slot f InputHistory.size) as Hsf.
  pose proof (rem_slot g InputHistory.size) as Hsg.
  unfold InputHistory.size in *.
  rewrite !(proj2 (Z.ltb_ge _ _)) by lia.
  cbn [InputHistory.buf InputHistory.frames].
  by rewrite !list_lookup_insert_ne by lia.
Qed.

(** A frame of 2^31 or more is never found: its tag has wrapped. *)
Lemma InputHistory_get_wrapped h f :
  inputHistoryWf h -> 2 ^ 31 <= f -> InputHistory.get h f = None.
Proof.
  intros (_ & _ & Ht) Hf. unfold InputHistory.get.
  destruct (Z.rem f InputHistory.size <? 0); [done|].
  destruct (InputHistory.frames h !! _) as [tag|] eqn:E; [|done].
  assert (int32 tag) as Hi.
  { eapply Forall_lookup_1 in Ht; eauto. }
  unfold int32 in Hi. by rewrite (proj2 (Z.eqb_neq tag f)) by lia.
Qed.
(** ** Ingestion of remote inputs *)

Lemma receiveInputs_pairs m msg :
  receiveInputs m msg = receivePairs m (msgPairs msg).
Proof.
  unfold receiveInputs, receivePairs, msgPairs.
  generalize (startFrame msg). revert m.
  induction (inputs msg) as [|input rest IH]; intros m f; [done|].
  cbn. apply IH.
Qed.

Lemma receivePairs_app m l l' :
  receivePairs m (l ++ l') = receivePairs (receivePairs m l) l'.
Proof. unfold receivePairs. apply foldl_app. Qed.

Lemma receive_messages_pairs msgs : forall m,
  foldl receiveInputs m msgs = receivePairs m (concat (msgPairs <$> msgs)).
Proof.
  induction msgs as [|msg msgs IH]; intros m; [done|].
  cbn [foldl fmap list_fmap concat].
  rewrite receivePairs_app, <- receiveInputs_pairs. apply IH.
Qed.

Lemma receivePair_confirmed m frame input v :
  InputHistory.get (Mgr.remoteInputs m) frame = Some v ->
  receivePair m frame input = m.
Proof. intros H. unfold receivePair. rewrite H. by case_match. Qed.

Lemma receivePair_negative m frame input :
  frame < 0 -> receivePair m frame input = m.
Proof. intros H. unfold receivePair. by rewrite (proj2 (Z.ltb_lt _ _) H). Qed.

Lemma receivePair_new m frame input :
  0 <= frame ->
  InputHistory.get (Mgr.remoteInputs m) frame = None ->
  let m' := receivePair m frame input in
  Mgr.remoteInputs m'
  = InputHistory.set (Mgr.remoteInputs m) frame input
  /\ Mgr.lastConfirmedFrame m' = Z.max (Mgr.lastConfirmedFrame m) frame
  /\ Mgr.localInputs m' = Mgr.localInputs m
  /\ Mgr.states m' = Mgr.states m
  /\ Mgr.predictedRemote m' = Mgr.predictedRemote m
  /\ Mgr.currentFrame m' = Mgr.currentFrame m.
Proof.
  intros H0 Hg. cbv zeta. unfold receivePair.
  rewrite (proj2 (Z.ltb_ge _ _)) by lia. rewrite Hg.
  rewrite Z.gtb_ltb.
  cbn [Mgr.lastConfirmedFrame Mgr.set_remoteInputs].
  destruct (Z.ltb_spec (Mgr.lastConfirmedFrame m) frame);
    repeat case_match; cbn; repeat split; lia.
Qed.

Lemma receivePair_target m frame input :
  Mgr.rollbackTarget (receivePair m frame input)
  = if mispredicted m frame input
    then Some (match Mgr.rollbackTarget m with
               | None => frame
               | Some t => Z.min t frame
               end)
    else Mgr.rollbackTarget m.
Proof.
  unfold receivePair, mispredicted.
  destruct (Z.ltb_spec frame 0) as [Hn|Hn].
  { by rewrite (proj2 (Z.leb_gt _ _)) by lia. }
  rewrite (proj2 (Z.leb_le _ _)) by lia. cbn [andb].
  destruct (InputHistory.get _ frame) eqn:Hg.
  { by rewrite bool_decide_eq_false_2. }
  rewrite bool_decide_eq_true_2 by done. cbn [andb].
  set (m1 := Mgr.set_remoteInputs _ m).
  set (m2 := if frame >? _ then _ else m1).
  assert (H2 : Mgr.currentFrame m2 = Mgr.currentFrame m
               /\ Mgr.predictedRemote m2 = Mgr.predictedRemote m
               /\ Mgr.rollbackTarget m2 = Mgr.rollbackTarget m).
  { unfold m2. by destruct (frame >? _). }
  destruct H2 as (-> & -> & Ht).
  destruct (frame <? Mgr.currentFrame m); cbn [andb]; [|done].
  destruct (Mgr.predictedRemote m !! frame) as [p|]; [|done].
  destruct (inputsEqual p input); cbn [negb]; [done|].
  rewrite Ht. destruct (Mgr.rollbackTarget m) as [t|]; [|done].
  destruct (Z.ltb_spec frame t); cbn; [f_equal; lia|].
  rewrite Ht. f_equal. lia.
Qed.

Lemma earliest_cons t x l :
  earliest t (x :: l)
  = earliest (Some (match t with None => x | Some t1 => Z.min t1 x end)) l.
Proof. reflexivity. Qed.

Lemma receivePairs_target pairs : forall m,
  Mgr.rollbackTarget (receivePairs m pairs)
  = earliest (Mgr.rollbackTarget m) (flagged m pairs).
Proof.
  induction pairs as [|[f input] rest IH]; intros m; [done|].
  unfold receivePairs in *. cbn [foldl flagged fst snd].
  rewrite IH, receivePair_target.
  destruct (mispredicted m f input); [|done].
  cbn [app]. by rewrite earliest_cons.
Qed.

(** [earliest] is the minimum. *)
Lemma earliest_spec l : forall t,
  (forall f, f ∈ l -> exists r, earliest t l = Some r /\ r <= f)
  /\ (forall t0, t = Some t0 -> exists r, earliest t l = Some r /\ r <= t0)
  /\ (forall r, earliest t l = Some r -> t = Some r \/ r ∈ l)
  /\ (l = [] -> earliest t l = t).
Proof.
  induction l as [|x l IH]; intros t.
  { split; [intros f Hf; by apply elem_of_nil in Hf|].
    split; [intros t0 ->; exists t0; split; [done | lia]|].
    split; [intros r Hr; by left | done]. }
  rewrite earliest_cons.
  set (t' := Some (match t with None => x | Some t1 => Z.min t1 x end)).
  destruct (IH t') as (H1 & H2 & H3 & _).
  assert (Hx : exists r, earliest t' l = Some r /\ r <= x
                         /\ forall t0, t = Some t0 -> r <= t0).
  { destruct (H2 _ eq_refl) as (r & Hr & Hle). exists r.
    split; [done|]. destruct t; split; try lia; intros t0 E; simplify_eq; lia. }
  destruct Hx as (r & Hr & Hrx & Hrt).
  split.
  { intros f Hf. apply elem_of_cons in Hf as [->|Hf]; [by exists r | auto]. }
  split; [intros t0 E; exists r; auto|].
  split; [|done].
  intros r' Hr'. destruct (H3 r' Hr') as [E|E]; [|right; by right].
  unfold t' in E. destruct t as [t1|]; simplify_eq.
  - destruct (Z.min_spec t1 x) as [[_ ->]|[_ ->]]; [by left | right; by left].
  - right. by left.
Qed.

(** C4.  Ingestion of redundant-input messages.  A message is processed
    pair by pair, newest tick first.  A pair whose tick already holds a
    confirmed value changes nothing (first writer wins).  Any other pair
    of a tick from 0 on is stored in the remote history, where the tick
    then reads back as that input (ticks fit the 32-bit frame tags), and
    the watermark becomes the larger of itself and the tick; nothing
    else but the rollback target changes.  The target moves only when
    the pair is a misprediction, to the smaller of itself and the tick;
    so after any messages the recorded target is the earliest of the
    ticks flagged and of the target recorded before. *)
Theorem receiveInputs_ingest :
  (forall (m : Mgr.t) (msg : InputMsg),
     receiveInputs m msg = receivePairs m (msgPairs msg))
  /\ (forall (m : Mgr.t) (frame : Z) (input v : Input.t),
        InputHistory.get (Mgr.remoteInputs m) frame = Some v ->
        receivePair m frame input = m)
  /\ (forall (m : Mgr.t) (frame : Z) (input : Input.t),
        0 <= frame ->
        InputHistory.get (Mgr.remoteInputs m) frame = None ->
        let m' := receivePair m frame input in
        Mgr.remoteInputs m'
        = InputHistory.set (Mgr.remoteInputs m) frame input
        /\ (inputHistoryWf (Mgr.remoteInputs m) -> frame < 2 ^ 31 ->
            InputHistory.get (Mgr.remoteInputs m') frame = Some input)
        /\ Mgr.lastConfirmedFrame m' = Z.max (Mgr.lastConfirmedFrame m) frame
        /\ Mgr.localInputs m' = Mgr.localInputs m
        /\ Mgr.states m' = Mgr.states m
        /\ Mgr.predictedRemote m' = Mgr.predictedRemote m
        /\ Mgr.currentFrame m' = Mgr.currentFrame m)
  /\ (forall (m : Mgr.t) (frame : Z) (input : Input.t),
        Mgr.rollbackTarget (receivePair m frame input)
        = if mispredicted m frame input
          then Some (match Mgr.rollbackTarget m with
                     | None => frame
                     | Some t => Z.min t frame
                     end)
          else Mgr.rollbackTarget m)
  /\ (forall (m : Mgr.t) (msgs : list InputMsg),
        let m' := foldl receiveInputs m msgs in
        let ticks := flagged m (concat (msgPairs <$> msgs)) in
        (forall t, t ∈ ticks ->
           exists r, Mgr.rollbackTarget m' = Some r /\ r <= t)
        /\ (forall t0, Mgr.rollbackTarget m = Some t0 ->
              exists r, Mgr.rollbackTarget m' = Some r /\ r <= t0)
        /\ (forall r, Mgr.rollbackTarget m' = Some r ->
              Mgr.rollbackTarget m = Some r \/ r ∈ ticks)
        /\ (ticks = [] -> Mgr.rollbackTarget m' = Mgr.rollbackTarget m)).
Proof.
  split; [apply receiveInputs_pairs|].
  split; [apply receivePair_confirmed|].
  split.
  { intros m frame input H0 Hg.
    destruct (receivePair_new m frame input H0 Hg)
      as (Hr & Hl & Hlo & Hs & Hp & Hc).
    cbv zeta. rewrite Hr. repeat split; try done.
    intros Hwf Hlt. by apply InputHistory_get_set_eq. }
  split; [apply receivePair_target|].
  intros m msgs. cbv zeta.
  rewrite receive_messages_pairs, receivePairs_target.
  apply earliest_spec.
Qed.
(** ** The manager never stalls *)

Lemma rem_shift t n : 0 <= t -> 0 < n -> Z.rem (t + n) n = Z.rem t n.
Proof.
  intros Ht Hn. rewrite !Z.rem_mod_nonneg by lia.
  rewrite <- (Z.mul_1_l n) at 1. by rewrite Z.mod_add by lia.
Qed.

(** Saving a tick of the last 32. *)
Lemma stateHistoryWf_save h cur f s :
  stateHistoryWf h cur ->
  0 <= f -> cur - StateHistory.size <= f <= cur -> f < 2 ^ 31 ->
  stateHistoryWf (StateHistory.save h f s) cur.
Proof.
  intros (Hb & Hf & Ht) H0 Hr Hlt. unfold StateHistory.save.
  pose proof (rem_slot f StateHistory.size H0) as Hs.
  unfold StateHistory.size in *.
  rewrite (proj2 (Z.ltb_ge _ _)) by lia.
  unfold stateHistoryWf, StateHistory.size.
  cbn [StateHistory.buf StateHistory.frames].
  rewrite !length_insert. repeat split; try done.
  intros j tag Hj.
  apply list_lookup_insert_Some in Hj as [(Hj & <- & _)|(_ & Hj)];
    [|by eapply Ht].
  right. rewrite toInt32_id by (unfold int32; lia).
  repeat split; lia.
Qed.

Lemma stateHistoryWf_new cur : stateHistoryWf StateHistory.new cur.
Proof.
  unfold stateHistoryWf, StateHistory.new.
  cbn [StateHistory.buf StateHistory.frames].
  rewrite !length_replicate. repeat split.
  intros j tag Hj. apply lookup_replicate in Hj as [-> _]. by left.
Qed.

Lemma stateHistoryWf_first s :
  stateHistoryWf (StateHistory.save StateHistory.new 0 s) 0.
Proof.
  apply stateHistoryWf_save; [apply stateHistoryWf_new | | |];
    unfold StateHistory.size; lia.
Qed.

(** Saving the current tick and moving on. *)
Lemma stateHistoryWf_advance h cur s :
  stateHistoryWf h cur -> 0 <= cur < 2 ^ 31 ->
  stateHistoryWf (StateHistory.save h cur s) (cur + 1).
Proof.
  intros (Hb & Hf & Ht) Hr. unfold StateHistory.save.
  pose proof (rem_slot cur StateHistory.size) as Hs.
  unfold StateHistory.size in *.
  rewrite (proj2 (Z.ltb_ge _ _)) by lia.
  unfold stateHistoryWf, StateHistory.size.
  cbn [StateHistory.buf StateHistory.frames].
  rewrite !length_insert. repeat split; try done.
  intros j tag Hj.
  apply list_lookup_insert_Some in Hj as [(Hj & <- & _)|(Hne & Hj)].
  - right. rewrite toInt32_id by (unfold int32; lia).
    repeat split; lia.
  - destruct (Ht j tag Hj) as [->|(H0 & Hrange & Hrem)]; [by left | right].
    repeat split; try lia.
    destruct (Z.eq_dec tag (cur - 32)) as [->|]; [|lia].
    exfalso. apply Hne. rewrite <- (rem_shift (cur - 32) 32) in Hrem by lia.
    replace (cur - 32 + 32) with cur in Hrem by lia. lia.
Qed.

Lemma StateHistory_load_range h cur t s :
  stateHistoryWf h cur -> StateHistory.load h t = Some s ->
  0 <= t /\ cur - StateHistory.size <= t <= cur.
Proof.
  intros (_ & _ & Ht). unfold StateHistory.load.
  destruct (Z.ltb_spec (Z.rem t StateHistory.size) 0) as [|Hs]; [done|].
  destruct (StateHistory.frames h !! _) as [tag|] eqn:E; [|done].
  destruct (Z.eqb_spec tag t) as [->|]; [|done]. intros _.
  destruct (Ht _ _ E) as [->|(? & ? & _)]; [|done].
  exfalso. revert Hs. by vm_compute.
Qed.

(** Seeding the first [k] ticks of an input history. *)
Lemma seed_prefix (k : nat) h0 :
  inputHistoryWf h0 -> Z.of_nat k <= InputHistory.size ->
  let h := foldl (fun h f => InputHistory.set h f createEmptyInput) h0
                 (seqZ 0 (Z.of_nat k)) in
  inputHistoryWf h
  /\ forall f, 0 <= f < Z.of_nat k -> is_Some (InputHistory.get h f).
Proof.
  intros Hwf. unfold InputHistory.size. induction k as [|k IH]; intros Hk.
  { split; [done | intros f Hf; lia]. }
  cbv zeta. rewrite seqZ_S, foldl_app. cbn [foldl].
  destruct IH as [Hwf' Hget]; [lia|]. cbv zeta in Hwf', Hget.
  set (h := foldl _ h0 (seqZ 0 (Z.of_nat k))) in *.
  split; [by apply inputHistoryWf_set|].
  intros f Hf. rewrite Z.add_0_l.
  destruct (Z.eq_dec f (Z.of_nat k)) as [->|Hne].
  - rewrite InputHistory_get_set_eq; [done | done | lia].
  - rewrite InputHistory_get_set_ne; [apply Hget; lia | lia | lia |].
    apply rem_slot_ne; unfold InputHistory.size; lia.
Qed.
Lemma mgrInv_ext delay m m' :
  Mgr.localInputs m' = Mgr.localInputs m ->
  Mgr.states m' = Mgr.states m ->
  Mgr.currentFrame m' = Mgr.currentFrame m ->
  mgrInv delay m -> mgrInv delay m'.
Proof. unfold mgrInv. by intros -> -> ->. Qed.

Lemma receivePair_frame m frame input :
  Mgr.localInputs (receivePair m frame input) = Mgr.localInputs m
  /\ Mgr.states (receivePair m frame input) = Mgr.states m
  /\ Mgr.currentFrame (receivePair m frame input) = Mgr.currentFrame m.
Proof. unfold receivePair. by repeat case_match. Qed.

Lemma receiveInputs_inv delay m msg :
  mgrInv delay m -> mgrInv delay (receiveInputs m msg).
Proof.
  unfold receiveInputs. generalize (startFrame msg). revert m.
  induction (inputs msg) as [|input rest IH]; intros m f Hinv; [done|].
  cbn [receiveFrom]. apply IH.
  destruct (receivePair_frame m f input) as (Hl & Hs & Hc).
  by apply (mgrInv_ext delay m).
Qed.

Lemma remoteOrPredicted_frame m f :
  Mgr.localInputs (remoteOrPredicted m f).2 = Mgr.localInputs m
  /\ Mgr.states (remoteOrPredicted m f).2 = Mgr.states m
  /\ Mgr.currentFrame (remoteOrPredicted m f).2 = Mgr.currentFrame m.
Proof. unfold remoteOrPredicted. by case_match. Qed.

(** The resimulation loop over ticks whose local inputs are stored. *)
Lemma resimulate_ok isHost (n : nat) : forall m state f,
  (forall f', f <= f' < f + Z.of_nat n ->
              is_Some (InputHistory.get (Mgr.localInputs m) f')) ->
  stateHistoryWf (Mgr.states m) (Mgr.currentFrame m) ->
  0 <= f -> Mgr.currentFrame m - StateHistory.size <= f ->
  f + Z.of_nat n <= Mgr.currentFrame m -> Mgr.currentFrame m <= 2 ^ 31 ->
  exists m' g,
    resimulate m state f n isHost = (m', Some g)
    /\ Mgr.localInputs m' = Mgr.localInputs m
    /\ Mgr.currentFrame m' = Mgr.currentFrame m
    /\ stateHistoryWf (Mgr.states m') (Mgr.currentFrame m).
Proof.
  induction n as [|n IH]; intros m state f Hloc Hwf H0 Hlo Hhi Hcur.
  { by exists m, state. }
  cbn [resimulate].
  destruct (Hloc f) as [myInput HmyInput]; [lia|]. rewrite HmyInput.
  destruct (remoteOrPredicted_frame m f) as (Hl1 & Hs1 & Hc1).
  destruct (remoteOrPredicted m f) as [theirInput m1]. cbn [snd] in *.
  set (m2 := Mgr.set_states _ m1).
  assert (Hsim : exists g,
             simulateFrameNullable state
               (if isHost then Some myInput else Some theirInput)
               (if isHost then Some theirInput else Some myInput) = Some g).
  { unfold simulateFrameNullable. destruct isHost; cbn; eauto. }
  destruct Hsim as [g ->].
  destruct (IH m2 g (f + 1)) as (m' & g' & Hres & Hl' & Hc' & Hwf').
  - intros f' Hf'. cbn [m2 Mgr.localInputs Mgr.set_states]. rewrite Hl1.
    apply Hloc. lia.
  - unfold m2. cbn [Mgr.states Mgr.currentFrame Mgr.set_states].
    rewrite Hs1, Hc1. apply stateHistoryWf_save; [done | lia | lia | lia].
  - lia.
  - unfold m2. cbn [Mgr.currentFrame Mgr.set_states]. rewrite Hc1. lia.
  - unfold m2. cbn [Mgr.currentFrame Mgr.set_states]. rewrite Hc1. lia.
  - unfold m2. cbn [Mgr.currentFrame Mgr.set_states]. rewrite Hc1. lia.
  - exists m', g'. split; [done|].
    unfold m2 in Hl', Hc', Hwf'.
    cbn [Mgr.localInputs Mgr.currentFrame Mgr.set_states] in Hl', Hc', Hwf'.
    split; [congruence|]. split; [congruence|]. by rewrite Hc1 in Hwf'.
Qed.

Section TickProgress.

Variable ROLLBACK_INPUT_DELAY : Z.
Variable ROLLBACK_INPUT_REDUNDANCY : Z.
Variable ROLLBACK_MAX_FRAMES : Z.

(** The delay is short enough for the ring of 128 local inputs to hold
    the delayed ticks together with the 32 ticks a rollback can replay. *)
Hypothesis delay_range : 0 <= ROLLBACK_INPUT_DELAY <= 95.

Local Abbreviation delay := ROLLBACK_INPUT_DELAY.
Local Abbreviation tick' :=
  (tick ROLLBACK_INPUT_DELAY ROLLBACK_INPUT_REDUNDANCY ROLLBACK_MAX_FRAMES).

Lemma reset_inv initialState : mgrInv delay (reset delay initialState).
Proof.
  unfold reset, mgrInv. cbn [Mgr.currentFrame Mgr.localInputs Mgr.states].
  destruct (seed_prefix (Z.to_nat delay) InputHistory.new inputHistoryWf_new)
    as [Hwf Hget]; [unfold InputHistory.size; lia|].
  rewrite Z2Nat.id in Hwf, Hget by lia.
  split; [lia|]. split; [exact Hwf|].
  split; [apply stateHistoryWf_first|].
  intros f H0 Hr _. apply Hget. lia.
Qed.

Lemma performRollback_ok m gameState isHost :
  (forall f, 0 <= f -> Mgr.currentFrame m - StateHistory.size <= f
             < Mgr.currentFrame m ->
             is_Some (InputHistory.get (Mgr.localInputs m) f)) ->
  stateHistoryWf (Mgr.states m) (Mgr.currentFrame m) ->
  Mgr.currentFrame m <= 2 ^ 31 ->
  exists m' g,
    performRollback ROLLBACK_MAX_FRAMES m gameState isHost = (m', Some g)
    /\ Mgr.localInputs m' = Mgr.localInputs m
    /\ Mgr.currentFrame m' = Mgr.currentFrame m
    /\ stateHistoryWf (Mgr.states m') (Mgr.currentFrame m).
Proof.
  intros Hloc Hwf Hcur. unfold performRollback.
  destruct (Mgr.rollbackTarget m) as [target|]; [|by exists m, gameState].
  cbn [Mgr.currentFrame Mgr.states Mgr.set_rollbackTarget].
  set (t := if _ >? _ then _ else target).
  destruct (StateHistory.load (Mgr.states m) t) as [restored|] eqn:Hload;
    [|by eexists _, gameState].
  destruct (StateHistory_load_range _ _ _ _ Hwf Hload) as (Ht0 & Htlo & Hthi).
  set (m1 := Mgr.set_stats _ _ _).
  assert (Hc1 : Mgr.currentFrame m1 = Mgr.currentFrame m) by reflexivity.
  assert (Hl1 : Mgr.localInputs m1 = Mgr.localInputs m) by reflexivity.
  assert (Hs1 : Mgr.states m1 = Mgr.states m) by reflexivity.
  clearbody m1. unfold StateHistory.size in *.
  destruct (resimulate_ok isHost (Z.to_nat (Mgr.currentFrame m - t))
              m1 restored t) as (m' & g & Hres & Hl & Hc & Hwf').
  - intros f' Hf'. rewrite Hl1. apply Hloc; lia.
  - by rewrite Hs1, Hc1.
  - lia.
  - unfold StateHistory.size. lia.
  - lia.
  - lia.
  - exists m', g. rewrite Hc1. split; [exact Hres|].
    split; [congruence|]. split; [congruence|]. by rewrite <- Hc1.
Qed.

(** A tick below 2^31 advances. *)
Lemma tick_advances m gameState input isHost :
  mgrInv delay m -> Mgr.currentFrame m < 2 ^ 31 ->
  exists m' msg g,
    tick' m gameState input isHost = (m', msg, Advanced g)
    /\ Mgr.currentFrame m' = Mgr.currentFrame m + 1
    /\ mgrInv delay m'.
Proof.
  intros (Hcur & Hwf & Hswf & Hwin) Hlt. unfold tick.
  set (cur := Mgr.currentFrame m) in *.
  set (m1 := Mgr.set_localInputs _ m).
  cbn [Mgr.currentFrame Mgr.localInputs Mgr.set_localInputs m1].
  fold cur.
  set (loc1 := InputHistory.set (Mgr.localInputs m) (cur + delay) input).
  assert (Hwf1 : inputHistoryWf loc1) by by apply inputHistoryWf_set.
  assert (Hwin1 : forall f, 0 <= f -> cur - StateHistory.size <= f
                    <= cur + delay -> f < 2 ^ 31 ->
                    is_Some (InputHistory.get loc1 f)).
  { intros f H0 Hr Hf. unfold StateHistory.size in Hr.
    destruct (Z.eq_dec f (cur + delay)) as [->|Hne].
    - unfold loc1. rewrite InputHistory_get_set_eq; [done | done | lia].
    - unfold loc1. rewrite InputHistory_get_set_ne; [| lia | lia |].
      + apply Hwin; unfold StateHistory.size, InputHistory.size; lia.
      + apply rem_slot_ne; unfold InputHistory.size; lia. }
  destruct (Hwin1 cur) as [myInput HmyInput];
    [lia | unfold StateHistory.size; lia | lia |].
  rewrite HmyInput.
  assert (Hroll : exists m2 g,
             match Mgr.rollbackTarget m1 with
             | Some _ => performRollback ROLLBACK_MAX_FRAMES m1 gameState isHost
             | None => (m1, Some gameState)
             end = (m2, Some g)
             /\ Mgr.localInputs m2 = loc1
             /\ Mgr.currentFrame m2 = cur
             /\ stateHistoryWf (Mgr.states m2) cur).
  { destruct (Mgr.rollbackTarget m1); [|by exists m1, gameState].
    destruct (performRollback_ok m1 gameState isHost)
      as (m2 & g & H1 & H2 & H3 & H4); try done.
    - intros f H0 Hr. apply Hwin1; [lia | | ].
      + cbn [Mgr.currentFrame m1 Mgr.set_localInputs] in Hr. fold cur in Hr. lia.
      + cbn [Mgr.currentFrame m1 Mgr.set_localInputs] in Hr. fold cur in Hr. lia.
    - cbn [Mgr.currentFrame m1 Mgr.set_localInputs]. fold cur. lia.
    - by exists m2, g. }
  destruct Hroll as (m2 & g & -> & Hl2 & Hc2 & Hwf2).
  destruct (remoteOrPredicted_frame m2 (Mgr.currentFrame m2)) as (Hl3 & Hs3 & Hc3).
  destruct (remoteOrPredicted m2 (Mgr.currentFrame m2)) as [theirInput m3].
  cbn [snd] in *.
  eexists _, _, _. split; [reflexivity|].
  unfold cleanupPredictions, mgrInv.
  cbn [Mgr.currentFrame Mgr.localInputs Mgr.states Mgr.set_predictedRemote
       Mgr.set_currentFrame Mgr.set_states].
  rewrite Hc3, Hc2, Hl3, Hl2, Hs3.
  split; [done|]. split; [lia|]. split; [done|].
  split; [apply stateHistoryWf_advance; [done | lia]|].
  intros f H0 Hr Hf. apply Hwin1; unfold StateHistory.size, InputHistory.size in *; lia.
Qed.

(** From tick 2^31 on the local input of the current tick is never
    found again: the call reports "not ready" and nothing advances. *)
Lemma tick_stalls m gameState input isHost :
  mgrInv delay m -> Mgr.currentFrame m = 2 ^ 31 ->
  exists m' msg,
    tick' m gameState input isHost = (m', msg, NotReady)
    /\ Mgr.currentFrame m' = Mgr.currentFrame m
    /\ mgrInv delay m'.
Proof.
  intros (Hcur & Hwf & Hswf & Hwin) Heq. unfold tick.
  set (m1 := Mgr.set_localInputs _ m).
  cbn [Mgr.currentFrame Mgr.localInputs Mgr.set_localInputs m1].
  set (loc1 := InputHistory.set _ _ input).
  assert (Hwf1 : inputHistoryWf loc1) by by apply inputHistoryWf_set.
  rewrite (InputHistory_get_wrapped loc1 _ Hwf1) by lia.
  eexists _, _. split; [reflexivity|]. split; [done|].
  unfold mgrInv. cbn [Mgr.currentFrame Mgr.localInputs Mgr.states m1 Mgr.set_localInputs].
  split; [done|]. split; [done|]. split; [done|].
  intros f H0 Hr Hf.
  unfold loc1. rewrite InputHistory_get_set_ne; [| lia | lia |].
  - by apply Hwin.
  - apply rem_slot_ne; unfold StateHistory.size, InputHistory.size in *; lia.
Qed.

Lemma tick_inv m gameState input isHost :
  mgrInv delay m ->
  mgrInv delay (tick' m gameState input isHost).1.1
  /\ Mgr.currentFrame (tick' m gameState input isHost).1.1
     = Z.min (Mgr.currentFrame m + 1) (2 ^ 31).
Proof.
  intros Hinv. pose proof Hinv as (Hcur & _).
  destruct (Z.eq_dec (Mgr.currentFrame m) (2 ^ 31)) as [Heq|Hne].
  - destruct (tick_stalls m gameState input isHost Hinv Heq)
      as (m' & msg & -> & Hc & Hinv').
    cbn [fst]. split; [done | lia].
  - destruct (tick_advances m gameState input isHost Hinv)
      as (m' & msg & g & -> & Hc & Hinv'); [lia|].
    cbn [fst]. split; [done | lia].
Qed.

Lemma tickCalls_cons op ops :
  tickCalls (op :: ops) = (if isTick op then 1 else 0) + tickCalls ops.
Proof.
  unfold tickCalls. cbn [List.filter].
  destruct (isTick op); cbn [length]; lia.
Qed.

Lemma tickCalls_nonneg ops : 0 <= tickCalls ops.
Proof. unfold tickCalls. lia. Qed.

Lemma runOps_cons m op ops :
  runOps ROLLBACK_INPUT_DELAY ROLLBACK_INPUT_REDUNDANCY ROLLBACK_MAX_FRAMES
         m (op :: ops)
  = runOps ROLLBACK_INPUT_DELAY ROLLBACK_INPUT_REDUNDANCY ROLLBACK_MAX_FRAMES
           (applyOp ROLLBACK_INPUT_DELAY ROLLBACK_INPUT_REDUNDANCY
                    ROLLBACK_MAX_FRAMES m op) ops.
Proof. reflexivity. Qed.

Lemma runOps_inv ops : forall m,
  mgrInv delay m ->
  let m' := runOps ROLLBACK_INPUT_DELAY ROLLBACK_INPUT_REDUNDANCY
                   ROLLBACK_MAX_FRAMES m ops in
  mgrInv delay m'
  /\ Mgr.currentFrame m'
     = Z.min (Mgr.currentFrame m + tickCalls ops) (2 ^ 31).
Proof.
  induction ops as [|op ops IH]; intros m Hinv.
  { cbv zeta. unfold runOps. cbn [foldl]. split; [exact Hinv|].
    destruct Hinv as (Hcur & _). unfold tickCalls.
    cbn [List.filter length]. lia. }
  cbv zeta. rewrite runOps_cons, tickCalls_cons. pose proof (tickCalls_nonneg ops) as Hnn.
  destruct op as [g input isHost | msg]; cbn [applyOp isTick].
  - destruct (tick_inv m g input isHost Hinv) as [Hinv1 Hc1].
    destruct (IH _ Hinv1) as [Hinv' Hc']. cbv zeta in Hinv', Hc'.
    split; [done|]. rewrite Hc', Hc1. lia.
  - pose proof (receiveInputs_inv delay m msg Hinv) as Hinv1.
    destruct (IH _ Hinv1) as [Hinv' Hc']. cbv zeta in Hinv', Hc'.
    split; [done|]. rewrite Hc'.
    assert (Mgr.currentFrame (receiveInputs m msg) = Mgr.currentFrame m) as ->.
    { unfold receiveInputs. generalize (startFrame msg). generalize m.
      induction (inputs msg) as [|i r IHr]; intros m0 f; [done|].
      cbn [receiveFrom]. rewrite IHr.
      by destruct (receivePair_frame m0 f i) as (_ & _ & ->). }
    lia.
Qed.

(** X22.  Progress below 2^31.  After [reset], whatever messages are
    ingested in between and whatever the callers pass, the call of [tick]
    with index [n] below 2^31 does not report "not ready": it returns a
    new state and advances the current tick from [n] to [n + 1].  This
    holds from the first call on, [reset] having seeded the ticks below
    the input delay, for every input delay from 0 to 95. *)
Theorem tick_makes_progress (initialState : GS.t) (ops : list Op)
    (gameState : GS.t) (input : Input.t) (isHost : bool) :
  let m := runOps ROLLBACK_INPUT_DELAY ROLLBACK_INPUT_REDUNDANCY
                  ROLLBACK_MAX_FRAMES (reset delay initialState) ops in
  tickCalls ops < 2 ^ 31 ->
  exists m' msg g,
    tick' m gameState input isHost = (m', msg, Advanced g)
    /\ Mgr.currentFrame m = tickCalls ops
    /\ Mgr.currentFrame m' = tickCalls ops + 1.
Proof.
  intros m Hn.
  destruct (runOps_inv ops (reset delay initialState) (reset_inv initialState))
    as [Hinv Hc].
  fold m in Hinv, Hc. cbn [reset Mgr.currentFrame] in Hc.
  pose proof (tickCalls_nonneg ops) as Hnn.
  assert (Hcur : Mgr.currentFrame m = tickCalls ops) by lia.
  destruct (tick_advances m gameState input isHost Hinv)
    as (m' & msg & g & Ht & Hc' & _); [lia|].
  exists m', msg, g. split; [done|]. split; [done | lia].
Qed.

(** At call index 2^31 the manager has stalled for good. *)
Lemma tick_stalled (initialState : GS.t) (ops : list Op)
    (gameState : GS.t) (input : Input.t) (isHost : bool) :
  let m := runOps ROLLBACK_INPUT_DELAY ROLLBACK_INPUT_REDUNDANCY
                  ROLLBACK_MAX_FRAMES (reset delay initialState) ops in
  2 ^ 31 <= tickCalls ops ->
  (tick' m gameState input isHost).2 = NotReady.
Proof.
  intros m Hn.
  destruct (runOps_inv ops (reset delay initialState) (reset_inv initialState))
    as [Hinv Hc].
  fold m in Hinv, Hc. cbn [reset Mgr.currentFrame] in Hc.
  assert (Hcur : Mgr.currentFrame m = 2 ^ 31) by lia.
  by destruct (tick_stalls m gameState input isHost Hinv Hcur)
    as (m' & msg & -> & _).
Qed.

End TickProgress.

Lemma tickCalls_replicate (n : nat) g input isHost :
  tickCalls (replicate n (OpTick g input isHost)) = Z.of_nat n.
Proof.
  induction n as [|n IH]; [reflexivity|].
  change (replicate (S n) ?x) with (x :: replicate n x).
  rewrite tickCalls_cons, IH. cbn [isTick]. lia.
Qed.

(** The first few calls with an input delay of 2, a message in between. *)
Lemma tick_makes_progress_witness :
  let init := createGameState loadoutA loadoutA in
  let ops := [OpTick init createEmptyInput true;
              OpReceive (mkMsg 3 [walkLeft; walkLeft]);
              OpTick init walkRight true] in
  exists m' msg g,
    tick 2 3 8 (runOps 2 3 8 (reset 2 init) ops) init createEmptyInput true
    = (m', msg, Advanced g)
    /\ Mgr.currentFrame (runOps 2 3 8 (reset 2 init) ops) = tickCalls ops
    /\ Mgr.currentFrame m' = tickCalls ops + 1.
Proof.
  apply (tick_makes_progress 2 3 8); [lia | by vm_compute].
Defined.

(** C2.  The property fails of the code at call index 2^31 (input
    delay 2): the frame tags of the local input history are kept in an
    [Int32Array], the tag of tick 2^31 has wrapped to -2^31, [get] finds
    no input for the current tick and the call reports "not ready", long
    after the start-up phase. *)
Lemma tick_not_ready_at_2_31 :
  let init := createGameState loadoutA loadoutA in
  let ops := replicate (Z.to_nat (2 ^ 31)) (OpTick init createEmptyInput true) in
  tickCalls ops = 2 ^ 31
  /\ 2 <= tickCalls ops
  /\ (tick 2 3 8 (runOps 2 3 8 (reset 2 init) ops) init createEmptyInput true).2
     = NotReady.
Proof.
  intros init ops.
  assert (Hn : tickCalls ops = 2 ^ 31).
  { unfold ops. rewrite tickCalls_replicate. apply Z2Nat.id. lia. }
  split; [exact Hn|]. split; [rewrite Hn; lia|].
  apply (tick_stalled 2 3 8); [lia | rewrite Hn; lia].
Qed.
Lemma reset_remote_wf delay initialState :
  0 <= delay <= InputHistory.size ->
  inputHistoryWf (Mgr.remoteInputs (reset delay initialState)).
Proof.
  intros Hd. unfold reset, seedEmpty. cbn [Mgr.remoteInputs].
  destruct (seed_prefix (Z.to_nat delay) InputHistory.new inputHistoryWf_new)
    as [Hwf _]; [lia|].
  by rewrite Z2Nat.id in Hwf by lia.
Qed.

(** Tick 5 arrives at a manager that has just been reset with an input
    delay of 2: it is stored and becomes the watermark. *)
Lemma receiveInputs_ingest_witness :
  let m := reset 2 (createGameState loadoutA loadoutA) in
  let m' := receivePair m 5 walkRight in
  InputHistory.get (Mgr.remoteInputs m') 5 = Some walkRight
  /\ Mgr.lastConfirmedFrame m' = Z.max (Mgr.lastConfirmedFrame m) 5.
Proof.
  destruct receiveInputs_ingest as (_ & _ & H & _).
  destruct (H (reset 2 (createGameState loadoutA loadoutA)) 5 walkRight)
    as (_ & Hget & Hl & _); [lia | by vm_compute |].
  split; [|exact Hl].
  apply Hget; [|lia]. apply reset_remote_wf. unfold InputHistory.size. lia.
Defined.

(** * The arena and the two bodies *)

Lemma tickStateTimer_x p : Player.x (tickStateTimer p) = Player.x p.
Proof. by destruct (tickStateTimer_same p) as ((-> & _) & _). Qed.

Lemma applyMovement_inArena input p :
  inArena p -> inArena (applyMovement input p).
Proof.
  unfold inArena, applyMovement. intros Hp.
  repeat case_match; cbn; try lia; apply clampX_range.
Qed.

Lemma updatePlayerOn_x i p prev input :
  Player.x (updatePlayerOn i p prev input).1
  = Player.x (applyMovement input (tickStateTimer p)).
Proof. by destruct (updatePlayerOn_body i p prev input) as (-> & _). Qed.

Lemma updatePlayerOn_inArena i p prev input :
  inArena p ->
  inArena (updatePlayerOn i p prev input).1
  /\ Player.x p - C.MOVE_SPEED <= Player.x (updatePlayerOn i p prev input).1
     <= Player.x p + C.MOVE_SPEED.
Proof.
  intros Hp. unfold inArena. rewrite updatePlayerOn_x.
  assert (Ht : inArena (tickStateTimer p))
    by (unfold inArena; by rewrite tickStateTimer_x).
  split; [by apply applyMovement_inArena|].
  rewrite <- (tickStateTimer_x p). by apply applyMovement_x_step.
Qed.

(** The positions that [pushApart] gives two overlapping players inside
    the arena: exactly one body width apart, inside the arena, the one
    that was to the left still to the left. *)
Lemma pushApart_spec (a b : Player.t) :
  inArena a -> inArena b ->
  Player.x a < Player.x b + C.PLAYER_WIDTH ->
  Player.x b < Player.x a + C.PLAYER_WIDTH ->
  let r := pushApart a b in
  C.ARENA_LEFT <= r.1 <= C.ARENA_RIGHT - C.PLAYER_WIDTH
  /\ C.ARENA_LEFT <= r.2 <= C.ARENA_RIGHT - C.PLAYER_WIDTH
  /\ ((Player.x a < Player.x b
       \/ (Player.x a = Player.x b /\ Player.facing a = -1)) ->
      r.1 + C.PLAYER_WIDTH = r.2)
  /\ (~ (Player.x a < Player.x b
         \/ (Player.x a = Player.x b /\ Player.facing a = -1)) ->
      r.2 + C.PLAYER_WIDTH = r.1).
Proof.
  unfold inArena, pushApart, wallCorrection, clampX.
  unfold C.ARENA_LEFT, C.ARENA_RIGHT, C.PLAYER_WIDTH.
  intros Ha Hb Hab Hba. cbv zeta.
  set (overlap := Z.min (Player.x a + 48 - Player.x b) _).
  assert (Ho : 0 < overlap <= 48) by (subst overlap; lia).
  assert (Hh : 0 <= (overlap + 1) / 2 <= overlap /\ 2 * ((overlap + 1) / 2) <= overlap + 1
               /\ overlap <= 2 * ((overlap + 1) / 2))
    by (Z.div_mod_to_equations; lia).
  set (half := (overlap + 1) / 2) in *.
  assert (Hov : (Player.x a < Player.x b -> overlap = Player.x a + 48 - Player.x b)
                /\ (Player.x b <= Player.x a -> overlap = Player.x b + 48 - Player.x a))
    by (subst overlap; lia).
  clearbody overlap half.
  destruct (Player.x a <? Player.x b) eqn:E1;
  destruct (Player.x a =? Player.x b) eqn:E2;
  destruct (Player.facing a =? -1) eqn:E3; cbn [orb andb fst snd];
  repeat match goal with
  | |- context [if ?c then _ else _] => destruct c eqn:?; cbn [fst snd]
  end; lia.
Qed.

Lemma bodiesOverlap_false s :
  bodiesOverlap s = false
  <-> (Player.x (GS.player s I0) + C.PLAYER_WIDTH <= Player.x (GS.player s I1)
       \/ Player.x (GS.player s I1) + C.PLAYER_WIDTH
          <= Player.x (GS.player s I0)).
Proof.
  unfold bodiesOverlap. rewrite negb_false_iff, orb_true_iff.
  by rewrite !Z.leb_le.
Qed.

Lemma resolvePlayerCollision_x s :
  bodiesOverlap s = true ->
  Player.x (GS.player (resolvePlayerCollision s) I0)
  = (pushApart (GS.player s I0) (GS.player s I1)).1
  /\ Player.x (GS.player (resolvePlayerCollision s) I1)
     = (pushApart (GS.player s I0) (GS.player s I1)).2.
Proof.
  intros Ho. unfold resolvePlayerCollision. rewrite Ho. cbn [negb].
  by destruct (pushApart _ _) as [ax bx].
Qed.

(** X1.  [resolvePlayerCollision] on two players inside the arena.  Bodies
    that do not overlap are left alone.  Overlapping bodies end exactly one
    body width apart and inside the arena: the player with the smaller [x]
    ends on the left, and at equal [x] Player 1 goes left exactly when it
    faces left. *)
Theorem resolvePlayerCollision_separates (s : GS.t) :
  inArena (GS.player s I0) -> inArena (GS.player s I1) ->
  let a := GS.player s I0 in
  let b := GS.player s I1 in
  let a' := GS.player (resolvePlayerCollision s) I0 in
  let b' := GS.player (resolvePlayerCollision s) I1 in
  bodiesOverlap (resolvePlayerCollision s) = false
  /\ inArena a' /\ inArena b'
  /\ (bodiesOverlap s = false -> resolvePlayerCollision s = s)
  /\ (bodiesOverlap s = true ->
      (Player.x a < Player.x b
       \/ (Player.x a = Player.x b /\ Player.facing a = -1) ->
       Player.x a' + C.PLAYER_WIDTH = Player.x b')
      /\ (~ (Player.x a < Player.x b
             \/ (Player.x a = Player.x b /\ Player.facing a = -1)) ->
          Player.x b' + C.PLAYER_WIDTH = Player.x a')).
Proof.
  intros Ha Hb a b a' b'.
  destruct (bodiesOverlap s) eqn:Ho.
  - destruct (resolvePlayerCollision_x s Ho) as [Hax Hbx].
    assert (Hlt : Player.x a < Player.x b + C.PLAYER_WIDTH
                  /\ Player.x b < Player.x a + C.PLAYER_WIDTH).
    { unfold bodiesOverlap in Ho. rewrite negb_true_iff, orb_false_iff in Ho.
      rewrite !Z.leb_gt in Ho. subst a b. lia. }
    destruct (pushApart_spec a b Ha Hb (proj1 Hlt) (proj2 Hlt))
      as (H1 & H2 & H3 & H4).
    fold a b in Hax, Hbx.
    assert (Hx : Player.x a' = (pushApart a b).1) by exact Hax.
    assert (Hy : Player.x b' = (pushApart a b).2) by exact Hbx.
    split; [|split; [|split; [|split]]].
    + apply bodiesOverlap_false. fold a' b'. rewrite Hx, Hy.
      destruct (decide (Player.x a < Player.x b
                        \/ (Player.x a = Player.x b /\ Player.facing a = -1)))
        as [Hd|Hd]; [left; specialize (H3 Hd) | right; specialize (H4 Hd)];
        lia.
    + unfold inArena. by rewrite Hx.
    + unfold inArena. by rewrite Hy.
    + done.
    + intros _. rewrite Hx, Hy. by split.
  - assert (Hs : resolvePlayerCollision s = s)
      by by apply resolvePlayerCollision_apart.
    subst a' b'. rewrite Hs.
    split; [done|]. split; [done|]. split; [done|]. split; done.
Qed.

(** The overlapping pair is pushed apart. *)
Lemma resolvePlayerCollision_separates_witness :
  bodiesOverlap (resolvePlayerCollision overlappingPair) = false.
Proof.
  refine (proj1 (resolvePlayerCollision_separates overlappingPair _ _));
    by vm_compute.
Defined.

Lemma positionsOk_step s a b :
  positionsOk s -> positionsOk (simulateFrame s a b).
Proof.
  intros (H0 & H1 & Hord).
  destruct (live s) eqn:Hl.
  2:{ unfold positionsOk, GS.player.
      rewrite (simulateFrame_frozen s a b Hl). by split. }
  rewrite (simulateFrame_running s a b Hl).
  unfold positionsOk. rewrite !stepBody_players. unfold afterHits.
  set (s2 := updatePlayer (updatePlayer s I0 a) I1 b).
  assert (Hk : bodiesKept (resolvePlayerCollision s2)
                 (checkProjectileHits
                    (checkMeleeHits
                       (updateProjectiles (resolvePlayerCollision s2))))).
  { eapply bodiesKept_trans; [apply updateProjectiles_bodies|].
    eapply bodiesKept_trans; [apply checkMeleeHits_bodies|].
    apply checkProjectileHits_bodies. }
  destruct (Hk I0) as ((Hx0 & _) & _). destruct (Hk I1) as ((Hx1 & _) & _).
  unfold inArena. rewrite Hx0, Hx1.
  assert (Hp0 : GS.player s2 I0
                = (updatePlayerOn I0 (GS.player s I0) (GS.prevInput s I0) a).1)
    by apply (updatePlayers_player s a b I0).
  assert (Hp1 : GS.player s2 I1
                = (updatePlayerOn I1 (GS.player s I1) (GS.prevInput s I1) b).1)
    by apply (updatePlayers_player s a b I1).
  destruct (updatePlayerOn_inArena I0 _ (GS.prevInput s I0) a H0) as [Ha0 Hs0].
  destruct (updatePlayerOn_inArena I1 _ (GS.prevInput s I1) b H1) as [Ha1 Hs1].
  rewrite <- Hp0 in Ha0, Hs0. rewrite <- Hp1 in Ha1, Hs1.
  destruct (resolvePlayerCollision_separates s2 Ha0 Ha1)
    as (Hno & Hi0 & Hi1 & Hsame & Hpush).
  clearbody s2.
  split; [exact Hi0|]. split; [exact Hi1|].
  destruct (bodiesOverlap s2) eqn:Ho.
  - destruct (Hpush eq_refl) as [Hl1 _].
    unfold C.MOVE_SPEED, C.PLAYER_WIDTH in *.
    rewrite <- Hl1; [lia|]. left. lia.
  - rewrite (Hsame eq_refl). apply bodiesOverlap_false in Ho.
    unfold C.MOVE_SPEED, C.PLAYER_WIDTH in *. lia.
Qed.

Lemma reachable_positionsOk s : reachable s -> positionsOk s.
Proof.
  induction 1 as [w1 w2|s a b _ IH].
  - unfold positionsOk, inArena. cbn.
    unfold C.ARENA_LEFT, C.ARENA_RIGHT, C.PLAYER_WIDTH. lia.
  - by apply positionsOk_step.
Qed.

(** X2.  In every state of a match both players stand inside the arena and
    Player 1's body lies wholly to the left of Player 2's: the players
    never overlap at the end of a step and never pass through each
    other. *)
Theorem players_never_cross (s : GS.t) :
  reachable s ->
  inArena (GS.player s I0) /\ inArena (GS.player s I1)
  /\ Player.x (GS.player s I0) + C.PLAYER_WIDTH <= Player.x (GS.player s I1).
Proof. apply reachable_positionsOk. Qed.

(** The two players walk into each other for 150 steps. *)
Lemma players_never_cross_witness :
  let s := runFrames (createGameState loadoutA loadoutA)
             (replicate 150 (walkRight, walkLeft)) in
  Player.x (GS.player s I0) + C.PLAYER_WIDTH <= Player.x (GS.player s I1).
Proof.
  refine (proj2 (proj2 (players_never_cross _ _))).
  apply runFrames_reachable. constructor.
Defined.

(** * Consistency of the player and projectile objects *)

Ltac ok_solve :=
  repeat match goal with
  | H : _ /\ _ |- _ => destruct H
  | H : ex _ |- _ => destruct H
  end;
  repeat split; try done; try lia; eauto with lia.

Lemma tickStateTimer_ok h p : playerOk h p -> playerOk h (tickStateTimer p).
Proof.
  destruct p as [x f st hp w state tm aw ast asp bh cc sc].
  unfold playerOk, tickStateTimer. cbn. intros (Hf & Hhp & Hst).
  split; [|split].
  - repeat case_match; exact Hf.
  - repeat case_match; exact Hhp.
  - destruct state; cbn in *;
      repeat match goal with
      | |- context [if ?c then _ else _] => destruct c eqn:?; cbn
      | H : ex _ |- _ => destruct H as (? & ? & ?)
      end; try lia; eauto with lia.
Qed.

Lemma inputDx_cases input :
  inputDx input = 0 \/ inputDx input = 1 \/ inputDx input = -1.
Proof. unfold inputDx. destruct (Input.left input), (Input.right input); lia. Qed.

Lemma applyMovement_ok h input p :
  playerOk h p -> playerOk h (applyMovement input p).
Proof.
  destruct p as [x f st hp w state tm aw ast asp bh cc sc].
  unfold playerOk, applyMovement. cbn. intros (Hf & Hhp & Hst).
  destruct (inputDx_cases input) as [Hd|Hd].
  - rewrite Hd. cbn.
    destruct state; cbn in *; ok_solve.
  - assert (Hz : (inputDx input =? 0) = false) by (apply Z.eqb_neq; lia).
    rewrite Hz.
    destruct state; cbn in *; repeat case_match; cbn; ok_solve.
Qed.

Lemma attackFrames_pos w : 0 < Weapon.attackFrames (Weapon.WEAPON_DEFS w).
Proof. destruct w; cbn; lia. Qed.

Lemma damage_one w : Weapon.damage (Weapon.WEAPON_DEFS w) = 1.
Proof. by destruct w. Qed.

Lemma tryAttackOn_ok h p w :
  playerOk h p -> Player.state p = idle -> playerOk h (tryAttackOn p w).
Proof.
  destruct p as [x f st hp ws state tm aw ast asp bh cc sc].
  unfold playerOk, tryAttackOn. cbn. intros (Hf & Hhp & Hst) ->.
  destruct w as [w|]; [|done].
  destruct (Weapon.isBoomerang _ && _); cbn; [done|].
  split; [done|]. split; [done|]. exists w. split; [done|].
  pose proof (attackFrames_pos w). lia.
Qed.

Lemma startAttackOn_ok h p prev input :
  playerOk h p -> playerOk h (startAttackOn p prev input).
Proof.
  intros Hp. unfold startAttackOn.
  destruct (ActionState_eqb (Player.state p) idle) eqn:E; [|done].
  apply ActionState_eqb_eq in E.
  destruct (firstPressed input prev); [|done]. by apply tryAttackOn_ok.
Qed.

(** The fields [playerOk] reads are not touched by a boomerang throw's
    bookkeeping. *)
Lemma playerOk_ext h p q :
  Player.facing q = Player.facing p -> Player.hp q = Player.hp p ->
  Player.state q = Player.state p -> Player.stateTimer q = Player.stateTimer p ->
  Player.activeWeapon q = Player.activeWeapon p ->
  (Player.state p = idle -> Player.attackSpawned q = Player.attackSpawned p) ->
  playerOk h p -> playerOk h q.
Proof.
  unfold playerOk. intros -> -> -> -> -> Hs (Hf & Hhp & Hst).
  split; [done|]. split; [done|].
  destruct (Player.state p); try done.
  destruct Hst as (? & ? & ?). rewrite Hs by done. done.
Qed.

Lemma spawnProjectileOn_ok h idx p :
  playerOk h p ->
  playerOk h (spawnProjectileOn idx p).1
  /\ Forall projOk (spawnProjectileOn idx p).2.
Proof.
  intros Hp. pose proof Hp as (Hf & _ & _).
  destruct (spawnProjectileOn_same idx p)
    as ((_ & Hfc & _) & (Hhp & _) & (Hs & Ht & Haw & _)).
  split.
  - apply (playerOk_ext h p); try done.
    intros Hi. unfold spawnProjectileOn.
    destruct Hp as (_ & _ & Hst). rewrite Hi in Hst.
    destruct Hst as (_ & -> & _). done.
  - unfold spawnProjectileOn.
    destruct (Player.activeWeapon p) as [w|]; [|by constructor].
    destruct w; cbn; try by constructor.
    destruct (Player.boomerangsHeld p <=? 0); [by constructor|].
    unfold choosePath.
    destruct (Stance_eqb _ _); cbn; constructor; try by constructor.
    all: unfold projOk, newBoomerang; cbn;
      unfold C.BOOMERANG_RANGE; repeat split; try done; lia.
Qed.

Lemma spawnIfDueOn_ok h idx p :
  playerOk h p ->
  playerOk h (spawnIfDueOn idx p).1 /\ Forall projOk (spawnIfDueOn idx p).2.
Proof.
  intros Hp. unfold spawnIfDueOn.
  destruct (ActionState_eqb (Player.state p) attacking
            && negb (Player.attackSpawned p)) eqn:E;
    [|by split; [|constructor]].
  apply andb_true_iff in E as [E _]. apply ActionState_eqb_eq in E.
  destruct (Player.activeWeapon p) as [w|] eqn:Ew; [|by split; [|constructor]].
  destruct (Weapon.type (Weapon.WEAPON_DEFS w)) as [| sub psf speed] eqn:Et;
    [by split; [|constructor]|].
  destruct (psf <=? _); [|by split; [|constructor]].
  destruct (spawnProjectileOn_ok h idx p Hp) as [Hq Hl].
  destruct (spawnProjectileOn_same idx p) as (_ & _ & (Hs & _)).
  destruct (spawnProjectileOn idx p) as [q l]. cbn [fst snd] in *.
  split; [|done].
  apply (playerOk_ext h q); try done.
  intros Hi. congruence.
Qed.

Lemma updatePlayerOn_ok h idx p prev input :
  playerOk h p ->
  playerOk h (updatePlayerOn idx p prev input).1
  /\ Forall projOk (updatePlayerOn idx p prev input).2.
Proof.
  intros Hp. unfold updatePlayerOn. apply spawnIfDueOn_ok.
  apply startAttackOn_ok, applyMovement_ok, tickStateTimer_ok, Hp.
Qed.

Lemma idx_cases (i j : Idx) : i = j \/ i = other j.
Proof. destruct i, j; auto. Qed.

Lemma updatePlayer_ok h s j input :
  stateOk h s -> stateOk h (updatePlayer s j input).
Proof.
  intros [Hp Hl]. split.
  - intros i. destruct (idx_cases i j) as [->| ->].
    + rewrite updatePlayer_player. by apply updatePlayerOn_ok.
    + by rewrite updatePlayer_other.
  - rewrite updatePlayer_projectiles. apply Forall_app. split; [done|].
    by apply (updatePlayerOn_ok (h j)).
Qed.

Lemma playerOk_set_x h v p : playerOk h p -> playerOk h (Player.set_x v p).
Proof. by apply playerOk_ext. Qed.

Lemma resolvePlayerCollision_ok h s :
  stateOk h s -> stateOk h (resolvePlayerCollision s).
Proof.
  intros [Hp Hl]. split.
  - intros i. destruct (resolvePlayerCollision_player s i) as [v ->].
    by apply playerOk_set_x.
  - by destruct (resolvePlayerCollision_rest s) as (-> & _).
Qed.

Lemma forEachProjectile_inv (I : GS.t -> Prop) (P : Proj.t -> Prop) body :
  (forall s p, I s -> P p -> I (body s p).1 /\ P (body s p).2) ->
  forall ps s, I s -> Forall P ps ->
    I (forEachProjectile body s ps).1
    /\ Forall P (forEachProjectile body s ps).2.
Proof.
  intros Hb. induction ps as [|p ps IH]; intros s Hs Hl; [by split|].
  apply Forall_cons in Hl as [Hp Hl]. cbn.
  destruct (Hb s p Hs Hp) as [Hs1 Hp1].
  destruct (body s p) as [s1 p1]. cbn [fst snd] in *.
  destruct (IH s1 Hs1 Hl) as [Hs2 Hl2].
  destruct (forEachProjectile body s1 ps) as [s2 l2]. cbn [fst snd] in *.
  split; [done|]. by constructor.
Qed.

Lemma playersOk_held h s j v :
  (forall i, playerOk (h i) (GS.player s i)) ->
  forall i,
    playerOk (h i)
      (GS.player (GS.set_player j (Player.set_boomerangsHeld v (GS.player s j)) s) i).
Proof.
  intros Hp i. destruct (idx_cases i j) as [->| ->].
  - rewrite player_set_player_eq. by apply (playerOk_ext (h j) (GS.player s j)).
  - by rewrite player_set_player_other.
Qed.

Lemma updateBoomerang_ok h s p :
  (forall i, playerOk (h i) (GS.player s i)) -> projOk p ->
  (forall i, playerOk (h i) (GS.player (updateBoomerang s p).1 i))
  /\ projOk (updateBoomerang s p).2.
Proof.
  intros Hp Hk. pose proof Hk as (Hd & Hdm & Ht). unfold updateBoomerang.
  destruct (Proj.type p) as [|path ph dist] eqn:Et; [by split|].
  destruct Ht as (Hsp & Hdist & Hout).
  destruct ph.
  - destruct (C.BOOMERANG_RANGE <=? dist + Proj.speed p) eqn:E;
      (split; [done|]).
    + destruct (path =? 1); [|destruct (path =? 4)];
        unfold projOk; cbn; repeat split; try done; lia.
    + apply Z.leb_gt in E.
      destruct (path =? 1); [|destruct (path =? 4)];
        unfold projOk; cbn; repeat split; try done; lia.
  - repeat case_match; cbn [fst snd].
    + split; [by apply playersOk_held|].
      unfold projOk; cbn. repeat split; try done; lia.
    + split; [done|]. unfold projOk; cbn. repeat split; try done; lia.
    + split; [done|]. unfold projOk; cbn. repeat split; try done; lia.
Qed.

Lemma updateProjectile_ok h s p :
  (forall i, playerOk (h i) (GS.player s i)) -> projOk p ->
  (forall i, playerOk (h i) (GS.player (updateProjectile s p).1 i))
  /\ projOk (updateProjectile s p).2.
Proof.
  intros Hp Hk. unfold updateProjectile.
  destruct (negb (Proj.active p)); [by split|].
  destruct (Proj.type p) as [|path ph dist] eqn:Et.
  - split; [done|]. destruct Hk as (Hd & Hdm & Ht). rewrite Et in Ht.
    unfold projOk. case_match; cbn; rewrite Et; by repeat split.
  - by apply updateBoomerang_ok.
Qed.

Lemma updateProjectiles_ok h s :
  stateOk h s -> stateOk h (updateProjectiles s).
Proof.
  intros [Hp Hl]. unfold updateProjectiles.
  destruct (forEachProjectile_inv
              (fun s => forall i, playerOk (h i) (GS.player s i)) projOk
              updateProjectile (updateProjectile_ok h)
              (GS.projectiles s) s Hp Hl) as [H1 H2].
  destruct (forEachProjectile _ _ _) as [st projs]. by split.
Qed.

Lemma applyDamage_ok h s d damage :
  0 <= damage ->
  (forall i, playerOk (h i) (GS.player s i)) ->
  forall i, playerOk (h i) (GS.player (applyDamage s d damage) i).
Proof.
  intros Hd Hp i.
  destruct (idx_cases i d) as [->| ->].
  - destruct (Hp d) as (Hf & Hhp & _).
    assert (Hq : GS.player (applyDamage s d damage) d
                 = Player.set_stateTimer C.HITSTUN_FRAMES
                     (Player.set_state hitstun
                        (Player.set_hp
                           (Z.max 0 (Player.hp (GS.player s d) - damage))
                           (GS.player s d))))
      by (by destruct d).
    rewrite Hq. unfold playerOk. cbn. unfold C.HITSTUN_FRAMES.
    split; [done|]. split; lia.
  - destruct (applyDamage_spec s d damage) as (_ & _ & _ & _ & Ho & _).
    rewrite Ho. apply Hp.
Qed.

Lemma applyBlock_ok h s d :
  (forall i, playerOk (h i) (GS.player s i)) ->
  forall i, playerOk (h i) (GS.player (applyBlock s d) i).
Proof.
  intros Hp i.
  destruct (idx_cases i d) as [->| ->].
  - destruct (Hp d) as (Hf & Hhp & _).
    assert (Hq : GS.player (applyBlock s d) d
                 = Player.set_stateTimer C.BLOCKSTUN_FRAMES
                     (Player.set_state blockstun (GS.player s d)))
      by (by destruct d).
    rewrite Hq. unfold playerOk. cbn. unfold C.BLOCKSTUN_FRAMES.
    split; [done|]. split; [done|]. lia.
  - destruct (applyBlock_spec s d) as (_ & _ & _ & _ & Ho & _).
    rewrite Ho. apply Hp.
Qed.

Lemma resolveHit_ok h s a d ht damage :
  0 <= damage ->
  (forall i, playerOk (h i) (GS.player s i)) ->
  forall i, playerOk (h i) (GS.player (resolveHit s a d ht damage) i).
Proof.
  intros Hd Hp. unfold resolveHit.
  destruct (meleeBlocked _ _ _); [by apply applyBlock_ok|by apply applyDamage_ok].
Qed.

Lemma meleeHitBy_ok h s a :
  (forall i, playerOk (h i) (GS.player s i)) ->
  forall i, playerOk (h i) (GS.player (meleeHitBy s a) i).
Proof.
  intros Hp. unfold meleeHitBy.
  repeat case_match; try done;
    (apply resolveHit_ok; [rewrite damage_one; lia|done]).
Qed.

Lemma checkMeleeHits_ok h s : stateOk h s -> stateOk h (checkMeleeHits s).
Proof.
  intros [Hp Hl]. split.
  - unfold checkMeleeHits. by apply meleeHitBy_ok, meleeHitBy_ok.
  - by rewrite checkMeleeHits_projectiles.
Qed.

Lemma projOk_set_active v p : projOk p -> projOk (Proj.set_active v p).
Proof. done. Qed.

Lemma projectileVsPlayer_ok h s p j r :
  (forall i, playerOk (h i) (GS.player s i)) -> projOk p ->
  projectileVsPlayer s p j = Some r ->
  (forall i, playerOk (h i) (GS.player r.1 i)) /\ projOk r.2.
Proof.
  intros Hp Hk. pose proof Hk as (_ & Hdm & _).
  unfold projectileVsPlayer.
  repeat case_match; intros [= <-]; cbn [fst snd];
    (split; [|done]); try done;
    try apply applyBlock_ok; try (apply applyDamage_ok; [lia|]); done.
Qed.

Lemma checkProjectileHit_ok h s p :
  (forall i, playerOk (h i) (GS.player s i)) -> projOk p ->
  (forall i, playerOk (h i) (GS.player (checkProjectileHit s p).1 i))
  /\ projOk (checkProjectileHit s p).2.
Proof.
  intros Hp Hk. unfold checkProjectileHit.
  destruct (negb (Proj.active p) || _); [by split|].
  destruct (projectileVsPlayer s p I0) as [r|] eqn:E0;
    [by apply (projectileVsPlayer_ok h s p I0)|].
  destruct (projectileVsPlayer s p I1) as [r|] eqn:E1;
    [by apply (projectileVsPlayer_ok h s p I1)|].
  by split.
Qed.

Lemma checkProjectileHits_ok h s :
  stateOk h s -> stateOk h (checkProjectileHits s).
Proof.
  intros [Hp Hl]. unfold checkProjectileHits.
  destruct (forEachProjectile_inv
              (fun s => forall i, playerOk (h i) (GS.player s i)) projOk
              checkProjectileHit (checkProjectileHit_ok h)
              (GS.projectiles s) s Hp Hl) as [H1 H2].
  destruct (forEachProjectile _ _ _) as [st projs]. by split.
Qed.

Lemma afterHits_ok h s a b : stateOk h s -> stateOk h (afterHits s a b).
Proof.
  intros Hs. unfold afterHits.
  apply checkProjectileHits_ok, checkMeleeHits_ok, updateProjectiles_ok,
    resolvePlayerCollision_ok, updatePlayer_ok, updatePlayer_ok, Hs.
Qed.

Lemma stateOk_step h s a b : stateOk h s -> stateOk h (simulateFrame s a b).
Proof.
  intros Hs. destruct (live s) eqn:Hl.
  - rewrite (simulateFrame_running s a b Hl).
    destruct (afterHits_ok h s a b Hs) as [Hp Hk]. split.
    + intros i. rewrite stepBody_players. apply Hp.
    + rewrite stepBody_projectiles. by apply Forall_List_filter.
  - destruct Hs as [Hp Hk]. split.
    + intros i. unfold GS.player.
      rewrite (simulateFrame_frozen s a b Hl). apply Hp.
    + by rewrite (simulateFrame_frozen_projectiles s a b Hl).
Qed.

Lemma createGameState_ok w1 w2 :
  stateOk (fun _ => C.MAX_HP) (createGameState w1 w2).
Proof.
  split; [|by constructor].
  intros i. unfold playerOk. destruct i; cbn; unfold C.MAX_HP;
    repeat split; auto; lia.
Qed.

Lemma reachable_stateOk s : reachable s -> stateOk (fun _ => C.MAX_HP) s.
Proof.
  induction 1; [apply createGameState_ok|by apply stateOk_step].
Qed.

Lemma reachable_active s :
  reachable s -> Forall (fun p => Proj.active p = true) (GS.projectiles s).
Proof.
  induction 1 as [w1 w2|s a b _ IH]; [by constructor|].
  destruct (live s) eqn:Hl.
  - rewrite (simulateFrame_running s a b Hl), stepBody_projectiles.
    apply List.Forall_forall. intros p Hp.
    apply (proj1 (filter_In _ _ _)) in Hp. apply Hp.
  - by rewrite (simulateFrame_frozen_projectiles s a b Hl).
Qed.

(** * Winner, frame counter and hitstop *)

Lemma sameClock_refl s : sameClock s s.
Proof. done. Qed.

Lemma sameClock_trans s1 s2 s3 :
  sameClock s1 s2 -> sameClock s2 s3 -> sameClock s1 s3.
Proof. unfold sameClock. intros [-> ->] [-> ->]. done. Qed.

Lemma set_player_clock i p s : sameClock s (GS.set_player i p s).
Proof. by destruct i. Qed.

Lemma updateProjectile_clock s p : sameClock s (updateProjectile s p).1.
Proof.
  unfold updateProjectile, updateBoomerang.
  repeat case_match; cbn [fst]; try done; apply set_player_clock.
Qed.

Lemma applyDamage_clock s d damage : sameClock s (applyDamage s d damage).
Proof. by destruct d. Qed.

Lemma applyBlock_clock s d : sameClock s (applyBlock s d).
Proof. by destruct d. Qed.

Lemma checkProjectileHit_clock s p : sameClock s (checkProjectileHit s p).1.
Proof.
  unfold checkProjectileHit, projectileVsPlayer.
  repeat case_match; simplify_eq; cbn [fst]; try done;
    first [apply applyDamage_clock | apply applyBlock_clock].
Qed.

Lemma meleeHitBy_clock s i : sameClock s (meleeHitBy s i).
Proof.
  unfold meleeHitBy, resolveHit.
  repeat case_match; try done;
    first [apply applyDamage_clock | apply applyBlock_clock].
Qed.

Lemma forEach_clock body s :
  (forall s p, sameClock s (body s p).1) ->
  sameClock s
    (GS.set_projectiles (forEachProjectile body s (GS.projectiles s)).2
       (forEachProjectile body s (GS.projectiles s)).1).
Proof.
  intros Hb.
  pose proof (forEachProjectile_rel sameClock body sameClock_refl
                sameClock_trans Hb s (GS.projectiles s)) as H.
  by destruct (forEachProjectile body s (GS.projectiles s)) as [st l].
Qed.

Lemma afterHits_clock s a b : sameClock s (afterHits s a b).
Proof.
  unfold afterHits.
  set (s1 := updatePlayer s I0 a). set (s2 := updatePlayer s1 I1 b).
  set (s3 := resolvePlayerCollision s2). set (s4 := updateProjectiles s3).
  set (s5 := checkMeleeHits s4).
  assert (H1 : sameClock s s1)
    by (destruct (updatePlayer_rest s I0 a) as (? & _ & ? & _); by split).
  assert (H2 : sameClock s1 s2)
    by (destruct (updatePlayer_rest s1 I1 b) as (? & _ & ? & _); by split).
  assert (H3 : sameClock s2 s3).
  { subst s3. unfold resolvePlayerCollision.
    destruct (negb (bodiesOverlap s2)); [done|].
    by destruct (pushApart _ _). }
  assert (H4 : sameClock s3 s4).
  { subst s4. unfold updateProjectiles.
    pose proof (forEach_clock updateProjectile s3 updateProjectile_clock) as H.
    by destruct (forEachProjectile _ _ _). }
  assert (H5 : sameClock s4 s5).
  { subst s5. unfold checkMeleeHits.
    eapply sameClock_trans; apply meleeHitBy_clock. }
  assert (H6 : sameClock s5 (checkProjectileHits s5)).
  { unfold checkProjectileHits.
    pose proof (forEach_clock checkProjectileHit s5 checkProjectileHit_clock)
      as H.
    by destruct (forEachProjectile _ _ _). }
  clearbody s1 s2 s3 s4 s5.
  repeat (eapply sameClock_trans; [eassumption|]). apply sameClock_refl.
Qed.

Lemma checkWin_frame s : GS.frame (checkWin s) = GS.frame s.
Proof. unfold checkWin. cbv zeta. repeat case_match; reflexivity. Qed.

Lemma stepBody_frame s a b : GS.frame (stepBody s a b) = GS.frame s + 1.
Proof.
  destruct (afterHits_clock s a b) as [_ Hf]. revert Hf.
  unfold stepBody, afterHits. cbv zeta.
  match goal with |- context [checkWin ?x] => generalize x end.
  intros s6 Hf.
  cbn [GS.frame GS.set_frame GS.set_prevInputs GS.set_projectiles].
  by rewrite checkWin_frame, Hf.
Qed.

Lemma stepBody_winner s a b :
  GS.winner (stepBody s a b) = GS.winner (checkWin (afterHits s a b)).
Proof.
  unfold stepBody, afterHits. cbv zeta.
  match goal with |- context [checkWin ?x] => generalize x end.
  intros s6.
  cbn [GS.winner GS.set_frame GS.set_prevInputs GS.set_projectiles].
  reflexivity.
Qed.

Lemma simulateFrame_over s a b :
  GS.winner s <> -1 -> simulateFrame s a b = s.
Proof.
  intros Hw. unfold simulateFrame, cloneState.
  by rewrite (proj2 (Z.eqb_neq _ _) Hw).
Qed.

Lemma runFrames_over inputs : forall s,
  GS.winner s <> -1 -> runFrames s inputs = s.
Proof.
  induction inputs as [|ab rest IH]; intros s Hw; [done|].
  cbn. rewrite simulateFrame_over by done. by apply IH.
Qed.

Lemma simulateFrame_frame s a b :
  GS.winner s = -1 -> GS.frame (simulateFrame s a b) = GS.frame s + 1.
Proof.
  intros Hw. unfold simulateFrame, cloneState. rewrite Hw. cbn [Z.eqb negb].
  change (-1 =? -1) with true. cbn [negb].
  destruct (0 <? GS.hitstop s); [done|]. apply stepBody_frame.
Qed.

Lemma winnerOk_step s a b :
  stateOk (fun _ => C.MAX_HP) s -> winnerOk s ->
  winnerOk (simulateFrame s a b).
Proof.
  intros Hs Hw. destruct (live s) eqn:Hl.
  - rewrite (simulateFrame_running s a b Hl).
    unfold winnerOk. rewrite !stepBody_players, stepBody_winner.
    destruct (afterHits_clock s a b) as [Hwin _].
    apply andb_true_iff in Hl as [Hl _]. apply Z.eqb_eq in Hl.
    rewrite Hl in Hwin.
    unfold checkWin.
    destruct (Player.hp (GS.player (afterHits s a b) I0) <=? 0) eqn:E0;
    destruct (Player.hp (GS.player (afterHits s a b) I1) <=? 0) eqn:E1;
      cbn [andb GS.winner GS.set_winner];
      rewrite ?Z.leb_le, ?Z.leb_gt in E0, E1; rewrite ?Hwin; lia.
  - unfold winnerOk, GS.player in *.
    rewrite (simulateFrame_frozen s a b Hl).
    assert (Hsame : GS.winner (simulateFrame s a b) = GS.winner s).
    { unfold simulateFrame, cloneState, live in *.
      destruct (GS.winner s =? -1); [|done]. cbn in *.
      by rewrite (proj1 (negb_false_iff _) Hl). }
    by rewrite Hsame.
Qed.

Lemma reachable_winnerOk s : reachable s -> winnerOk s.
Proof.
  induction 1 as [w1 w2|s a b Hr IH].
  - left. cbn. unfold C.MAX_HP. lia.
  - apply winnerOk_step; [by apply reachable_stateOk|done].
Qed.

(** * Invariants of a match *)

(** X3.  In every state of a match each player object is consistent: it
    faces left or right, has between 0 and [MAX_HP] hit points, is idle
    exactly with no timer running (and then has no active weapon), has an
    active weapon and a running timer while attacking, and a running,
    bounded timer while stunned. *)
Theorem players_consistent (s : GS.t) (i : Idx) :
  reachable s -> playerOk C.MAX_HP (GS.player s i).
Proof. intros Hr. by destruct (reachable_stateOk s Hr) as [Hp _]. Qed.

(** Player B, hit by a knife and still stunned. *)
Lemma players_consistent_witness :
  playerOk C.MAX_HP
    (GS.player (runFrames (createGameState loadoutK loadoutA) twoKnives_inputs)
               I1).
Proof. apply players_consistent, runFrames_reachable. constructor. Defined.

(** X4.  In every state of a match each projectile in the list is active,
    flies left or right, and carries the damage and the speed of its
    weapon; an outbound boomerang has covered less than its range. *)
Theorem projectiles_consistent (s : GS.t) :
  reachable s ->
  Forall (fun p => Proj.active p = true /\ projOk p) (GS.projectiles s).
Proof.
  intros Hr. destruct (reachable_stateOk s Hr) as [_ Hk].
  pose proof (reachable_active s Hr) as Ha.
  apply Forall_and. by split.
Qed.

(** The two boomerangs of scenario C. *)
Lemma projectiles_consistent_witness :
  Forall (fun p => Proj.active p = true /\ projOk p)
    (GS.projectiles
       (runFrames (createGameState loadoutK loadoutA) twoBoomerangs_inputs)).
Proof. apply projectiles_consistent, runFrames_reachable. constructor. Defined.

(** X6.  The winner field names the survivor.  In every state of a match
    it is -1 exactly while both players have hit points left, 0 or 1 for
    the only player with hit points left, 2 when both are at zero.  Once
    it is not -1 the state is final: the step returns it unchanged,
    whatever the inputs. *)
Theorem winner_names_survivor :
  (forall s : GS.t, reachable s -> winnerOk s)
  /\ (forall (s : GS.t) (inputs : list (Input.t * Input.t)),
        GS.winner s <> -1 -> runFrames s inputs = s).
Proof.
  split; [apply reachable_winnerOk|].
  intros s inputs Hw. by apply runFrames_over.
Qed.

Lemma winner_names_survivor_witness :
  winnerOk (runFrames (createGameState loadoutK loadoutA) twoKnives_inputs).
Proof.
  apply (proj1 winner_names_survivor), runFrames_reachable. constructor.
Defined.

Lemma hitstopTick_eq s a b :
  GS.winner s = -1 -> 0 < GS.hitstop s ->
  simulateFrame s a b
  = GS.set_frame (GS.frame s + 1) (GS.set_hitstop (GS.hitstop s - 1) s).
Proof.
  intros Hw Hh. unfold simulateFrame, cloneState. rewrite Hw.
  change (-1 =? -1) with true. cbn [negb].
  by rewrite (proj2 (Z.ltb_lt _ _) Hh).
Qed.

(** X7.  Hitstop freezes the game.  While no winner is decided, a state
    with hitstop [n] run for [k <= n] steps, whatever the inputs, is the
    same state with [k] added to the frame counter and taken from the
    hitstop: players, projectiles and the remembered previous inputs are
    untouched.  The two counters are JavaScript numbers; the statement is
    for a frame counter that stays between 0 and 2^53 and a hitstop of at
    most 2^53, where [s.frame++] and [s.hitstop--] are exact. *)
Theorem hitstop_freezes (inputs : list (Input.t * Input.t)) : forall s : GS.t,
  GS.winner s = -1 ->
  Z.of_nat (length inputs) <= GS.hitstop s ->
  GS.hitstop s <= 2 ^ 53 ->
  0 <= GS.frame s ->
  GS.frame s + Z.of_nat (length inputs) <= 2 ^ 53 ->
  runFrames s inputs
  = GS.set_frame (GS.frame s + Z.of_nat (length inputs))
      (GS.set_hitstop (GS.hitstop s - Z.of_nat (length inputs)) s).
Proof.
  induction inputs as [|ab rest IH]; intros s Hw Hh Hh53 Hf0 Hf53.
  - destruct s. cbn. unfold GS.set_frame, GS.set_hitstop. cbn.
    f_equal; lia.
  - cbn [length] in Hh, Hf53. cbn [runFrames foldl].
    change (foldl _ ?x rest) with (runFrames x rest).
    rewrite hitstopTick_eq by lia.
    rewrite IH; [|done|cbn; lia..].
    destruct s. unfold GS.set_frame, GS.set_hitstop. cbn [length].
    cbn [GS.frame GS.players GS.projectiles GS.winner GS.hitstop GS.prevInputs].
    f_equal; lia.
Qed.

(** The state in which the first knife of the two-knives run has just
    hit. *)
Lemma hitstop_freezes_witness :
  let s := runFrames (createGameState loadoutK loadoutA)
             (take 46 twoKnives_inputs) in
  GS.hitstop s = C.HITSTOP_HIT
  /\ runFrames s (replicate 6 (walkLeft, pressWeapon1))
     = GS.set_frame (GS.frame s + 6) (GS.set_hitstop (GS.hitstop s - 6) s).
Proof.
  split; [by vm_compute|].
  refine (hitstop_freezes (replicate 6 (walkLeft, pressWeapon1)) _ _ _ _ _ _);
    by vm_compute.
Defined.

Lemma reachable_frame_nonneg s : reachable s -> 0 <= GS.frame s.
Proof.
  induction 1 as [p1 p2|s a b Hr IH]; [done|].
  destruct (decide (GS.winner s = -1)) as [Hw|Hw].
  - rewrite simulateFrame_frame by done. lia.
  - by rewrite simulateFrame_over.
Qed.

(** X8.  The frame counter counts the steps of a match that is not yet
    decided: if no winner is decided after a run of the step from a state
    of a match, the run has added its length to the frame counter, which
    started at 0.  The counter is a JavaScript number; the statement is
    for a count of at most 2^53, up to which [s.frame++] is exact. *)
Theorem frame_counts_steps (inputs : list (Input.t * Input.t)) :
  forall s : GS.t,
    reachable s ->
    GS.frame s + Z.of_nat (length inputs) <= 2 ^ 53 ->
    GS.winner (runFrames s inputs) = -1 ->
    0 <= GS.frame s
    /\ GS.frame (runFrames s inputs) = GS.frame s + Z.of_nat (length inputs).
Proof.
  intros s Hr H53 Hw. split; [by apply reachable_frame_nonneg|].
  revert s Hr H53 Hw.
  induction inputs as [|ab rest IH]; intros s Hr H53 Hw.
  - cbn. lia.
  - cbn [runFrames foldl length] in *.
    change (foldl _ ?x rest) with (runFrames x rest) in *.
    destruct (decide (GS.winner s = -1)) as [Hs|Hs].
    + rewrite IH; [|by constructor| |done];
        rewrite simulateFrame_frame by done; lia.
    + rewrite simulateFrame_over in Hw by done.
      rewrite runFrames_over in Hw by done. done.
Qed.

Lemma frame_counts_steps_witness :
  GS.frame (runFrames (createGameState loadoutK loadoutA) twoKnives_inputs)
  = GS.frame (createGameState loadoutK loadoutA)
    + Z.of_nat (length twoKnives_inputs).
Proof.
  apply frame_counts_steps; [constructor | by vm_compute | by vm_compute].
Defined.

(** * What a player can do in each action state *)

Lemma applyMovement_stunned input p :
  Player.state p = hitstun \/ Player.state p = blockstun ->
  applyMovement input p = p.
Proof. unfold applyMovement. by intros [-> | ->]. Qed.

Lemma spawnIfDueOn_not_attacking i p :
  Player.state p <> attacking -> spawnIfDueOn i p = (p, []).
Proof.
  intros Hs. unfold spawnIfDueOn.
  destruct (ActionState_eqb (Player.state p) attacking) eqn:E; [|done].
  by apply ActionState_eqb_eq in E.
Qed.

Lemma tickStateTimer_last p :
  Player.stateTimer p = 1 -> Player.state p <> idle ->
  tickStateTimer p
  = Player.set_attackSpawned false
      (Player.set_activeWeapon None
         (Player.set_state idle (Player.set_stateTimer 0 p))).
Proof.
  intros Ht Hs. unfold tickStateTimer. rewrite Ht. cbn.
  by destruct (Player.state p).
Qed.

(** X9.  Input is ignored during hitstun and blockstun.  While the stun
    timer has more than one tick left, the player update only counts the
    timer down, whatever the input: no movement, no change of stance or
    facing, no attack, no projectile.  On the tick on which the timer
    reaches zero the player is idle again and that same update already
    takes the stance from the input. *)
Theorem stun_ignores_input (i : Idx) (p : Player.t) (prev input : Input.t) :
  Player.state p = hitstun \/ Player.state p = blockstun ->
  (1 < Player.stateTimer p ->
   updatePlayerOn i p prev input
   = (Player.set_stateTimer (Player.stateTimer p - 1) p, []))
  /\ (Player.stateTimer p = 1 ->
      let q := (updatePlayerOn i p prev input).1 in
      (Player.state q = idle \/ Player.state q = attacking)
      /\ Player.stance q
         = if Input.crouch input then crouching else standing).
Proof.
  intros Hs. split.
  - intros Ht. unfold updatePlayerOn.
    rewrite tickStateTimer_running by done.
    set (q := Player.set_stateTimer _ p).
    assert (Hq : Player.state q = hitstun \/ Player.state q = blockstun)
      by exact Hs.
    rewrite applyMovement_stunned by done.
    rewrite startAttackOn_busy by (destruct Hq as [-> | ->]; done).
    apply spawnIfDueOn_not_attacking. by destruct Hq as [-> | ->].
  - intros Ht q. subst q. unfold updatePlayerOn.
    rewrite tickStateTimer_last by (try done; by destruct Hs as [-> | ->]).
    set (p0 := Player.set_attackSpawned _ _).
    assert (H0 : Player.state p0 = idle) by done.
    set (p1 := applyMovement input p0).
    assert (H1 : Player.state p1 = idle
                 /\ Player.stance p1
                    = if Input.crouch input then crouching else standing).
    { subst p1. unfold applyMovement. rewrite H0. cbn [ActionState_eqb orb].
      repeat case_match; cbn; by rewrite ?H0. }
    destruct H1 as [H1 H1s].
    set (p2 := startAttackOn p1 prev input).
    assert (H2 : (Player.state p2 = idle \/ Player.state p2 = attacking)
                 /\ Player.stance p2 = Player.stance p1).
    { subst p2. split.
      - unfold startAttackOn. rewrite H1. cbn [ActionState_eqb].
        destruct (firstPressed input prev); [|by left].
        by apply tryAttackOn_state.
      - by destruct (startAttackOn_same p1 prev input) as ((_ & _ & ->) & _). }
    destruct H2 as [H2 H2s].
    destruct (spawnIfDueOn_same i p2) as ((_ & _ & Hst) & _ & (Hs3 & _)).
    rewrite Hs3, Hst, H2s, H1s. by split.
Qed.

(** Player B of the two-knives run, stunned by the first knife. *)
Lemma stun_ignores_input_witness :
  let p := GS.player
             (runFrames (createGameState loadoutK loadoutA)
                        (take 60 twoKnives_inputs)) I1 in
  updatePlayerOn I1 p createEmptyInput crouchLeft
  = (Player.set_stateTimer (Player.stateTimer p - 1) p, []).
Proof.
  refine (proj1 (stun_ignores_input I1 _ createEmptyInput crouchLeft _) _);
    [left|]; by vm_compute.
Defined.

(** X10.  An attack commits the player.  While the attack timer has more
    than one tick left the player update keeps the action state, the
    active weapon, the attack stance, the stance and the facing, whatever
    the input, and counts the timer down; a standing attacker still
    moves with the input, a crouching one does not. *)
Theorem attack_commits (i : Idx) (p : Player.t) (prev input : Input.t) :
  Player.state p = attacking ->
  1 < Player.stateTimer p ->
  let q := (updatePlayerOn i p prev input).1 in
  Player.state q = attacking
  /\ Player.stateTimer q = Player.stateTimer p - 1
  /\ Player.activeWeapon q = Player.activeWeapon p
  /\ Player.attackStance q = Player.attackStance p
  /\ Player.stance q = Player.stance p
  /\ Player.facing q = Player.facing p
  /\ Player.x q
     = if negb (inputDx input =? 0) && Stance_eqb (Player.stance p) standing
       then clampX (Player.x p + inputDx input * C.MOVE_SPEED)
       else Player.x p.
Proof.
  intros Hs Ht q. subst q. unfold updatePlayerOn.
  rewrite tickStateTimer_running by done.
  set (p0 := Player.set_stateTimer _ p).
  assert (H0 : Player.state p0 = attacking) by exact Hs.
  rewrite (startAttackOn_busy (applyMovement input p0)).
  2:{ destruct (applyMovement_same input p0) as (_ & (-> & _) & _).
      by rewrite H0. }
  destruct (spawnIfDueOn_same i (applyMovement input p0))
    as ((Hx & Hf & Hst) & _ & (Hs1 & Ht1 & Hw1 & Ha1)).
  rewrite Hs1, Ht1, Hw1, Ha1, Hst, Hf, Hx.
  destruct (applyMovement_same input p0) as (_ & (Hs2 & Ht2 & Hw2 & Ha2) & _).
  rewrite Hs2, Ht2, Hw2, Ha2.
  repeat (split; [done|]).
  assert (Hp0 : Player.stance p0 = Player.stance p
                /\ Player.facing p0 = Player.facing p
                /\ Player.x p0 = Player.x p) by done.
  destruct Hp0 as (<- & <- & <-).
  clear - H0. unfold applyMovement.
  destruct p0 as [x f st hp w state tm aw ast asp bh cc sc].
  cbn in H0. subst state. cbn.
  destruct (inputDx input =? 0); cbn; [done|].
  destruct st; by cbn.
Qed.

(** Player A of scenario A, seven ticks into the sword attack, told to
    turn and crouch. *)
Lemma attack_commits_witness :
  let p := GS.player scenarioA I0 in
  let q := (updatePlayerOn I0 p createEmptyInput crouchLeft).1 in
  Player.state q = attacking /\ Player.stance q = Player.stance p
  /\ Player.facing q = Player.facing p.
Proof.
  destruct (attack_commits I0 (GS.player scenarioA I0) createEmptyInput
              crouchLeft) as (H1 & _ & _ & _ & H5 & H6 & _);
    [by vm_compute | by vm_compute |].
  by repeat split.
Defined.

(** * Starting an attack *)

Lemma tryAttackOn_starts p w :
  (Weapon.isBoomerang (Weapon.WEAPON_DEFS w) = true ->
   0 < Player.boomerangsHeld p) ->
  tryAttackOn p (Some w)
  = Player.set_attackSpawned false
      (Player.set_attackStance (Player.stance p)
         (Player.set_activeWeapon (Some w)
            (Player.set_stateTimer
               (Weapon.attackFrames (Weapon.WEAPON_DEFS w))
               (Player.set_state attacking p)))).
Proof.
  intros Hb. unfold tryAttackOn.
  destruct (Weapon.isBoomerang (Weapon.WEAPON_DEFS w)); [|done].
  cbn [andb]. by rewrite (proj2 (Z.leb_gt _ _) (Hb eq_refl)).
Qed.

Lemma tickStateTimer_attacking p :
  Player.state (tickStateTimer p) = attacking ->
  Player.state p = attacking
  /\ Player.activeWeapon (tickStateTimer p) = Player.activeWeapon p.
Proof.
  unfold tickStateTimer.
  destruct p as [x f st hp w state tm aw ast asp bh cc sc]. cbn.
  destruct (0 <? tm); [|done].
  destruct (tm - 1 =? 0); destruct state; cbn; by intros.
Qed.

Lemma tickStateTimer_free p :
  Player.state p = idle \/ Player.stateTimer p = 1 ->
  Player.state (tickStateTimer p) = idle.
Proof.
  unfold tickStateTimer.
  destruct p as [x f st hp w state tm aw ast asp bh cc sc]. cbn.
  intros [-> | ->]; cbn; [|by destruct state].
  destruct (0 <? tm); [|done]. by destruct (tm - 1 =? 0).
Qed.

Lemma applyMovement_idle input p :
  Player.state p = idle ->
  Player.state (applyMovement input p) = idle
  /\ Player.stance (applyMovement input p) = inputStance input.
Proof.
  intros Hs. unfold applyMovement, inputStance. rewrite Hs.
  cbn [ActionState_eqb orb].
  repeat case_match; cbn; by rewrite ?Hs.
Qed.

(** An attacking player after [updatePlayer] was attacking before, or has
    begun the attack on a rising edge. *)
Lemma updatePlayerOn_attack_origin i p prev input :
  let r := (updatePlayerOn i p prev input).1 in
  Player.state r = attacking ->
  (Player.state p = attacking
   /\ Player.activeWeapon r = Player.activeWeapon p
   /\ Player.attackStance r = Player.attackStance p)
  \/ (exists k w,
        firstPressed input prev = Some k
        /\ Player.weapons p !! k = Some w
        /\ startedAttack input w r).
Proof.
  cbv zeta. unfold updatePlayerOn.
  set (p0 := tickStateTimer p). set (p1 := applyMovement input p0).
  set (p2 := startAttackOn p1 prev input).
  destruct (spawnIfDueOn_same i p2) as (_ & _ & (Hs3 & Ht3 & Hw3 & Ha3)).
  rewrite Hs3, Hw3, Ha3. unfold startedAttack. rewrite Hs3, Ht3, Hw3, Ha3.
  clear Hs3 Ht3 Hw3 Ha3. intros H2.
  destruct (applyMovement_same input p0)
    as ((_ & Hwp1) & (Hs1 & Ht1 & Hw1 & Ha1) & _).
  destruct (tickStateTimer_same p) as (_ & (_ & Hwp0) & _ & Ha0).
  fold p0 in Hwp0, Ha0. fold p1 in Hwp1, Hs1, Ht1, Hw1, Ha1.
  assert (Hdec : Player.state p1 = idle \/ Player.state p1 <> idle)
    by (destruct (Player.state p1); auto).
  destruct Hdec as [Hi|Hi].
  - right. subst p2. unfold startAttackOn in *. rewrite Hi in *.
    cbn [ActionState_eqb] in *.
    destruct (firstPressed input prev) as [k|]; [|by rewrite Hi in H2].
    exists k. rewrite <- Hwp0, <- Hwp1.
    destruct (Player.weapons p1 !! k) as [w|];
      [|unfold tryAttackOn in H2; congruence].
    exists w. split; [done|]. split; [done|].
    unfold tryAttackOn in *.
    destruct (_ && _); [congruence|].
    assert (Hi0 : Player.state p0 = idle) by congruence.
    destruct (applyMovement_idle input p0 Hi0) as [_ Hst]. fold p1 in Hst.
    repeat split; try reflexivity. exact Hst.
  - left. subst p2. rewrite startAttackOn_busy in * by done.
    rewrite Hs1 in H2. destruct (tickStateTimer_attacking p H2) as [Hp Hw].
    fold p0 in Hw. split; [done|]. split; congruence.
Qed.

(** A new press on a player that is idle, or on the last tick of its
    timer, begins the attack in that update. *)
Lemma updatePlayerOn_attack_starts i p prev input k w :
  Player.state p = idle \/ Player.stateTimer p = 1 ->
  firstPressed input prev = Some k ->
  Player.weapons p !! k = Some w ->
  (w = Weapon.boomerang -> 0 < Player.boomerangsHeld p) ->
  startedAttack input w (updatePlayerOn i p prev input).1.
Proof.
  intros Hfree Hk Hw Hb. unfold updatePlayerOn.
  set (p0 := tickStateTimer p). set (p1 := applyMovement input p0).
  set (p2 := startAttackOn p1 prev input).
  assert (H0 : Player.state p0 = idle) by by apply tickStateTimer_free.
  destruct (applyMovement_idle input p0 H0) as [H1 H1s]. fold p1 in H1, H1s.
  destruct (applyMovement_same input p0) as ((_ & Hwp1) & _ & (Hh1 & _) & _).
  destruct (tickStateTimer_same p) as (_ & (_ & Hwp0) & (Hh0 & _) & _).
  fold p0 in Hwp0, Hh0. fold p1 in Hwp1, Hh1.
  assert (H2 : p2 = tryAttackOn p1 (Some w)).
  { subst p2. unfold startAttackOn. rewrite H1. cbn [ActionState_eqb].
    rewrite Hk. by rewrite Hwp1, Hwp0, Hw. }
  rewrite tryAttackOn_starts in H2.
  2:{ intros Hbo. rewrite Hh1, Hh0. apply Hb. by destruct w. }
  destruct (spawnIfDueOn_same i p2) as (_ & _ & (Hs3 & Ht3 & Hw3 & Ha3)).
  unfold startedAttack. rewrite Hs3, Ht3, Hw3, Ha3, H2. cbn.
  by rewrite H1s.
Qed.

(** ** Through the rest of the step *)

Lemma stunnedOrSame_refl p : stunnedOrSame p p.
Proof. right. right. by repeat split. Qed.

Lemma stunnedOrSame_trans p q r :
  stunnedOrSame p q -> stunnedOrSame q r -> stunnedOrSame p r.
Proof.
  unfold stunnedOrSame, sameAction.
  intros Hpq [?|[?|(Hs & Ht & Hw & Ha)]]; [by left|by right; left|].
  rewrite Hs, Ht, Hw, Ha. exact Hpq.
Qed.

Lemma actionsKept_refl s : actionsKept s s.
Proof. intros i. apply stunnedOrSame_refl. Qed.

Lemma actionsKept_trans s1 s2 s3 :
  actionsKept s1 s2 -> actionsKept s2 s3 -> actionsKept s1 s3.
Proof. intros H12 H23 i. by eapply stunnedOrSame_trans. Qed.

Lemma updateProjectile_actions s p : actionsKept s (updateProjectile s p).1.
Proof.
  intros i. unfold updateProjectile, updateBoomerang.
  repeat case_match; cbn [fst]; try apply stunnedOrSame_refl.
  all: destruct (idx_cases i (Proj.owner p)) as [->| ->];
    [rewrite player_set_player_eq | rewrite player_set_player_other];
    right; right; by repeat split.
Qed.

Lemma applyDamage_actions s d damage : actionsKept s (applyDamage s d damage).
Proof.
  intros i. destruct (applyDamage_spec s d damage) as (Hst & _ & _ & _ & Ho & _).
  cbv zeta in *. destruct (idx_cases i d) as [->| ->]; [by left|].
  rewrite Ho. apply stunnedOrSame_refl.
Qed.

Lemma applyBlock_actions s d : actionsKept s (applyBlock s d).
Proof.
  intros i. destruct (applyBlock_spec s d) as (Hst & _ & _ & _ & Ho & _).
  cbv zeta in *. destruct (idx_cases i d) as [->| ->]; [by right; left|].
  rewrite Ho. apply stunnedOrSame_refl.
Qed.

Lemma meleeHitBy_actions s i : actionsKept s (meleeHitBy s i).
Proof.
  unfold meleeHitBy, resolveHit.
  repeat case_match; try apply actionsKept_refl;
    first [apply applyDamage_actions | apply applyBlock_actions].
Qed.

Lemma checkProjectileHit_actions s p :
  actionsKept s (checkProjectileHit s p).1.
Proof.
  unfold checkProjectileHit, projectileVsPlayer.
  repeat case_match; simplify_eq; cbn [fst]; try apply actionsKept_refl;
    first [apply applyDamage_actions | apply applyBlock_actions].
Qed.

Lemma afterHits_actions s a b :
  actionsKept (updatePlayer (updatePlayer s I0 a) I1 b) (afterHits s a b).
Proof.
  unfold afterHits.
  set (s2 := updatePlayer (updatePlayer s I0 a) I1 b).
  set (s3 := resolvePlayerCollision s2). set (s4 := updateProjectiles s3).
  set (s5 := checkMeleeHits s4).
  assert (H3 : actionsKept s2 s3).
  { intros i. subst s3.
    destruct (resolvePlayerCollision_player s2 i) as [v ->].
    right. right. by repeat split. }
  assert (H4 : actionsKept s3 s4).
  { subst s4. unfold updateProjectiles.
    pose proof (forEachProjectile_rel actionsKept updateProjectile
                  actionsKept_refl actionsKept_trans updateProjectile_actions
                  s3 (GS.projectiles s3)) as H.
    by destruct (forEachProjectile _ _ _). }
  assert (H5 : actionsKept s4 s5).
  { subst s5. unfold checkMeleeHits.
    eapply actionsKept_trans; apply meleeHitBy_actions. }
  assert (H6 : actionsKept s5 (checkProjectileHits s5)).
  { unfold checkProjectileHits.
    pose proof (forEachProjectile_rel actionsKept checkProjectileHit
                  actionsKept_refl actionsKept_trans
                  checkProjectileHit_actions s5 (GS.projectiles s5)) as H.
    by destruct (forEachProjectile _ _ _). }
  clearbody s2 s3 s4 s5.
  repeat (eapply actionsKept_trans; [eassumption|]). apply actionsKept_refl.
Qed.

(** After a live step a player has the action fields its own update left,
    unless it was hit or made to block on that step. *)
Lemma simulateFrame_actions s a b i :
  live s = true ->
  stunnedOrSame
    (updatePlayerOn i (GS.player s i) (GS.prevInput s i) (inputOf i (a, b))).1
    (GS.player (simulateFrame s a b) i).
Proof.
  intros Hl. rewrite (simulateFrame_running s a b Hl), stepBody_players.
  rewrite <- updatePlayers_player. apply afterHits_actions.
Qed.

Lemma simulateFrame_prevInput s a b i :
  GS.prevInput (simulateFrame s a b) i
  = if live s then inputOf i (a, b) else GS.prevInput s i.
Proof.
  destruct (live s) eqn:Hl.
  - rewrite (simulateFrame_running s a b Hl).
    unfold stepBody. cbv zeta.
    match goal with |- context [checkWin ?x] => generalize x end.
    intros s6. by destruct i.
  - revert Hl. unfold live, simulateFrame, cloneState, hitstopTick.
    destruct (GS.winner s =? -1); [|done].
    by destruct (0 <? GS.hitstop s).
Qed.

(** An attacking player after a step was attacking before it, or has begun
    the attack on a rising edge on that step. *)
Lemma simulateFrame_attack_origin s a b i :
  let p := GS.player s i in
  let q := GS.player (simulateFrame s a b) i in
  Player.state q = attacking ->
  (Player.state p = attacking
   /\ Player.activeWeapon q = Player.activeWeapon p
   /\ Player.attackStance q = Player.attackStance p)
  \/ (live s = true
      /\ exists k w,
           firstPressed (inputOf i (a, b)) (GS.prevInput s i) = Some k
           /\ Player.weapons p !! k = Some w
           /\ startedAttack (inputOf i (a, b)) w q).
Proof.
  cbv zeta. intros Hq. destruct (live s) eqn:Hl.
  - destruct (simulateFrame_actions s a b i Hl)
      as [H|[H|(Hs & Ht & Hw & Ha)]]; [congruence..|].
    rewrite Hs in Hq.
    destruct (updatePlayerOn_attack_origin i (GS.player s i) (GS.prevInput s i)
                (inputOf i (a, b)) Hq) as [(Hp & Hwp & Hap)|(k & w & Hk & Hwk & Hst)].
    + left. split; [done|]. split; congruence.
    + right. split; [done|]. exists k, w. split; [done|]. split; [done|].
      unfold startedAttack in *. by rewrite Hs, Ht, Hw, Ha.
  - left. revert Hq. unfold GS.player.
    rewrite (simulateFrame_frozen s a b Hl). by intros ->.
Qed.

(** X11.  Attacks begin on a new key press, and only then.  Let a step
    take a state to the next, with [p] a player before and [q] the same
    player after.  (1) If [q] is attacking, then either [p] was attacking
    already, with the same weapon and attack stance, or the step ran its
    gameplay and the player's first weapon key pressed now and not on the
    previous simulated step selects a slot of the loadout whose weapon [q]
    has just begun: active weapon set, timer at the weapon's attack
    frames, attack stance taken from this step's crouch key.  (2) Such a
    press on a player that is idle, or on the last tick of an attack or a
    stun, with ammo in hand if the weapon is a boomerang, begins the
    attack on that very step, unless the player is hit or made to block on
    it.  (3) The step remembers the input it simulated; a frozen step
    (hitstop, match decided) keeps the one remembered.  (4) So keys held
    from one simulated step to the next begin nothing: a player attacking
    after the second step was attacking after the first. *)
Theorem attack_needs_new_press (s : GS.t) (a b : Input.t) (i : Idx) :
  let p := GS.player s i in
  let prev := GS.prevInput s i in
  let input := inputOf i (a, b) in
  let s' := simulateFrame s a b in
  let q := GS.player s' i in
  (Player.state q = attacking ->
   (Player.state p = attacking
    /\ Player.activeWeapon q = Player.activeWeapon p
    /\ Player.attackStance q = Player.attackStance p)
   \/ (live s = true
       /\ exists k w,
            firstPressed input prev = Some k
            /\ Player.weapons p !! k = Some w
            /\ startedAttack input w q))
  /\ (live s = true ->
      Player.state p = idle \/ Player.stateTimer p = 1 ->
      forall k w,
        firstPressed input prev = Some k ->
        Player.weapons p !! k = Some w ->
        (w = Weapon.boomerang -> 0 < Player.boomerangsHeld p) ->
        startedAttack input w q
        \/ Player.state q = hitstun \/ Player.state q = blockstun)
  /\ GS.prevInput s' i = (if live s then input else prev)
  /\ (forall a' b' : Input.t,
        live s = true ->
        let input' := inputOf i (a', b') in
        (Input.weapon1 input' = true -> Input.weapon1 input = true) ->
        (Input.weapon2 input' = true -> Input.weapon2 input = true) ->
        (Input.weapon3 input' = true -> Input.weapon3 input = true) ->
        Player.state (GS.player (simulateFrame s' a' b') i) = attacking ->
        Player.state q = attacking).
Proof.
  cbv zeta. split; [apply simulateFrame_attack_origin|].
  split; [|split; [apply simulateFrame_prevInput|]].
  - intros Hl Hfree k w Hk Hw Hb.
    pose proof (updatePlayerOn_attack_starts i (GS.player s i)
                  (GS.prevInput s i) (inputOf i (a, b)) k w Hfree Hk Hw Hb)
      as (Hs & Hw' & Ht & Ha).
    destruct (simulateFrame_actions s a b i Hl)
      as [H|[H|(Hs1 & Ht1 & Hw1 & Ha1)]]; [by right; left|by right; right|].
    left. unfold startedAttack. by rewrite Hs1, Ht1, Hw1, Ha1.
  - intros a' b' Hl H1 H2 H3 Hq.
    destruct (simulateFrame_attack_origin (simulateFrame s a b) a' b' i Hq)
      as [(Hp & _)|(_ & k & w & Hk & _)]; [done|].
    rewrite simulateFrame_prevInput, Hl in Hk.
    exfalso. revert Hk. unfold firstPressed.
    destruct (Input.weapon1 (inputOf i (a', b'))) eqn:E1;
      [rewrite (H1 eq_refl)|];
      (destruct (Input.weapon2 (inputOf i (a', b'))) eqn:E2;
        [rewrite (H2 eq_refl)|]);
      (destruct (Input.weapon3 (inputOf i (a', b'))) eqn:E3;
        [rewrite (H3 eq_refl)|]); by cbn.
Qed.

(** Player A holds the knife key from the start of the two-knives run:
    the first step begins the throw from a crouch. *)
Lemma attack_needs_new_press_witness :
  let s := createGameState loadoutK loadoutA in
  let q := GS.player (simulateFrame s crouchThrow createEmptyInput) I0 in
  startedAttack crouchThrow Weapon.throwingKnife q
  \/ Player.state q = hitstun \/ Player.state q = blockstun.
Proof.
  destruct (attack_needs_new_press (createGameState loadoutK loadoutA)
              crouchThrow createEmptyInput I0) as (_ & H & _).
  apply (H eq_refl (or_introl eq_refl) 0%nat Weapon.throwingKnife);
    [reflexivity | reflexivity | discriminate].
Defined.

(** * Who a hit check can touch *)

Lemma resolveHit_attacker s i h damage :
  GS.player (resolveHit s i (other i) h damage) i = GS.player s i.
Proof.
  unfold resolveHit. destruct (meleeBlocked _ _ _).
  - destruct (applyBlock_spec s (other i)) as (_ & _ & _ & _ & Ho & _).
    by destruct i.
  - destruct (applyDamage_spec s (other i) damage) as (_ & _ & _ & _ & Ho & _).
    by destruct i.
Qed.

Lemma meleeHitBy_attacker s i : GS.player (meleeHitBy s i) i = GS.player s i.
Proof.
  unfold meleeHitBy. repeat case_match; try done; apply resolveHit_attacker.
Qed.

Lemma meleeHitBy_stunned s i :
  Player.state (GS.player s (other i)) = hitstun -> meleeHitBy s i = s.
Proof.
  intros Hs. unfold meleeHitBy. rewrite Hs. cbn [ActionState_eqb].
  by repeat case_match.
Qed.

Lemma projectileVsPlayer_changes s proj j r i :
  projectileVsPlayer s proj j = Some r -> i <> j ->
  GS.player r.1 i = GS.player s i.
Proof.
  intros Hr Hij.
  assert (Hi : i = other j) by (destruct i, j; done). subst i.
  destruct (applyBlock_spec s j) as (_ & _ & _ & _ & Hb & _).
  destruct (applyDamage_spec s j (Proj.damage proj))
    as (_ & _ & _ & _ & Hd & _).
  revert Hr. unfold projectileVsPlayer.
  repeat case_match; intros [= <-]; cbn [fst]; done.
Qed.

Lemma checkProjectileHit_owner s proj :
  GS.player (checkProjectileHit s proj).1 (Proj.owner proj)
  = GS.player s (Proj.owner proj).
Proof.
  unfold checkProjectileHit.
  destruct (negb (Proj.active proj) || _); [done|].
  destruct (projectileVsPlayer s proj I0) as [r|] eqn:E0.
  - apply (projectileVsPlayer_changes s proj I0 r); [done|].
    intros Ho. rewrite <- Ho in E0.
    by rewrite projectileVsPlayer_owner in E0.
  - destruct (projectileVsPlayer s proj I1) as [r|] eqn:E1; [|done].
    apply (projectileVsPlayer_changes s proj I1 r); [done|].
    intros Ho. rewrite <- Ho in E1.
    by rewrite projectileVsPlayer_owner in E1.
Qed.

Lemma projectileVsPlayer_stunned s proj j :
  Player.state (GS.player s j) = hitstun -> projectileVsPlayer s proj j = None.
Proof.
  intros Hs. unfold projectileVsPlayer. rewrite Hs. cbn [ActionState_eqb].
  by destruct (Idx_eqb j (Proj.owner proj)).
Qed.

Lemma checkProjectileHit_stunned s proj :
  Player.state (GS.player s (other (Proj.owner proj))) = hitstun ->
  checkProjectileHit s proj = (s, proj).
Proof.
  intros Hs. unfold checkProjectileHit.
  destruct (negb (Proj.active proj) || _); [done|].
  destruct (Proj.owner proj) eqn:Eo; cbn [other] in Hs.
  - rewrite <- Eo at 1. rewrite projectileVsPlayer_owner.
    by rewrite projectileVsPlayer_stunned.
  - rewrite projectileVsPlayer_stunned by done.
    rewrite <- Eo at 1. by rewrite projectileVsPlayer_owner.
Qed.

(** X12.  A hit check never touches the attacker, and never a player in
    hitstun.  The melee check of attacker [i] leaves player [i] as it is,
    and leaves the whole state as it is when the opponent is in hitstun.
    The hit check of a projectile leaves its owner as it is, and leaves
    state and projectile as they are when the owner's opponent is in
    hitstun. *)
Theorem hits_spare_attacker_and_stunned :
  (forall (s : GS.t) (i : Idx),
     GS.player (meleeHitBy s i) i = GS.player s i)
  /\ (forall (s : GS.t) (i : Idx),
        Player.state (GS.player s (other i)) = hitstun ->
        meleeHitBy s i = s)
  /\ (forall (s : GS.t) (proj : Proj.t),
        GS.player (checkProjectileHit s proj).1 (Proj.owner proj)
        = GS.player s (Proj.owner proj))
  /\ (forall (s : GS.t) (proj : Proj.t),
        Player.state (GS.player s (other (Proj.owner proj))) = hitstun ->
        checkProjectileHit s proj = (s, proj)).
Proof.
  split; [apply meleeHitBy_attacker|].
  split; [apply meleeHitBy_stunned|].
  split; [apply checkProjectileHit_owner|apply checkProjectileHit_stunned].
Qed.

(** The second knife of the two-knives run is level with Player B, who is
    still stunned by the first. *)
Lemma hits_spare_attacker_and_stunned_witness :
  let s := runFrames (createGameState loadoutK loadoutA) twoKnives_inputs in
  checkProjectileHit s secondKnife = (s, secondKnife).
Proof.
  destruct hits_spare_attacker_and_stunned as (_ & _ & _ & H).
  apply H. by vm_compute.
Defined.

(** X13.  Player 1 strikes first.  [checkMeleeHits] handles Player 1's
    attack before Player 2's.  When Player 1's melee attack registers
    (first active frame, opponent not in hitstun and in range), Player 2
    is put in blockstun or hitstun, so an attack of Player 2 that would
    register on the same step is dropped: the check is Player 1's hit
    resolution alone and Player 1 is left as it is. *)
Theorem first_player_strikes_first (s : GS.t) (w : Weapon.id)
    (range activeStart activeEnd : Z) :
  let atk := GS.player s I0 in
  let def := GS.player s I1 in
  Player.state atk = attacking ->
  Player.activeWeapon atk = Some w ->
  Weapon.type (Weapon.WEAPON_DEFS w) = Weapon.melee range activeStart activeEnd ->
  Weapon.attackFrames (Weapon.WEAPON_DEFS w) - Player.stateTimer atk
    = activeStart ->
  Player.state def <> hitstun ->
  - C.PLAYER_WIDTH <= meleeDist atk def <= range ->
  checkMeleeHits s
  = resolveHit s I0 I1
      (if Stance_eqb (Player.attackStance atk) standing then high else low)
      (Weapon.damage (Weapon.WEAPON_DEFS w))
  /\ GS.player (checkMeleeHits s) I0 = atk
  /\ (Player.state (GS.player (checkMeleeHits s) I1) = blockstun
      \/ Player.state (GS.player (checkMeleeHits s) I1) = hitstun).
Proof.
  intros atk def Hs Hw Ht He Hd Hr.
  pose proof (meleeHitBy_resolves s I0 w range activeStart activeEnd
                Hs Hw Ht He Hd Hr) as H0.
  cbn [other] in H0. fold atk in H0.
  set (h := if Stance_eqb (Player.attackStance atk) standing then high else low)
    in *.
  set (dmg := Weapon.damage (Weapon.WEAPON_DEFS w)) in *.
  assert (Hst : Player.state (GS.player (resolveHit s I0 I1 h dmg) I1) = blockstun
                \/ Player.state (GS.player (resolveHit s I0 I1 h dmg) I1) = hitstun).
  { destruct (resolveHit_outcome s I0 h dmg) as [(_ & Hb & _)|(_ & _ & Hh & _)];
      [by left|by right]. }
  assert (Hc : checkMeleeHits s = resolveHit s I0 I1 h dmg).
  { unfold checkMeleeHits. rewrite H0. apply meleeHitBy_not_attacking.
    destruct Hst as [-> | ->]; done. }
  rewrite Hc. split; [done|]. split; [|done].
  apply (resolveHit_attacker s I0).
Qed.

(** Both swords land on the same step: Player 2 blocks, Player 1 is not
    touched. *)
Lemma first_player_strikes_first_witness :
  GS.player (checkMeleeHits swordClash) I0 = GS.player swordClash I0
  /\ Player.state (GS.player (checkMeleeHits swordClash) I1) = blockstun.
Proof.
  destruct (first_player_strikes_first swordClash Weapon.sword 60 7 13)
    as (_ & H & [Hb|Hh]);
    [by vm_compute | by vm_compute | by vm_compute | by vm_compute
    | by vm_compute | by vm_compute | by split | ].
  exfalso. revert Hh. by vm_compute.
Defined.

(** * At most one hit per step *)

Lemma updateProjectile_hp s p i :
  Player.hp (GS.player (updateProjectile s p).1 i) = Player.hp (GS.player s i).
Proof.
  unfold updateProjectile, updateBoomerang.
  repeat case_match; cbn [fst]; try done.
  destruct (idx_cases i (Proj.owner p)) as [->| ->].
  - by rewrite player_set_player_eq.
  - by rewrite player_set_player_other.
Qed.

Lemma updateProjectiles_hp s i :
  Player.hp (GS.player (updateProjectiles s) i) = Player.hp (GS.player s i).
Proof.
  unfold updateProjectiles.
  pose proof (forEachProjectile_rel
                (fun s s' => forall i, Player.hp (GS.player s' i)
                                       = Player.hp (GS.player s i))
                updateProjectile) as H.
  specialize (H (fun _ _ => eq_refl)).
  specialize (H (fun s1 s2 s3 H12 H23 i => eq_trans (H23 i) (H12 i))).
  specialize (H (fun s p i => updateProjectile_hp s p i) s (GS.projectiles s) i).
  by destruct (forEachProjectile _ _ _).
Qed.

Lemma beforeHits_hp s a b i :
  Player.hp
    (GS.player
       (updateProjectiles
          (resolvePlayerCollision (updatePlayer (updatePlayer s I0 a) I1 b)))
       i)
  = Player.hp (GS.player s i).
Proof.
  rewrite updateProjectiles_hp.
  destruct (resolvePlayerCollision_player
              (updatePlayer (updatePlayer s I0 a) I1 b) i) as [v ->].
  change (Player.hp (Player.set_x v ?p)) with (Player.hp p).
  rewrite updatePlayers_player.
  by destruct (updatePlayerOn_vitals i (GS.player s i) (GS.prevInput s i)
                 (inputOf i (a, b))) as [-> _].
Qed.

Lemma applyDamage_hitOnce hp0 s d :
  (forall i, 0 <= hp0 i) -> hitOnce hp0 s ->
  Player.state (GS.player s d) <> hitstun ->
  hitOnce hp0 (applyDamage s d 1).
Proof.
  intros H0 Hj Hs i.
  destruct (applyDamage_spec s d 1) as (Hst & _ & Hhp & _ & Ho & _).
  cbv zeta in *.
  destruct (idx_cases i d) as [->| ->].
  - right. split; [done|]. rewrite Hhp.
    destruct (Hj d) as [->|[? _]]; [|done]. specialize (H0 d). lia.
  - rewrite Ho. apply Hj.
Qed.

Lemma applyBlock_hitOnce hp0 s d :
  hitOnce hp0 s -> Player.state (GS.player s d) <> hitstun ->
  hitOnce hp0 (applyBlock s d).
Proof.
  intros Hj Hs i.
  destruct (applyBlock_spec s d) as (_ & _ & Hhp & _ & Ho & _).
  cbv zeta in *.
  destruct (idx_cases i d) as [->| ->].
  - left. rewrite Hhp. by destruct (Hj d) as [->|[? _]].
  - rewrite Ho. apply Hj.
Qed.

Lemma meleeHitBy_hitOnce hp0 s a :
  (forall i, 0 <= hp0 i) -> hitOnce hp0 s -> hitOnce hp0 (meleeHitBy s a).
Proof.
  intros H0 Hj. unfold meleeHitBy.
  destruct (negb _); [done|].
  destruct (Player.activeWeapon _) as [w|]; [|done].
  destruct (Weapon.type _) as [range activeStart activeEnd|]; [|done].
  destruct (negb _); [done|].
  destruct (ActionState_eqb (Player.state (GS.player s (other a))) hitstun)
    eqn:E; [done|].
  assert (Hs : Player.state (GS.player s (other a)) <> hitstun).
  { intros Hs. by rewrite Hs in E. }
  destruct (_ || _); [done|].
  unfold resolveHit. rewrite damage_one.
  destruct (meleeBlocked _ _ _);
    [by apply applyBlock_hitOnce|by apply applyDamage_hitOnce].
Qed.

Lemma projectileVsPlayer_hitOnce hp0 s p j r :
  (forall i, 0 <= hp0 i) -> hitOnce hp0 s -> Proj.damage p = 1 ->
  projectileVsPlayer s p j = Some r -> hitOnce hp0 r.1.
Proof.
  intros H0 Hj Hd. unfold projectileVsPlayer. rewrite Hd.
  destruct (Idx_eqb j (Proj.owner p)); [done|].
  destruct (ActionState_eqb (Player.state (GS.player s j)) hitstun) eqn:E;
    [done|].
  assert (Hs : Player.state (GS.player s j) <> hitstun).
  { intros Hs. by rewrite Hs in E. }
  repeat case_match; intros [= <-]; cbn [fst]; try done;
    first [by apply applyBlock_hitOnce | by apply applyDamage_hitOnce].
Qed.

Lemma checkProjectileHit_projOk s p :
  projOk p -> projOk (checkProjectileHit s p).2.
Proof.
  intros Hk. unfold checkProjectileHit, projectileVsPlayer.
  repeat case_match; simplify_eq; cbn [snd]; done.
Qed.

Lemma checkProjectileHit_hitOnce hp0 s p :
  (forall i, 0 <= hp0 i) -> hitOnce hp0 s -> projOk p ->
  hitOnce hp0 (checkProjectileHit s p).1 /\ projOk (checkProjectileHit s p).2.
Proof.
  intros H0 Hj Hk. pose proof Hk as (_ & Hd & _).
  split; [|by apply checkProjectileHit_projOk].
  unfold checkProjectileHit.
  destruct (negb (Proj.active p) || _); [done|].
  destruct (projectileVsPlayer s p I0) as [r|] eqn:E0;
    [by apply (projectileVsPlayer_hitOnce hp0 s p I0)|].
  destruct (projectileVsPlayer s p I1) as [r|] eqn:E1;
    [by apply (projectileVsPlayer_hitOnce hp0 s p I1)|]. done.
Qed.

Lemma afterHits_hitOnce s a b :
  stateOk (fun _ => C.MAX_HP) s ->
  hitOnce (fun i => Player.hp (GS.player s i)) (afterHits s a b).
Proof.
  intros Hs. unfold afterHits.
  set (s4 := updateProjectiles _).
  assert (Hok : stateOk (fun _ => C.MAX_HP) s4).
  { subst s4. by apply updateProjectiles_ok, resolvePlayerCollision_ok,
      updatePlayer_ok, updatePlayer_ok. }
  assert (H4 : hitOnce (fun i => Player.hp (GS.player s i)) s4).
  { intros i. left. apply beforeHits_hp. }
  assert (H0 : forall i, 0 <= Player.hp (GS.player s i)).
  { intros i. destruct Hs as [Hp _]. destruct (Hp i) as (_ & ? & _). lia. }
  clearbody s4.
  assert (H5 : hitOnce (fun i => Player.hp (GS.player s i)) (checkMeleeHits s4)).
  { unfold checkMeleeHits. by apply meleeHitBy_hitOnce, meleeHitBy_hitOnce. }
  destruct (checkMeleeHits_ok _ s4 Hok) as [_ Hk].
  generalize dependent (checkMeleeHits s4). intros s5 H5 Hk.
  unfold checkProjectileHits.
  destruct (forEachProjectile_inv
              (hitOnce (fun i => Player.hp (GS.player s i))) projOk
              checkProjectileHit
              (fun s p Hj Hp => checkProjectileHit_hitOnce _ s p H0 Hj Hp)
              (GS.projectiles s5) s5 H5 Hk) as [H6 _].
  by destruct (forEachProjectile _ _ _).
Qed.

(** X5.  A step takes at most one hit point from a player and never gives
    one: in a state of a match, whatever the inputs, each player has
    afterwards the hit points it had or one less. *)
Theorem one_hit_per_step (s : GS.t) (a b : Input.t) (i : Idx) :
  reachable s ->
  Player.hp (GS.player s i) - 1
  <= Player.hp (GS.player (simulateFrame s a b) i)
  <= Player.hp (GS.player s i).
Proof.
  intros Hr. pose proof (reachable_stateOk s Hr) as Hs.
  destruct (live s) eqn:Hl.
  - rewrite (simulateFrame_running s a b Hl), stepBody_players.
    destruct (afterHits_hitOnce s a b Hs i) as [->|[_ ?]]; lia.
  - unfold GS.player. rewrite (simulateFrame_frozen s a b Hl). lia.
Qed.

(** The step of the two-knives run on which the first knife hits. *)
Lemma one_hit_per_step_witness :
  let s := runFrames (createGameState loadoutK loadoutA)
             (take 45 twoKnives_inputs) in
  Player.hp (GS.player s I1) - 1
  <= Player.hp (GS.player (simulateFrame s crouchHold createEmptyInput) I1)
  <= Player.hp (GS.player s I1).
Proof. apply one_hit_per_step, runFrames_reachable. constructor. Defined.

(** * The ring buffers *)

Lemma InputHistory_get_new f : InputHistory.get InputHistory.new f = None.
Proof.
  unfold InputHistory.get.
  destruct (Z.rem f InputHistory.size <? 0) eqn:E; [done|].
  apply Z.ltb_ge in E.
  destruct (InputHistory.frames InputHistory.new !! _) as [tag|] eqn:Et;
    [|done].
  destruct (InputHistory.buf InputHistory.new !! Z.to_nat (Z.rem f InputHistory.size))
    as [v|] eqn:Eb.
  - unfold InputHistory.new in Eb. cbn [InputHistory.buf] in Eb.
    apply lookup_replicate in Eb as [-> _]. by destruct (tag =? f).
  - by destruct (tag =? f).
Qed.

Lemma InputHistory_get_set_evict h f g v :
  inputHistoryWf h -> 0 <= f -> 0 <= g < 2 ^ 31 -> f <> g ->
  Z.rem f InputHistory.size = Z.rem g InputHistory.size ->
  InputHistory.get (InputHistory.set h g v) f = None.
Proof.
  intros (Hb & Hf & _) Hf0 Hg Hne He.
  unfold InputHistory.get, InputHistory.set.
  pose proof (rem_slot g InputHistory.size) as Hs.
  rewrite He. unfold InputHistory.size in *.
  rewrite (proj2 (Z.ltb_ge _ _)) by lia.
  cbn [InputHistory.buf InputHistory.frames].
  rewrite !list_lookup_insert_eq by lia.
  rewrite toInt32_id by (unfold int32; lia).
  by rewrite (proj2 (Z.eqb_neq g f)) by lia.
Qed.

(** X14.  [InputHistory] is a ring buffer of 128 slots keyed by the frame
    number.  A new history holds nothing.  For frames from 0 to 2^31 - 1:
    [get] after [set] of the same frame returns the stored input; a [set]
    of a frame in another slot does not change what [get] returns; a
    [set] of another frame in the same slot (128 frames later, say)
    evicts the frame, [get] then returns null. *)
Theorem InputHistory_ring :
  (forall f : Z, InputHistory.get InputHistory.new f = None)
  /\ (forall (h : InputHistory.t) (f : Z) (v : Input.t),
        inputHistoryWf h -> 0 <= f < 2 ^ 31 ->
        InputHistory.get (InputHistory.set h f v) f = Some v)
  /\ (forall (h : InputHistory.t) (f g : Z) (v : Input.t),
        0 <= f -> 0 <= g ->
        Z.rem f InputHistory.size <> Z.rem g InputHistory.size ->
        InputHistory.get (InputHistory.set h g v) f = InputHistory.get h f)
  /\ (forall (h : InputHistory.t) (f g : Z) (v : Input.t),
        inputHistoryWf h -> 0 <= f -> 0 <= g < 2 ^ 31 -> f <> g ->
        Z.rem f InputHistory.size = Z.rem g InputHistory.size ->
        InputHistory.get (InputHistory.set h g v) f = None).
Proof.
  split; [apply InputHistory_get_new|].
  split; [apply InputHistory_get_set_eq|].
  split; [apply InputHistory_get_set_ne|apply InputHistory_get_set_evict].
Qed.

(** Frame 133 takes the slot of frame 5. *)
Lemma InputHistory_ring_witness :
  let h := InputHistory.set InputHistory.new 5 walkRight in
  InputHistory.get h 5 = Some walkRight
  /\ InputHistory.get (InputHistory.set h 133 walkLeft) 5 = None.
Proof.
  destruct InputHistory_ring as (_ & H1 & _ & H3).
  split.
  - apply H1; [apply inputHistoryWf_new|lia].
  - apply H3; [apply inputHistoryWf_set, inputHistoryWf_new
              | lia | lia | lia | reflexivity].
Defined.

Lemma stateHistorySized_new : stateHistorySized StateHistory.new.
Proof.
  unfold stateHistorySized, StateHistory.new.
  cbn [StateHistory.buf StateHistory.frames]. by rewrite !length_replicate.
Qed.

Lemma stateHistorySized_save h f s :
  stateHistorySized h -> stateHistorySized (StateHistory.save h f s).
Proof.
  intros [Hb Hf]. unfold StateHistory.save.
  destruct (Z.rem f StateHistory.size <? 0); [done|].
  unfold stateHistorySized. cbn [StateHistory.buf StateHistory.frames].
  by rewrite !length_insert.
Qed.

Lemma StateHistory_load_new f : StateHistory.load StateHistory.new f = None.
Proof.
  unfold StateHistory.load.
  destruct (Z.rem f StateHistory.size <? 0) eqn:E; [done|].
  destruct (StateHistory.frames StateHistory.new !! _) as [tag|] eqn:Et;
    [|done].
  destruct (StateHistory.buf StateHistory.new !! Z.to_nat (Z.rem f StateHistory.size))
    as [v|] eqn:Eb.
  - unfold StateHistory.new in Eb. cbn [StateHistory.buf] in Eb.
    apply lookup_replicate in Eb as [-> _]. by destruct (tag =? f).
  - by destruct (tag =? f).
Qed.

Lemma StateHistory_load_save_eq h f s :
  stateHistorySized h -> 0 <= f < 2 ^ 31 ->
  StateHistory.load (StateHistory.save h f s) f = Some s.
Proof.
  intros (Hb & Hf) Hr. unfold StateHistory.load, StateHistory.save.
  pose proof (rem_slot f StateHistory.size) as Hs.
  unfold StateHistory.size in *.
  rewrite (proj2 (Z.ltb_ge _ _)) by lia.
  cbn [StateHistory.buf StateHistory.frames].
  rewrite !list_lookup_insert_eq by lia.
  rewrite toInt32_id by (unfold int32; lia).
  by rewrite Z.eqb_refl.
Qed.

Lemma StateHistory_load_save_ne h f g s :
  0 <= f -> 0 <= g ->
  Z.rem f StateHistory.size <> Z.rem g StateHistory.size ->
  StateHistory.load (StateHistory.save h g s) f = StateHistory.load h f.
Proof.
  intros Hf Hg Hne. unfold StateHistory.load, StateHistory.save.
  pose proof (rem_slot f StateHistory.size) as Hsf.
  pose proof (rem_slot g StateHistory.size) as Hsg.
  unfold StateHistory.size in *.
  rewrite !(proj2 (Z.ltb_ge _ _)) by lia.
  cbn [StateHistory.buf StateHistory.frames].
  by rewrite !list_lookup_insert_ne by lia.
Qed.

Lemma StateHistory_load_save_evict h f g s :
  stateHistorySized h -> 0 <= f -> 0 <= g < 2 ^ 31 -> f <> g ->
  Z.rem f StateHistory.size = Z.rem g StateHistory.size ->
  StateHistory.load (StateHistory.save h g s) f = None.
Proof.
  intros (Hb & Hf) Hf0 Hg Hne He.
  unfold StateHistory.load, StateHistory.save.
  pose proof (rem_slot g StateHistory.size) as Hs.
  rewrite He. unfold StateHistory.size in *.
  rewrite (proj2 (Z.ltb_ge _ _)) by lia.
  cbn [StateHistory.buf StateHistory.frames].
  rewrite !list_lookup_insert_eq by lia.
  rewrite toInt32_id by (unfold int32; lia).
  by rewrite (proj2 (Z.eqb_neq g f)) by lia.
Qed.

(** X15.  [StateHistory] is a ring buffer of 32 snapshots keyed by the
    frame number.  A new history holds nothing.  For frames from 0 to
    2^31 - 1: [load] after [save] of the same frame returns the saved
    state; a [save] of a frame in another slot does not change what
    [load] returns; a [save] of another frame in the same slot (32 frames
    later, say) evicts the snapshot, [load] then returns null. *)
Theorem StateHistory_ring :
  (forall f : Z, StateHistory.load StateHistory.new f = None)
  /\ (forall (h : StateHistory.t) (f : Z) (s : GS.t),
        stateHistorySized h -> 0 <= f < 2 ^ 31 ->
        StateHistory.load (StateHistory.save h f s) f = Some s)
  /\ (forall (h : StateHistory.t) (f g : Z) (s : GS.t),
        0 <= f -> 0 <= g ->
        Z.rem f StateHistory.size <> Z.rem g StateHistory.size ->
        StateHistory.load (StateHistory.save h g s) f = StateHistory.load h f)
  /\ (forall (h : StateHistory.t) (f g : Z) (s : GS.t),
        stateHistorySized h -> 0 <= f -> 0 <= g < 2 ^ 31 -> f <> g ->
        Z.rem f StateHistory.size = Z.rem g StateHistory.size ->
        StateHistory.load (StateHistory.save h g s) f = None).
Proof.
  split; [apply StateHistory_load_new|].
  split; [apply StateHistory_load_save_eq|].
  split; [apply StateHistory_load_save_ne|apply StateHistory_load_save_evict].
Qed.

(** The snapshot of frame 39 takes the slot of frame 7. *)
Lemma StateHistory_ring_witness :
  let h := StateHistory.save StateHistory.new 7 scenarioA in
  StateHistory.load h 7 = Some scenarioA
  /\ StateHistory.load (StateHistory.save h 39 swordClash) 7 = None.
Proof.
  destruct StateHistory_ring as (_ & H1 & _ & H3).
  split.
  - apply H1; [apply stateHistorySized_new|lia].
  - apply H3; [apply stateHistorySized_save, stateHistorySized_new
              | lia | lia | lia | reflexivity].
Defined.

Lemma scanBack_none h (n : nat) : forall f,
  (forall g, f - Z.of_nat n < g <= f -> InputHistory.get h g = None) ->
  InputHistory.scanBack h f n = None.
Proof.
  induction n as [|n IH]; intros f Hg; [done|].
  cbn [InputHistory.scanBack]. rewrite Hg by lia.
  apply IH. intros g Hr. apply Hg. lia.
Qed.

Lemma scanBack_found h (n : nat) : forall f f0 v,
  f0 - Z.of_nat n < f <= f0 ->
  InputHistory.get h f = Some v ->
  (forall g, f < g <= f0 -> InputHistory.get h g = None) ->
  InputHistory.scanBack h f0 n = Some v.
Proof.
  induction n as [|n IH]; intros f f0 v Hr Hv Hg; [lia|].
  cbn [InputHistory.scanBack].
  destruct (decide (f = f0)) as [->|Hne]; [by rewrite Hv|].
  rewrite Hg by lia. apply (IH f); [lia|done|].
  intros g Hgr. apply Hg. lia.
Qed.

(** X16.  [getLastConfirmed] predicts from the most recent stored frame.
    It looks at the frames below [frame], newest first, no further back
    than 128 frames and not below frame 0.  If one of them is stored, the
    result is the input of the newest such frame; if none is (in
    particular for [frame <= 0]), the result is the empty input. *)
Theorem getLastConfirmed_spec (h : InputHistory.t) (frame : Z) :
  ((forall g, Z.max 0 (frame - InputHistory.size) <= g < frame ->
              InputHistory.get h g = None) ->
   InputHistory.getLastConfirmed h frame = createEmptyInput)
  /\ (forall (f : Z) (v : Input.t),
        Z.max 0 (frame - InputHistory.size) <= f < frame ->
        InputHistory.get h f = Some v ->
        (forall g, f < g < frame -> InputHistory.get h g = None) ->
        InputHistory.getLastConfirmed h frame = v).
Proof.
  unfold InputHistory.getLastConfirmed. split.
  - intros Hg. rewrite scanBack_none; [done|].
    intros g Hr. apply Hg. lia.
  - intros f v Hr Hv Hg. rewrite (scanBack_found h _ f _ v); [done| |done|].
    + lia.
    + intros g Hgr. apply Hg. lia.
Qed.

(** Frames 3 and 5 are stored; the prediction for frame 9 repeats
    frame 5. *)
Lemma getLastConfirmed_spec_witness :
  let h := InputHistory.set (InputHistory.set InputHistory.new 3 walkLeft)
                            5 walkRight in
  InputHistory.getLastConfirmed h 9 = walkRight.
Proof.
  refine (proj2 (getLastConfirmed_spec _ 9) 5 walkRight _ _ _).
  - unfold InputHistory.size. lia.
  - by vm_compute.
  - intros g Hg.
    assert (Hc : g = 6 \/ g = 7 \/ g = 8) by lia.
    destruct Hc as [->|[->| ->]]; by vm_compute.
Defined.

(** * Rollback and resimulation *)

Lemma replayInputs_ext m m' isHost f :
  sameInputs m m' -> replayInputs m' isHost f = replayInputs m isHost f.
Proof. intros (Hl & Hr & _). unfold replayInputs. by rewrite Hl, Hr. Qed.

Lemma sameInputs_refl m : sameInputs m m.
Proof. done. Qed.

Lemma sameInputs_trans m1 m2 m3 :
  sameInputs m1 m2 -> sameInputs m2 m3 -> sameInputs m1 m3.
Proof.
  unfold sameInputs. intros (-> & -> & -> & ->) (-> & -> & -> & ->). done.
Qed.

Lemma remoteOrPredicted_spec m f :
  let r := remoteOrPredicted m f in
  r.1 = match InputHistory.get (Mgr.remoteInputs m) f with
        | Some v => v
        | None => InputHistory.getLastConfirmed (Mgr.remoteInputs m) f
        end
  /\ sameInputs m r.2
  /\ Mgr.states r.2 = Mgr.states m
  /\ Mgr.rollbackTarget r.2 = Mgr.rollbackTarget m
  /\ Mgr.statRollbacks r.2 = Mgr.statRollbacks m
  /\ Mgr.statMaxDepth r.2 = Mgr.statMaxDepth m.
Proof.
  unfold remoteOrPredicted.
  destruct (InputHistory.get (Mgr.remoteInputs m) f); by repeat split.
Qed.

Lemma simulateFrameNullable_some state a b :
  simulateFrameNullable state (Some a) (Some b)
  = Some (simulateFrame state a b).
Proof. done. Qed.

Lemma resimulate_replays isHost (n : nat) : forall m state f,
  (forall f', f <= f' < f + Z.of_nat n ->
              is_Some (InputHistory.get (Mgr.localInputs m) f')) ->
  exists m',
    resimulate m state f n isHost
    = (m', Some (runFrames state
                   (replayInputs m isHost <$> seqZ f (Z.of_nat n))))
    /\ sameInputs m m'
    /\ Mgr.rollbackTarget m' = Mgr.rollbackTarget m
    /\ Mgr.statRollbacks m' = Mgr.statRollbacks m
    /\ Mgr.statMaxDepth m' = Mgr.statMaxDepth m.
Proof.
  induction n as [|n IH]; intros m state f Hl.
  - exists m. by repeat split.
  - cbn [resimulate].
    destruct (Hl f ltac:(lia)) as [my Hmy].
    destruct (remoteOrPredicted_spec m f) as (Ht & Hs & _ & Hrt & Hsr & Hsd).
    destruct (remoteOrPredicted m f) as [their m1]. cbn [fst snd] in *.
    set (m2 := Mgr.set_states _ m1).
    assert (Hs2 : sameInputs m m2)
      by (destruct Hs as (? & ? & ? & ?); by repeat split).
    rewrite Hmy.
    assert (Hsim : simulateFrameNullable state
                     (if isHost then Some my else Some their)
                     (if isHost then Some their else Some my)
                   = Some (simulateFrame state (replayInputs m isHost f).1
                                         (replayInputs m isHost f).2)).
    { unfold replayInputs. rewrite Hmy, <- Ht. cbn [default].
      destruct isHost; apply simulateFrameNullable_some. }
    rewrite Hsim.
    destruct (IH m2 (simulateFrame state (replayInputs m isHost f).1
                                   (replayInputs m isHost f).2) (f + 1))
      as (m' & Hres & Hs' & Hrt' & Hsr' & Hsd').
    { intros f' Hf'. destruct Hs2 as (-> & _). apply Hl. lia. }
    exists m'. rewrite Hres.
    split.
    + f_equal. f_equal.
      rewrite (seqZ_cons f (Z.of_nat (S n))) by lia.
      replace (Z.pred (Z.of_nat (S n))) with (Z.of_nat n) by lia.
      rewrite fmap_cons. cbn [runFrames foldl]. unfold Z.succ.
      f_equal. apply list_fmap_ext. intros i x _.
      by apply replayInputs_ext.
    + split; [by apply (sameInputs_trans m m2 m')|].
      subst m2. cbn in *. by rewrite Hrt', Hsr', Hsd', Hrt, Hsr, Hsd.
Qed.

Section Rollback.

Variable ROLLBACK_MAX_FRAMES : Z.

(** X17.  [_performRollback] replays the stored inputs.  The replay starts
    at the recorded target, or at [currentFrame - ROLLBACK_MAX_FRAMES] if
    the target lies further back.  If the snapshot of the start frame is
    no longer in the state history, the call gives back the state it was
    handed and only forgets the target.  Otherwise, with the local inputs
    of the replayed frames stored, it gives back the snapshot run through
    the step once per frame from the start frame to the current one, each
    frame with its stored local input and its stored or predicted remote
    input; the state it was handed is discarded, the target is forgotten,
    the rollback counter is incremented and the depth statistic takes the
    unclamped depth into account. *)
Theorem performRollback_replays (m : Mgr.t) (gameState : GS.t)
    (isHost : bool) (target : Z) :
  Mgr.rollbackTarget m = Some target ->
  let cur := Mgr.currentFrame m in
  let start :=
    if cur - target >? ROLLBACK_MAX_FRAMES
    then cur - ROLLBACK_MAX_FRAMES else target in
  (StateHistory.load (Mgr.states m) start = None ->
   performRollback ROLLBACK_MAX_FRAMES m gameState isHost
   = (Mgr.set_rollbackTarget None m, Some gameState))
  /\ (forall restored : GS.t,
        StateHistory.load (Mgr.states m) start = Some restored ->
        (forall f, start <= f < cur ->
                   is_Some (InputHistory.get (Mgr.localInputs m) f)) ->
        exists m',
          performRollback ROLLBACK_MAX_FRAMES m gameState isHost
          = (m', Some (runFrames restored
                         (replayInputs m isHost
                            <$> seqZ start (cur - start))))
          /\ sameInputs m m'
          /\ Mgr.rollbackTarget m' = None
          /\ Mgr.statRollbacks m' = Mgr.statRollbacks m + 1
          /\ Mgr.statMaxDepth m'
             = Z.max (Mgr.statMaxDepth m) (cur - target)).
Proof.
  intros Ht cur start. unfold performRollback. rewrite Ht.
  cbn [Mgr.currentFrame Mgr.set_rollbackTarget Mgr.states].
  fold cur. fold start.
  split.
  - by intros ->.
  - intros restored -> Hl.
    set (m1 := Mgr.set_stats _ _ _).
    assert (Hc : Mgr.currentFrame m1 = cur) by done.
    assert (Hs1 : sameInputs m m1) by done.
    assert (Hst : Mgr.rollbackTarget m1 = None
                  /\ Mgr.statRollbacks m1 = Mgr.statRollbacks m + 1
                  /\ Mgr.statMaxDepth m1
                     = Z.max (Mgr.statMaxDepth m) (cur - target)) by done.
    rewrite Hc. clearbody m1.
    destruct (resimulate_replays isHost (Z.to_nat (cur - start)) m1 restored
                start) as (m' & Hres & Hs & Hrt & Hsr & Hsd).
    { intros f' Hf'. destruct Hs1 as (-> & _). apply Hl. lia. }
    exists m'. rewrite Hres.
    destruct Hst as (Ht1 & Hr1 & Hd1).
    split; [|split; [by apply (sameInputs_trans m m1 m')|];
             by rewrite Hrt, Hsr, Hsd].
    f_equal. f_equal. f_equal.
    destruct (decide (start <= cur)) as [Hle|Hgt].
    + rewrite Z2Nat.id by lia.
      apply list_fmap_ext. intros i x _. by apply replayInputs_ext.
    + replace (Z.to_nat (cur - start)) with 0%nat by lia.
      by rewrite !seqZ_nil by lia.
Qed.

End Rollback.


(** A manager with a rollback pending: three ticks run with the remote
    input of frame 2 predicted, then the peer's message gives another
    input for frame 2. *)
Lemma performRollback_replays_witness :
  let init := createGameState loadoutA loadoutA in
  let m := receiveInputs
             (runOps 2 3 8 (reset 2 init)
                [OpTick init createEmptyInput true;
                 OpTick init createEmptyInput true;
                 OpTick init createEmptyInput true])
             (mkMsg 2 [walkLeft]) in
  exists m' restored,
    StateHistory.load (Mgr.states m) 2 = Some restored
    /\ performRollback 8 m init true
       = (m', Some (runFrames restored
                      (replayInputs m true <$> seqZ 2 (3 - 2))))
    /\ Mgr.rollbackTarget m' = None
    /\ Mgr.statRollbacks m' = 1.
Proof.
  intros init m.
  assert (Ht : Mgr.rollbackTarget m = Some 2) by by vm_compute.
  assert (Hc : Mgr.currentFrame m = 3) by by vm_compute.
  destruct (performRollback_replays 8 m init true 2 Ht) as [_ H].
  cbv zeta in H. rewrite Hc in H. change (3 - 2 >? 8) with false in H.
  cbv iota in H.
  assert (Hl : exists restored,
                 StateHistory.load (Mgr.states m) 2 = Some restored)
    by (clear; eexists; vm_compute; reflexivity).
  destruct Hl as [restored Hl].
  destruct (H restored) as (m' & Hres & _ & Hrt & Hsr & _).
  - exact Hl.
  - intros f Hf. assert (f = 2) as -> by lia.
    clear. eexists. vm_compute. reflexivity.
  - exists m', restored. split; [exact Hl|]. split; [exact Hres|].
    split; [exact Hrt|]. rewrite Hsr. clear. vm_compute. reflexivity.
Defined.

(** * Online play *)

Lemma runFrames_app s l l' :
  runFrames s (l ++ l') = runFrames (runFrames s l) l'.
Proof. unfold runFrames. by rewrite foldl_app. Qed.

Section Timeline.

Variable ROLLBACK_INPUT_DELAY : Z.
Variable isHost : bool.
Variable localRaw : Z -> Input.t.
Variable init : GS.t.

Local Abbreviation pairWith' := (pairWith ROLLBACK_INPUT_DELAY isHost localRaw).
Local Abbreviation timeline' :=
  (timeline ROLLBACK_INPUT_DELAY isHost localRaw init).

Lemma pairWith_ext used used' f :
  used f = used' f -> pairWith' used f = pairWith' used' f.
Proof. unfold pairWith. by intros ->. Qed.

Lemma timeline_ext used used' f :
  (forall k, 0 <= k < f -> used k = used' k) ->
  timeline' used f = timeline' used' f.
Proof.
  intros He. unfold timeline. f_equal.
  apply list_eq. intros i. rewrite !list_lookup_fmap.
  destruct (seqZ 0 f !! i) as [k|] eqn:E; [|done].
  apply lookup_seqZ in E as [-> Hi]. cbn.
  f_equal. apply pairWith_ext, He. lia.
Qed.

Lemma timeline_run used t c :
  0 <= t <= c ->
  runFrames (timeline' used t) (pairWith' used <$> seqZ t (c - t))
  = timeline' used c.
Proof.
  intros Hr. unfold timeline. rewrite <- runFrames_app, <- fmap_app.
  replace (seqZ 0 c) with (seqZ 0 (t + (c - t))) by (f_equal; lia).
  by rewrite (seqZ_app 0 t (c - t)) by lia.
Qed.

Lemma timeline_succ used c :
  0 <= c ->
  timeline' used (c + 1)
  = simulateFrame (timeline' used c) (pairWith' used c).1 (pairWith' used c).2.
Proof.
  intros Hc. rewrite <- (timeline_run used c (c + 1)) by lia.
  replace (c + 1 - c) with 1 by lia. done.
Qed.

End Timeline.

Lemma remoteOrPredicted_record m f :
  Mgr.predictedRemote (remoteOrPredicted m f).2 !! f
  = match InputHistory.get (Mgr.remoteInputs m) f with
    | Some _ => None
    | None => Some (InputHistory.getLastConfirmed (Mgr.remoteInputs m) f)
    end
  /\ forall f', f' <> f ->
       Mgr.predictedRemote (remoteOrPredicted m f).2 !! f'
       = Mgr.predictedRemote m !! f'.
Proof.
  unfold remoteOrPredicted.
  destruct (InputHistory.get (Mgr.remoteInputs m) f);
    cbn [snd Mgr.predictedRemote Mgr.set_predictedRemote].
  - split; [apply lookup_delete_eq|]. intros f' Hne.
    by apply lookup_delete_ne.
  - split; [apply lookup_insert_eq|]. intros f' Hne.
    by apply lookup_insert_ne.
Qed.

Lemma resimulate_full isHost (n : nat) : forall m state f,
  (forall f', f <= f' < f + Z.of_nat n ->
              is_Some (InputHistory.get (Mgr.localInputs m) f')) ->
  stateHistorySized (Mgr.states m) ->
  0 <= f -> f + Z.of_nat n <= 2 ^ 31 -> Z.of_nat n <= 32 ->
  exists m',
    resimulate m state f n isHost
    = (m', Some (runFrames state
                   (replayInputs m isHost <$> seqZ f (Z.of_nat n))))
    /\ sameInputs m m'
    /\ Mgr.rollbackTarget m' = Mgr.rollbackTarget m
    /\ stateHistorySized (Mgr.states m')
    /\ (forall k, 0 <= k < Z.of_nat n ->
          StateHistory.load (Mgr.states m') (f + k)
          = Some (runFrames state (replayInputs m isHost <$> seqZ f k)))
    /\ (forall f', 0 <= f' -> f + Z.of_nat n - 32 <= f' < f ->
          StateHistory.load (Mgr.states m') f'
          = StateHistory.load (Mgr.states m) f')
    /\ (forall f', f <= f' < f + Z.of_nat n ->
          Mgr.predictedRemote m' !! f'
          = match InputHistory.get (Mgr.remoteInputs m) f' with
            | Some _ => None
            | None =>
              Some (InputHistory.getLastConfirmed (Mgr.remoteInputs m) f')
            end)
    /\ (forall f', f' < f \/ f + Z.of_nat n <= f' ->
          Mgr.predictedRemote m' !! f' = Mgr.predictedRemote m !! f').
Proof.
  induction n as [|n IH]; intros m state f Hl Hsz Hf Hmax Hn.
  - exists m. cbn [resimulate].
    repeat split; try done; try apply Hsz; intros; lia.
  - cbn [resimulate].
    destruct (Hl f ltac:(lia)) as [my Hmy].
    destruct (remoteOrPredicted_spec m f) as (Ht & Hs & Hst & Hrt & _).
    destruct (remoteOrPredicted_record m f) as [Hrec Hrec'].
    destruct (remoteOrPredicted m f) as [their m1]. cbn [fst snd] in *.
    set (m2 := Mgr.set_states _ m1).
    assert (Hs2 : sameInputs m m2)
      by (destruct Hs as (? & ? & ? & ?); by repeat split).
    assert (Hsz2 : stateHistorySized (Mgr.states m2)).
    { subst m2. cbn [Mgr.states Mgr.set_states]. rewrite Hst.
      by apply stateHistorySized_save. }
    assert (Hp2 : Mgr.predictedRemote m2 = Mgr.predictedRemote m1) by done.
    assert (Hload2 : forall f', 0 <= f' ->
               StateHistory.load (Mgr.states m2) f'
               = if decide (f' = f) then Some state
                 else if decide (Z.abs (f' - f) < 32)
                      then StateHistory.load (Mgr.states m) f'
                      else StateHistory.load (Mgr.states m2) f').
    { intros f' Hf'. subst m2. cbn [Mgr.states Mgr.set_states]. rewrite Hst.
      destruct (decide (f' = f)) as [->|Hne].
      - apply StateHistory_load_save_eq; [done|lia].
      - destruct (decide (Z.abs (f' - f) < 32)); [|done].
        apply StateHistory_load_save_ne; [done|done|].
        apply rem_slot_ne; try done; unfold StateHistory.size; lia. }
    assert (Hrt2 : Mgr.rollbackTarget m2 = Mgr.rollbackTarget m) by done.
    rewrite Hmy.
    assert (Hsim : simulateFrameNullable state
                     (if isHost then Some my else Some their)
                     (if isHost then Some their else Some my)
                   = Some (simulateFrame state (replayInputs m isHost f).1
                                         (replayInputs m isHost f).2)).
    { unfold replayInputs. rewrite Hmy, <- Ht. cbn [default].
      destruct isHost; apply simulateFrameNullable_some. }
    rewrite Hsim.
    set (state1 := simulateFrame state _ _).
    clearbody m2.
    destruct (IH m2 state1 (f + 1)) as
      (m' & Hres & Hs' & Hrt' & Hsz' & Hld & Hold & Hpr & Hpo);
      [|done|lia|lia|lia|].
    { intros f' Hf'. destruct Hs2 as (-> & _). apply Hl. lia. }
    assert (Hreplay : forall k : Z,
              runFrames state1 (replayInputs m2 isHost <$> seqZ (f + 1) k)
              = runFrames state1 (replayInputs m isHost <$> seqZ (f + 1) k)).
    { intros k. f_equal. apply list_fmap_ext. intros i x _.
      by apply replayInputs_ext. }
    assert (Hcons : forall k, 0 < k ->
              runFrames state (replayInputs m isHost <$> seqZ f k)
              = runFrames state1
                  (replayInputs m isHost <$> seqZ (f + 1) (k - 1))).
    { intros k Hk. rewrite (seqZ_cons f k) by lia. rewrite fmap_cons.
      unfold Z.succ, Z.pred. done. }
    exists m'. rewrite Hres.
    split.
    { f_equal. f_equal. rewrite Hreplay.
      rewrite (Hcons (Z.of_nat (S n))) by lia.
      by replace (Z.of_nat (S n) - 1) with (Z.of_nat n) by lia. }
    split; [by apply (sameInputs_trans m m2 m')|].
    split; [by rewrite Hrt'|]. split; [done|].
    split; [|split; [|split]].
    + intros k Hk. destruct (decide (k = 0)) as [->|Hk0].
      * rewrite Z.add_0_r, Hold by lia.
        rewrite Hload2 by lia. by rewrite decide_True by done.
      * replace (f + k) with (f + 1 + (k - 1)) by lia.
        rewrite Hld by lia. rewrite Hreplay.
        by rewrite <- Hcons by lia.
    + intros f' Hf' Hr. rewrite Hold by lia. rewrite Hload2 by lia.
      rewrite decide_False by lia. by rewrite decide_True by lia.
    + intros f' Hr. destruct (decide (f' = f)) as [->|Hne].
      * rewrite Hpo by lia. by rewrite Hp2, Hrec.
      * rewrite Hpr by lia. by destruct Hs2 as (_ & -> & _).
    + intros f' Hr. rewrite Hpo by lia. rewrite Hp2.
      apply Hrec'. lia.
Qed.

(** ** Ingesting a pair keeps the globals tied to the match *)

Lemma inputsEqual_eq a b : inputsEqual a b = true <-> a = b.
Proof.
  unfold inputsEqual. rewrite !andb_true_iff, !Bool.eqb_true_iff.
  destruct a, b. cbn. split.
  - by intros (((((-> & ->) & ->) & ->) & ->) & ->).
  - by intros [= -> -> -> -> -> ->].
Qed.

Lemma InputHistory_get_set h f v f' :
  inputHistoryWf h -> 0 <= f < 2 ^ 31 -> 0 <= f' ->
  InputHistory.get (InputHistory.set h f v) f'
  = if decide (f' = f) then Some v
    else if decide (Z.rem f' InputHistory.size = Z.rem f InputHistory.size)
         then None else InputHistory.get h f'.
Proof.
  intros Hwf Hf Hf'. destruct (decide (f' = f)) as [->|Hne].
  - by apply InputHistory_get_set_eq.
  - destruct (decide _) as [He|He].
    + by apply InputHistory_get_set_evict.
    + apply InputHistory_get_set_ne; [done|lia|done].
Qed.

Lemma slot_window f f' :
  0 <= f -> 0 <= f' -> f <> f' -> Z.abs (f - f') < 128 ->
  Z.rem f' InputHistory.size <> Z.rem f InputHistory.size.
Proof.
  intros. apply rem_slot_ne; try done; unfold InputHistory.size; lia.
Qed.

Section Synced.

Variable ROLLBACK_INPUT_DELAY : Z.
Variable ROLLBACK_INPUT_REDUNDANCY : Z.
Variable ROLLBACK_MAX_FRAMES : Z.
Variable isHost : bool.
Variable localRaw : Z -> Input.t.
Variable remoteRaw : Z -> Input.t.
Variable init : GS.t.

Hypothesis delay_range : 0 <= ROLLBACK_INPUT_DELAY <= 95.
Hypothesis max_range : 0 <= ROLLBACK_MAX_FRAMES <= 32.

Local Abbreviation delay := ROLLBACK_INPUT_DELAY.
Local Abbreviation synced' :=
  (synced ROLLBACK_INPUT_DELAY ROLLBACK_MAX_FRAMES isHost localRaw remoteRaw
          init).
Local Abbreviation R := (delayed ROLLBACK_INPUT_DELAY remoteRaw).
Local Abbreviation L := (delayed ROLLBACK_INPUT_DELAY localRaw).

Lemma synced_ext c dlv dlv' used m g :
  (forall k, 0 <= k -> dlv k <-> dlv' k) ->
  synced' c dlv used m g -> synced' c dlv' used m g.
Proof.
  intros He (H0 & H1 & H2 & H3 & H4 & H5 & H6 & H7 & H8 & H9).
  repeat (split; [done|]).
  split; [|split; [|split; [|split; [|done]]]].
  - intros f Hf. rewrite <- !(He f) by lia. by apply H5.
  - intros f Hf Hr. rewrite <- (He f) by lia. by apply H6.
  - intros f Hf. rewrite <- (He f) by (destruct H0; lia). by apply H7.
  - intros f Hf. rewrite <- (He f) by lia. by apply H8.
Qed.

Lemma synced_receivePair c dlv used m g f v :
  c + 96 <= 2 ^ 31 ->
  (0 <= f -> v = R f /\ c - 32 <= f < c + 96) ->
  synced' c dlv used m g ->
  synced' c (fun k => dlv k \/ k = f) used (receivePair m f v) g.
Proof.
  intros Hc Hp Hs.
  destruct (decide (f < 0)) as [Hneg|Hpos].
  { rewrite receivePair_negative by done.
    apply (synced_ext c dlv); [|done]. intros k Hk. split; [by left|].
    intros [?|?]; [done|lia]. }
  destruct Hp as [-> Hw]; [lia|].
  pose proof Hs as (H0 & H1 & H2 & H3 & H4 & H5 & H6 & H7 & H8 & H9).
  destruct H0 as [Hcur Hc0]. destruct H2 as [Hwf Htrue].
  destruct (InputHistory.get (Mgr.remoteInputs m) f) as [v0|] eqn:Eg.
  { rewrite (receivePair_confirmed m f _ v0) by done.
    apply (synced_ext c dlv); [|done]. intros k Hk. split; [by left|].
    intros [?| ->]; [done|]. apply H6; [lia|lia|]. by rewrite Eg. }
  assert (Hnd : ~ dlv f).
  { intros Hd. apply H6 in Hd; [|lia|lia]. rewrite Eg in Hd.
    by destruct Hd. }
  destruct (receivePair_new m f (R f) ltac:(lia) Eg)
    as (Hrem & Hlc & Hloc & Hsts & Hpred & Hcf).
  pose proof (receivePair_target m f (R f)) as Htg.
  set (m' := receivePair m f (R f)) in *. clearbody m'.
  assert (Hget : forall f', 0 <= f' ->
            InputHistory.get (Mgr.remoteInputs m') f'
            = if decide (f' = f) then Some (R f)
              else if decide (Z.rem f' InputHistory.size
                              = Z.rem f InputHistory.size)
                   then None
                   else InputHistory.get (Mgr.remoteInputs m) f').
  { intros f' Hf'. rewrite Hrem. apply InputHistory_get_set; [done|lia|done]. }
  split; [by rewrite Hcf|].
  split; [by rewrite Hloc|].
  split.
  { split; [rewrite Hrem; by apply inputHistoryWf_set|].
    intros f' v' Hf'. rewrite Hget by done.
    destruct (decide (f' = f)) as [->|Hne]; [by intros [= <-]|].
    destruct (decide _); [done|]. by apply Htrue. }
  split; [done|]. split; [by rewrite Hsts|].
  split; [|split; [|split; [|split]]].
  - (* the frames already simulated *)
    intros f' Hf'. rewrite Hpred.
    destruct (decide (f' = f)) as [->|Hne].
    + destruct (H5 f Hf') as [[Hd _]|[[_ Hpr]|[Hd _]]]; try done.
      assert (Hm : mispredicted m f (R f)
                   = negb (inputsEqual (used f) (R f))).
      { unfold mispredicted. rewrite Eg, Hpr, Hcur.
        rewrite (proj2 (Z.leb_le 0 f)) by lia.
        rewrite (proj2 (Z.ltb_lt f c)) by lia.
        by rewrite bool_decide_eq_true_2 by done. }
      rewrite Hm in Htg.
      destruct (inputsEqual (used f) (R f)) eqn:Eq; cbn [negb] in Htg.
      * apply inputsEqual_eq in Eq. left. split; [by right|done].
      * right. right. split; [by right|]. rewrite Htg.
        destruct (Mgr.rollbackTarget m) as [t|]; eexists; split; try done; lia.
    + destruct (H5 f' Hf') as [[Hd Hu]|[[Hd Hpr]|[Hd (t & Ht & Hle)]]].
      * left. split; [by left|done].
      * right. left. split; [|done]. intros [?|?]; done.
      * right. right. split; [by left|]. rewrite Htg, Ht.
        destruct (mispredicted m f (R f)); eexists; split; try done; lia.
  - (* stored exactly when delivered *)
    intros f' Hf' Hr. rewrite Hget by done.
    destruct (decide (f' = f)) as [->|Hne].
    + split; [by eexists|by right].
    + rewrite decide_False by (apply slot_window; lia).
      rewrite <- H6 by done. split; [|by left]. by intros [?|?].
  - (* nothing stored further ahead *)
    intros f' Hf'. destruct (H7 f' Hf') as [Hn Hd].
    split; [|intros [?|?]; [done|lia]].
    rewrite Hget by lia. rewrite decide_False by lia.
    by destruct (decide _).
  - intros f' Hf'. left. by apply H8.
  - (* the recorded target *)
    intros t. rewrite Htg.
    destruct (mispredicted m f (R f)) eqn:Em; [|by apply H9].
    assert (Hfc : f < c).
    { unfold mispredicted in Em. rewrite !andb_true_iff in Em.
      destruct Em as [[[_ _] Hlt] _]. apply Z.ltb_lt in Hlt. lia. }
    assert (Hlow : c - ROLLBACK_MAX_FRAMES <= f).
    { destruct (decide (c - ROLLBACK_MAX_FRAMES <= f)); [done|].
      destruct Hnd. apply H8. lia. }
    intros [= <-].
    destruct (Mgr.rollbackTarget m) as [t0|] eqn:Et; [|lia].
    destruct (H9 t0 eq_refl). lia.
Qed.

Lemma synced_receivePairs pairs : forall c dlv used m g,
  c + 96 <= 2 ^ 31 ->
  Forall (fun p : Z * Input.t =>
            0 <= p.1 -> p.2 = R p.1 /\ c - 32 <= p.1 < c + 96) pairs ->
  synced' c dlv used m g ->
  synced' c (fun k => dlv k \/ k ∈ pairs.*1) used (receivePairs m pairs) g.
Proof.
  induction pairs as [|[f v] pairs IH]; intros c dlv used m g Hc Hp Hs.
  - apply (synced_ext c dlv); [|done]. intros k _. split; [by left|].
    intros [?|Hin]; [done|]. by apply elem_of_nil in Hin.
  - apply Forall_cons in Hp as [Hp1 Hp].
    unfold receivePairs. cbn [foldl fst snd].
    change (foldl _ ?x pairs) with (receivePairs x pairs).
    apply (synced_ext c (fun k => (dlv k \/ k = f) \/ k ∈ pairs.*1)).
    + intros k _. cbn [fmap list_fmap fst]. rewrite elem_of_cons. tauto.
    + apply IH; [done|done|]. by apply synced_receivePair.
Qed.

Lemma synced_receiveInputs c seen used m g msg :
  c + 96 <= 2 ^ 31 ->
  Forall (fun p : Z * Input.t =>
            0 <= p.1 -> p.2 = R p.1 /\ c - 32 <= p.1 < c + 96)
         (msgPairs msg) ->
  synced' c (delivered ROLLBACK_INPUT_DELAY seen) used m g ->
  synced' c (delivered ROLLBACK_INPUT_DELAY ((msgPairs msg).*1 ++ seen)) used
          (receiveInputs m msg) g.
Proof.
  intros Hc Hp Hs. rewrite receiveInputs_pairs.
  apply (synced_ext c (fun k => delivered ROLLBACK_INPUT_DELAY seen k
                                \/ k ∈ (msgPairs msg).*1)).
  - intros k _. unfold delivered. rewrite elem_of_app. tauto.
  - by apply synced_receivePairs.
Qed.

End Synced.

(** ** A tick keeps the globals tied to the match *)

Section SyncedTick.

Variable ROLLBACK_INPUT_DELAY : Z.
Variable ROLLBACK_INPUT_REDUNDANCY : Z.
Variable ROLLBACK_MAX_FRAMES : Z.
Variable isHost : bool.
Variable localRaw : Z -> Input.t.
Variable remoteRaw : Z -> Input.t.
Variable init : GS.t.

Hypothesis delay_range : 0 <= ROLLBACK_INPUT_DELAY <= 95.
Hypothesis max_range : 0 <= ROLLBACK_MAX_FRAMES <= 32.

Local Abbreviation delay := ROLLBACK_INPUT_DELAY.
Local Abbreviation synced' :=
  (synced ROLLBACK_INPUT_DELAY ROLLBACK_MAX_FRAMES isHost localRaw remoteRaw
          init).
Local Abbreviation R := (delayed ROLLBACK_INPUT_DELAY remoteRaw).
Local Abbreviation L := (delayed ROLLBACK_INPUT_DELAY localRaw).
Local Abbreviation pairWith' := (pairWith ROLLBACK_INPUT_DELAY isHost localRaw).
Local Abbreviation timeline' :=
  (timeline ROLLBACK_INPUT_DELAY isHost localRaw init).

(** Step 1 of [tick]: the raw input is stored [delay] frames ahead. *)
Lemma synced_set_local c dlv used m g :
  c + 96 <= 2 ^ 31 ->
  synced' c dlv used m g ->
  let m1 :=
    Mgr.set_localInputs
      (InputHistory.set (Mgr.localInputs m) (c + delay) (localRaw c)) m in
  synced' c dlv used m1 g
  /\ forall f, 0 <= f -> c - 32 <= f <= c + delay ->
       InputHistory.get (Mgr.localInputs m1) f = Some (L f).
Proof.
  intros Hc Hs m1.
  pose proof Hs as (H0 & H1 & H2 & H3 & H4 & H5 & H6 & H7 & H8 & H9).
  destruct H0 as [Hcur Hc0]. destruct H1 as [Hwf Hloc].
  assert (Hget : forall f, 0 <= f -> c - 32 <= f <= c + delay ->
            InputHistory.get (Mgr.localInputs m1) f = Some (L f)).
  { intros f Hf Hr. subst m1. cbn [Mgr.localInputs Mgr.set_localInputs].
    rewrite InputHistory_get_set by (try done; lia).
    destruct (decide (f = c + delay)) as [->|Hne].
    - unfold delayed. rewrite (proj2 (Z.ltb_ge _ _)) by lia.
      f_equal. f_equal. lia.
    - rewrite decide_False by (apply slot_window; lia).
      apply Hloc; [done|lia]. }
  split; [|done].
  split; [done|]. split.
  { split; [by apply inputHistoryWf_set|]. intros f Hf Hr. apply Hget; lia. }
  done.
Qed.

Lemma replayInputs_pair m used f :
  InputHistory.get (Mgr.localInputs m) f = Some (L f) ->
  used f = match InputHistory.get (Mgr.remoteInputs m) f with
           | Some r => r
           | None => InputHistory.getLastConfirmed (Mgr.remoteInputs m) f
           end ->
  replayInputs m isHost f = pairWith' used f.
Proof. intros Hl Hu. unfold replayInputs, pairWith. by rewrite Hl, Hu. Qed.

(** Step 3 of [tick]: the pending rollback. *)
Lemma synced_rollback c dlv used m g t :
  c <= 2 ^ 31 ->
  synced' c dlv used m g ->
  Mgr.rollbackTarget m = Some t ->
  exists m' used',
    performRollback ROLLBACK_MAX_FRAMES m g isHost
    = (m', Some (timeline' used' c))
    /\ synced' c dlv used' m' (timeline' used' c)
    /\ Mgr.rollbackTarget m' = None
    /\ Mgr.localInputs m' = Mgr.localInputs m.
Proof.
  intros Hc Hs Ht.
  pose proof Hs as (H0 & H1 & H2 & H3 & H4 & H5 & H6 & H7 & H8 & H9).
  destruct H0 as [Hcur Hc0]. destruct H1 as [Hwfl Hloc].
  destruct H2 as [Hwfr Htrue]. destruct H4 as [Hsz Hsnap].
  destruct (H9 t Ht) as [Ht0 Htr].
  set (rem := fun f =>
         match InputHistory.get (Mgr.remoteInputs m) f with
         | Some r => r
         | None => InputHistory.getLastConfirmed (Mgr.remoteInputs m) f
         end).
  set (used' := fun f => if decide (f < t) then used f else rem f).
  assert (Hbelow : forall f, f <= t -> timeline' used' f = timeline' used f).
  { intros f Hf. apply timeline_ext. intros k Hk. unfold used'.
    by rewrite decide_True by lia. }
  unfold performRollback. rewrite Ht.
  cbn [Mgr.currentFrame Mgr.set_rollbackTarget Mgr.set_stats Mgr.states].
  rewrite Hcur.
  rewrite Z.gtb_ltb, (proj2 (Z.ltb_ge _ _)) by lia.
  rewrite (Hsnap t) by lia.
  set (m1 := Mgr.set_stats _ _ _).
  assert (Hs1 : sameInputs m m1) by done.
  assert (Hst1 : Mgr.states m1 = Mgr.states m) by done.
  assert (Hp1 : Mgr.predictedRemote m1 = Mgr.predictedRemote m) by done.
  assert (Ht1 : Mgr.rollbackTarget m1 = None) by done.
  clearbody m1.
  destruct (resimulate_full isHost (Z.to_nat (c - t)) m1 (timeline' used t) t)
    as (m' & Hres & Hs' & Hrt' & Hsz' & Hld & Hold & Hpr & Hpo).
  { intros f Hf. destruct Hs1 as (-> & _). rewrite Hloc by lia. by eexists. }
  { by rewrite Hst1. }
  { done. } { lia. } { lia. }
  rewrite Z2Nat.id in * by lia.
  assert (Hrep : forall f, t <= f < c ->
            replayInputs m1 isHost f = pairWith' used' f).
  { intros f Hf. rewrite (replayInputs_ext m m1) by done.
    apply replayInputs_pair; [apply Hloc; lia|].
    unfold used'. by rewrite decide_False by lia. }
  assert (Hrun : forall f, t <= f <= c ->
            runFrames (timeline' used t)
                      (replayInputs m1 isHost <$> seqZ t (f - t))
            = timeline' used' f).
  { intros f Hf. rewrite <- (Hbelow t) by lia.
    rewrite <- (timeline_run _ _ _ _ used' t f) by lia.
    f_equal. apply list_eq. intros i. rewrite !list_lookup_fmap.
    destruct (seqZ t (f - t) !! i) as [k|] eqn:E; [|done].
    apply lookup_seqZ in E as [-> Hi]. cbn. f_equal. apply Hrep. lia. }
  exists m', used'. rewrite Hres.
  split; [by rewrite (Hrun c) by lia|].
  split; [|split; [by rewrite Hrt'|]].
  2:{ destruct Hs' as (-> & _). by destruct Hs1 as (-> & _). }
  assert (Hsm : sameInputs m m') by by apply (sameInputs_trans m m1 m').
  destruct Hsm as (Hl' & Hr' & Hc' & _).
  split; [by rewrite Hc'|]. split; [by rewrite Hl'|].
  split; [by rewrite Hr'|]. split; [done|].
  split; [|split; [|split; [|split; [|split; [done|]]]]].
  - split; [done|]. intros f Hf Hr.
    destruct (decide (f < t)) as [Hlt|Hge].
    + rewrite Hold by lia. rewrite Hst1, Hsnap by lia.
      by rewrite Hbelow by lia.
    + replace f with (t + (f - t)) at 1 by lia.
      rewrite Hld by lia. by rewrite Hrun by lia.
  - intros f Hf. destruct (decide (f < t)) as [Hlt|Hge].
    + rewrite Hpo, Hp1 by lia. unfold used'. rewrite decide_True by done.
      destruct (H5 f Hf) as [?|[?|[_ (t0 & Ht0' & Hle)]]];
        [by left|by right; left|].
      rewrite Ht in Ht0'. injection Ht0' as <-. lia.
    + rewrite Hpr by lia. destruct Hs1 as (_ & -> & _).
      unfold used', rem. rewrite decide_False by done.
      destruct (InputHistory.get (Mgr.remoteInputs m) f) as [r|] eqn:Eg.
      * left. split; [apply H6; [lia|lia|by rewrite Eg]|].
        apply Htrue; [lia|done].
      * right. left. split; [|done]. intros Hd.
        apply H6 in Hd; [|lia|lia]. rewrite Eg in Hd. by destruct Hd.
  - intros f Hf Hr. rewrite Hr'. by apply H6.
  - intros f Hf. rewrite Hr'. by apply H7.
  - intros t'. by rewrite Hrt', Ht1.
Qed.

Lemma cleanupPredictions_lookup m f :
  Mgr.predictedRemote (cleanupPredictions ROLLBACK_MAX_FRAMES m) !! f
  = if decide (f < Mgr.currentFrame m - ROLLBACK_MAX_FRAMES - 1) then None
    else Mgr.predictedRemote m !! f.
Proof.
  unfold cleanupPredictions. cbn [Mgr.predictedRemote Mgr.set_predictedRemote].
  destruct (decide _) as [Hlt|Hge].
  - apply map_lookup_filter_None. right. intros v _. cbn. lia.
  - destruct (Mgr.predictedRemote m !! f) as [v|] eqn:E.
    + apply map_lookup_filter_Some. split; [done|]. cbn. lia.
    + apply map_lookup_filter_None. by left.
Qed.

(** Steps 4 to 6 of [tick]: predict, snapshot, simulate, advance, prune. *)
Lemma synced_advance c dlv used m g their m1 :
  c + 97 <= 2 ^ 31 ->
  synced' c dlv used m g ->
  Mgr.rollbackTarget m = None ->
  (forall f, 0 <= f -> c - 32 <= f <= c + delay ->
     InputHistory.get (Mgr.localInputs m) f = Some (L f)) ->
  (forall f, 0 <= f <= c - ROLLBACK_MAX_FRAMES -> dlv f) ->
  remoteOrPredicted m c = (their, m1) ->
  let m2 := Mgr.set_states (StateHistory.save (Mgr.states m1) c g) m1 in
  let g' := simulateFrame g (if isHost then L c else their)
                          (if isHost then their else L c) in
  let m4 :=
    cleanupPredictions ROLLBACK_MAX_FRAMES (Mgr.set_currentFrame (c + 1) m2) in
  exists used',
    synced' (c + 1) dlv used' m4 g' /\ Mgr.rollbackTarget m4 = None.
Proof.
  intros Hc Hs Ht Hloc' Htime Hrp m2 g' m4.
  pose proof Hs as (H0 & H1 & H2 & H3 & H4 & H5 & H6 & H7 & H8 & H9).
  destruct H0 as [Hcur Hc0]. destruct H1 as [Hwfl Hloc].
  destruct H2 as [Hwfr Htrue]. destruct H4 as [Hsz Hsnap].
  destruct (remoteOrPredicted_spec m c) as (Hth & Hsm & Hst & Hrt & _).
  destruct (remoteOrPredicted_record m c) as [Hrec Hrec'].
  rewrite Hrp in Hth, Hsm, Hst, Hrt, Hrec, Hrec'. cbn [fst snd] in *.
  destruct Hsm as (Hl1 & Hr1 & Hc1 & _).
  set (used' := fun f => if decide (f = c) then their else used f).
  assert (Hbelow : forall f, f <= c -> timeline' used' f = timeline' used f).
  { intros f Hf. apply timeline_ext. intros k Hk. unfold used'.
    by rewrite decide_False by lia. }
  assert (Hpair : pairWith' used' c
                  = (if isHost then L c else their,
                     if isHost then their else L c)).
  { unfold pairWith, used'. rewrite decide_True by done. by destruct isHost. }
  assert (Hg' : g' = timeline' used' (c + 1)).
  { rewrite timeline_succ by done. rewrite Hpair. cbn [fst snd].
    subst g'. by rewrite Hbelow, <- H3 by lia. }
  assert (Hl4 : Mgr.localInputs m4 = Mgr.localInputs m) by by rewrite <- Hl1.
  assert (Hr4 : Mgr.remoteInputs m4 = Mgr.remoteInputs m) by by rewrite <- Hr1.
  assert (Hs4 : Mgr.states m4 = StateHistory.save (Mgr.states m) c g)
    by by rewrite <- Hst.
  assert (Ht4 : Mgr.rollbackTarget m4 = None) by by rewrite <- Ht, <- Hrt.
  assert (Hp4 : forall f,
            Mgr.predictedRemote m4 !! f
            = if decide (f < c - ROLLBACK_MAX_FRAMES) then None
              else Mgr.predictedRemote m1 !! f).
  { intros f. subst m4. rewrite cleanupPredictions_lookup.
    cbn [Mgr.currentFrame Mgr.set_currentFrame].
    destruct (decide (f < c + 1 - ROLLBACK_MAX_FRAMES - 1));
      [by rewrite decide_True by lia|by rewrite decide_False by lia]. }
  assert (Hc4 : Mgr.currentFrame m4 = c + 1) by done.
  clearbody m4 m2.
  exists used'. split; [|done].
  split; [split; [done|lia]|].
  split.
  { rewrite Hl4. split; [done|]. intros f Hf Hr. apply Hloc'; lia. }
  split; [by rewrite Hr4|]. split; [done|].
  split; [|split; [|split; [|split; [|split]]]].
  - rewrite Hs4. split; [by apply stateHistorySized_save|].
    intros f Hf Hr. destruct (decide (f = c)) as [->|Hne].
    + rewrite StateHistory_load_save_eq by (try done; lia).
      by rewrite Hbelow, <- H3 by lia.
    + rewrite StateHistory_load_save_ne;
        [|done|done|apply rem_slot_ne; try done; unfold StateHistory.size; lia].
      rewrite Hsnap by lia. by rewrite Hbelow by lia.
  - intros f Hf. rewrite Hp4. unfold used'.
    destruct (decide (f = c)) as [->|Hne].
    + rewrite decide_False by lia. rewrite Hrec, Hth.
      destruct (InputHistory.get (Mgr.remoteInputs m) c) as [r|] eqn:Eg.
      * left. split; [apply H6; [lia|lia|by rewrite Eg]|].
        apply Htrue; [lia|done].
      * right. left. split; [|done]. intros Hd.
        apply H6 in Hd; [|lia|lia]. rewrite Eg in Hd. by destruct Hd.
    + rewrite Hrec' by done.
      destruct (H5 f ltac:(lia)) as [?|[[Hnd Hpr]|[_ (t0 & Ht0 & _)]]];
        [by left| |congruence].
      right. left. split; [done|].
      rewrite decide_False; [done|]. intros Hlt. apply Hnd, Htime. lia.
  - intros f Hf Hr. rewrite Hr4.
    destruct (decide (f = c + 96)) as [->|Hne]; [|apply H6; lia].
    destruct (H7 (c + 96) ltac:(lia)) as [-> Hnd].
    split; [done|]. by intros [? ?].
  - intros f Hf. rewrite Hr4. apply H7. lia.
  - intros f Hf. apply Htime. lia.
  - intros t. by rewrite Ht4.
Qed.

Lemma synced_tick c dlv used m g :
  c + 97 <= 2 ^ 31 ->
  synced' c dlv used m g ->
  (forall f, 0 <= f <= c - ROLLBACK_MAX_FRAMES -> dlv f) ->
  let h1 := InputHistory.set (Mgr.localInputs m) (c + delay) (localRaw c) in
  exists m' g' used',
    tick ROLLBACK_INPUT_DELAY ROLLBACK_INPUT_REDUNDANCY ROLLBACK_MAX_FRAMES
         m g (localRaw c) isHost
    = (m',
       mkMsg (c + delay)
             (redundantFrom h1 (c + delay)
                            (Z.to_nat ROLLBACK_INPUT_REDUNDANCY)),
       Advanced g')
    /\ synced' (c + 1) dlv used' m' g'
    /\ Mgr.rollbackTarget m' = None
    /\ Mgr.localInputs m' = h1.
Proof.
  intros Hc Hs Htime h1.
  assert (Hcur : Mgr.currentFrame m = c /\ 0 <= c)
    by (by destruct Hs as (? & _)).
  destruct Hcur as [Hcur Hc0].
  destruct (synced_set_local c dlv used m g ltac:(lia) Hs) as [Hs1 Hget].
  unfold tick. rewrite Hcur. cbv zeta in Hs1, Hget.
  set (m1 := Mgr.set_localInputs _ m) in *.
  assert (Hc1 : Mgr.currentFrame m1 = c) by exact Hcur.
  assert (Hl1 : Mgr.localInputs m1 = h1) by done.
  rewrite Hc1, Hl1.
  set (msg := mkMsg _ _). clearbody msg.
  clearbody m1.
  rewrite <- Hl1. rewrite (Hget c) by lia.
  assert (Hroll : exists m2 g2 used2,
            match Mgr.rollbackTarget m1 with
            | Some _ => performRollback ROLLBACK_MAX_FRAMES m1 g isHost
            | None => (m1, Some g)
            end = (m2, Some g2)
            /\ synced' c dlv used2 m2 g2
            /\ Mgr.rollbackTarget m2 = None
            /\ Mgr.localInputs m2 = Mgr.localInputs m1).
  { destruct (Mgr.rollbackTarget m1) as [t|] eqn:Et.
    - destruct (synced_rollback c dlv used m1 g t ltac:(lia) Hs1 Et)
        as (m2 & used2 & Hres & Hs2 & Ht2 & Hl2).
      exists m2, (timeline' used2 c), used2.
      split; [done|]. split; [done|]. by split.
    - exists m1, g, used.
      split; [done|]. split; [done|]. by split. }
  destruct Hroll as (m2 & g2 & used2 & -> & Hs2 & Ht2 & Hl2).
  assert (Hc2 : Mgr.currentFrame m2 = c) by (by destruct Hs2 as ((? & _) & _)).
  rewrite Hc2.
  destruct (remoteOrPredicted m2 c) as [their m3] eqn:Hrp.
  destruct (remoteOrPredicted_spec m2 c) as (_ & (Hl3 & _ & Hc3 & _) & _).
  rewrite Hrp in Hc3, Hl3. cbn [snd] in Hc3, Hl3.
  cbn [Mgr.currentFrame Mgr.set_states]. rewrite !Hc3, !Hc2.
  destruct (synced_advance c dlv used2 m2 g2 their m3 Hc Hs2 Ht2)
    as (used3 & Hs3 & Ht3); [|done|done|].
  { intros f Hf Hr. rewrite Hl2. by apply Hget. }
  eexists _, _, used3. split; [reflexivity|]. split; [done|].
  split; [done|].
  unfold cleanupPredictions.
  cbn [Mgr.localInputs Mgr.set_predictedRemote Mgr.set_currentFrame
       Mgr.set_states].
  by rewrite Hl3, Hl2.
Qed.

Lemma seeded_get f :
  0 <= f ->
  InputHistory.get (seedEmpty ROLLBACK_INPUT_DELAY InputHistory.new) f
  = if decide (f < delay) then Some createEmptyInput else None.
Proof.
  intros Hf. unfold seedEmpty.
  assert (Hwk : forall l h0,
            inputHistoryWf h0 ->
            inputHistoryWf
              (foldl (fun h f => InputHistory.set h f createEmptyInput) h0 l)).
  { induction l as [|x l IHl]; intros h0 Hw0; [done|].
    cbn. apply IHl. by apply inputHistoryWf_set. }
  assert (Hgen : forall k : nat,
            Z.of_nat k <= 128 ->
            InputHistory.get
              (foldl (fun h f => InputHistory.set h f createEmptyInput)
                     InputHistory.new (seqZ 0 (Z.of_nat k))) f
            = if decide (f < Z.of_nat k) then Some createEmptyInput
              else None).
  { induction k as [|k IH]; intros Hk.
    - cbn. rewrite decide_False by lia. apply InputHistory_get_new.
    - replace (Z.of_nat (S k)) with (Z.of_nat k + 1) by lia.
      rewrite seqZ_app by lia. rewrite foldl_app.
      change (seqZ (0 + Z.of_nat k) 1) with [0 + Z.of_nat k].
      cbn [foldl].
      rewrite InputHistory_get_set;
        [|apply Hwk, inputHistoryWf_new|lia|done].
      destruct (decide (f = 0 + Z.of_nat k)) as [->|Hne];
        [by rewrite decide_True by lia|].
      destruct (decide (Z.rem f InputHistory.size
                        = Z.rem (0 + Z.of_nat k) InputHistory.size))
        as [He|He].
      + rewrite decide_False; [done|]. intros Hlt.
        revert He. apply slot_window; lia.
      + rewrite IH by lia.
        destruct (decide (f < Z.of_nat k));
          [by rewrite decide_True by lia|by rewrite decide_False by lia]. }
  specialize (Hgen (Z.to_nat delay)).
  rewrite Z2Nat.id in Hgen by lia. by rewrite Hgen by lia.
Qed.

Lemma reset_local_true g f v :
  0 <= f ->
  InputHistory.get (Mgr.localInputs (reset ROLLBACK_INPUT_DELAY g)) f = Some v ->
  v = L f.
Proof.
  intros Hf. unfold reset. cbn [Mgr.localInputs]. rewrite seeded_get by done.
  destruct (decide _); [|done]. intros [= <-].
  unfold delayed. by rewrite (proj2 (Z.ltb_lt _ _)) by lia.
Qed.

Lemma synced_reset used :
  synced' 0 (delivered ROLLBACK_INPUT_DELAY []) used
          (reset ROLLBACK_INPUT_DELAY init) init.
Proof.
  pose proof seeded_get as Hh.
  unfold reset. unfold seedEmpty in *.
  destruct (seed_prefix (Z.to_nat delay) InputHistory.new inputHistoryWf_new)
    as [Hwf Hsome]; [unfold InputHistory.size; lia|].
  cbv zeta in Hwf, Hsome. rewrite Z2Nat.id in Hwf, Hsome by lia.
  set (h := foldl _ InputHistory.new (seqZ 0 delay)) in *.
  clearbody h.
  split; [done|]. split.
  { cbn [Mgr.localInputs]. split; [done|]. intros f Hf Hr.
    rewrite Hh by done. rewrite decide_True by lia.
    unfold delayed. by rewrite (proj2 (Z.ltb_lt _ _)) by lia. }
  split.
  { cbn [Mgr.remoteInputs]. split; [done|]. intros f v Hf. rewrite Hh by done.
    destruct (decide _); [|done]. intros [= <-].
    unfold delayed. by rewrite (proj2 (Z.ltb_lt _ _)) by lia. }
  split; [done|].
  split.
  { cbn [Mgr.states]. split; [apply stateHistorySized_save,
                               stateHistorySized_new|].
    intros; lia. }
  split; [intros; lia|].
  split.
  { cbn [Mgr.remoteInputs]. intros f Hf Hr. rewrite Hh by done.
    unfold delivered. destruct (decide (f < delay)).
    - split; [by eexists|by left].
    - split; [intros [?|Hin]; [lia|by apply elem_of_nil in Hin]
             |by intros [? ?]]. }
  split.
  { cbn [Mgr.remoteInputs]. intros f Hf. rewrite Hh by lia.
    rewrite decide_False by lia. split; [done|].
    unfold delivered. intros [?|Hin]; [lia|by apply elem_of_nil in Hin]. }
  split; [intros; lia|]. cbn [Mgr.rollbackTarget]. done.
Qed.

End SyncedTick.

(** ** A match played online *)

Section Converges.

Variable ROLLBACK_INPUT_DELAY : Z.
Variable ROLLBACK_INPUT_REDUNDANCY : Z.
Variable ROLLBACK_MAX_FRAMES : Z.

Hypothesis delay_range : 0 <= ROLLBACK_INPUT_DELAY <= 95.
Hypothesis max_range : 0 <= ROLLBACK_MAX_FRAMES <= 32.

Local Abbreviation delay := ROLLBACK_INPUT_DELAY.
Local Abbreviation play' :=
  (play ROLLBACK_INPUT_DELAY ROLLBACK_INPUT_REDUNDANCY ROLLBACK_MAX_FRAMES).
Local Abbreviation sent' :=
  (sent ROLLBACK_INPUT_DELAY ROLLBACK_INPUT_REDUNDANCY ROLLBACK_MAX_FRAMES).

Lemma frames_cons e events :
  frames (e :: events)
  = (match e with Frame _ => 1 | Message _ => 0 end) + frames events.
Proof. unfold frames. destruct e; cbn [List.filter length]; lia. Qed.

Lemma frames_nonneg events : 0 <= frames events.
Proof. unfold frames. lia. Qed.

Lemma play_cons isHost d e events d' :
  onEvent ROLLBACK_INPUT_DELAY ROLLBACK_INPUT_REDUNDANCY ROLLBACK_MAX_FRAMES
          isHost d e = Some d' ->
  play' isHost d (e :: events) = play' isHost d' events.
Proof. intros He. unfold play. cbn [foldl mbind option_bind]. by rewrite He. Qed.

Lemma receiveInputs_local m msg :
  Mgr.localInputs (receiveInputs m msg) = Mgr.localInputs m.
Proof.
  rewrite receiveInputs_pairs. generalize (msgPairs msg). intros l.
  revert m. induction l as [|p l IHl]; intros m; [done|].
  unfold receivePairs. cbn [foldl].
  change (foldl _ ?x l) with (receivePairs x l). rewrite IHl.
  by destruct (receivePair_frame m p.1 p.2) as (-> & _).
Qed.

Lemma redundantFrom_pairs h (P : Z -> Input.t -> Prop) (n : nat) : forall f,
  (forall f v, InputHistory.get h f = Some v -> P f v) ->
  Forall (fun p : Z * Input.t => P p.1 p.2) (pairsFrom f (redundantFrom h f n)).
Proof.
  induction n as [|n IH]; intros f Hp; [by constructor|].
  cbn [redundantFrom].
  destruct (InputHistory.get h f) as [v|] eqn:E; [|by constructor].
  cbn [pairsFrom]. constructor; [by apply Hp|by apply IH].
Qed.

Lemma redundantFrom_length h (n : nat) : forall f,
  (length (redundantFrom h f n) <= n)%nat.
Proof.
  induction n as [|n IH]; intros f; [done|].
  cbn [redundantFrom]. destruct (InputHistory.get h f); cbn [length]; [|lia].
  specialize (IH (f - 1)). lia.
Qed.

Lemma play_synced isHost localRaw remoteRaw init events :
  forall c seen used m g,
    synced delay ROLLBACK_MAX_FRAMES isHost localRaw remoteRaw init
           c (delivered delay seen) used m g ->
    (forall f v, 0 <= f -> InputHistory.get (Mgr.localInputs m) f = Some v ->
                 v = delayed delay localRaw f) ->
    c + frames events + 96 <= 2 ^ 31 ->
    inTime delay ROLLBACK_MAX_FRAMES localRaw remoteRaw c seen events ->
    exists d used',
      play' isHost (Online.mk m g) events = Some d
      /\ synced delay ROLLBACK_MAX_FRAMES isHost localRaw remoteRaw init
                (c + frames events)
                (delivered delay (seenIn events ++ seen)) used'
                (Online.rollbackManager d) (Online.gameState d)
      /\ (forall x rest, events = rest ++ [Frame x] ->
            Mgr.rollbackTarget (Online.rollbackManager d) = None)
      /\ Z.of_nat (length (sent' isHost (Online.mk m g) events))
         = frames events
      /\ (forall (k : nat) msg,
            sent' isHost (Online.mk m g) events !! k = Some msg ->
            goodMessage delay ROLLBACK_INPUT_REDUNDANCY localRaw (c + Z.of_nat k) msg).
Proof.
  induction events as [|e events IH]; intros c seen used m g Hs Hlt Hc Ht.
  - exists (Online.mk m g), used. split; [done|].
    rewrite Z.add_0_r. split; [done|].
    split; [intros x rest Hnil; by destruct rest|]. by split.
  - rewrite frames_cons in *. pose proof (frames_nonneg events) as Hn.
    destruct e as [x|msg]; cbn [inTime] in Ht.
    + destruct Ht as (-> & Htime & Ht).
      destruct (synced_tick delay ROLLBACK_INPUT_REDUNDANCY
                  ROLLBACK_MAX_FRAMES isHost localRaw remoteRaw init
                  delay_range max_range c _ used m g ltac:(lia) Hs Htime)
        as (m' & g' & used' & Htick & Hs' & Htg & Hl').
      set (h1 := InputHistory.set (Mgr.localInputs m) (c + delay) (localRaw c))
        in *.
      assert (Hwf : inputHistoryWf (Mgr.localInputs m))
        by (by destruct Hs as (_ & (? & _) & _)).
      assert (Hc0 : 0 <= c) by (by destruct Hs as ((_ & ?) & _)).
      assert (Hlt1 : forall f v, 0 <= f -> InputHistory.get h1 f = Some v ->
                v = delayed delay localRaw f).
      { intros f v Hf. subst h1. rewrite InputHistory_get_set by (try done; lia).
        destruct (decide (f = c + delay)) as [->|Hne].
        - intros [= <-]. unfold delayed.
          rewrite (proj2 (Z.ltb_ge _ _)) by lia. f_equal. lia.
        - destruct (decide _); [done|]. by apply Hlt. }
      destruct (IH (c + 1) seen used' m' g' Hs' ltac:(by rewrite Hl')
                   ltac:(lia) Ht)
        as (d & used'' & Hplay & Hsd & Hlast & Hlen & Hmsg).
      assert (Hsent : sent' isHost (Online.mk m g) (Frame (localRaw c) :: events)
                = mkMsg (c + delay)
                        (redundantFrom h1 (c + delay)
                           (Z.to_nat ROLLBACK_INPUT_REDUNDANCY))
                  :: sent' isHost (Online.mk m' g') events).
      { cbn [sent]. unfold tickOnline.
        cbn [Online.rollbackManager Online.gameState]. by rewrite Htick. }
      exists d, used''.
      split.
      { rewrite (play_cons isHost _ _ _ (Online.mk m' g')); [done|].
        unfold onEvent, tickOnline.
        cbn [Online.rollbackManager Online.gameState]. by rewrite Htick. }
      split.
      { cbn [seenIn]. by replace (c + (1 + frames events))
          with (c + 1 + frames events) by lia. }
      split.
      { intros x rest Heq.
        destruct events as [|e' events'].
        * injection Hplay as <-. exact Htg.
        * destruct rest as [|r rest']; [done|].
          injection Heq as _ Heq. by apply (Hlast x rest'). }
      rewrite Hsent. split; [cbn [length]; lia|].
      intros [|k] msg0; cbn [lookup list_lookup].
      * intros [= <-]. rewrite Z.add_0_r. unfold goodMessage.
        cbn [startFrame inputs]. split; [done|].
        split; [|split].
        -- intros Hr.
           destruct (Z.to_nat ROLLBACK_INPUT_REDUNDANCY) as [|n] eqn:En; [lia|].
           cbn [redundantFrom]. subst h1.
           by rewrite InputHistory_get_set_eq by (try done; lia).
        -- pose proof (redundantFrom_length h1
                         (Z.to_nat ROLLBACK_INPUT_REDUNDANCY) (c + delay)).
           lia.
        -- unfold msgPairs. cbn [startFrame inputs].
           apply (redundantFrom_pairs h1
                    (fun f v => 0 <= f -> v = delayed delay localRaw f)).
           intros f v Hg Hf. by apply Hlt1.
      * intros Hk. replace (c + Z.of_nat (S k)) with (c + 1 + Z.of_nat k) by lia.
        by apply Hmsg.
    + destruct Ht as (Hmsg & Ht).
      assert (Hs' : synced delay ROLLBACK_MAX_FRAMES isHost localRaw
                           remoteRaw init c
                           (delivered delay ((msgPairs msg).*1 ++ seen)) used
                           (receiveInputs m msg) g)
        by (apply synced_receiveInputs; try done; lia).
      pose proof (receiveInputs_local m msg) as Hl'.
      destruct (IH c ((msgPairs msg).*1 ++ seen) used (receiveInputs m msg) g
                  Hs' ltac:(by rewrite Hl') ltac:(lia) Ht)
        as (d & used'' & Hplay & Hsd & Hlast & Hlen & Hgood).
      exists d, used''.
      split; [by rewrite (play_cons isHost _ _ _ (Online.mk (receiveInputs m msg) g))|].
      split.
      { rewrite Z.add_0_l. cbn [seenIn].
        eapply synced_ext; [|exact Hsd].
        intros k _. unfold delivered. rewrite !elem_of_app. tauto. }
      split.
      { intros x rest Heq.
        destruct rest as [|r rest']; [done|].
        injection Heq as _ Heq.
        destruct events as [|e' events']; [by destruct rest'|].
        by apply (Hlast x rest'). }
      cbn [sent]. unfold handleRemoteMessage.
      cbn [Online.rollbackManager Online.gameState].
      split; [lia|done].
Qed.

Lemma play_converges isHost localRaw remoteRaw p1Weapons p2Weapons events :
  frames events + 96 <= 2 ^ 31 ->
  inTime delay ROLLBACK_MAX_FRAMES localRaw remoteRaw 0 [] events ->
  exists d,
    play' isHost (startCombat delay p1Weapons p2Weapons) events = Some d
    /\ Mgr.currentFrame (Online.rollbackManager d) = frames events
    /\ (forall x rest, events = rest ++ [Frame x] ->
          Mgr.rollbackTarget (Online.rollbackManager d) = None)
    /\ (Mgr.rollbackTarget (Online.rollbackManager d) = None ->
        (forall f, 0 <= f < frames events ->
                   delivered delay (seenIn events) f) ->
        Online.gameState d
        = timeline delay isHost localRaw
                   (createGameState p1Weapons p2Weapons)
                   (delayed delay remoteRaw) (frames events))
    /\ Z.of_nat (length (sent' isHost (startCombat delay p1Weapons p2Weapons)
                               events))
       = frames events
    /\ (forall (k : nat) msg,
          sent' isHost (startCombat delay p1Weapons p2Weapons) events !! k
          = Some msg ->
          goodMessage delay ROLLBACK_INPUT_REDUNDANCY localRaw (Z.of_nat k) msg).
Proof.
  intros Hn Ht.
  destruct (play_synced isHost localRaw remoteRaw
              (createGameState p1Weapons p2Weapons) events 0 []
              (fun _ => createEmptyInput)
              (reset delay (createGameState p1Weapons p2Weapons))
              (createGameState p1Weapons p2Weapons))
    as (d & used & Hplay & Hs & Hlast & Hlen & Hgood);
    [by apply synced_reset|by apply reset_local_true|lia|done|].
  exists d. split; [exact Hplay|].
  rewrite Z.add_0_l, app_nil_r in Hs.
  destruct Hs as ((Hcur & _) & _ & _ & Hg & _ & H5 & _).
  split; [done|]. split; [done|].
  split; [|split; [done|]].
  - intros Htg Hd. rewrite Hg. apply timeline_ext. intros k Hk.
    destruct (H5 k Hk) as [[_ ?]|[[Hnd _]|[_ (t & Ht' & _)]]];
      [done| |congruence].
    destruct Hnd. by apply Hd.
  - intros k msg Hk. specialize (Hgood k msg Hk).
    by rewrite Z.add_0_l in Hgood.
Qed.

(** X18.  Online play reaches the state of the local game.  A match is
    started online and the page runs frames of the game loop and handles
    input messages, in any interleaving.  Suppose each message carries the
    peer's true inputs and names no frame more than 32 behind or 95 ahead
    of the current one, the peer's input for frame [f] always arrives
    before frame [f + ROLLBACK_MAX_FRAMES] is simulated, the input delay
    is at most 95, [ROLLBACK_MAX_FRAMES] at most 32, and fewer than
    2^31 - 96 frames are played.  Then no tick fails or stalls, the
    current frame is the number of frames played, no rollback is pending
    after a frame, and whenever no rollback is pending and the remote
    inputs of all frames played have arrived, [gameState] is exactly the
    state obtained by running [simulateFrame] from the initial state with
    both players' true (delayed) inputs, the host as Player 1: every
    misprediction has been rolled back and corrected. *)
Theorem online_play_converges (isHost : bool) (localRaw remoteRaw : Z -> Input.t)
    (p1Weapons p2Weapons : list Weapon.id) (events : list Event) :
  frames events + 96 <= 2 ^ 31 ->
  inTime delay ROLLBACK_MAX_FRAMES localRaw remoteRaw 0 [] events ->
  exists d,
    play' isHost (startCombat delay p1Weapons p2Weapons) events = Some d
    /\ Mgr.currentFrame (Online.rollbackManager d) = frames events
    /\ (forall x rest, events = rest ++ [Frame x] ->
          Mgr.rollbackTarget (Online.rollbackManager d) = None)
    /\ (Mgr.rollbackTarget (Online.rollbackManager d) = None ->
        (forall f, 0 <= f < frames events ->
                   delivered delay (seenIn events) f) ->
        Online.gameState d
        = timeline delay isHost localRaw
                   (createGameState p1Weapons p2Weapons)
                   (delayed delay remoteRaw) (frames events)).
Proof.
  intros Hn Ht.
  destruct (play_converges isHost localRaw remoteRaw p1Weapons p2Weapons
              events Hn Ht) as (d & H1 & H2 & H3 & H4 & _).
  by exists d.
Qed.

Lemma timeline_swap (a b : Z -> Input.t) init f :
  timeline delay true a init (delayed delay b) f
  = timeline delay false b init (delayed delay a) f.
Proof. done. Qed.

(** X19.  The two peers agree.  The host picks the weapons [weaponsH] and
    plays with raw inputs [a], the guest picks [weaponsG] and plays with raw
    inputs [b]; each page assigns the two selections with
    [checkWeaponsReady] and runs its own interleaving of frames and
    messages under the conditions of X18.  Neither run fails, a run that
    ends with a frame has no rollback pending, and when both have played
    the same number of frames, have no rollback pending and have received
    the other's inputs for all those frames, their game states are equal. *)
Theorem peers_agree (a b : Z -> Input.t)
    (weaponsH weaponsG : list Weapon.id) (eventsH eventsG : list Event) :
  frames eventsH + 96 <= 2 ^ 31 ->
  frames eventsG = frames eventsH ->
  inTime delay ROLLBACK_MAX_FRAMES a b 0 [] eventsH ->
  inTime delay ROLLBACK_MAX_FRAMES b a 0 [] eventsG ->
  let startH := checkWeaponsReady true weaponsH weaponsG in
  let startG := checkWeaponsReady false weaponsG weaponsH in
  exists dH dG,
    play' true (startCombat delay startH.1 startH.2) eventsH = Some dH
    /\ play' false (startCombat delay startG.1 startG.2) eventsG = Some dG
    /\ (forall x rest, eventsH = rest ++ [Frame x] ->
          Mgr.rollbackTarget (Online.rollbackManager dH) = None)
    /\ (forall x rest, eventsG = rest ++ [Frame x] ->
          Mgr.rollbackTarget (Online.rollbackManager dG) = None)
    /\ (Mgr.rollbackTarget (Online.rollbackManager dH) = None ->
        Mgr.rollbackTarget (Online.rollbackManager dG) = None ->
        (forall f, 0 <= f < frames eventsH ->
                   delivered delay (seenIn eventsH) f
                   /\ delivered delay (seenIn eventsG) f) ->
        Online.gameState dH = Online.gameState dG).
Proof.
  intros Hn Heq HtH HtG startH startG. subst startH startG.
  cbn [checkWeaponsReady fst snd].
  destruct (play_converges true a b weaponsH weaponsG eventsH Hn HtH)
    as (dH & HpH & _ & HlH & HcH & _).
  destruct (play_converges false b a weaponsH weaponsG eventsG
              ltac:(lia) HtG) as (dG & HpG & _ & HlG & HcG & _).
  exists dH, dG. split; [done|]. split; [done|].
  split; [done|]. split; [done|].
  intros HrH HrG Hd.
  rewrite HcH; [|done|intros f Hf; by apply Hd].
  rewrite HcG; [|done|intros f Hf; apply Hd; lia].
  rewrite Heq. apply timeline_swap.
Qed.

(** X20.  What a tick sends is what the peer expects.  Under the
    conditions of X18, one message is handed to the network manager per
    frame played; the message of tick [k] has [startFrame]
    [k + ROLLBACK_INPUT_DELAY], leads (when the redundancy is positive)
    with the raw input read at that tick, holds at most
    [ROLLBACK_INPUT_REDUNDANCY] inputs, and pairs every frame from 0 on
    with this player's true input for that frame, which is what X18
    asks of the contents of the messages the other peer receives. *)
Theorem tick_sends_true_inputs (isHost : bool)
    (localRaw remoteRaw : Z -> Input.t)
    (p1Weapons p2Weapons : list Weapon.id) (events : list Event) :
  frames events + 96 <= 2 ^ 31 ->
  inTime delay ROLLBACK_MAX_FRAMES localRaw remoteRaw 0 [] events ->
  let msgs := sent' isHost (startCombat delay p1Weapons p2Weapons) events in
  Z.of_nat (length msgs) = frames events
  /\ forall (k : nat) (msg : InputMsg),
       msgs !! k = Some msg ->
       goodMessage delay ROLLBACK_INPUT_REDUNDANCY localRaw (Z.of_nat k) msg.
Proof.
  intros Hn Ht.
  destruct (play_converges isHost localRaw remoteRaw p1Weapons p2Weapons
              events Hn Ht) as (d & _ & _ & _ & _ & Hlen & Hgood).
  by split.
Qed.

End Converges.

Lemma hostEvents_inTime :
  inTime 2 8 (fun _ => walkRight) (fun _ => walkLeft) 0 [] hostEvents.
Proof.
  unfold hostEvents. cbn [inTime].
  repeat split; try (intros; lia).
  repeat constructor; cbn; intros; lia.
Qed.

Lemma guestEvents_inTime :
  inTime 2 8 (fun _ => walkLeft) (fun _ => walkRight) 0 [] guestEvents.
Proof.
  unfold guestEvents. cbn [inTime].
  repeat split; try (intros; lia).
  repeat constructor; cbn; intros; lia.
Qed.

Lemma demo_delivered l f :
  3 ∈ l -> 2 ∈ l -> 0 <= f < 4 -> delivered 2 l f.
Proof.
  intros H3 H2 Hf. unfold delivered.
  assert (Hc : f < 2 \/ f = 2 \/ f = 3) by lia.
  destruct Hc as [?|[->| ->]]; [by left|by right|by right].
Qed.

(** The host's match: frame 2 was simulated on a prediction, the peer's
    message corrects it, and after the fourth frame the state is that of
    the local game with the true inputs. *)
Lemma online_play_converges_witness :
  exists d,
    play 2 3 8 true (startCombat 2 loadoutA loadoutA) hostEvents = Some d
    /\ Online.gameState d
       = timeline 2 true (fun _ => walkRight)
                  (createGameState loadoutA loadoutA)
                  (delayed 2 (fun _ => walkLeft)) 4.
Proof.
  destruct (online_play_converges 2 3 8 ltac:(lia) ltac:(lia) true
              (fun _ => walkRight) (fun _ => walkLeft) loadoutA loadoutA
              hostEvents ltac:(vm_compute; discriminate) hostEvents_inTime)
    as (d & Hp & _ & Hl & Hc).
  exists d. split; [exact Hp|]. apply Hc.
  - by apply (Hl walkRight
                 [Frame walkRight; Frame walkRight; Frame walkRight;
                  Message (mkMsg 3 [walkLeft; walkLeft])]).
  - intros f Hf. apply demo_delivered; [| |exact Hf];
      cbn; rewrite !elem_of_cons; tauto.
Defined.

Lemma peers_agree_witness :
  exists dH dG,
    play 2 3 8 true (startCombat 2 loadoutA loadoutK) hostEvents = Some dH
    /\ play 2 3 8 false (startCombat 2 loadoutA loadoutK) guestEvents
       = Some dG
    /\ Online.gameState dH = Online.gameState dG.
Proof.
  destruct (peers_agree 2 3 8 ltac:(lia) ltac:(lia)
              (fun _ => walkRight) (fun _ => walkLeft) loadoutA loadoutK
              hostEvents guestEvents ltac:(vm_compute; discriminate)
              eq_refl hostEvents_inTime guestEvents_inTime)
    as (dH & dG & HpH & HpG & HlH & HlG & Heq).
  exists dH, dG. split; [exact HpH|]. split; [exact HpG|]. apply Heq.
  - by apply (HlH walkRight
                 [Frame walkRight; Frame walkRight; Frame walkRight;
                  Message (mkMsg 3 [walkLeft; walkLeft])]).
  - by apply (HlG walkLeft
                 [Frame walkLeft; Frame walkLeft; Frame walkLeft;
                  Message (mkMsg 3 [walkRight; walkRight])]).
  - intros f Hf. split; apply demo_delivered; try exact Hf;
      cbn; rewrite !elem_of_cons; tauto.
Defined.

Lemma tick_sends_true_inputs_witness :
  exists msg : InputMsg,
    sent 2 3 8 true (startCombat 2 loadoutA loadoutA) hostEvents !! 3%nat
    = Some msg
    /\ goodMessage 2 3 (fun _ => walkRight) (Z.of_nat 3) msg.
Proof.
  destruct (tick_sends_true_inputs 2 3 8 ltac:(lia) ltac:(lia) true
              (fun _ => walkRight) (fun _ => walkLeft) loadoutA loadoutA
              hostEvents ltac:(vm_compute; discriminate)
              hostEvents_inTime) as [_ Hgood].
  eexists. split; [vm_compute; reflexivity|].
  apply (Hgood 3%nat). vm_compute. reflexivity.
Defined.

(** * The prediction records stay in the rollback window *)

Lemma receivePair_predicted m frame input :
  Mgr.predictedRemote (receivePair m frame input) = Mgr.predictedRemote m.
Proof. unfold receivePair. by repeat case_match. Qed.

Lemma receiveInputs_predicted m msg :
  Mgr.predictedRemote (receiveInputs m msg) = Mgr.predictedRemote m
  /\ Mgr.currentFrame (receiveInputs m msg) = Mgr.currentFrame m.
Proof.
  rewrite receiveInputs_pairs. generalize (msgPairs msg). intros l.
  revert m. induction l as [|p l IHl]; intros m; [done|].
  unfold receivePairs. cbn [foldl].
  change (foldl _ ?x l) with (receivePairs x l).
  destruct (IHl (receivePair m p.1 p.2)) as [-> ->].
  rewrite receivePair_predicted.
  by destruct (receivePair_frame m p.1 p.2) as (_ & _ & ->).
Qed.

Lemma resimulate_keys isHost (n : nat) : forall m state f,
  Mgr.currentFrame (resimulate m state f n isHost).1 = Mgr.currentFrame m
  /\ forall k,
       is_Some (Mgr.predictedRemote (resimulate m state f n isHost).1 !! k) ->
       is_Some (Mgr.predictedRemote m !! k) \/ f <= k < f + Z.of_nat n.
Proof.
  induction n as [|n IH]; intros m state f; [split; [done|by left]|].
  cbn [resimulate].
  destruct (remoteOrPredicted_spec m f) as (_ & (_ & _ & Hc & _) & _).
  destruct (remoteOrPredicted_record m f) as [_ Hrec].
  destruct (remoteOrPredicted m f) as [their m1]. cbn [fst snd] in *.
  set (m2 := Mgr.set_states _ m1).
  assert (Hp2 : Mgr.predictedRemote m2 = Mgr.predictedRemote m1) by done.
  assert (Hc2 : Mgr.currentFrame m2 = Mgr.currentFrame m) by exact Hc.
  assert (Hk2 : forall k, is_Some (Mgr.predictedRemote m2 !! k) ->
                  is_Some (Mgr.predictedRemote m !! k) \/ k = f).
  { intros k Hk. destruct (decide (k = f)); [by right|left].
    by rewrite Hp2, Hrec in Hk. }
  clearbody m2.
  destruct (simulateFrameNullable _ _ _) as [state1|].
  - destruct (IH m2 state1 (f + 1)) as [Hc' Hk'].
    split; [by rewrite Hc'|]. intros k Hk.
    destruct (Hk' k Hk) as [H2|?]; [|right; lia].
    destruct (Hk2 k H2) as [?| ->]; [by left|right; lia].
  - cbn [fst]. split; [done|]. intros k Hk.
    destruct (Hk2 k Hk) as [?| ->]; [by left|right; lia].
Qed.

Section PredictionWindow.

Variable ROLLBACK_INPUT_DELAY : Z.
Variable ROLLBACK_INPUT_REDUNDANCY : Z.
Variable ROLLBACK_MAX_FRAMES : Z.

Lemma performRollback_keys m g isHost :
  let r := performRollback ROLLBACK_MAX_FRAMES m g isHost in
  Mgr.currentFrame r.1 = Mgr.currentFrame m
  /\ forall k,
       is_Some (Mgr.predictedRemote r.1 !! k) ->
       is_Some (Mgr.predictedRemote m !! k)
       \/ Mgr.currentFrame m - ROLLBACK_MAX_FRAMES <= k < Mgr.currentFrame m.
Proof.
  unfold performRollback.
  destruct (Mgr.rollbackTarget m) as [t|]; [|split; [done|by left]].
  cbn [Mgr.currentFrame Mgr.set_rollbackTarget Mgr.states].
  destruct (StateHistory.load _ _) as [restored|]; [|split; [done|by left]].
  set (m1 := Mgr.set_stats _ _ _).
  set (start := if _ >? _ then _ else t).
  assert (Hstart : Mgr.currentFrame m - ROLLBACK_MAX_FRAMES <= start).
  { subst start. destruct (_ >? _) eqn:E; [lia|].
    rewrite Z.gtb_ltb in E. apply Z.ltb_ge in E. lia. }
  assert (Hc1 : Mgr.currentFrame m1 = Mgr.currentFrame m) by done.
  assert (Hp1 : Mgr.predictedRemote m1 = Mgr.predictedRemote m) by done.
  rewrite Hc1. clearbody m1 start.
  destruct (resimulate_keys isHost (Z.to_nat (Mgr.currentFrame m - start))
              m1 restored start) as [Hc' Hk'].
  cbv zeta. split; [by rewrite Hc'|]. intros k Hk.
  destruct (Hk' k Hk) as [?|?]; [left; by rewrite <- Hp1|right; lia].
Qed.

Lemma tick_keys m g input isHost :
  (forall k, is_Some (Mgr.predictedRemote m !! k) ->
             Mgr.currentFrame m - ROLLBACK_MAX_FRAMES - 1 <= k
             < Mgr.currentFrame m) ->
  let m' := (tick ROLLBACK_INPUT_DELAY ROLLBACK_INPUT_REDUNDANCY
                  ROLLBACK_MAX_FRAMES m g input isHost).1.1 in
  forall k, is_Some (Mgr.predictedRemote m' !! k) ->
            Mgr.currentFrame m' - ROLLBACK_MAX_FRAMES - 1 <= k
            < Mgr.currentFrame m'.
Proof.
  intros Hm. unfold tick.
  set (m1 := Mgr.set_localInputs _ m).
  assert (Hc1 : Mgr.currentFrame m1 = Mgr.currentFrame m) by done.
  assert (Hp1 : Mgr.predictedRemote m1 = Mgr.predictedRemote m) by done.
  assert (Hm1 : forall k, is_Some (Mgr.predictedRemote m1 !! k) ->
                  Mgr.currentFrame m1 - ROLLBACK_MAX_FRAMES - 1 <= k
                  < Mgr.currentFrame m1)
    by (intros k; rewrite Hp1, Hc1; apply Hm).
  clearbody m1. clear Hm Hc1 Hp1.
  cbv zeta.
  destruct (InputHistory.get (Mgr.localInputs m1) (Mgr.currentFrame m1))
    as [myInput|]; [|exact Hm1].
  assert (Hroll : exists m2 rolled,
            match Mgr.rollbackTarget m1 with
            | Some _ => performRollback ROLLBACK_MAX_FRAMES m1 g isHost
            | None => (m1, Some g)
            end = (m2, rolled)
            /\ Mgr.currentFrame m2 = Mgr.currentFrame m1
            /\ forall k, is_Some (Mgr.predictedRemote m2 !! k) ->
                 Mgr.currentFrame m1 - ROLLBACK_MAX_FRAMES - 1 <= k
                 < Mgr.currentFrame m1).
  { destruct (Mgr.rollbackTarget m1).
    - destruct (performRollback_keys m1 g isHost) as [Hc Hk].
      destruct (performRollback _ m1 g isHost) as [m2 rolled].
      exists m2, rolled. split; [done|]. split; [done|].
      intros k Hs. destruct (Hk k Hs) as [?|?]; [by apply Hm1|]. lia.
    - exists m1, (Some g). split; [done|]. split; [done|]. exact Hm1. }
  destruct Hroll as (m2 & rolled & -> & Hc2 & Hk2).
  destruct rolled as [g2|]; [|cbn [fst]; intros k; rewrite Hc2; apply Hk2].
  destruct (remoteOrPredicted_spec m2 (Mgr.currentFrame m2))
    as (_ & (_ & _ & Hc3 & _) & _).
  destruct (remoteOrPredicted_record m2 (Mgr.currentFrame m2)) as [_ Hrec].
  destruct (remoteOrPredicted m2 (Mgr.currentFrame m2)) as [their m3].
  cbn [fst snd] in *.
  intros k. rewrite cleanupPredictions_lookup.
  unfold cleanupPredictions.
  cbn [Mgr.currentFrame Mgr.set_currentFrame Mgr.set_states
       Mgr.set_predictedRemote Mgr.predictedRemote].
  rewrite Hc3, Hc2.
  destruct (decide _) as [Hlt|Hge]; [by intros [? ?]|].
  intros Hs. split; [lia|].
  destruct (decide (k = Mgr.currentFrame m2)) as [->|Hne]; [lia|].
  rewrite Hrec in Hs by done. specialize (Hk2 k Hs). lia.
Qed.

(** X21.  The table of prediction records never outgrows the rollback
    window.  Whatever ticks and messages a manager goes through after
    [reset], every frame with a record in [predictedRemote] lies among the
    last [ROLLBACK_MAX_FRAMES + 1] simulated frames. *)
Theorem predictions_stay_in_window (initialState : GS.t) (ops : list Op) :
  let m := runOps ROLLBACK_INPUT_DELAY ROLLBACK_INPUT_REDUNDANCY
                  ROLLBACK_MAX_FRAMES (reset ROLLBACK_INPUT_DELAY initialState)
                  ops in
  forall k : Z,
    is_Some (Mgr.predictedRemote m !! k) ->
    Mgr.currentFrame m - ROLLBACK_MAX_FRAMES - 1 <= k < Mgr.currentFrame m.
Proof.
  cbv zeta.
  assert (Hgen : forall ops m,
            (forall k, is_Some (Mgr.predictedRemote m !! k) ->
                       Mgr.currentFrame m - ROLLBACK_MAX_FRAMES - 1 <= k
                       < Mgr.currentFrame m) ->
            forall k,
              is_Some (Mgr.predictedRemote
                         (runOps ROLLBACK_INPUT_DELAY ROLLBACK_INPUT_REDUNDANCY
                                 ROLLBACK_MAX_FRAMES m ops) !! k) ->
              Mgr.currentFrame
                (runOps ROLLBACK_INPUT_DELAY ROLLBACK_INPUT_REDUNDANCY
                        ROLLBACK_MAX_FRAMES m ops)
              - ROLLBACK_MAX_FRAMES - 1 <= k
              < Mgr.currentFrame
                  (runOps ROLLBACK_INPUT_DELAY ROLLBACK_INPUT_REDUNDANCY
                          ROLLBACK_MAX_FRAMES m ops)).
  { clear ops. induction ops as [|op ops IH]; intros m Hm; [exact Hm|].
    rewrite runOps_cons. apply IH.
    destruct op as [g input isHost|msg]; cbn [applyOp].
    - by apply tick_keys.
    - destruct (receiveInputs_predicted m msg) as [-> ->]. exact Hm. }
  apply Hgen. intros k. unfold reset. cbn [Mgr.predictedRemote].
  rewrite lookup_empty. by intros [? ?].
Qed.

End PredictionWindow.

(** After three ticks without a message the only record is that of
    frame 2, the one frame that was not seeded. *)
Lemma predictions_stay_in_window_witness :
  let init := createGameState loadoutA loadoutA in
  let m := runOps 2 3 8 (reset 2 init)
             [OpTick init createEmptyInput true;
              OpTick init createEmptyInput true;
              OpTick init createEmptyInput true] in
  is_Some (Mgr.predictedRemote m !! 2)
  /\ Mgr.currentFrame m - 8 - 1 <= 2 < Mgr.currentFrame m.
Proof.
  intros init m.
  assert (Hs : is_Some (Mgr.predictedRemote m !! 2))
    by (eexists; vm_compute; reflexivity).
  split; [exact Hs|].
  exact (predictions_stay_in_window 2 3 8 init _ 2 Hs).
Defined.
